(** * A layer-4/7 load balancer in C: selection policies, connection pool,
      rate limiter, event loop and relay callbacks

    Shallow embedding of the C sources under [c-lbs-1/]:
    - [chapter-04-advanced-features/advanced_lb.c] and
      [chapter-06-connection-pooling/pooled_lb.c] (selection policies,
      keep-alive decision, relay callbacks),
    - [chapter-06-connection-pooling/conn_pool.c] (backend connection pool),
    - [chapter-07-rate-limiting/rate_limiter.c] (rate limiter),
    - [chapter-05-high-perf-io/event_loop_select.c] (portable event loop).

    Conventions.  A C [int] is a [Z] kept in range by [wrap_int] after every
    arithmetic operation, an [unsigned int] by [wrap_uint].  A pointer into
    the backend array is the index of the element; [NULL] is [None].  A C
    operation without a defined result (division by zero, an index outside
    the array) is a [Fault].  A C [double] is an IEEE-754 binary64 value,
    a [spec_float] with the Standard Library's specification of the
    arithmetic; clock readings and the results of [select], [read] and
    the liveness probe are inputs of the functions that make them. *)

From Stdlib Require Import ZArith Lia Bool String Ascii.
From Stdlib Require Import Floats.SpecFloat QArith Qround.
From stdpp Require Import base tactics list strings gmap.

Local Open Scope Z_scope.

(** ** Machine integers *)

Definition INT_MIN : Z := -2147483648.
Definition INT_MAX : Z := 2147483647.

(** Two's complement reduction of a value to 32 bits, signed. *)
Definition wrap_int (z : Z) : Z := (z + 2147483648) mod 4294967296 - 2147483648.

(** Two's complement reduction to 64 bits, signed: [long] and [time_t]. *)
Definition wrap_long (z : Z) : Z :=
  (z + 9223372036854775808) mod 18446744073709551616 - 9223372036854775808.

(** Reduction modulo [2^64], the arithmetic of [unsigned long]. *)
Definition wrap_ulong (z : Z) : Z := z mod 18446744073709551616.

(** Reduction modulo [2^32], the arithmetic of [unsigned int]. *)
Definition wrap_uint (z : Z) : Z := z mod 4294967296.

Definition in_int (z : Z) : Prop := INT_MIN <= z <= INT_MAX.

(** ** Outcomes of C code that may trap *)

Inductive fault : Type :=
  | DivisionByZero   (* [a % 0] or [a / 0] on integers *)
  | OutOfBounds      (* an array element outside the roster or a buffer *)
  | NullPointer      (* a field read through a [NULL] pointer *)
  | OutOfFuel.       (* the loop bound of the model was too small *)

Inductive result (A : Type) : Type :=
  | Ret (a : A)
  | Fault (f : fault).
Arguments Ret {A} a.
Arguments Fault {A} f.

Definition bind {A B} (r : result A) (k : A -> result B) : result B :=
  match r with
  | Ret a => k a
  | Fault f => Fault f
  end.

Notation "x <- r ;; k" := (bind r (fun x => k))
  (at level 100, r at next level, right associativity).

(** C's [%] on [int]: truncated remainder, undefined for a zero divisor. *)
Definition c_rem (a b : Z) : result Z :=
  if b =? 0 then Fault DivisionByZero else Ret (Z.rem a b).

(** C's [/] on [int]: truncated quotient, undefined for a zero divisor. *)
Definition c_div (a b : Z) : result Z :=
  if b =? 0 then Fault DivisionByZero else Ret (wrap_int (Z.quot a b)).

(** * Backend selection ([advanced_lb.c], [pooled_lb.c]) *)

Module LB.

Inductive Algorithm : Type :=
  | ALG_ROUND_ROBIN
  | ALG_WEIGHTED_ROUND_ROBIN
  | ALG_LEAST_CONNECTIONS
  | ALG_IP_HASH.

(** [struct Backend].  [is_healthy] is an [int] in C that only ever holds
    0 or 1 and is only tested for truth. *)
Record Backend : Type := mkBackend {
  host : string;
  port : string;
  weight : Z;
  current_weight : Z;
  is_healthy : bool;
  active_connections : Z;
  total_requests : Z;
  failed_requests : Z;
  bytes_in : Z;
  bytes_out : Z;
  last_health_check : Z;
}.

Definition set_current_weight (b : Backend) (cw : Z) : Backend :=
  {| host := host b; port := port b; weight := weight b;
     current_weight := cw; is_healthy := is_healthy b;
     active_connections := active_connections b;
     total_requests := total_requests b;
     failed_requests := failed_requests b;
     bytes_in := bytes_in b; bytes_out := bytes_out b;
     last_health_check := last_health_check b |}.

Definition MAX_BACKENDS : Z := 16.

(** [struct LoadBalancer], restricted to what selection reads and writes.
    [backends] is the used prefix [backends[0 .. num_backends-1]] of the
    C array. *)
Record LoadBalancer : Type := mkLB {
  backends : list Backend;
  current_index : Z;
  algorithm : Algorithm;
}.

Definition num_backends (lb : LoadBalancer) : Z := Z.of_nat (length (backends lb)).

Definition set_current_index (lb : LoadBalancer) (i : Z) : LoadBalancer :=
  {| backends := backends lb; current_index := i; algorithm := algorithm lb |}.

Definition set_backends (lb : LoadBalancer) (bs : list Backend) : LoadBalancer :=
  {| backends := bs; current_index := current_index lb; algorithm := algorithm lb |}.

(** [lb->backends[i]] for an [int] index. *)
Definition backend_at (lb : LoadBalancer) (i : Z) : result Backend :=
  if i <? 0 then Fault OutOfBounds
  else match backends lb !! Z.to_nat i with
       | Some b => Ret b
       | None => Fault OutOfBounds
       end.

(** The [do { ... } while (attempts < lb->num_backends)] loop of
    [select_round_robin]; [None] when the loop is left without a healthy
    backend. *)
Fixpoint rr_loop (fuel : nat) (lb : LoadBalancer) (attempts : Z)
  : result (option Z * LoadBalancer) :=
  match fuel with
  | O => Fault OutOfFuel
  | S fuel' =>
      idx <- c_rem (wrap_int (current_index lb + 1)) (num_backends lb) ;;
      let lb1 := set_current_index lb idx in
      b <- backend_at lb1 idx ;;
      if is_healthy b then Ret (Some idx, lb1)
      else
        let attempts1 := wrap_int (attempts + 1) in
        if attempts1 <? num_backends lb1 then rr_loop fuel' lb1 attempts1
        else Ret (None, lb1)
  end.

Definition select_round_robin (lb : LoadBalancer) : result (option Z * LoadBalancer) :=
  let start := current_index lb in
  r <- rr_loop (S (length (backends lb))) lb 0 ;;
  match r with
  | (Some idx, lb1) => Ret (Some idx, lb1)
  | (None, lb1) =>
      idx <- c_rem (wrap_int (start + 1)) (num_backends lb1) ;;
      Ret (Some idx, lb1)
  end.

(** The [for] loop of [select_weighted_round_robin] over
    [backends[i], backends[i+1], ...]: it bumps every healthy backend in
    place and keeps [best], a pointer to an element already visited, here
    the index together with the element as it stands after its bump (the
    loop does not touch it again). *)
Fixpoint wrr_scan (i : nat) (bs : list Backend) (total_weight : Z)
    (best : option (nat * Backend)) : list Backend * Z * option (nat * Backend) :=
  match bs with
  | [] => ([], total_weight, best)
  | b :: rest =>
      if negb (is_healthy b) then
        let '(rest', t, bst) := wrr_scan (S i) rest total_weight best in
        (b :: rest', t, bst)
      else
        let b' := set_current_weight b (wrap_int (current_weight b + weight b)) in
        let total' := wrap_int (total_weight + weight b) in
        let best' :=
          match best with
          | None => Some (i, b')
          | Some (j, bj) =>
              if current_weight b' >? current_weight bj then Some (i, b') else best
          end in
        let '(rest', t, bst) := wrr_scan (S i) rest total' best' in
        (b' :: rest', t, bst)
  end.

Definition select_weighted_round_robin (lb : LoadBalancer)
  : result (option Z * LoadBalancer) :=
  let '(bs, total_weight, best) := wrr_scan 0 (backends lb) 0 None in
  match best with
  | Some (j, bj) =>
      let bj' := set_current_weight bj (wrap_int (current_weight bj - total_weight)) in
      Ret (Some (Z.of_nat j), set_backends lb (<[j := bj']> bs))
  | None => select_round_robin (set_backends lb bs)
  end.

(** The [for] loop of [select_least_connections]. *)
Fixpoint lc_scan (i : nat) (bs : list Backend) (min_score : Z) (best : option nat)
  : result (option nat) :=
  match bs with
  | [] => Ret best
  | b :: rest =>
      if negb (is_healthy b) then lc_scan (S i) rest min_score best
      else
        score <- c_div (wrap_int (active_connections b * 100)) (weight b) ;;
        if score <? min_score then lc_scan (S i) rest score (Some i)
        else lc_scan (S i) rest min_score best
  end.

Definition select_least_connections (lb : LoadBalancer)
  : result (option Z * LoadBalancer) :=
  best <- lc_scan 0 (backends lb) INT_MAX None ;;
  match best with
  | Some j => Ret (Some (Z.of_nat j), lb)
  | None => select_round_robin lb
  end.

(** A [char] read as an [int]: [char] is signed on the platforms the
    program targets, so bytes from 128 on are negative. *)
Definition char_val (c : ascii) : Z :=
  let n := Z.of_N (N_of_ascii c) in
  if n <? 128 then n else n - 256.

(** [hash = hash * 31 + *p] over the string, in [unsigned int]. *)
Fixpoint ip_hash_from (hash : Z) (s : string) : Z :=
  match s with
  | EmptyString => hash
  | String c s' => ip_hash_from (wrap_uint (hash * 31 + char_val c)) s'
  end.

Definition ip_hash (client_ip : string) : Z := ip_hash_from 0 client_ip.

(** [hash % lb->num_backends]: the [int] count is converted to
    [unsigned int] and the remainder is taken there. *)
Definition c_urem (a b : Z) : result Z :=
  if wrap_uint b =? 0 then Fault DivisionByZero
  else Ret (wrap_int (a mod wrap_uint b)).

(** The [do { ... } while (index != start)] loop of [select_ip_hash]. *)
Fixpoint ip_loop (fuel : nat) (lb : LoadBalancer) (start index : Z) : result (option Z) :=
  match fuel with
  | O => Fault OutOfFuel
  | S fuel' =>
      b <- backend_at lb index ;;
      if is_healthy b then Ret (Some index)
      else
        index1 <- c_rem (wrap_int (index + 1)) (num_backends lb) ;;
        if negb (index1 =? start) then ip_loop fuel' lb start index1
        else Ret None
  end.

Definition select_ip_hash (lb : LoadBalancer) (client_ip : string)
  : result (option Z * LoadBalancer) :=
  start <- c_urem (ip_hash client_ip) (num_backends lb) ;;
  r <- ip_loop (S (length (backends lb))) lb start start ;;
  match r with
  | Some idx => Ret (Some idx, lb)
  | None => Ret (Some start, lb)
  end.

Definition select_backend (lb : LoadBalancer) (client_ip : string)
  : result (option Z * LoadBalancer) :=
  match algorithm lb with
  | ALG_WEIGHTED_ROUND_ROBIN => select_weighted_round_robin lb
  | ALG_LEAST_CONNECTIONS => select_least_connections lb
  | ALG_IP_HASH => select_ip_hash lb client_ip
  | ALG_ROUND_ROBIN => select_round_robin lb
  end.

(** [k] consecutive calls of [select_weighted_round_robin], with the
    pointers they return in order. *)
Fixpoint wrr_run (k : nat) (lb : LoadBalancer) : result (list (option Z) * LoadBalancer) :=
  match k with
  | O => Ret ([], lb)
  | S k' =>
      r <- select_weighted_round_robin lb ;;
      let '(p, lb1) := r in
      r' <- wrr_run k' lb1 ;;
      let '(ps, lb2) := r' in
      Ret (p :: ps, lb2)
  end.

(** A backend as [parse_backend] leaves it. *)
Definition fresh_backend (h p : string) (w : Z) : Backend :=
  {| host := h; port := p; weight := (if w <? 1 then 1 else w);
     current_weight := 0; is_healthy := true; active_connections := 0;
     total_requests := 0; failed_requests := 0;
     bytes_in := 0; bytes_out := 0; last_health_check := 0 |}.

(** *** Vocabulary of the selection theorems *)

(** Sum of [f] over the healthy backends. *)
Fixpoint hsum (f : Backend -> Z) (bs : list Backend) : Z :=
  match bs with
  | [] => 0
  | b :: rest => (if is_healthy b then f b else 0) + hsum f rest
  end.

(** The total weight of the healthy set. *)
Definition healthy_weight (lb : LoadBalancer) : Z := hsum weight (backends lb).

(** What one pass of the weighted scan does to a backend when no [int]
    overflows. *)
Definition bump (b : Backend) : Backend :=
  if is_healthy b then set_current_weight b (current_weight b + weight b) else b.

(** How often the pointer [&backends[i]] occurs among the returned ones. *)
Fixpoint count_picks (i : Z) (ps : list (option Z)) : Z :=
  match ps with
  | [] => 0
  | p :: rest =>
      (match p with
       | Some j => if j =? i then 1 else 0
       | None => 0
       end) + count_picks i rest
  end.

(** What the scan guarantees about the [best] it returns, for a scan that
    started at index [i] with [best] and left the visited backends as
    [bs']: it points to a healthy visited backend (or is the old [best])
    whose [current_weight] is maximal. *)
Definition scan_best_ok (i : nat) (bs' : list Backend)
    (best bst : option (nat * Backend)) : Prop :=
  match bst with
  | None => best = None /\ Forall (fun b => is_healthy b = false) bs'
  | Some (j, bj) =>
      (best = Some (j, bj) \/
       exists k, j = (i + k)%nat /\ bs' !! k = Some bj /\ is_healthy bj = true) /\
      Forall (fun b => is_healthy b = true -> current_weight b <= current_weight bj) bs' /\
      (forall j0 b0, best = Some (j0, b0) -> current_weight b0 <= current_weight bj)
  end.

(** The invariant of smooth weighted round-robin between two selections,
    for a healthy set of total weight [W]: the [current_weight]s of the
    healthy backends add up to zero and each stays above [-W]. *)
Record wrr_inv (W : Z) (bs : list Backend) : Prop := {
  inv_weight : hsum weight bs = W;
  inv_pos : Forall (fun b => is_healthy b = true -> 0 < weight b) bs;
  inv_sum : hsum current_weight bs = 0;
  inv_low : Forall (fun b => is_healthy b = true -> - W < current_weight b) bs;
}.

(** After [k] selections of which [c i] went to backend [i], a healthy
    backend holds [k * weight - W * c i]. *)
Definition tracked (W k : Z) (c : nat -> Z) (bs : list Backend) : Prop :=
  forall i b, bs !! i = Some b -> is_healthy b = true ->
    current_weight b = k * weight b - W * c i.

(** Weights and health flags, which selection never writes. *)
Definition roster_shape (bs : list Backend) : list (Z * bool) :=
  map (fun b => (weight b, is_healthy b)) bs.

(** A roster as [main] hands it to the event loop: at least one and at
    most [MAX_BACKENDS] parsed backends (it exits on an empty roster),
    [current_index] at its initial [-1] or where a selection left it, and
    weights of at least 1 (which [parse_backend] enforces). *)
Record roster_ok (lb : LoadBalancer) : Prop := {
  roster_size : 0 < num_backends lb <= MAX_BACKENDS;
  roster_index : -1 <= current_index lb < num_backends lb;
  roster_weights : Forall (fun b => 1 <= weight b) (backends lb);
}.

Definition empty_roster (alg : Algorithm) : LoadBalancer :=
  {| backends := []; current_index := -1; algorithm := alg |}.

Definition roster_321 : LoadBalancer :=
  {| backends := [fresh_backend "A" "9001" 3; fresh_backend "B" "9002" 2;
                  fresh_backend "C" "9003" 1];
     current_index := -1;
     algorithm := ALG_WEIGHTED_ROUND_ROBIN |}.

(** A pointer returned by a run over the roster [bs]: the index of a
    healthy backend. *)
Definition healthy_pick (bs : list Backend) (p : option Z) : Prop :=
  exists j b, p = Some (Z.of_nat j) /\ bs !! j = Some b /\ is_healthy b = true.

(** The first six selections the claim C4 expects on weights 3, 2, 1:
    A, A, B, A, B, C. *)
Definition aababc : list (option Z) :=
  [Some 0; Some 0; Some 1; Some 0; Some 1; Some 2].

(** *** Vocabulary of the further selection theorems *)

(** [lb->backends[i].is_healthy], false outside the roster. *)
Definition healthy_at (lb : LoadBalancer) (i : Z) : bool :=
  match backend_at lb i with
  | Ret b => is_healthy b
  | Fault _ => false
  end.

(** The weight-adjusted score of [select_least_connections]:
    [(b->active_connections * 100) / b->weight] in [int]. *)
Definition lc_score (b : Backend) : Z :=
  wrap_int (Z.quot (wrap_int (active_connections b * 100)) (weight b)).

(** [k] consecutive calls of [select_round_robin], with the pointers they
    return in order. *)
Fixpoint rr_run (k : nat) (lb : LoadBalancer) : result (list (option Z) * LoadBalancer) :=
  match k with
  | O => Ret ([], lb)
  | S k' =>
      r <- select_round_robin lb ;;
      let '(p, lb1) := r in
      r' <- rr_run k' lb1 ;;
      let '(ps, lb2) := r' in
      Ret (p :: ps, lb2)
  end.

(** Three backends of which the first is down. *)
Definition roster_a_down (alg : Algorithm) : LoadBalancer :=
  {| backends :=
       [{| host := "A"; port := "9001"; weight := 1; current_weight := 0;
           is_healthy := false; active_connections := 0; total_requests := 0;
           failed_requests := 0; bytes_in := 0; bytes_out := 0;
           last_health_check := 0 |};
        fresh_backend "B" "9002" 1; fresh_backend "C" "9003" 1];
     current_index := 2;
     algorithm := alg |}.

End LB.


(** * Relay callbacks and keep-alive decision ([pooled_lb.c]) *)

Module Relay.

Definition BUFFER_SIZE : Z := 16384.

Definition EVENT_READ : Z := 1.
Definition EVENT_WRITE : Z := 2.
Definition EVENT_ERROR : Z := 4.
Definition EVENT_HUP : Z := 8.

Definition NUL : ascii := "000"%char.
Definition CRLF : string := String "013"%char (String "010"%char EmptyString).

(** The C string a buffer holds: its bytes up to the first NUL. *)
Fixpoint c_str (buf : string) : string :=
  match buf with
  | EmptyString => EmptyString
  | String c rest => if Ascii.eqb c NUL then EmptyString else String c (c_str rest)
  end.

(** Whether [needle] is an initial segment of [hay]. *)
Fixpoint starts_with (needle hay : string) : bool :=
  match needle, hay with
  | EmptyString, _ => true
  | String _ _, EmptyString => false
  | String a n', String b h' => Ascii.eqb a b && starts_with n' h'
  end.

(** [strstr(hay, needle)]: the offset of the first occurrence of [needle],
    [None] for [NULL]. *)
Fixpoint strstr (hay needle : string) : option nat :=
  if starts_with needle hay then Some O
  else match hay with
       | EmptyString => None
       | String _ rest => S <$> strstr rest needle
       end.

Definition found (p : option nat) : bool :=
  match p with Some _ => true | None => false end.

(** [check_keep_alive(request)], 1 as [true]. *)
Definition check_keep_alive (request : string) : bool :=
  if found (strstr request "HTTP/1.1") then
    if found (strstr request "Connection: close") then false else true
  else if found (strstr request "Connection: keep-alive")
          || found (strstr request "Connection: Keep-Alive")
  then true else false.

(** [inject_headers(request, max_size, client_ip)]: the buffer afterwards.
    [snprintf] returns the full length of the two header lines and
    keeps 255 characters of them; copying that many bytes out of the
    256-byte [headers] array is defined up to 256, and at 256 the copy
    ends with the array's NUL: the string ends after the 255 characters. *)
Definition inject_headers (request : string) (max_size : Z) (client_ip : string)
  : result string :=
  match strstr request CRLF with
  | None => Ret request
  | Some k =>
      let current_len := (k + 2)%nat in
      let headers := "X-Forwarded-For: " +:+ client_ip +:+ CRLF +:+
                     "X-Real-IP: " +:+ client_ip +:+ CRLF in
      let len := String.length headers in
      let remaining := (String.length request - current_len)%nat in
      if Z.of_nat current_len + Z.of_nat len + Z.of_nat remaining <? max_size then
        if 256 <? Z.of_nat len then Fault OutOfBounds
        else if Z.of_nat len =? 256
        then Ret (substring 0 current_len request +:+ substring 0 255 headers)
        else Ret (substring 0 current_len request +:+ headers +:+
                  substring current_len remaining request)
      else Ret request
  end.

(** [struct Connection]; [backend] is the pointer into the roster. *)
Record Connection : Type := mkConnection {
  client_fd : Z;
  backend_fd : Z;
  backend : option nat;
  client_ip : string;
  request_forwarded : bool;
  keep_alive : bool;
  start_time : Z;
}.

Definition set_keep_alive (c : Connection) (k : bool) : Connection :=
  {| client_fd := client_fd c; backend_fd := backend_fd c; backend := backend c;
     client_ip := client_ip c; request_forwarded := request_forwarded c;
     keep_alive := k; start_time := start_time c |}.

Definition set_request_forwarded (c : Connection) (f : bool) : Connection :=
  {| client_fd := client_fd c; backend_fd := backend_fd c; backend := backend c;
     client_ip := client_ip c; request_forwarded := f;
     keep_alive := keep_alive c; start_time := start_time c |}.

(** A slot after [memset(conn, 0, ...)] and the two [-1] assignments. *)
Definition cleared_connection : Connection :=
  {| client_fd := -1; backend_fd := -1; backend := None; client_ip := "";
     request_forwarded := false; keep_alive := false; start_time := 0 |}.

(** The part of [LoadBalancer] the callbacks write. *)
Record Server : Type := mkServer {
  roster : list LB.Backend;
  lb_total_requests : Z;
  num_connections : Z;
}.

Definition alter_backend (f : LB.Backend -> LB.Backend) (i : nat) (s : Server) : Server :=
  {| roster := alter f i (roster s); lb_total_requests := lb_total_requests s;
     num_connections := num_connections s |}.

Definition dec_active (b : LB.Backend) : LB.Backend :=
  {| LB.host := LB.host b; LB.port := LB.port b; LB.weight := LB.weight b;
     LB.current_weight := LB.current_weight b; LB.is_healthy := LB.is_healthy b;
     LB.active_connections := wrap_int (LB.active_connections b - 1);
     LB.total_requests := LB.total_requests b;
     LB.failed_requests := LB.failed_requests b;
     LB.bytes_in := LB.bytes_in b; LB.bytes_out := LB.bytes_out b;
     LB.last_health_check := LB.last_health_check b |}.

Definition inc_requests (b : LB.Backend) : LB.Backend :=
  {| LB.host := LB.host b; LB.port := LB.port b; LB.weight := LB.weight b;
     LB.current_weight := LB.current_weight b; LB.is_healthy := LB.is_healthy b;
     LB.active_connections := LB.active_connections b;
     LB.total_requests := wrap_ulong (LB.total_requests b + 1);
     LB.failed_requests := LB.failed_requests b;
     LB.bytes_in := LB.bytes_in b; LB.bytes_out := LB.bytes_out b;
     LB.last_health_check := LB.last_health_check b |}.

Definition add_bytes_out (n : Z) (b : LB.Backend) : LB.Backend :=
  {| LB.host := LB.host b; LB.port := LB.port b; LB.weight := LB.weight b;
     LB.current_weight := LB.current_weight b; LB.is_healthy := LB.is_healthy b;
     LB.active_connections := LB.active_connections b;
     LB.total_requests := LB.total_requests b;
     LB.failed_requests := LB.failed_requests b;
     LB.bytes_in := LB.bytes_in b; LB.bytes_out := wrap_ulong (LB.bytes_out b + n);
     LB.last_health_check := LB.last_health_check b |}.

Definition add_bytes_in (n : Z) (b : LB.Backend) : LB.Backend :=
  {| LB.host := LB.host b; LB.port := LB.port b; LB.weight := LB.weight b;
     LB.current_weight := LB.current_weight b; LB.is_healthy := LB.is_healthy b;
     LB.active_connections := LB.active_connections b;
     LB.total_requests := LB.total_requests b;
     LB.failed_requests := LB.failed_requests b;
     LB.bytes_in := wrap_ulong (LB.bytes_in b + n); LB.bytes_out := LB.bytes_out b;
     LB.last_health_check := LB.last_health_check b |}.

(** The calls a callback makes on the event loop, the sockets and the
    backend pool, in order.  [PoolReturn fd b] is
    [conn_pool_return(pool, fd, b->host, b->port)]. *)
Inductive call : Type :=
  | EventLoopDel (fd : Z)
  | CloseFd (fd : Z)
  | PoolReturn (fd : Z) (b : nat)
  | PoolClose (fd : Z)
  | WriteFd (fd : Z) (data : string).

(** What [read(fd, buffer, size)] returned: [-1], [0] at end of stream, or
    the number of bytes placed in the buffer. *)
Inductive read_result : Type :=
  | ReadError
  | ReadEof
  | ReadData (data : string).

Definition read_n (r : read_result) : Z :=
  match r with
  | ReadError => -1
  | ReadEof => 0
  | ReadData data => Z.of_nat (String.length data)
  end.

(** [free_connection(lb, conn)]: the calls it makes, the server and the
    cleared slot.  (The slot is also pushed on the free list.) *)
Definition free_connection (s : Server) (conn : Connection)
  : Server * Connection * list call :=
  let calls1 :=
    if 0 <=? client_fd conn
    then [EventLoopDel (client_fd conn); CloseFd (client_fd conn)] else [] in
  let calls2 :=
    if 0 <=? backend_fd conn then
      EventLoopDel (backend_fd conn) ::
      match backend conn with
      | Some b => if keep_alive conn then [PoolReturn (backend_fd conn) b]
                  else [PoolClose (backend_fd conn)]
      | None => [PoolClose (backend_fd conn)]
      end
    else [] in
  let s1 :=
    match backend conn with
    | Some b => alter_backend dec_active b s
    | None => s
    end in
  let s2 := {| roster := roster s1; lb_total_requests := lb_total_requests s1;
               num_connections := wrap_int (num_connections s1 - 1) |} in
  (s2, cleared_connection, calls1 ++ calls2).

Definition has_event (events mask : Z) : bool := negb (Z.land events mask =? 0).

(** [on_client_event(fd, events, conn)]; [rd] is what the [read] on the
    client socket returns if the callback gets to it. *)
Definition on_client_event (s : Server) (fd events : Z) (conn : Connection)
    (rd : read_result) : result (Server * Connection * list call) :=
  if has_event events (Z.lor EVENT_ERROR EVENT_HUP) then
    Ret (free_connection s (set_keep_alive conn false))
  else if has_event events EVENT_READ then
    if read_n rd <=? 0 then
      Ret (free_connection s (set_keep_alive conn false))
    else
      let data := match rd with ReadData d => d | _ => "" end in
      let n := read_n rd in
      r <- (if request_forwarded conn then Ret (s, conn, data, n)
            else
              let buffer := c_str data in
              let conn1 := set_keep_alive conn (check_keep_alive buffer) in
              buffer1 <- inject_headers buffer BUFFER_SIZE (client_ip conn1) ;;
              let conn2 := set_request_forwarded conn1 true in
              match backend conn2 with
              | None => Fault NullPointer
              | Some b =>
                  let s1 := alter_backend inc_requests b s in
                  let s2 := {| roster := roster s1;
                               lb_total_requests := wrap_ulong (lb_total_requests s1 + 1);
                               num_connections := num_connections s1 |} in
                  Ret (s2, conn2, buffer1, Z.of_nat (String.length buffer1))
              end) ;;
      let '(s3, conn3, buffer3, n3) := r in
      if 0 <=? backend_fd conn3 then
        match backend conn3 with
        | None => Fault NullPointer
        | Some b =>
            Ret (alter_backend (add_bytes_out n3) b s3, conn3,
                 [WriteFd (backend_fd conn3) buffer3])
        end
      else Ret (s3, conn3, [])
  else Ret (s, conn, []).

(** [on_backend_event(fd, events, conn)]. *)
Definition on_backend_event (s : Server) (fd events : Z) (conn : Connection)
    (rd : read_result) : result (Server * Connection * list call) :=
  if has_event events (Z.lor EVENT_ERROR EVENT_HUP) then
    Ret (free_connection s (set_keep_alive conn false))
  else if has_event events EVENT_READ then
    if read_n rd <=? 0 then Ret (free_connection s conn)
    else if 0 <=? client_fd conn then
      match backend conn with
      | None => Fault NullPointer
      | Some b =>
          Ret (alter_backend (add_bytes_in (read_n rd)) b s, conn,
               [WriteFd (client_fd conn)
                        (match rd with ReadData d => d | _ => "" end)])
      end
    else Ret (s, conn, [])
  else Ret (s, conn, []).

(** The keep-alive decision as the claim C3 words it: the header token is
    matched without regard to case. *)
Definition lower_ascii (c : ascii) : ascii :=
  let n := nat_of_ascii c in
  if (65 <=? n)%nat && (n <=? 90)%nat then ascii_of_nat (n + 32) else c.

Fixpoint lower (s : string) : string :=
  match s with
  | EmptyString => EmptyString
  | String c rest => String (lower_ascii c) (lower rest)
  end.

Definition contains_nocase (request token : string) : bool :=
  found (strstr (lower request) (lower token)).

Definition keep_alive_claimed (request : string) : bool :=
  if found (strstr request "HTTP/1.1")
  then negb (contains_nocase request "Connection: close")
  else contains_nocase request "Connection: keep-alive".

(** [needle] occurs in [hay]. *)
Definition occurs (needle hay : string) : Prop :=
  exists pre post, hay = pre +:+ needle +:+ post.

(** The session ends in the client callback: an error or hang-up event,
    or a [read] on the client socket that returns 0 (end of stream) or -1. *)
Definition client_side_end (events : Z) (rd : read_result) : Prop :=
  has_event events (Z.lor EVENT_ERROR EVENT_HUP) = true \/
  (has_event events EVENT_READ = true /\ read_n rd <= 0).

Definition two_backends : Server :=
  {| roster := [LB.fresh_backend "127.0.0.1" "9001" 1;
                LB.fresh_backend "127.0.0.1" "9002" 1];
     lb_total_requests := 1; num_connections := 1 |}.

(** A session whose request went through with keep-alive set. *)
Definition live_session : Connection :=
  {| client_fd := 5; backend_fd := 7; backend := Some 0%nat;
     client_ip := "203.0.113.7"; request_forwarded := true;
     keep_alive := true; start_time := 1700000000 |}.

Definition http11_connection_CLOSE : string :=
  "GET / HTTP/1.1" +:+ CRLF +:+ "Host: example" +:+ CRLF +:+
  "connection: CLOSE" +:+ CRLF +:+ CRLF.

Definition http11_connection_Close : string :=
  "GET / HTTP/1.1" +:+ CRLF +:+ "Host: example" +:+ CRLF +:+
  "Connection: Close" +:+ CRLF +:+ CRLF.

Definition http10_connection_Keep_Alive : string :=
  "GET / HTTP/1.0" +:+ CRLF +:+ "Connection: Keep-Alive" +:+ CRLF +:+ CRLF.

End Relay.

(** * Backend connection pool ([conn_pool.c]) *)

Module Pool.

Inductive PoolConnState : Type :=
  | POOL_CONN_FREE
  | POOL_CONN_IN_USE
  | POOL_CONN_CLOSING.

Definition is_free (st : PoolConnState) : bool :=
  match st with POOL_CONN_FREE => true | _ => false end.

(** [struct PooledConnection]; [next] and [prev] point to slots of the
    pool's array and are kept as slot indices. *)
Record PooledConnection : Type := mkPooled {
  fd : Z;
  backend_host : string;
  backend_port : string;
  last_used : Z;
  created : Z;
  state : PoolConnState;
  requests_served : Z;
  next : option nat;
  prev : option nat;
}.

Definition set_fd (v : Z) (c : PooledConnection) : PooledConnection :=
  {| fd := v; backend_host := backend_host c; backend_port := backend_port c;
     last_used := last_used c; created := created c; state := state c;
     requests_served := requests_served c; next := next c; prev := prev c |}.

Definition set_next (v : option nat) (c : PooledConnection) : PooledConnection :=
  {| fd := fd c; backend_host := backend_host c; backend_port := backend_port c;
     last_used := last_used c; created := created c; state := state c;
     requests_served := requests_served c; next := v; prev := prev c |}.

Definition set_prev (v : option nat) (c : PooledConnection) : PooledConnection :=
  {| fd := fd c; backend_host := backend_host c; backend_port := backend_port c;
     last_used := last_used c; created := created c; state := state c;
     requests_served := requests_served c; next := next c; prev := v |}.

(** [conn_pool_t] without its mutex; [connections] has [max_size] slots. *)
Record conn_pool_t : Type := mkPool {
  connections : list PooledConnection;
  current_size : Z;
  ttl_seconds : Z;
  max_requests_per_conn : Z;
  lru_head : option nat;
  lru_tail : option nat;
  pool_hits : Z;
  pool_misses : Z;
  pool_evictions : Z;
}.

Definition max_size (p : conn_pool_t) : nat := length (connections p).

Definition set_connections (cs : list PooledConnection) (p : conn_pool_t) : conn_pool_t :=
  {| connections := cs; current_size := current_size p;
     ttl_seconds := ttl_seconds p; max_requests_per_conn := max_requests_per_conn p;
     lru_head := lru_head p; lru_tail := lru_tail p; pool_hits := pool_hits p;
     pool_misses := pool_misses p; pool_evictions := pool_evictions p |}.

(** [lru_remove(pool, conn)] for the slot [i]; every [conn->prev] and
    [conn->next] is read where the C statement reads it. *)
Definition lru_remove (p : conn_pool_t) (i : nat) : conn_pool_t :=
  let cs0 := connections p in
  let cs1 := match cs0 !! i ≫= prev with
             | Some j => alter (set_next (cs0 !! i ≫= next)) j cs0
             | None => cs0
             end in
  let cs2 := match cs1 !! i ≫= next with
             | Some j => alter (set_prev (cs1 !! i ≫= prev)) j cs1
             | None => cs1
             end in
  let head := if decide (lru_head p = Some i) then cs2 !! i ≫= next else lru_head p in
  let tail := if decide (lru_tail p = Some i) then cs2 !! i ≫= prev else lru_tail p in
  let cs3 := alter (fun c => set_prev None (set_next None c)) i cs2 in
  {| connections := cs3; current_size := current_size p;
     ttl_seconds := ttl_seconds p; max_requests_per_conn := max_requests_per_conn p;
     lru_head := head; lru_tail := tail; pool_hits := pool_hits p;
     pool_misses := pool_misses p; pool_evictions := pool_evictions p |}.

(** [conn_is_alive(fd)]; [alive] is what the [poll] and the peeking
    [recv] find out about an open socket. *)
Definition conn_is_alive (alive : Z -> bool) (fd : Z) : bool :=
  if fd <? 0 then false else alive fd.

(** The three tests of the sweep on a free, populated slot, at clock
    reading [now]. *)
Definition should_evict (now : Z) (alive : Z -> bool) (p : conn_pool_t)
    (c : PooledConnection) : bool :=
  ((0 <? ttl_seconds p) && (ttl_seconds p <? wrap_long (now - created c)))
  || (30 <? wrap_long (now - last_used c))
  || negb (conn_is_alive alive (fd c)).

(** The body of the sweep's [if (should_evict)]. *)
Definition evict (p : conn_pool_t) (i : nat) : conn_pool_t :=
  let p1 := lru_remove (set_connections (alter (set_fd (-1)) i (connections p)) p) i in
  {| connections := connections p1;
     current_size := wrap_int (current_size p1 - 1);
     ttl_seconds := ttl_seconds p1; max_requests_per_conn := max_requests_per_conn p1;
     lru_head := lru_head p1; lru_tail := lru_tail p1; pool_hits := pool_hits p1;
     pool_misses := pool_misses p1;
     pool_evictions := wrap_ulong (pool_evictions p1 + 1) |}.

(** One iteration of the [for] loop of [conn_pool_cleanup]: the pool, the
    [evicted] counter and the descriptors closed so far. *)
Definition cleanup_slot (now : Z) (alive : Z -> bool)
    (st : conn_pool_t * Z * list Z) (i : nat) : conn_pool_t * Z * list Z :=
  let '(p, evicted, closed) := st in
  match connections p !! i with
  | Some c =>
      if is_free (state c) && (0 <=? fd c) then
        if should_evict now alive p c
        then (evict p i, wrap_int (evicted + 1), closed ++ [fd c])
        else st
      else st
  | None => st
  end.

(** [conn_pool_cleanup(pool)] at clock reading [now]: the pool afterwards,
    the returned count and the closed descriptors. *)
Definition conn_pool_cleanup (now : Z) (alive : Z -> bool) (p : conn_pool_t)
  : conn_pool_t * Z * list Z :=
  fold_left (cleanup_slot now alive) (seq 0 (max_size p)) (p, 0, []).

(** The fields of a slot the sweep decides on. *)
Definition sweep_key (c : PooledConnection) : Z * PoolConnState * Z * Z :=
  (fd c, state c, created c, last_used c).

(** The slot is one the sweep acts on. *)
Definition evictable (now : Z) (alive : Z -> bool) (p : conn_pool_t)
    (c : PooledConnection) : bool :=
  is_free (state c) && (0 <=? fd c) && should_evict now alive p c.

(** No slot below [k] is one the sweep would act on. *)
Definition settled_below (now : Z) (alive : Z -> bool) (k : nat) (p : conn_pool_t) : Prop :=
  forall j c, (j < k)%nat -> connections p !! j = Some c ->
    evictable now alive p c = false.

(** ** The other functions of [conn_pool.c] *)

Definition set_state (v : PoolConnState) (c : PooledConnection) : PooledConnection :=
  {| fd := fd c; backend_host := backend_host c; backend_port := backend_port c;
     last_used := last_used c; created := created c; state := v;
     requests_served := requests_served c; next := next c; prev := prev c |}.

Definition set_last_used (v : Z) (c : PooledConnection) : PooledConnection :=
  {| fd := fd c; backend_host := backend_host c; backend_port := backend_port c;
     last_used := v; created := created c; state := state c;
     requests_served := requests_served c; next := next c; prev := prev c |}.

Definition set_requests_served (v : Z) (c : PooledConnection) : PooledConnection :=
  {| fd := fd c; backend_host := backend_host c; backend_port := backend_port c;
     last_used := last_used c; created := created c; state := state c;
     requests_served := v; next := next c; prev := prev c |}.

Definition set_current_size (v : Z) (p : conn_pool_t) : conn_pool_t :=
  {| connections := connections p; current_size := v;
     ttl_seconds := ttl_seconds p; max_requests_per_conn := max_requests_per_conn p;
     lru_head := lru_head p; lru_tail := lru_tail p; pool_hits := pool_hits p;
     pool_misses := pool_misses p; pool_evictions := pool_evictions p |}.

Definition set_lru (h t : option nat) (p : conn_pool_t) : conn_pool_t :=
  {| connections := connections p; current_size := current_size p;
     ttl_seconds := ttl_seconds p; max_requests_per_conn := max_requests_per_conn p;
     lru_head := h; lru_tail := t; pool_hits := pool_hits p;
     pool_misses := pool_misses p; pool_evictions := pool_evictions p |}.

Definition set_statistics (hits misses evictions : Z) (p : conn_pool_t) : conn_pool_t :=
  {| connections := connections p; current_size := current_size p;
     ttl_seconds := ttl_seconds p; max_requests_per_conn := max_requests_per_conn p;
     lru_head := lru_head p; lru_tail := lru_tail p; pool_hits := hits;
     pool_misses := misses; pool_evictions := evictions |}.

(** [lru_touch(pool, conn)] for the slot [i], statement by statement. *)
Definition lru_touch (p : conn_pool_t) (i : nat) : conn_pool_t :=
  if decide (lru_head p = Some i) then p
  else
    let cs0 := connections p in
    let cs1 := match cs0 !! i ≫= prev with
               | Some j => alter (set_next (cs0 !! i ≫= next)) j cs0
               | None => cs0
               end in
    let cs2 := match cs1 !! i ≫= next with
               | Some j => alter (set_prev (cs1 !! i ≫= prev)) j cs1
               | None => cs1
               end in
    let tail1 := if decide (lru_tail p = Some i) then cs2 !! i ≫= prev else lru_tail p in
    let cs3 := alter (set_prev None) i cs2 in
    let cs4 := alter (set_next (lru_head p)) i cs3 in
    let cs5 := match lru_head p with
               | Some h => alter (set_prev (Some i)) h cs4
               | None => cs4
               end in
    let tail2 := match tail1 with Some t => Some t | None => Some i end in
    set_lru (Some i) tail2 (set_connections cs5 p).

(** The first slot for which [f] holds, as the [for] loops of
    [find_by_fd] and [find_free_slot] find it. *)
Fixpoint find_slot (f : PooledConnection -> bool) (cs : list PooledConnection)
  : option nat :=
  match cs with
  | [] => None
  | c :: rest => if f c then Some O else S <$> find_slot f rest
  end.

Definition find_by_fd (p : conn_pool_t) (v : Z) : option nat :=
  find_slot (fun c => fd c =? v) (connections p).

Definition find_free_slot (p : conn_pool_t) : option nat :=
  find_slot (fun c => is_free (state c) && (fd c <? 0)) (connections p).

(** A slot after [calloc] and the initialisation loop of
    [conn_pool_create]. *)
Definition empty_slot : PooledConnection :=
  {| fd := -1; backend_host := ""; backend_port := ""; last_used := 0; created := 0;
     state := POOL_CONN_FREE; requests_served := 0; next := None; prev := None |}.

(** [conn_pool_create(max_size, ttl_seconds)] when both allocations
    succeed. *)
Definition conn_pool_create (size ttl : Z) : conn_pool_t :=
  {| connections := replicate (Z.to_nat size) empty_slot; current_size := 0;
     ttl_seconds := ttl; max_requests_per_conn := 1000;
     lru_head := None; lru_tail := None;
     pool_hits := 0; pool_misses := 0; pool_evictions := 0 |}.

(** What the pool does to sockets: [close(fd)] and the [connect] of
    [create_connection(host, port)]. *)
Inductive pool_call : Type :=
  | SysClose (v : Z)
  | SysConnect (host port : string).

(** [conn->fd = -1; conn->state = POOL_CONN_FREE; lru_remove(pool, conn);
    pool->current_size--] of [conn_pool_return] and [conn_pool_close]. *)
Definition release_slot (p : conn_pool_t) (i : nat) : conn_pool_t :=
  let cs := alter (fun c => set_state POOL_CONN_FREE (set_fd (-1) c)) i (connections p) in
  let p1 := lru_remove (set_connections cs p) i in
  set_current_size (wrap_int (current_size p1 - 1)) p1.

(** [conn_pool_close(pool, fd)]: the pool afterwards and the sockets
    closed. *)
Definition conn_pool_close (p : conn_pool_t) (v : Z) : conn_pool_t * list pool_call :=
  if v <? 0 then (p, [])
  else match find_by_fd p v with
       | Some i => (release_slot p i, [SysClose v])
       | None => (p, [SysClose v])
       end.

(** [conn_pool_return(pool, fd, host, port)] at clock reading [now]. *)
Definition conn_pool_return (now : Z) (alive : Z -> bool) (p : conn_pool_t) (v : Z)
    (host port : string) : conn_pool_t * list pool_call :=
  if v <? 0 then (p, [])
  else match find_by_fd p v with
       | Some i =>
           match connections p !! i with
           | Some c =>
               if String.eqb (backend_host c) host && String.eqb (backend_port c) port
                  && conn_is_alive alive v
                  && (requests_served c <? max_requests_per_conn p)
               then
                 (lru_touch
                    (set_connections
                       (alter (fun c => set_last_used now (set_state POOL_CONN_FREE c))
                              i (connections p)) p) i, [])
               else (release_slot p i, [SysClose v])
           | None => (p, [SysClose v])
           end
       | None => (p, [SysClose v])
       end.

(** The slots the first loop of [conn_pool_get] looks at: free, holding
    a descriptor, and for this backend. *)
Definition candidate (host port : string) (c : PooledConnection) : bool :=
  is_free (state c) && (0 <=? fd c)
  && String.eqb (backend_host c) host && String.eqb (backend_port c) port.

(** Its three checks on a candidate, in order. *)
Inductive verdict : Type := Expired | WornOut | Dead | Usable.

Definition examine (now : Z) (alive : Z -> bool) (p : conn_pool_t)
    (c : PooledConnection) : verdict :=
  if (0 <? ttl_seconds p) && (ttl_seconds p <? wrap_long (now - created c)) then Expired
  else if max_requests_per_conn p <=? requests_served c then WornOut
  else if negb (conn_is_alive alive (fd c)) then Dead
  else Usable.

(** A candidate that fails a check: [conn->fd = -1; pool->current_size--],
    and [pool->pool_evictions++] for an expired one. *)
Definition discard (expired : bool) (p : conn_pool_t) (i : nat) : conn_pool_t :=
  let p1 := set_current_size (wrap_int (current_size p - 1))
              (set_connections (alter (set_fd (-1)) i (connections p)) p) in
  if expired
  then set_statistics (pool_hits p1) (pool_misses p1) (wrap_ulong (pool_evictions p1 + 1)) p1
  else p1.

(** A usable candidate is handed out. *)
Definition hand_out (now : Z) (p : conn_pool_t) (i : nat) : conn_pool_t :=
  let cs := alter (fun c => set_requests_served (wrap_int (requests_served c + 1))
                              (set_last_used now (set_state POOL_CONN_IN_USE c)))
                  i (connections p) in
  let p1 := lru_touch (set_connections cs p) i in
  set_statistics (wrap_ulong (pool_hits p1 + 1)) (pool_misses p1) (pool_evictions p1) p1.

(** The first loop of [conn_pool_get] over the slots [slots]: the pool,
    the sockets closed, and the descriptor returned from inside the loop,
    if any. *)
Fixpoint get_loop (now : Z) (alive : Z -> bool) (host port : string)
    (slots : list nat) (p : conn_pool_t) (calls : list pool_call)
  : conn_pool_t * list pool_call * option Z :=
  match slots with
  | [] => (p, calls, None)
  | i :: rest =>
      match connections p !! i with
      | Some c =>
          if candidate host port c then
            match examine now alive p c with
            | Expired =>
                get_loop now alive host port rest (discard true p i)
                         (calls ++ [SysClose (fd c)])
            | WornOut | Dead =>
                get_loop now alive host port rest (discard false p i)
                         (calls ++ [SysClose (fd c)])
            | Usable => (hand_out now p i, calls, Some (fd c))
            end
          else get_loop now alive host port rest p calls
      | None => get_loop now alive host port rest p calls
      end
  end.

(** The slot [conn_pool_get] takes for a new connection: a free one, else
    the least recently used one, whose socket it closes. *)
Definition take_slot (p : conn_pool_t) : option nat * conn_pool_t * list pool_call :=
  match find_free_slot p with
  | Some i => (Some i, p, [])
  | None =>
      match lru_tail p with
      | Some t =>
          match connections p !! t with
          | Some c =>
              if 0 <=? fd c then
                (Some t,
                 lru_remove
                   (set_statistics (pool_hits p) (pool_misses p)
                      (wrap_ulong (pool_evictions p + 1))
                      (set_current_size (wrap_int (current_size p - 1)) p)) t,
                 [SysClose (fd c)])
              else (Some t, lru_remove p t, [])
          | None => (Some t, lru_remove p t, [])
          end
      | None => (None, p, [])
      end
  end.

(** The slot filled with a new connection [v] made at [now]; [strncpy]
    keeps 255 characters of the host and 5 of the port. *)
Definition fill_slot (now v : Z) (host port : string) (p : conn_pool_t) (i : nat)
  : conn_pool_t :=
  let cs := alter (fun c => {| fd := v; backend_host := substring 0 255 host;
                               backend_port := substring 0 5 port;
                               last_used := now; created := now;
                               state := POOL_CONN_IN_USE; requests_served := 1;
                               next := next c; prev := prev c |})
                  i (connections p) in
  lru_touch (set_current_size (wrap_int (current_size p + 1)) (set_connections cs p)) i.

(** [conn_pool_get(pool, host, port)] at clock reading [now];
    [connected] is what [create_connection] returns if it is called, a
    new descriptor or -1.  The result is the pool, the socket calls in
    order and the returned descriptor. *)
Definition conn_pool_get (now : Z) (alive : Z -> bool) (connected : Z)
    (p : conn_pool_t) (host port : string) : conn_pool_t * list pool_call * Z :=
  match get_loop now alive host port (seq 0 (max_size p)) p [] with
  | (p1, calls, Some v) => (p1, calls, v)
  | (p1, calls, None) =>
      let p2 := set_statistics (pool_hits p1) (wrap_ulong (pool_misses p1 + 1))
                               (pool_evictions p1) p1 in
      let '(slot, p3, closed) := take_slot p2 in
      let calls3 := calls ++ closed ++ [SysConnect host port] in
      match slot with
      | Some i =>
          if 0 <=? connected
          then (fill_slot now connected host port p3 i, calls3, connected)
          else (p3, calls3, connected)
      | None => (p3, calls3, connected)
      end
  end.

(** *** Vocabulary of the further pool theorems *)

(** The slot after [i] in the order [order], and the one before it. *)
Fixpoint next_in (order : list nat) (i : nat) : option nat :=
  match order with
  | [] => None
  | x :: rest => if decide (x = i) then head rest else next_in rest i
  end.

Fixpoint prev_in (order : list nat) (i : nat) : option nat :=
  match order with
  | [] => None
  | x :: rest => if decide (head rest = Some i) then Some x else prev_in rest i
  end.

(** The slots of [order], most recently used first, form the pool's LRU
    list: [lru_head] and [lru_tail] are its ends, [next] and [prev] of a
    listed slot point to its neighbours, and both are [NULL] in every
    other slot. *)
Record lru_ok (p : conn_pool_t) (order : list nat) : Prop := {
  lru_nodup : NoDup order;
  lru_slots : Forall (fun i => (i < max_size p)%nat) order;
  lru_first : lru_head p = head order;
  lru_last : lru_tail p = last order;
  lru_links : forall i c, connections p !! i = Some c ->
                prev c = prev_in order i /\ next c = next_in order i;
}.

(** The order without the slot [i]. *)
Definition without (i : nat) (order : list nat) : list nat :=
  List.filter (fun x => negb (Nat.eqb x i)) order.

(** The first two statements of [lru_touch] and [lru_remove], which take
    the slot [i] out of the chain of its neighbours. *)
Definition unlinked (cs0 : list PooledConnection) (i : nat) : list PooledConnection :=
  let cs1 := match cs0 !! i ≫= prev with
             | Some j => alter (set_next (cs0 !! i ≫= next)) j cs0
             | None => cs0
             end in
  match cs1 !! i ≫= next with
  | Some j => alter (set_prev (cs1 !! i ≫= prev)) j cs1
  | None => cs1
  end.

(** What a slot holds apart from its links. *)
Definition payload (c : PooledConnection)
  : Z * string * string * Z * Z * PoolConnState * Z :=
  (fd c, backend_host c, backend_port c, last_used c, created c, state c,
   requests_served c).

(** The calls of the pool's interface, with what the clock, the liveness
    probe and [create_connection] answer during each. *)
Inductive pool_op : Type :=
  | PoolGet (now : Z) (alive : Z -> bool) (connected : Z) (host port : string)
  | PoolReturn (now : Z) (alive : Z -> bool) (v : Z) (host port : string)
  | PoolClose (v : Z)
  | PoolCleanup (now : Z) (alive : Z -> bool).

(** The pool after one call. *)
Definition pool_step (p : conn_pool_t) (op : pool_op) : conn_pool_t :=
  match op with
  | PoolGet now alive connected host port =>
      (conn_pool_get now alive connected p host port).1.1
  | PoolReturn now alive v host port => (conn_pool_return now alive p v host port).1
  | PoolClose v => (conn_pool_close p v).1
  | PoolCleanup now alive => (conn_pool_cleanup now alive p).1.1
  end.

(** The two links of a slot. *)
Definition links (c : PooledConnection) : option nat * option nat := (prev c, next c).

(** A candidate that passes the three checks of [conn_pool_get]. *)
Definition usable (now : Z) (alive : Z -> bool) (p : conn_pool_t) (host port : string)
    (c : PooledConnection) : bool :=
  candidate host port c &&
  match examine now alive p c with Usable => true | _ => false end.

(** The descriptors of the candidates among the slots [cs]. *)
Definition candidate_fds (host port : string) (cs : list PooledConnection) : list Z :=
  fd <$> List.filter (candidate host port) cs.

(** A slot after the loop of [conn_pool_get] has found no usable
    candidate: a candidate has been closed. *)
Definition closed_candidate (host port : string) (c : PooledConnection)
  : PooledConnection :=
  if candidate host port c then set_fd (-1) c else c.

(** The payload of a slot handed out again at [now]. *)
Definition handed_out (now : Z) (c : PooledConnection)
  : Z * string * string * Z * Z * PoolConnState * Z :=
  (fd c, backend_host c, backend_port c, now, created c, POOL_CONN_IN_USE,
   wrap_int (requests_served c + 1)).

(** The payload of a slot filled with the new connection [v] at [now]. *)
Definition filled (now v : Z) (host port : string)
  : Z * string * string * Z * Z * PoolConnState * Z :=
  (v, substring 0 255 host, substring 0 5 port, now, now, POOL_CONN_IN_USE, 1).

(** Two liveness probes and pools reached through the interface. *)
Definition all_alive (v : Z) : bool := true.

Definition only_alive (w v : Z) : bool := v =? w.

(** Three slots; connections 7 and 8 to "a":"80" were made at time 0
    and returned at time 1. *)
Definition pool_two_returned : conn_pool_t :=
  fold_left pool_step
    [PoolGet 0 all_alive 7 "a" "80"; PoolGet 0 all_alive 8 "a" "80";
     PoolReturn 1 all_alive 7 "a" "80"; PoolReturn 1 all_alive 8 "a" "80"]
    (conn_pool_create 3 60).

(** One slot, whose connection 7 to "a":"80" is in use. *)
Definition pool_one_in_use : conn_pool_t :=
  pool_step (conn_pool_create 1 60) (PoolGet 0 all_alive 7 "a" "80").

End Pool.

(** * Rate limiter ([rate_limiter.c]) *)

Module RateLimiter.

(** ** IEEE-754 binary64

    A C [double] is a [spec_float] of precision 53 and maximal exponent
    1024, and the arithmetic is the Standard Library's specification of
    the IEEE operations (round to nearest, ties to even). *)
Definition double : Type := spec_float.

Definition dadd : double -> double -> double := SFadd 53 1024.
Definition dsub : double -> double -> double := SFsub 53 1024.
Definition dmul : double -> double -> double := SFmul 53 1024.
Definition ddiv : double -> double -> double := SFdiv 53 1024.
Definition dlt : double -> double -> bool := SFltb.
Definition dle : double -> double -> bool := SFleb.

(** Conversion of an integer to [double]. *)
Definition double_of_Z (z : Z) : double := binary_normalize 53 1024 z 0 false.

Definition d_zero : double := double_of_Z 0.
Definition d_one : double := double_of_Z 1.

Definition LONG_MIN : Z := -9223372036854775808.
Definition LONG_MAX : Z := 9223372036854775807.

(** The integer a finite double truncates to (towards zero). *)
Definition truncate (x : double) : option Z :=
  match x with
  | S754_zero _ => Some 0
  | S754_finite s m e =>
      let mag := if 0 <=? e then Z.pos m * 2 ^ e else Z.quot (Z.pos m) (2 ^ (- e)) in
      Some (if s then - mag else mag)
  | _ => None
  end.

(** The cast [(long)x]; [None] where C leaves it undefined (NaN, an
    infinity, a value outside [long]). *)
Definition double_to_long (x : double) : option Z :=
  match truncate x with
  | Some z => if (LONG_MIN <=? z) && (z <=? LONG_MAX) then Some z else None
  | None => None
  end.

(** The cast [(int)x]. *)
Definition double_to_int (x : double) : option Z :=
  match truncate x with
  | Some z => if (INT_MIN <=? z) && (z <=? INT_MAX) then Some z else None
  | None => None
  end.

(** Neither a NaN nor an infinity. *)
Definition d_finite (x : double) : bool :=
  match x with
  | S754_zero _ | S754_finite _ _ _ => true
  | _ => false
  end.

(** The canonical representations: the mantissa has at most 53 digits,
    exactly 53 unless the exponent is the least one, and the exponent is
    between -1074 and 971.  Every value of a C [double] has one. *)
Definition valid (x : double) : bool := valid_binary 53 1024 x.

(** The double a rounding returns for the sign [s], the integer mantissa
    [m] and the exponent [e]. *)
Definition pack (s : bool) (m e : Z) : double :=
  match m with
  | Z0 => S754_zero s
  | Zpos p => if e <=? 971 then S754_finite s p e else S754_infinity s
  | Zneg _ => S754_nan
  end.

(** The exact value of a finite double, counted in units of 2^-1074, the
    least positive double. *)
Definition ulps (x : double) : Z :=
  match x with
  | S754_finite s m e => cond_Zopp s (Z.pos m * 2 ^ (e + 1074))
  | _ => 0
  end.

(** ** Data *)

Definition HASH_SIZE : Z := 1024.

Inductive RateLimitAlgorithm : Type :=
  | RATE_TOKEN_BUCKET
  | RATE_SLIDING_WINDOW
  | RATE_FIXED_WINDOW.

(** [RateEntry] without its chain pointer: a chain is a list. *)
Record RateEntry : Type := mkEntry {
  key : string;
  tokens : double;
  window_count : Z;
  window_start : Z;
  last_update : Z;
}.

(** [rate_limiter_t] without its mutex.  [buckets] maps a hash to its
    chain; a [NULL] head is the absent or empty chain. *)
Record rate_limiter_t : Type := mkLimiter {
  algorithm : RateLimitAlgorithm;
  rate : double;
  burst : double;
  window_size : Z;
  buckets : gmap Z (list RateEntry);
  global_count : Z;
  global_limit : Z;
  global_window_start : Z;
  allowed : Z;
  denied : Z;
}.

(** The clock readings one [rate_limiter_allow] makes, in program order:
    at the global check, twice when an entry is created ([last_update],
    then [window_start]) and in the algorithm. *)
Record clock : Type := mkClock {
  t_global : Z;
  t_created : Z;
  t_window : Z;
  t_allow : Z;
}.

(** A clock that does not tick during the call. *)
Definition steady (now : Z) : clock :=
  {| t_global := now; t_created := now; t_window := now; t_allow := now |}.

(** [hash_key]: [hash = ((hash << 5) + hash) + *key++] in [unsigned int]
    from 5381, then [% HASH_SIZE]. *)
Fixpoint hash_from (hash : Z) (k : string) : Z :=
  match k with
  | EmptyString => hash
  | String c k' =>
      hash_from (wrap_uint (wrap_uint (wrap_uint (hash * 32) + hash) + LB.char_val c)) k'
  end.

Definition hash_key (k : string) : Z := hash_from 5381 k mod HASH_SIZE.

(** [rate_limiter_create], when both allocations succeed; [None] where
    the cast [(int)burst] is undefined. *)
Definition rate_limiter_create (alg : RateLimitAlgorithm) (r b : double)
  : option rate_limiter_t :=
  match double_to_int b with
  | Some w =>
      Some {| algorithm := alg; rate := r; burst := b; window_size := w;
              buckets := ∅; global_count := 0; global_limit := 0;
              global_window_start := 0; allowed := 0; denied := 0 |}
  | None => None
  end.

Definition chain (l : rate_limiter_t) (idx : Z) : list RateEntry :=
  default [] (buckets l !! idx).

Definition set_buckets (l : rate_limiter_t) (b : gmap Z (list RateEntry)) : rate_limiter_t :=
  {| algorithm := algorithm l; rate := rate l; burst := burst l;
     window_size := window_size l; buckets := b;
     global_count := global_count l; global_limit := global_limit l;
     global_window_start := global_window_start l;
     allowed := allowed l; denied := denied l |}.

(** The walk along a chain with [strcmp]: the position of the entry. *)
Fixpoint find_entry (es : list RateEntry) (k : string) : option nat :=
  match es with
  | [] => None
  | e :: rest =>
      if String.eqb (key e) k then Some O else S <$> find_entry rest k
  end.

(** [find_or_create_entry]: the limiter and the entry found or created,
    as its chain and its position there; [None] for [NULL] when [calloc]
    fails ([alloc_ok = false]).  [strncpy] keeps 63 characters of the key. *)
Definition find_or_create_entry (l : rate_limiter_t) (k : string) (clk : clock)
    (alloc_ok : bool) : rate_limiter_t * option (Z * nat) :=
  let idx := hash_key k in
  match find_entry (chain l idx) k with
  | Some pos => (l, Some (idx, pos))
  | None =>
      if alloc_ok then
        let entry := {| key := substring 0 63 k; tokens := burst l;
                        window_count := 0; window_start := t_window clk;
                        last_update := t_created clk |} in
        (set_buckets l (<[idx := entry :: chain l idx]> (buckets l)), Some (idx, O))
      else (l, None)
  end.

(** [difftime(a, b)] for two [time_t]: their difference as a [double]. *)
Definition difftime (a b : Z) : double := double_of_Z (a - b).

(** The refill of [token_bucket_allow]: [tokens += elapsed * rate],
    clamped to [burst]. *)
Definition refill (l : rate_limiter_t) (e : RateEntry) (now : Z) : double :=
  let elapsed := difftime now (last_update e) in
  let t := dadd (tokens e) (dmul elapsed (rate l)) in
  if dlt (burst l) t then burst l else t.

Definition token_bucket_allow (l : rate_limiter_t) (e : RateEntry) (now : Z)
  : RateEntry * bool :=
  let t := refill l e now in
  if dle d_one t then
    ({| key := key e; tokens := dsub t d_one; window_count := window_count e;
        window_start := window_start e; last_update := now |}, true)
  else
    ({| key := key e; tokens := t; window_count := window_count e;
        window_start := window_start e; last_update := now |}, false).

(** Successive [token_bucket_allow] calls on one entry, at the clock
    readings [nows]: for each call the balance after the refill, the
    entry as the call leaves it and the verdict. *)
Fixpoint bucket_calls (l : rate_limiter_t) (e : RateEntry) (nows : list Z)
  : list (double * RateEntry * bool) :=
  match nows with
  | [] => []
  | now :: rest =>
      let '(e', ok) := token_bucket_allow l e now in
      (refill l e now, e', ok) :: bucket_calls l e' rest
  end.

(** The token-bucket invariant at one call: the entry's [tokens] is not
    greater than [burst], and a call that admits leaves the balance after
    the refill minus exactly 1.0 (both numbers, compared by their exact
    values). *)
Definition bucket_call_ok (l : rate_limiter_t) (c : double * RateEntry * bool) : Prop :=
  let '(refilled, e', ok) := c in
  dlt (burst l) (tokens e') = false /\
  (ok = true ->
   d_finite refilled = true /\ d_finite (tokens e') = true /\
   ulps (tokens e') = ulps refilled - ulps d_one).

(** The weight of the previous window in [sliding_window_allow]. *)
Definition window_weight (l : rate_limiter_t) (e : RateEntry) (now : Z) : double :=
  let w := dsub d_one
             (ddiv (double_of_Z (wrap_long (wrap_long (now - window_start e)
                                            - window_size l)))
                   (double_of_Z (window_size l))) in
  if dlt w d_zero then d_zero else w.

(** [(long)(entry->window_count * weight)]. *)
Definition weighted_count (l : rate_limiter_t) (e : RateEntry) (now : Z) : option Z :=
  double_to_long (dmul (double_of_Z (window_count e)) (window_weight l e now)).

(** The final test of both window algorithms:
    [window_count < rate * window_size], then the increment. *)
Definition window_admit (l : rate_limiter_t) (e : RateEntry) : RateEntry * bool :=
  let max_requests := dmul (rate l) (double_of_Z (window_size l)) in
  if dlt (double_of_Z (window_count e)) max_requests then
    ({| key := key e; tokens := tokens e;
        window_count := wrap_long (window_count e + 1);
        window_start := window_start e; last_update := last_update e |}, true)
  else (e, false).

(** [sliding_window_allow]; [None] where the cast to [long] is undefined. *)
Definition sliding_window_allow (l : rate_limiter_t) (e : RateEntry) (now : Z)
  : option (RateEntry * bool) :=
  if window_size l <=? wrap_long (now - window_start e) then
    match weighted_count l e now with
    | Some c =>
        Some (window_admit l
                {| key := key e; tokens := tokens e; window_count := c;
                   window_start := now; last_update := last_update e |})
    | None => None
    end
  else Some (window_admit l e).

Definition fixed_window_allow (l : rate_limiter_t) (e : RateEntry) (now : Z)
  : RateEntry * bool :=
  if window_size l <=? wrap_long (now - window_start e) then
    window_admit l {| key := key e; tokens := tokens e; window_count := 0;
                      window_start := now; last_update := last_update e |}
  else window_admit l e.

Definition set_counters (l : rate_limiter_t) (gc gws a d : Z) : rate_limiter_t :=
  {| algorithm := algorithm l; rate := rate l; burst := burst l;
     window_size := window_size l; buckets := buckets l;
     global_count := gc; global_limit := global_limit l;
     global_window_start := gws; allowed := a; denied := d |}.

(** The global window of [rate_limiter_allow]: a new second resets the
    global count. *)
Definition roll_global_window (l : rate_limiter_t) (now : Z) : rate_limiter_t :=
  if 0 <? global_limit l then
    if negb (now =? global_window_start l)
    then set_counters l 0 now (allowed l) (denied l)
    else l
  else l.

(** The global cap denies: [global_limit > 0] and
    [global_count >= global_limit]. *)
Definition over_global_cap (l : rate_limiter_t) : bool :=
  (0 <? global_limit l) && (global_limit l <=? global_count l).

(** [rate_limiter_allow]: the limiter afterwards and the returned [int];
    [None] where the sliding window's cast is undefined. *)
Definition rate_limiter_allow (l : rate_limiter_t) (k : string) (clk : clock)
    (alloc_ok : bool) : option (rate_limiter_t * Z) :=
  let l1 := roll_global_window l (t_global clk) in
  if over_global_cap l1 then
    Some (set_counters l1 (global_count l1) (global_window_start l1)
            (allowed l1) (wrap_ulong (denied l1 + 1)), 0)
  else
    match find_or_create_entry l1 k clk alloc_ok with
    | (l2, None) => Some (l2, 1)
    | (l2, Some (idx, pos)) =>
        match chain l2 idx !! pos with
        | None => None
        | Some e =>
            match (match algorithm l2 with
                   | RATE_TOKEN_BUCKET => Some (token_bucket_allow l2 e (t_allow clk))
                   | RATE_SLIDING_WINDOW => sliding_window_allow l2 e (t_allow clk)
                   | RATE_FIXED_WINDOW => Some (fixed_window_allow l2 e (t_allow clk))
                   end) with
            | None => None
            | Some (e', ok) =>
                let l3 := set_buckets l2
                            (<[idx := <[pos := e']> (chain l2 idx)]> (buckets l2)) in
                Some (if ok
                      then set_counters l3 (wrap_long (global_count l3 + 1))
                             (global_window_start l3) (wrap_ulong (allowed l3 + 1))
                             (denied l3)
                      else set_counters l3 (global_count l3) (global_window_start l3)
                             (allowed l3) (wrap_ulong (denied l3 + 1)),
                      if ok then 1 else 0)
            end
        end
    end.

(** [rate_limiter_set_global]. *)
Definition rate_limiter_set_global (l : rate_limiter_t) (limit : Z) : rate_limiter_t :=
  {| algorithm := algorithm l; rate := rate l; burst := burst l;
     window_size := window_size l; buckets := buckets l;
     global_count := global_count l; global_limit := limit;
     global_window_start := global_window_start l;
     allowed := allowed l; denied := denied l |}.

(** *** Vocabulary of the rate-limiter theorems *)

(** The call gets past the global cap. *)
Definition passes_global_cap (l : rate_limiter_t) (clk : clock) : Prop :=
  over_global_cap (roll_global_window l (t_global clk)) = false.

(** No entry of the limiter has the key. *)
Definition no_entry (l : rate_limiter_t) (k : string) : Prop :=
  find_entry (chain l (hash_key k)) k = None.

(** The entry [find_or_create_entry] creates for the key [k]. *)
Definition new_entry (l : rate_limiter_t) (k : string) (clk : clock) : RateEntry :=
  {| key := substring 0 63 k; tokens := burst l; window_count := 0;
     window_start := t_window clk; last_update := t_created clk |}.

(** [rate_limiter_create(RATE_TOKEN_BUCKET, r, b)] for two small
    integers. *)
Definition token_bucket (r b : Z) : rate_limiter_t :=
  {| algorithm := RATE_TOKEN_BUCKET; rate := double_of_Z r;
     burst := double_of_Z b; window_size := b; buckets := ∅;
     global_count := 0; global_limit := 0; global_window_start := 0;
     allowed := 0; denied := 0 |}.

(** [rate_limiter_create(RATE_TOKEN_BUCKET, INFINITY, 10)]. *)
Definition bucket_inf_10 : rate_limiter_t :=
  {| algorithm := RATE_TOKEN_BUCKET; rate := S754_infinity false;
     burst := double_of_Z 10; window_size := 10; buckets := ∅;
     global_count := 0; global_limit := 0; global_window_start := 0;
     allowed := 0; denied := 0 |}.

(** The continuity weight as the claim C8 words it, an exact quotient
    clamped to [[0, 1]]. *)
Definition claimed_weight (now start size : Z) : Q :=
  let w := (1 - inject_Z (now - start - size) / inject_Z size)%Q in
  if Qle_bool w 0 then 0%Q else if Qle_bool 1 w then 1%Q else w.

(** The count the claim C8 carries into the new window. *)
Definition claimed_carry (now start size count : Z) : Z :=
  Qfloor (claimed_weight now start size * inject_Z count)%Q.

(** Ten requests per second over a five second window
    ([rate_limiter_create(RATE_SLIDING_WINDOW, 10, 5)]). *)
Definition sliding_10_5 : rate_limiter_t :=
  {| algorithm := RATE_SLIDING_WINDOW; rate := double_of_Z 10;
     burst := double_of_Z 5; window_size := 5; buckets := ∅;
     global_count := 0; global_limit := 0; global_window_start := 0;
     allowed := 0; denied := 0 |}.

(** An entry that took five requests in the window opened at
    1700000000. *)
Definition five_requests : RateEntry :=
  {| key := "203.0.113.7"; tokens := double_of_Z 5; window_count := 5;
     window_start := 1700000000; last_update := 1700000000 |}.

(** A token bucket of ten requests per second with a burst of ten
    ([rate_limiter_create(RATE_TOKEN_BUCKET, 10, 10)]). *)
Definition bucket_10_10 : rate_limiter_t :=
  {| algorithm := RATE_TOKEN_BUCKET; rate := double_of_Z 10;
     burst := double_of_Z 10; window_size := 10; buckets := ∅;
     global_count := 0; global_limit := 0; global_window_start := 0;
     allowed := 0; denied := 0 |}.

(** A token bucket of one request per second with a burst of two
    ([rate_limiter_create(RATE_TOKEN_BUCKET, 1, 2)]). *)
Definition bucket_1_2 : rate_limiter_t :=
  {| algorithm := RATE_TOKEN_BUCKET; rate := double_of_Z 1;
     burst := double_of_Z 2; window_size := 2; buckets := ∅;
     global_count := 0; global_limit := 0; global_window_start := 0;
     allowed := 0; denied := 0 |}.

(** The entry [find_or_create_entry] makes for [bucket_1_2] at
    1700000000. *)
Definition fresh_entry : RateEntry :=
  {| key := "203.0.113.7"; tokens := double_of_Z 2; window_count := 0;
     window_start := 1700000000; last_update := 1700000000 |}.

(** A limiter whose [burst] of 2^54 is beyond the integers a double
    counts one by one, and its full entry. *)
Definition bucket_2p54 : rate_limiter_t :=
  {| algorithm := RATE_TOKEN_BUCKET; rate := double_of_Z 1;
     burst := double_of_Z (2 ^ 54); window_size := 0; buckets := ∅;
     global_count := 0; global_limit := 0; global_window_start := 0;
     allowed := 0; denied := 0 |}.

Definition entry_2p54 : RateEntry :=
  {| key := "203.0.113.7"; tokens := double_of_Z (2 ^ 54); window_count := 0;
     window_start := 1700000000; last_update := 1700000000 |}.

(** ** The other entry points of [rate_limiter.c] *)

(** The walk of [rate_limiter_remaining] along a chain; at its end the
    key was not found and the full quota [burst] is returned. *)
Fixpoint remaining_in (l : rate_limiter_t) (es : list RateEntry) (k : string) : double :=
  match es with
  | [] => burst l
  | e :: rest =>
      if String.eqb (key e) k then
        match algorithm l with
        | RATE_TOKEN_BUCKET => tokens e
        | RATE_SLIDING_WINDOW | RATE_FIXED_WINDOW =>
            dsub (dmul (rate l) (double_of_Z (window_size l)))
                 (double_of_Z (window_count e))
        end
      else remaining_in l rest k
  end.

Definition rate_limiter_remaining (l : rate_limiter_t) (k : string) : double :=
  remaining_in l (chain l (hash_key k)) k.

(** The chain stored at [buckets[idx]]: an empty chain is a [NULL] head. *)
Definition store_chain (idx : Z) (es : list RateEntry)
    (m : gmap Z (list RateEntry)) : gmap Z (list RateEntry) :=
  match es with
  | [] => delete idx m
  | _ :: _ => <[idx := es]> m
  end.

Definition CLEANUP_EXPIRY : Z := 300.

(** The test [now - entry->last_update > expiry] of [rate_limiter_cleanup]. *)
Definition expired (now : Z) (e : RateEntry) : bool :=
  CLEANUP_EXPIRY <? wrap_long (now - last_update e).

(** The [while (entry)] loop of [rate_limiter_cleanup] on one chain: the
    chain it leaves and the counter [cleaned]. *)
Fixpoint cleanup_chain (now : Z) (es : list RateEntry) (cleaned : Z)
  : list RateEntry * Z :=
  match es with
  | [] => ([], cleaned)
  | e :: rest =>
      if expired now e then cleanup_chain now rest (wrap_int (cleaned + 1))
      else
        let '(rest', c) := cleanup_chain now rest cleaned in
        (e :: rest', c)
  end.

(** One iteration of its [for] loop over the buckets. *)
Definition cleanup_bucket (now : Z) (st : rate_limiter_t * Z) (i : nat)
  : rate_limiter_t * Z :=
  let '(l, cleaned) := st in
  let '(es, c) := cleanup_chain now (chain l (Z.of_nat i)) cleaned in
  (set_buckets l (store_chain (Z.of_nat i) es (buckets l)), c).

(** [rate_limiter_cleanup] at clock reading [now]: the limiter afterwards
    and the returned count ([num_buckets] is [HASH_SIZE] from creation on). *)
Definition rate_limiter_cleanup (now : Z) (l : rate_limiter_t) : rate_limiter_t * Z :=
  fold_left (cleanup_bucket now) (seq 0 (Z.to_nat HASH_SIZE)) (l, 0).

(** [rate_limiter_stats_t]. *)
Record rate_limiter_stats_t : Type := mkStats {
  stats_allowed : Z;
  stats_denied : Z;
  denial_rate : double;
  active_clients : Z;
}.

(** The counting loops of [rate_limiter_get_stats]. *)
Definition count_chain (es : list RateEntry) (n : Z) : Z :=
  fold_left (fun n _ => wrap_int (n + 1)) es n.

Definition count_clients (l : rate_limiter_t) : Z :=
  fold_left (fun n i => count_chain (chain l (Z.of_nat i)) n)
            (seq 0 (Z.to_nat HASH_SIZE)) 0.

Definition rate_limiter_get_stats (l : rate_limiter_t) : rate_limiter_stats_t :=
  let total := wrap_ulong (allowed l + denied l) in
  {| stats_allowed := allowed l;
     stats_denied := denied l;
     denial_rate :=
       (if 0 <? total
        then dmul (ddiv (double_of_Z (denied l)) (double_of_Z total)) (double_of_Z 100)
        else d_zero);
     active_clients := count_clients l |}.

(** *** Vocabulary of the further rate-limiter theorems *)

(** The entry a lookup of [k] ends on. *)
Definition lookup_entry (l : rate_limiter_t) (k : string) : option RateEntry :=
  match find_entry (chain l (hash_key k)) k with
  | Some pos => chain l (hash_key k) !! pos
  | None => None
  end.

(** Every stored key fits the 63 characters [strncpy] keeps, as in every
    limiter built by [rate_limiter_create] and [rate_limiter_allow]. *)
Definition keys_short (l : rate_limiter_t) : Prop :=
  forall idx e, e ∈ chain l idx -> (String.length (key e) <= 63)%nat.

(** All entries of the table, bucket by bucket. *)
Definition all_entries (l : rate_limiter_t) : list RateEntry :=
  flat_map (fun i => chain l (Z.of_nat i)) (seq 0 (Z.to_nat HASH_SIZE)).

(** Successive [rate_limiter_allow] calls for the keys [ks], all within
    the clock second [now] and with memory available: the limiter
    afterwards and the values returned. *)
Fixpoint allow_calls (l : rate_limiter_t) (now : Z) (ks : list string)
  : option (rate_limiter_t * list Z) :=
  match ks with
  | [] => Some (l, [])
  | k :: rest =>
      match rate_limiter_allow l k (steady now) true with
      | Some (l1, r) =>
          match allow_calls l1 now rest with
          | Some (l2, rs) => Some (l2, r :: rs)
          | None => None
          end
      | None => None
      end
  end.

(** The number of admissions among returned values (each is 0 or 1). *)
Definition admissions (rs : list Z) : Z := foldr Z.add 0 rs.

(** Successive [fixed_window_allow] calls on one entry at the clock
    readings [nows]: the entry afterwards and the verdicts. *)
Fixpoint fixed_window_run (l : rate_limiter_t) (e : RateEntry) (nows : list Z)
  : RateEntry * list bool :=
  match nows with
  | [] => (e, [])
  | now :: rest =>
      let '(e1, ok) := fixed_window_allow l e now in
      let '(e2, oks) := fixed_window_run l e1 rest in
      (e2, ok :: oks)
  end.

(** The clock reading falls into the window the entry has open. *)
Definition in_window (l : rate_limiter_t) (e : RateEntry) (now : Z) : Prop :=
  wrap_long (now - window_start e) < window_size l.

(** Ten requests per second over windows of five seconds, fixed
    ([rate_limiter_create(RATE_FIXED_WINDOW, 10, 5)]). *)
Definition fixed_10_5 : rate_limiter_t :=
  {| algorithm := RATE_FIXED_WINDOW; rate := double_of_Z 10;
     burst := double_of_Z 5; window_size := 5; buckets := ∅;
     global_count := 0; global_limit := 0; global_window_start := 0;
     allowed := 0; denied := 0 |}.

(** [bucket_10_10] after [rate_limiter_set_global(limiter, 2)]. *)
Definition capped_at_2 : rate_limiter_t := rate_limiter_set_global bucket_10_10 2.

(** An entry [rate_limiter_cleanup] keeps at clock reading [now]. *)
Definition fresh (now : Z) (e : RateEntry) : bool := negb (expired now e).

(** The entries of the first [n] buckets. *)
Definition entries_upto (l : rate_limiter_t) (n : nat) : list RateEntry :=
  flat_map (fun i => chain l (Z.of_nat i)) (seq 0 n).

(** [fixed_10_5] after the first request of a client at 1700000000. *)
Definition fixed_10_5_in_use : rate_limiter_t :=
  match rate_limiter_allow fixed_10_5 "203.0.113.7" (steady 1700000000) true with
  | Some (l, _) => l
  | None => fixed_10_5
  end.

End RateLimiter.

(** * Portable event loop ([event_loop_select.c]) *)

Module EventLoop.

Definition FD_SETSIZE : Z := 1024.
Definition EINTR : Z := 4.
Definition EBADF : Z := 9.

Definition EVENT_READ : Z := 1.
Definition EVENT_WRITE : Z := 2.
Definition EVENT_ERROR : Z := 4.

(** [event_data_t]; [callback] is the function pointer ([None] for
    [NULL]) and [user_data] the opaque pointer handed back to it. *)
Record event_data_t : Type := mkEventData {
  ed_fd : Z;
  ed_events : Z;
  user_data : nat;
  callback : option nat;
}.

(** [struct event_loop]; the array [fd_data] of [FD_SETSIZE] pointers is
    the finite map of its non-[NULL] entries. *)
Record event_loop : Type := mkLoop {
  max_events : Z;
  max_fd : Z;
  fd_data : gmap Z event_data_t;
}.

(** What calling the callback [cb] with [(fd, events, user_data)] does to
    the loop (callbacks register and remove descriptors). *)
Definition handlers : Type := nat -> Z -> Z -> nat -> event_loop -> event_loop.

Definition event_loop_add (loop : event_loop) (fd events : Z)
    (cb : option nat) (ud : nat) : Z * event_loop :=
  if (fd <? 0) || (FD_SETSIZE <=? fd) then (-1, loop)
  else
    let data := {| ed_fd := fd; ed_events := events; user_data := ud; callback := cb |} in
    (0, {| max_events := max_events loop;
           max_fd := (if max_fd loop <? fd then fd else max_fd loop);
           fd_data := <[fd := data]> (fd_data loop) |}).

Definition event_loop_mod (loop : event_loop) (fd events : Z) : Z * event_loop :=
  if (fd <? 0) || (FD_SETSIZE <=? fd) then (-1, loop)
  else match fd_data loop !! fd with
       | None => (-1, loop)
       | Some data =>
           (0, {| max_events := max_events loop; max_fd := max_fd loop;
                  fd_data := <[fd := {| ed_fd := ed_fd data; ed_events := events;
                                        user_data := user_data data;
                                        callback := callback data |}]>
                               (fd_data loop) |})
       end.

(** The downward search for the new [max_fd] in [event_loop_del]. *)
Fixpoint highest_below (fuel : nat) (m : gmap Z event_data_t) (i : Z) : Z :=
  match fuel with
  | O => -1
  | S fuel' =>
      if i <? 0 then -1
      else match m !! i with
           | Some _ => i
           | None => highest_below fuel' m (i - 1)
           end
  end.

Definition event_loop_del (loop : event_loop) (fd : Z) : Z * event_loop :=
  if (fd <? 0) || (FD_SETSIZE <=? fd) then (-1, loop)
  else
    let m := delete fd (fd_data loop) in
    (0, {| max_events := max_events loop;
           max_fd := (if fd =? max_fd loop
                      then highest_below (Z.to_nat FD_SETSIZE) m (fd - 1)
                      else max_fd loop);
           fd_data := m |}).

(** What [select] hands back: its return value, [errno], and the three
    descriptor sets as it left them. *)
Record select_result : Type := mkSelect {
  sel_ready : Z;
  sel_errno : Z;
  sel_read : list Z;
  sel_write : list Z;
  sel_error : list Z;
}.

Definition fd_isset (fd : Z) (set : list Z) : bool := bool_decide (fd ∈ set).

(** The events reported to the callback of [fd]. *)
Definition ready_events (sel : select_result) (fd : Z) : Z :=
  Z.lor (Z.lor (if fd_isset fd (sel_read sel) then EVENT_READ else 0)
               (if fd_isset fd (sel_write sel) then EVENT_WRITE else 0))
        (if fd_isset fd (sel_error sel) then EVENT_ERROR else 0).

(** The dispatch loop
    [for (fd = 0; fd <= loop->max_fd && processed < ready; fd++)], with
    the calls made so far as [(fd, events)] pairs.  [None] only if the
    iteration bound of the model is exhausted. *)
Fixpoint dispatch (fuel : nat) (invoke : handlers) (sel : select_result)
    (loop : event_loop) (fd processed : Z) (calls : list (Z * Z))
  : option (event_loop * list (Z * Z)) :=
  match fuel with
  | O => None
  | S fuel' =>
      if (fd <=? max_fd loop) && (processed <? sel_ready sel) then
        match fd_data loop !! fd with
        | None => dispatch fuel' invoke sel loop (fd + 1) processed calls
        | Some data =>
            let events := ready_events sel fd in
            match callback data with
            | Some cb =>
                if negb (events =? 0) then
                  dispatch fuel' invoke sel
                    (invoke cb fd events (user_data data) loop)
                    (fd + 1) (wrap_int (processed + 1)) (calls ++ [(fd, events)])
                else dispatch fuel' invoke sel loop (fd + 1) processed calls
            | None => dispatch fuel' invoke sel loop (fd + 1) processed calls
            end
        end
      else Some (loop, calls)
  end.

(** [event_loop_run(loop, timeout_ms)], given what [select] hands back:
    the return value, the callbacks dispatched and the loop afterwards. *)
Definition event_loop_run (invoke : handlers) (loop : event_loop) (timeout_ms : Z)
    (sel : select_result) : option (Z * list (Z * Z) * event_loop) :=
  if max_fd loop <? 0 then Some (0, [], loop)
  else if sel_ready sel <? 0 then
    if sel_errno sel =? EINTR then Some (0, [], loop) else Some (-1, [], loop)
  else
    match dispatch (S (Z.to_nat FD_SETSIZE)) invoke sel loop 0 0 [] with
    | Some (loop', calls) => Some (sel_ready sel, calls, loop')
    | None => None
    end.

(** Callbacks reach the loop through [event_loop_add], [event_loop_mod]
    and [event_loop_del] only, which keep [max_fd] below [FD_SETSIZE]. *)
Definition handlers_bounded (invoke : handlers) : Prop :=
  forall cb fd events ud loop,
    max_fd loop < FD_SETSIZE -> max_fd (invoke cb fd events ud loop) < FD_SETSIZE.

(** Callbacks that leave the loop alone. *)
Definition quiet : handlers := fun _ _ _ _ loop => loop.

(** One descriptor, 3, registered for reading and writing. *)
Definition loop_fd3 : event_loop :=
  (event_loop_add {| max_events := FD_SETSIZE; max_fd := -1; fd_data := ∅ |}
     3 (Z.lor EVENT_READ EVENT_WRITE) (Some 0%nat) 0%nat).2.

(** [select] failing on a descriptor that is no longer open. *)
Definition select_ebadf : select_result :=
  {| sel_ready := -1; sel_errno := EBADF; sel_read := []; sel_write := [];
     sel_error := [] |}.

(** [select] finding descriptor 3 readable and writable: two bits set. *)
Definition select_fd3_rw : select_result :=
  {| sel_ready := 2; sel_errno := 0; sel_read := [3]; sel_write := [3];
     sel_error := [] |}.

(** ** Registration as a whole *)

(** [event_loop_create(max_events)], when [calloc] succeeds: the argument is
    ignored. *)
Definition event_loop_create (requested : Z) : event_loop :=
  {| max_events := FD_SETSIZE; max_fd := -1; fd_data := ∅ |}.

(** A call of the registration interface ([event_loop_add] with memory
    for its record). *)
Inductive loop_op : Type :=
  | OpAdd (fd events : Z) (cb : option nat) (ud : nat)
  | OpMod (fd events : Z)
  | OpDel (fd : Z).

Definition apply_op (loop : event_loop) (op : loop_op) : event_loop :=
  match op with
  | OpAdd fd events cb ud => (event_loop_add loop fd events cb ud).2
  | OpMod fd events => (event_loop_mod loop fd events).2
  | OpDel fd => (event_loop_del loop fd).2
  end.

Definition apply_ops (loop : event_loop) (ops : list loop_op) : event_loop :=
  fold_left apply_op ops loop.

(** [max_fd] is the highest registered descriptor, or -1 when none is
    registered, and all registered descriptors index the table. *)
Record tracks_highest (loop : event_loop) : Prop := {
  th_range : forall fd, is_Some (fd_data loop !! fd) -> 0 <= fd <= max_fd loop;
  th_top : max_fd loop = -1 \/ is_Some (fd_data loop !! max_fd loop);
  th_bound : -1 <= max_fd loop < FD_SETSIZE;
}.

(** Strictly ascending descriptors, none below [lo]. *)
Fixpoint ascending (lo : Z) (fds : list Z) : Prop :=
  match fds with
  | [] => True
  | fd :: rest => lo <= fd /\ ascending (fd + 1) rest
  end.

(** What the dispatch loop owes the descriptor [fd]: a call with the
    events [select] reported, if it is registered with a callback and
    some event is reported. *)
Definition due_at (sel : select_result) (loop : event_loop) (fd : Z) : option (Z * Z) :=
  match fd_data loop !! fd with
  | Some data =>
      match callback data with
      | Some _ =>
          if negb (ready_events sel fd =? 0) then Some (fd, ready_events sel fd)
          else None
      | None => None
      end
  | None => None
  end.

(** The calls due from the [n] descriptors [fd], [fd + 1], ..., in that
    order. *)
Fixpoint due_list (sel : select_result) (loop : event_loop) (n : nat) (fd : Z)
  : list (Z * Z) :=
  match n with
  | O => []
  | S n' =>
      match due_at sel loop fd with
      | Some c => c :: due_list sel loop n' (fd + 1)
      | None => due_list sel loop n' (fd + 1)
      end
  end.

(** The calls due from all descriptors up to [max_fd]. *)
Definition due (sel : select_result) (loop : event_loop) : list (Z * Z) :=
  due_list sel loop (Z.to_nat (max_fd loop + 1)) 0.

(** Callbacks that do not change the registrations. *)
Definition keeps_registrations (invoke : handlers) : Prop :=
  forall cb fd events ud loop, invoke cb fd events ud loop = loop.

(** Descriptors 3 and 5 registered for reading. *)
Definition loop_fd3_fd5 : event_loop :=
  apply_ops (event_loop_create 64)
    [OpAdd 3 EVENT_READ (Some 0%nat) 0%nat; OpAdd 5 EVENT_READ (Some 1%nat) 1%nat].

(** [select] finding both readable. *)
Definition select_fd3_fd5 : select_result :=
  {| sel_ready := 2; sel_errno := 0; sel_read := [5; 3]; sel_write := [];
     sel_error := [] |}.

End EventLoop.

(** * Facts on machine integers *)

Lemma wrap_int_id z : in_int z -> wrap_int z = z.
Proof.
  unfold in_int, INT_MIN, INT_MAX, wrap_int. intros H.
  rewrite Z.mod_small by lia. lia.
Qed.

Lemma wrap_int_range z : in_int (wrap_int z).
Proof.
  unfold in_int, INT_MIN, INT_MAX, wrap_int.
  pose proof (Z.mod_pos_bound (z + 2147483648) 4294967296). lia.
Qed.

(** * Facts on the selection algorithms *)

(** [strncpy] and the like keep a string that is short enough. *)
Lemma substring_whole n : forall s, (String.length s <= n)%nat -> substring 0 n s = s.
Proof.
  induction n as [|n IH]; intros [|a s] Hlen; cbn in *; try reflexivity; [lia|].
  rewrite IH by lia. reflexivity.
Qed.

Module LBFacts.
Import LB.

Lemma hsum_bump_cw bs :
  hsum current_weight (map bump bs) = hsum current_weight bs + hsum weight bs.
Proof.
  induction bs as [|b rest IH]; simpl; [reflexivity|].
  rewrite IH. unfold bump. destruct (is_healthy b) eqn:E; simpl; rewrite ?E; lia.
Qed.

Lemma hsum_bump_weight bs : hsum weight (map bump bs) = hsum weight bs.
Proof.
  induction bs as [|b rest IH]; simpl; [reflexivity|].
  rewrite IH. unfold bump. destruct (is_healthy b) eqn:E; simpl; rewrite ?E; lia.
Qed.

Lemma hsum_insert f bs j b b' :
  bs !! j = Some b -> is_healthy b = true -> is_healthy b' = true ->
  hsum f (<[j := b']> bs) = hsum f bs - f b + f b'.
Proof.
  revert j. induction bs as [|b0 rest IH]; intros j Hj Hb Hb'; [discriminate|].
  destruct j as [|j]; simpl in *.
  - injection Hj as ->. rewrite Hb, Hb'. lia.
  - rewrite (IH j Hj Hb Hb'). lia.
Qed.

Lemma hsum_lower f L bs :
  L <= 0 ->
  Forall (fun b => is_healthy b = true -> L <= f b) bs ->
  Z.of_nat (length bs) * L <= hsum f bs.
Proof.
  intros HL H. induction H as [|b rest Hb _ IH]; simpl; [lia|].
  destruct (is_healthy b); [specialize (Hb eq_refl)|]; lia.
Qed.

Lemma hsum_upper_elem f L bs i b :
  L <= 0 ->
  Forall (fun b => is_healthy b = true -> L <= f b) bs ->
  bs !! i = Some b -> is_healthy b = true ->
  f b + (Z.of_nat (length bs) - 1) * L <= hsum f bs.
Proof.
  intros HL H. revert i. induction H as [|b0 rest Hb0 Hrest IH]; intros i Hi Hb;
    [discriminate|].
  destruct i as [|i]; simpl in Hi.
  - injection Hi as ->. cbn [hsum length]. rewrite Hb.
    pose proof (hsum_lower f L rest HL Hrest). lia.
  - specialize (IH i Hi Hb). cbn [hsum length].
    destruct (is_healthy b0); [specialize (Hb0 eq_refl)|]; lia.
Qed.

Lemma hsum_nonpos f bs :
  Forall (fun b => is_healthy b = true -> f b <= 0) bs -> hsum f bs <= 0.
Proof.
  intros H. induction H as [|b rest Hb _ IH]; simpl; [lia|].
  destruct (is_healthy b); [specialize (Hb eq_refl)|]; lia.
Qed.

Lemma hsum_weight_nonneg bs :
  Forall (fun b => is_healthy b = true -> 0 < weight b) bs -> 0 <= hsum weight bs.
Proof.
  intros H. pose proof (hsum_lower weight 0 bs (Z.le_refl 0)) as P.
  rewrite Z.mul_0_r in P. apply P.
  eapply Forall_impl; [exact H|]. simpl. intros b Hb Hh. specialize (Hb Hh). lia.
Qed.

Lemma wrr_scan_spec bs : forall i total best,
  Forall (fun b => is_healthy b = true ->
                   0 < weight b /\ in_int (current_weight b + weight b)) bs ->
  0 <= total -> total + hsum weight bs <= INT_MAX ->
  exists bst,
    wrr_scan i bs total best = (map bump bs, total + hsum weight bs, bst) /\
    scan_best_ok i (map bump bs) best bst.
Proof.
  induction bs as [|b rest IH]; intros i total best Hall Htot Hmax.
  - exists best. split; [simpl; f_equal; f_equal; lia|].
    destruct best as [[j bj]|]; simpl; auto.
    split; [auto|]. split; [constructor|]. intros j0 b0 [= <- <-]. lia.
  - apply Forall_cons in Hall as [Hb Hrest].
    assert (Hnn : 0 <= hsum weight rest).
    { apply hsum_weight_nonneg. eapply Forall_impl; [exact Hrest|].
      simpl. intros x Hx Hh. apply (Hx Hh). }
    cbn [wrr_scan hsum map] in *. unfold bump at 1 3.
    destruct (is_healthy b) eqn:Eh; cbn [negb].
    + destruct (Hb eq_refl) as [Hw Hr].
      rewrite (wrap_int_id _ Hr).
      rewrite (wrap_int_id (total + weight b))
        by (unfold in_int, INT_MIN, INT_MAX in *; lia).
      set (b' := set_current_weight b (current_weight b + weight b)).
      set (best' := match best with
                    | Some (j, bj) =>
                        if current_weight b' >? current_weight bj
                        then Some (i, b') else best
                    | None => Some (i, b')
                    end).
      destruct (IH (S i) (total + weight b) best' Hrest) as (bst & Eq & Ok);
        [lia | lia |].
      exists bst. rewrite Eq. split; [f_equal; f_equal; lia|].
      assert (Hb'h : is_healthy b' = true) by exact Eh.
      assert (Hbest' : (best' = Some (i, b') /\
                        forall j0 b0, best = Some (j0, b0) ->
                                      current_weight b0 < current_weight b') \/
                       (best' = best /\
                        exists j0 b0, best = Some (j0, b0) /\
                                      current_weight b' <= current_weight b0)).
      { subst best'. destruct best as [[j0 b0]|].
        - destruct (current_weight b' >? current_weight b0) eqn:Ec.
          + left. split; [reflexivity|]. intros ? ? [= <- <-]. lia.
          + right. split; [reflexivity|]. exists j0, b0. split; [reflexivity|]. lia.
        - left. split; [reflexivity|]. intros ? ? [=]. }
      destruct bst as [[j bj]|]; simpl in Ok |- *.
      * destruct Ok as (Hsrc & Hmaxr & Hold).
        split; [|split].
        -- destruct Hsrc as [Hs | (k & -> & Hk & Hkh)].
           ++ destruct Hbest' as [[E _] | [E _]].
              ** right. exists 0%nat. rewrite E in Hs. injection Hs as <- <-.
                 split; [lia|]. split; [reflexivity | exact Hb'h].
              ** left. congruence.
           ++ right. exists (S k). split; [lia|]. split; [exact Hk | exact Hkh].
        -- constructor; [|exact Hmaxr]. intros _.
           destruct Hbest' as [[E _] | [E (j0 & b0 & Eb & Hle)]].
           ++ apply (Hold _ _ E).
           ++ rewrite E in Hold. specialize (Hold _ _ Eb). lia.
        -- intros j0 b0 Eb.
           destruct Hbest' as [[E Hlt] | [E _]].
           ++ specialize (Hold _ _ E). specialize (Hlt _ _ Eb). lia.
           ++ rewrite E in Hold. apply (Hold _ _ Eb).
      * destruct Ok as [Hn _]. destruct Hbest' as [[E _] | [E (j0 & b0 & Eb & _)]];
          congruence.
    + destruct (IH (S i) total best Hrest Htot) as (bst & Eq & Ok); [lia|].
      exists bst. rewrite Eq. split; [f_equal; f_equal; lia|].
      destruct bst as [[j bj]|]; simpl in Ok |- *.
      * destruct Ok as (Hsrc & Hmaxr & Hold).
        split; [|split; [|exact Hold]].
        -- destruct Hsrc as [Hs | (k & -> & Hk & Hkh)]; [left; exact Hs|].
           right. exists (S k). split; [lia|]. split; [exact Hk | exact Hkh].
        -- constructor; [|exact Hmaxr]. rewrite Eh. discriminate.
      * destruct Ok as [Hn Hf]. split; [exact Hn|]. constructor; [exact Eh | exact Hf].
Qed.

Lemma set_current_weight_twice b x y :
  set_current_weight (set_current_weight b x) y = set_current_weight b y.
Proof. reflexivity. Qed.

Lemma bump_healthy b : is_healthy (bump b) = is_healthy b.
Proof. unfold bump. destruct (is_healthy b) eqn:E; simpl; auto. Qed.

Lemma bump_weight b : weight (bump b) = weight b.
Proof. unfold bump. destruct (is_healthy b); reflexivity. Qed.

Lemma bump_cw b :
  is_healthy b = true -> current_weight (bump b) = current_weight b + weight b.
Proof. unfold bump. intros ->. reflexivity. Qed.

Lemma roster_shape_bump bs : roster_shape (map bump bs) = roster_shape bs.
Proof.
  unfold roster_shape. rewrite map_map. apply map_ext. intros b.
  rewrite bump_healthy, bump_weight. reflexivity.
Qed.

Lemma roster_shape_insert bs j b b' :
  bs !! j = Some b -> weight b' = weight b -> is_healthy b' = is_healthy b ->
  roster_shape (<[j := b']> bs) = roster_shape bs.
Proof.
  unfold roster_shape. intros Hj Hw Hh.
  rewrite list_fmap_insert. apply list_insert_id.
  rewrite list_lookup_fmap, Hj. simpl. congruence.
Qed.

Lemma roster_shape_lookup bs bs' i b :
  roster_shape bs = roster_shape bs' -> bs !! i = Some b ->
  exists b', bs' !! i = Some b' /\ weight b' = weight b /\ is_healthy b' = is_healthy b.
Proof.
  unfold roster_shape. intros E Hi.
  assert (H : map (fun b => (weight b, is_healthy b)) bs' !! i
              = Some (weight b, is_healthy b)).
  { rewrite <- E, list_lookup_fmap, Hi. reflexivity. }
  rewrite list_lookup_fmap in H. destruct (bs' !! i) as [b'|]; [|discriminate].
  exists b'. simpl in H. injection H as <- <-. auto.
Qed.

Lemma roster_shape_length bs bs' :
  roster_shape bs = roster_shape bs' -> length bs = length bs'.
Proof.
  unfold roster_shape. intros E. apply (f_equal (@length _)) in E.
  rewrite !length_map in E. exact E.
Qed.

(** Between selections every healthy [current_weight] lies in
    [(-W, (n-1) * W]]. *)
Lemma wrr_inv_upper W bs i b :
  wrr_inv W bs -> 0 < W -> bs !! i = Some b -> is_healthy b = true ->
  current_weight b <= (Z.of_nat (length bs) - 1) * (W - 1) /\ weight b <= W.
Proof.
  intros [Hw Hp Hs Hl] HW Hi Hb. split.
  - pose proof (hsum_upper_elem current_weight (- W + 1) bs i b) as P.
    rewrite Hs in P. 
    assert (Q : current_weight b + (Z.of_nat (length bs) - 1) * (- W + 1) <= 0).
    { apply P; auto; [lia|]. eapply Forall_impl; [exact Hl|].
      simpl. intros x Hx Hh. specialize (Hx Hh). lia. }
    lia.
  - pose proof (hsum_upper_elem weight 0 bs i b) as P. rewrite Hw in P.
    assert (Q : weight b + (Z.of_nat (length bs) - 1) * 0 <= W).
    { apply P; auto; [lia|]. eapply Forall_impl; [exact Hp|].
      simpl. intros x Hx Hh. specialize (Hx Hh). lia. }
    lia.
Qed.

(** One selection: the scan bumps every healthy backend, the winner sits at
    a healthy index and gives up [W], and the invariant is kept. *)
Lemma wrr_step W lb :
  wrr_inv W (backends lb) -> 0 < W -> num_backends lb * W <= INT_MAX ->
  exists j b,
    backends lb !! j = Some b /\ is_healthy b = true /\
    let bs' := <[j := set_current_weight b (current_weight b + weight b - W)]>
                 (map bump (backends lb)) in
    select_weighted_round_robin lb = Ret (Some (Z.of_nat j), set_backends lb bs') /\
    wrr_inv W bs'.
Proof.
  intros Hinv HW Hn. unfold num_backends in Hn.
  set (bs := backends lb) in *.
  assert (Hlen : 1 <= Z.of_nat (length bs)).
  { destruct bs; [|simpl; lia]. destruct Hinv as [Hw _ _ _]. simpl in Hw. lia. }
  assert (Hrange : forall i b, bs !! i = Some b -> is_healthy b = true ->
             0 < weight b /\ - W < current_weight b /\
             current_weight b + weight b <= Z.of_nat (length bs) * W).
  { intros i b Hi Hb.
    destruct (wrr_inv_upper W bs i b Hinv HW Hi Hb) as [Hu Hwb].
    destruct Hinv as [_ Hp _ Hl].
    rewrite Forall_lookup in Hp, Hl.
    specialize (Hp i b Hi Hb). specialize (Hl i b Hi Hb). nia. }
  destruct (wrr_scan_spec bs 0 0 None) as (bst & Eq & Ok).
  { apply Forall_lookup. intros i b Hi Hb.
    destruct (Hrange i b Hi Hb) as (H1 & H2 & H3).
    split; [exact H1|]. unfold in_int, INT_MIN, INT_MAX in *. nia. }
  { lia. }
  { destruct Hinv as [Hw _ _ _]. rewrite Hw. nia. }
  destruct Hinv as [Hw Hp Hs Hl]. rewrite Hw, Z.add_0_l in Eq.
  destruct bst as [[j bj]|]; simpl in Ok.
  - destruct Ok as (Hsrc & Hmax & _).
    destruct Hsrc as [? | (k & -> & Hk & Hkh)]; [discriminate|].
    simpl in *. rewrite list_lookup_fmap in Hk.
    destruct (bs !! k) as [b|] eqn:Hb; [|discriminate].
    simpl in Hk. injection Hk as <-. rewrite bump_healthy in Hkh.
    destruct (Hrange k b Hb Hkh) as (H1 & H2 & H3).
    assert (Hpos : 0 < current_weight (bump b)).
    { destruct (Z_lt_le_dec 0 (current_weight (bump b))) as [|Hle]; [assumption|].
      exfalso. pose proof (hsum_nonpos current_weight (map bump bs)) as P.
      rewrite hsum_bump_cw, Hs, Hw in P.
      assert (0 + W <= 0); [|lia]. apply P.
      eapply Forall_impl; [exact Hmax|]. simpl. intros x Hx Hh.
      specialize (Hx Hh). lia. }
    rewrite (bump_cw _ Hkh) in Hpos.
    exists k, b. split; [exact Hb|]. split; [exact Hkh|]. cbv zeta.
    unfold select_weighted_round_robin. fold bs. rewrite Eq.
    assert (Eb : set_current_weight (bump b)
                   (wrap_int (current_weight (bump b) - W))
                 = set_current_weight b (current_weight b + weight b - W)).
    { rewrite (bump_cw _ Hkh). rewrite wrap_int_id
        by (unfold in_int, INT_MIN, INT_MAX in *; nia).
      unfold bump. rewrite Hkh. reflexivity. }
    rewrite Eb. split; [reflexivity|].
    assert (Hkb : map bump bs !! k = Some (bump b))
      by (rewrite list_lookup_fmap, Hb; reflexivity).
    assert (Hbh : is_healthy (bump b) = true) by (rewrite bump_healthy; exact Hkh).
    constructor.
    + rewrite (hsum_insert weight _ k (bump b)); auto.
      rewrite hsum_bump_weight, bump_weight. simpl. lia.
    + apply Forall_insert; [|simpl; intros _; exact H1].
      apply Forall_fmap. eapply Forall_impl; [exact Hp|].
      simpl. intros x Hx. rewrite bump_healthy, bump_weight. exact Hx.
    + rewrite (hsum_insert current_weight _ k (bump b)); auto.
      rewrite hsum_bump_cw, (bump_cw _ Hkh). simpl. lia.
    + apply Forall_insert; [|simpl; intros _; lia].
      apply Forall_fmap. apply Forall_lookup. intros i x Hi. simpl.
      rewrite bump_healthy. intros Hh. rewrite (bump_cw _ Hh).
      destruct (Hrange i x Hi Hh) as (? & ? & ?). lia.
  - destruct Ok as [_ Hnone]. exfalso.
    assert (hsum weight (map bump bs) = 0); [|rewrite hsum_bump_weight in *; lia].
    clear -Hnone. induction Hnone as [|x l Hx _ IH]; simpl; [reflexivity|].
    rewrite Hx. lia.
Qed.

Lemma wrr_run_tracked W : forall k lb k0 c,
  wrr_inv W (backends lb) -> 0 < W -> num_backends lb * W <= INT_MAX ->
  tracked W k0 c (backends lb) ->
  exists ps lb',
    wrr_run k lb = Ret (ps, lb') /\
    length ps = k /\
    wrr_inv W (backends lb') /\
    roster_shape (backends lb') = roster_shape (backends lb) /\
    tracked W (k0 + Z.of_nat k)
      (fun i => c i + count_picks (Z.of_nat i) ps) (backends lb') /\
    Forall (healthy_pick (backends lb)) ps.
Proof.
  induction k as [|k IH]; intros lb k0 c Hinv HW Hn Htr.
  - exists [], lb. simpl.
    split; [reflexivity|]. split; [reflexivity|]. split; [exact Hinv|].
    split; [reflexivity|]. split; [|constructor].
    intros i b Hi Hb. rewrite (Htr i b Hi Hb). lia.
  - destruct (wrr_step W lb Hinv HW Hn) as (j & b & Hj & Hh & Eq & Hinv').
    cbv zeta in Eq, Hinv'.
    set (bs := backends lb) in *.
    set (b1 := set_current_weight b (current_weight b + weight b - W)) in *.
    set (bs' := <[j := b1]> (map bump bs)) in *.
    assert (Hjb : map bump bs !! j = Some (bump b))
      by (rewrite list_lookup_fmap, Hj; reflexivity).
    assert (Hshape : roster_shape bs' = roster_shape bs).
    { unfold bs'. rewrite (roster_shape_insert _ j (bump b)); auto.
      - apply roster_shape_bump.
      - rewrite bump_weight. reflexivity.
      - rewrite bump_healthy. reflexivity. }
    assert (Htr' : tracked W (k0 + 1)
              (fun i => c i + (if Z.of_nat j =? Z.of_nat i then 1 else 0)) bs').
    { intros i x Hi Hx. unfold bs' in Hi.
      destruct (decide (j = i)) as [<-|Hne].
      - rewrite list_lookup_insert_eq in Hi
          by (rewrite length_map; eapply lookup_lt_Some; eauto).
        injection Hi as <-. rewrite Z.eqb_refl. simpl.
        rewrite (Htr j b Hj Hh). lia.
      - rewrite list_lookup_insert_ne in Hi by exact Hne.
        rewrite list_lookup_fmap in Hi.
        destruct (bs !! i) as [y|] eqn:Hy; [|discriminate].
        simpl in Hi. injection Hi as <-. rewrite bump_healthy in Hx.
        rewrite (bump_cw _ Hx), bump_weight, (Htr i y Hy Hx).
        destruct (Z.eqb_spec (Z.of_nat j) (Z.of_nat i)); [lia|]. lia. }
    destruct (IH (set_backends lb bs') (k0 + 1)
                (fun i => c i + (if Z.of_nat j =? Z.of_nat i then 1 else 0)))
      as (ps & lb' & Erun & Hlen & Hinv'' & Hshape' & Htr'' & Hpicks); auto.
    { unfold num_backends in *. simpl. fold bs in Hn.
      rewrite (roster_shape_length _ _ Hshape). exact Hn. }
    exists (Some (Z.of_nat j) :: ps), lb'.
    split; [|split; [|split; [|split; [|split]]]].
    + cbn [wrr_run]. rewrite Eq. cbn [bind]. rewrite Erun. reflexivity.
    + simpl. congruence.
    + exact Hinv''.
    + simpl in Hshape'. congruence.
    + intros i x Hi Hx. rewrite (Htr'' i x Hi Hx). cbn [count_picks].
      rewrite Nat2Z.inj_succ. lia.
    + constructor.
      * exists j, b. auto.
      * eapply Forall_impl; [exact Hpicks|]. simpl.
        intros p (j' & b' & -> & Hj' & Hh').
        destruct (roster_shape_lookup bs' bs j' b' Hshape Hj') as (y & Hy & _ & Hyh).
        exists j', y. split; [reflexivity|]. split; [exact Hy | congruence].
Qed.

Lemma count_picks_unhealthy bs ps i b :
  Forall (healthy_pick bs) ps -> bs !! i = Some b -> is_healthy b = false ->
  count_picks (Z.of_nat i) ps = 0.
Proof.
  intros H Hi Hb. induction H as [|p rest (j & y & -> & Hj & Hy) _ IH];
    [reflexivity|].
  cbn [count_picks]. rewrite IH.
  destruct (Z.eqb_spec (Z.of_nat j) (Z.of_nat i)) as [E|]; [|lia].
  apply Nat2Z.inj in E. subst j. congruence.
Qed.

Lemma hsum_all_zero f bs :
  Forall (fun b => is_healthy b = true -> f b = 0) bs -> hsum f bs = 0.
Proof.
  intros H. induction H as [|b rest Hb _ IH]; simpl; [reflexivity|].
  destruct (is_healthy b); [rewrite (Hb eq_refl)|]; lia.
Qed.

Lemma multiple_above_neg W t : 0 < W -> - W < W * t -> 0 <= W * t.
Proof. intros HW H. assert (0 <= t) by nia. nia. Qed.

(** C1.  Smooth weighted round-robin is exact over one cycle: starting from
    [current_weight = 0] on a roster whose healthy set is not empty and has
    positive weights of total [W] (with the [int] range respected,
    [num_backends * W <= INT_MAX]), [W] consecutive calls of
    [select_weighted_round_robin] all return, and they return each healthy
    backend exactly [weight] times (and an unhealthy one never). *)
Theorem wrr_cycle_exact lb :
  (exists b, b ∈ backends lb /\ is_healthy b = true) ->
  Forall (fun b => is_healthy b = true -> 0 < weight b /\ current_weight b = 0)
         (backends lb) ->
  num_backends lb * healthy_weight lb <= INT_MAX ->
  exists ps lb',
    wrr_run (Z.to_nat (healthy_weight lb)) lb = Ret (ps, lb') /\
    length ps = Z.to_nat (healthy_weight lb) /\
    forall i b, backends lb !! i = Some b ->
      count_picks (Z.of_nat i) ps = if is_healthy b then weight b else 0.
Proof.
  intros (b0 & Hin & Hb0) Hall Hn.
  set (W := healthy_weight lb) in *. set (bs := backends lb) in *.
  apply list_elem_of_lookup in Hin as (i0 & Hi0).
  assert (Hpos : Forall (fun b => is_healthy b = true -> 0 < weight b) bs).
  { eapply Forall_impl; [exact Hall|]. simpl. intros x Hx Hh. apply (Hx Hh). }
  assert (HW : 0 < W).
  { pose proof (hsum_upper_elem weight 0 bs i0 b0) as P.
    assert (weight b0 + (Z.of_nat (length bs) - 1) * 0 <= hsum weight bs).
    { apply P; auto; [lia|]. eapply Forall_impl; [exact Hpos|].
      simpl. intros x Hx Hh. specialize (Hx Hh). lia. }
    rewrite Forall_lookup in Hpos. specialize (Hpos i0 b0 Hi0 Hb0).
    unfold W, healthy_weight. fold bs. lia. }
  assert (Hinv : wrr_inv W bs).
  { constructor; auto.
    - apply hsum_all_zero. eapply Forall_impl; [exact Hall|].
      simpl. intros x Hx Hh. apply (Hx Hh).
    - eapply Forall_impl; [exact Hall|]. simpl. intros x Hx Hh.
      destruct (Hx Hh) as [_ ->]. lia. }
  destruct (wrr_run_tracked W (Z.to_nat W) lb 0 (fun _ => 0))
    as (ps & lb' & Erun & Hlen & Hinv' & Hshape & Htr & Hpicks); auto.
  { intros i b Hi Hb. rewrite Forall_lookup in Hall.
    destruct (Hall i b Hi Hb) as [_ ->]. lia. }
  exists ps, lb'. split; [exact Erun|]. split; [exact Hlen|].
  rewrite Z2Nat.id in Htr by lia. fold bs in Hshape, Hpicks.
  set (bs' := backends lb') in *.
  assert (Hnonneg : Forall (fun b => is_healthy b = true -> 0 <= current_weight b) bs').
  { apply Forall_lookup. intros i x Hi Hx.
    pose proof (Htr i x Hi Hx) as E. destruct Hinv' as [_ _ _ Hl].
    rewrite Forall_lookup in Hl. specialize (Hl i x Hi Hx).
    cbv beta in E.
    pose proof (multiple_above_neg W
                  (weight x - (0 + count_picks (Z.of_nat i) ps)) HW) as P.
    lia. }
  intros i b Hi. destruct (is_healthy b) eqn:Hb.
  - destruct (roster_shape_lookup bs bs' i b (eq_sym Hshape) Hi) as (x & Hx & Hxw & Hxh).
    rewrite Hb in Hxh. pose proof (Htr i x Hx Hxh) as E. cbv beta in E.
    pose proof (hsum_upper_elem current_weight 0 bs' i x (Z.le_refl 0) Hnonneg Hx Hxh) as P.
    destruct Hinv' as [_ _ Hs _]. rewrite Hs in P.
    rewrite Forall_lookup in Hnonneg. specialize (Hnonneg i x Hx Hxh).
    rewrite Hxw in E.
    assert (E0 : W * (weight b - (0 + count_picks (Z.of_nat i) ps)) = 0) by lia.
    apply Z.mul_eq_0 in E0. lia.
  - apply (count_picks_unhealthy bs ps i b Hpicks Hi Hb).
Qed.

Lemma wrr_cycle_exact_witness :
  exists ps lb',
    wrr_run (Z.to_nat (healthy_weight roster_321)) roster_321 = Ret (ps, lb') /\
    length ps = Z.to_nat (healthy_weight roster_321) /\
    forall i b, backends roster_321 !! i = Some b ->
      count_picks (Z.of_nat i) ps = if is_healthy b then weight b else 0.
Proof.
  apply (wrr_cycle_exact roster_321).
  - exists (fresh_backend "A" "9001" 3). split; [left | reflexivity].
  - repeat constructor.
  - vm_compute. discriminate.
Defined.

(** C4, refuted as stated: on three healthy backends of weights 3, 2, 1 the
    first six selections are not A, A, B, A, B, C. *)
Lemma wrr_321_not_aababc :
  ~ exists lb', wrr_run 6 roster_321 = Ret (aababc, lb').
Proof. intros [lb' H]. vm_compute in H. discriminate H. Qed.

(** C4, amended: with three healthy backends A, B, C of weights 3, 2, 1 and
    all [current_weight] zero, the first six smooth weighted round-robin
    selections are A, B, A, C, B, A. *)
Theorem wrr_321_sequence a b c idx alg :
  is_healthy a = true -> is_healthy b = true -> is_healthy c = true ->
  weight a = 3 -> weight b = 2 -> weight c = 1 ->
  current_weight a = 0 -> current_weight b = 0 -> current_weight c = 0 ->
  exists lb',
    wrr_run 6 (mkLB [a; b; c] idx alg)
    = Ret ([Some 0; Some 1; Some 0; Some 2; Some 1; Some 0], lb').
Proof.
  destruct a, b, c. simpl. intros. subst. eexists. vm_compute. reflexivity.
Qed.

Lemma wrr_321_sequence_witness :
  exists lb',
    wrr_run 6 roster_321
    = Ret ([Some 0; Some 1; Some 0; Some 2; Some 1; Some 0], lb').
Proof.
  apply (wrr_321_sequence (fresh_backend "A" "9001" 3) (fresh_backend "B" "9002" 2)
           (fresh_backend "C" "9003" 1) (-1) ALG_WEIGHTED_ROUND_ROBIN);
    reflexivity.
Defined.

(** *** No policy returns [NULL] on a roster [main] accepts *)

Lemma backend_at_ok lb i :
  0 <= i < num_backends lb -> exists b, backend_at lb i = Ret b /\ b ∈ backends lb.
Proof.
  unfold backend_at, num_backends. intros H.
  destruct (Z.ltb_spec i 0); [lia|].
  destruct (lookup_lt_is_Some_2 (backends lb) (Z.to_nat i)) as [b Hb]; [lia|].
  rewrite Hb. exists b. split; [reflexivity|].
  apply list_elem_of_lookup. eauto.
Qed.

Lemma c_rem_next i n :
  -1 <= i < n -> 0 < n <= MAX_BACKENDS ->
  c_rem (wrap_int (i + 1)) n = Ret ((i + 1) mod n) /\ 0 <= (i + 1) mod n < n.
Proof.
  unfold MAX_BACKENDS. intros Hi Hn.
  rewrite wrap_int_id by (unfold in_int, INT_MIN, INT_MAX; lia).
  unfold c_rem. destruct (Z.eqb_spec n 0); [lia|].
  rewrite Z.rem_mod_nonneg by lia.
  split; [reflexivity|]. apply Z.mod_pos_bound. lia.
Qed.

Lemma rr_loop_ok : forall fuel lb attempts,
  0 < num_backends lb <= MAX_BACKENDS ->
  -1 <= current_index lb < num_backends lb ->
  0 <= attempts < num_backends lb ->
  (Z.to_nat (num_backends lb - attempts) <= fuel)%nat ->
  exists r lb1,
    rr_loop fuel lb attempts = Ret (r, lb1) /\
    backends lb1 = backends lb /\
    0 <= current_index lb1 < num_backends lb /\
    forall idx, r = Some idx -> 0 <= idx < num_backends lb.
Proof.
  induction fuel as [|fuel IH]; intros lb attempts Hn Hi Ha Hf; [lia|].
  cbn [rr_loop].
  destruct (c_rem_next (current_index lb) (num_backends lb)) as [E Hr]; [lia..|].
  rewrite E. cbn [bind].
  set (idx := (current_index lb + 1) mod num_backends lb) in *.
  set (lb1 := set_current_index lb idx).
  assert (Hn1 : num_backends lb1 = num_backends lb) by reflexivity.
  destruct (backend_at_ok lb1 idx) as (b & Eb & _); [rewrite Hn1; lia|].
  rewrite Eb. cbn [bind].
  destruct (is_healthy b).
  - exists (Some idx), lb1.
    split; [reflexivity|]. split; [reflexivity|]. split; [simpl; lia|].
    intros ? [= <-]. lia.
  - rewrite wrap_int_id
      by (unfold in_int, INT_MIN, INT_MAX, MAX_BACKENDS in *; lia).
    rewrite Hn1. destruct (Z.ltb_spec (attempts + 1) (num_backends lb)).
    + destruct (IH lb1 (attempts + 1)) as (r & lb2 & E2 & Hb2 & Hi2 & Hr2);
        rewrite ?Hn1; simpl; try lia.
      exists r, lb2. rewrite Hn1 in *.
      split; [exact E2|]. split; [exact Hb2|]. split; [exact Hi2 | exact Hr2].
    + exists None, lb1.
      split; [reflexivity|]. split; [reflexivity|]. split; [simpl; lia|].
      discriminate.
Qed.

Lemma select_round_robin_ok lb :
  0 < num_backends lb <= MAX_BACKENDS ->
  -1 <= current_index lb < num_backends lb ->
  exists idx lb1,
    select_round_robin lb = Ret (Some idx, lb1) /\ 0 <= idx < num_backends lb.
Proof.
  intros Hn Hi. unfold select_round_robin.
  destruct (rr_loop_ok (S (length (backends lb))) lb 0) as (r & lb1 & E & Hb & _ & Hr);
    try lia.
  { unfold num_backends. lia. }
  rewrite E. cbn [bind]. destruct r as [idx|].
  - exists idx, lb1. split; [reflexivity|]. apply Hr. reflexivity.
  - assert (Hn1 : num_backends lb1 = num_backends lb)
      by (unfold num_backends; rewrite Hb; reflexivity).
    rewrite Hn1.
    destruct (c_rem_next (current_index lb) (num_backends lb)) as [E2 Hr2]; [lia..|].
    rewrite E2. cbn [bind]. eexists _, lb1. split; [reflexivity | exact Hr2].
Qed.

Lemma wrr_scan_shape bs : forall i total best,
  match wrr_scan i bs total best with
  | (bs', _, bst) =>
      length bs' = length bs /\
      forall j bj, bst = Some (j, bj) ->
        best = Some (j, bj) \/ (i <= j < i + length bs)%nat
  end.
Proof.
  induction bs as [|b rest IH]; intros i total best; cbn [wrr_scan].
  - split; [reflexivity|]. intros j bj ->. left. reflexivity.
  - destruct (is_healthy b); cbn [negb].
    + match goal with
      | |- context [wrr_scan (S i) rest ?t ?bb] =>
          specialize (IH (S i) t bb); destruct (wrr_scan (S i) rest t bb)
            as [[rest' t'] bst]
      end.
      destruct IH as [Hl Hb]. split; [simpl; congruence|].
      intros j bj Hj. destruct (Hb j bj Hj) as [Hs | Hs]; [|simpl; right; lia].
      destruct best as [[j0 b0]|].
      * destruct (_ >? _); [|left; exact Hs].
        injection Hs as <- <-. right. simpl. lia.
      * injection Hs as <- <-. right. simpl. lia.
    + specialize (IH (S i) total best).
      destruct (wrr_scan (S i) rest total best) as [[rest' t'] bst].
      destruct IH as [Hl Hb]. split; [simpl; congruence|].
      intros j bj Hj. destruct (Hb j bj Hj) as [Hs | Hs]; [left; exact Hs|].
      right. simpl. lia.
Qed.

Lemma lc_scan_ok bs : forall i min_score best,
  Forall (fun b => 1 <= weight b) bs ->
  exists r,
    lc_scan i bs min_score best = Ret r /\
    forall j, r = Some j -> best = Some j \/ (i <= j < i + length bs)%nat.
Proof.
  induction bs as [|b rest IH]; intros i m best Hw; cbn [lc_scan].
  - exists best. split; [reflexivity|]. intros j ->. left. reflexivity.
  - apply Forall_cons in Hw as [Hb Hrest].
    assert (Hstep : forall m' best',
              (best' = best \/ best' = Some i) ->
              exists r, lc_scan (S i) rest m' best' = Ret r /\
                forall j, r = Some j ->
                  best = Some j \/ (i <= j < i + length (b :: rest))%nat).
    { intros m' best' Hbest'.
      destruct (IH (S i) m' best' Hrest) as (r & E & Hr).
      exists r. split; [exact E|]. intros j Hj.
      destruct (Hr j Hj) as [Hs | Hs]; [|right; simpl; lia].
      destruct Hbest' as [-> | ->]; [left; exact Hs|].
      injection Hs as <-. right. simpl. lia. }
    destruct (is_healthy b); cbn [negb]; [|apply Hstep; left; reflexivity].
    unfold c_div. destruct (Z.eqb_spec (weight b) 0); [lia|]. cbn [bind].
    destruct (_ <? m); apply Hstep; auto.
Qed.

Lemma ip_loop_ok lb start : forall fuel k,
  0 < num_backends lb <= MAX_BACKENDS ->
  0 <= start < num_backends lb ->
  0 <= k < num_backends lb ->
  (Z.to_nat (num_backends lb - k) <= fuel)%nat ->
  exists r,
    ip_loop fuel lb start ((start + k) mod num_backends lb) = Ret r /\
    forall idx, r = Some idx -> 0 <= idx < num_backends lb.
Proof.
  induction fuel as [|fuel IH]; intros k Hn Hs Hk Hf; [lia|].
  cbn [ip_loop]. set (n := num_backends lb) in *.
  assert (Hidx : 0 <= (start + k) mod n < n) by (apply Z.mod_pos_bound; lia).
  destruct (backend_at_ok lb ((start + k) mod n)) as (b & Eb & _); [exact Hidx|].
  rewrite Eb. cbn [bind].
  destruct (is_healthy b).
  - eexists. split; [reflexivity|]. intros ? [= <-]. exact Hidx.
  - destruct (c_rem_next ((start + k) mod n) n) as [E Hr]; [lia..|].
    rewrite E. cbn [bind]. rewrite Zplus_mod_idemp_l.
    destruct (Z.eqb_spec ((start + k + 1) mod n) start) as [Heq|Hne]; cbn [negb].
    + exists None. split; [reflexivity | discriminate].
    + assert (k + 1 < n).
      { destruct (Z_lt_le_dec (k + 1) n); [assumption|]. exfalso. apply Hne.
        replace (start + k + 1) with (start + 1 * n) by lia.
        rewrite Z_mod_plus_full. apply Z.mod_small. lia. }
      replace (start + k + 1) with (start + (k + 1)) by lia.
      apply IH; lia.
Qed.

Lemma select_ip_hash_ok lb ip :
  0 < num_backends lb <= MAX_BACKENDS ->
  exists idx,
    select_ip_hash lb ip = Ret (Some idx, lb) /\ 0 <= idx < num_backends lb.
Proof.
  intros Hn. unfold select_ip_hash, c_urem, wrap_uint.
  set (n := num_backends lb) in *. unfold MAX_BACKENDS in Hn.
  rewrite (Z.mod_small n) by lia.
  destruct (Z.eqb_spec n 0); [lia|]. cbn [bind].
  assert (Hs : 0 <= ip_hash ip mod n < n) by (apply Z.mod_pos_bound; lia).
  rewrite wrap_int_id by (unfold in_int, INT_MIN, INT_MAX; lia).
  set (start := ip_hash ip mod n) in *.
  destruct (ip_loop_ok lb start (S (length (backends lb))) 0) as (r & E & Hr);
    try (unfold MAX_BACKENDS; fold n; lia).
  { fold n. unfold n, num_backends. lia. }
  fold n in E. rewrite Z.add_0_r, (Z.mod_small start) in E by lia.
  rewrite E. cbn [bind]. destruct r as [idx|].
  - exists idx. split; [reflexivity|]. apply Hr. reflexivity.
  - exists start. split; [reflexivity | exact Hs].
Qed.

(** C5, refuted as stated: on an empty roster none of the four policies
    returns [NULL]; each one takes a remainder by the zero backend count. *)
Lemma select_backend_empty_faults :
  select_backend (empty_roster ALG_ROUND_ROBIN) "203.0.113.7" = Fault DivisionByZero /\
  select_backend (empty_roster ALG_WEIGHTED_ROUND_ROBIN) "203.0.113.7" = Fault DivisionByZero /\
  select_backend (empty_roster ALG_LEAST_CONNECTIONS) "203.0.113.7" = Fault DivisionByZero /\
  select_backend (empty_roster ALG_IP_HASH) "203.0.113.7" = Fault DivisionByZero.
Proof. repeat split; reflexivity. Qed.

(** C5, amended: on every roster that [main] lets through (between one and
    [MAX_BACKENDS] backends, weights at least 1, [current_index] in
    [[-1, num_backends)]) each of the four selection policies returns a
    backend of the roster and never [NULL]; no remainder or quotient is
    taken by zero there. *)
Theorem select_backend_nonempty lb ip :
  roster_ok lb ->
  exists idx lb',
    select_backend lb ip = Ret (Some idx, lb') /\ 0 <= idx < num_backends lb.
Proof.
  intros [Hn Hi Hw]. unfold select_backend. destruct (algorithm lb).
  - apply select_round_robin_ok; assumption.
  - unfold select_weighted_round_robin.
    pose proof (wrr_scan_shape (backends lb) 0 0 None) as Hs.
    destruct (wrr_scan 0 (backends lb) 0 None) as [[bs t] bst].
    destruct Hs as [Hl Hb]. destruct bst as [[j bj]|].
    + eexists _, _. split; [reflexivity|].
      destruct (Hb j bj eq_refl) as [|Hj]; [discriminate|].
      unfold num_backends. lia.
    + destruct (select_round_robin_ok (set_backends lb bs)) as (idx & lb1 & E & Hr).
      * unfold num_backends in *. simpl. rewrite Hl. exact Hn.
      * unfold num_backends in *. simpl. rewrite Hl. exact Hi.
      * exists idx, lb1. split; [exact E|].
        unfold num_backends in *. simpl in Hr. rewrite Hl in Hr. exact Hr.
  - unfold select_least_connections.
    destruct (lc_scan_ok (backends lb) 0 INT_MAX None Hw) as (r & E & Hr).
    rewrite E. cbn [bind]. destruct r as [j|].
    + eexists _, _. split; [reflexivity|].
      destruct (Hr j eq_refl) as [|Hj]; [discriminate|].
      unfold num_backends. lia.
    + apply select_round_robin_ok; assumption.
  - destruct (select_ip_hash_ok lb ip Hn) as (idx & E & Hr).
    exists idx, lb. split; assumption.
Qed.

Lemma select_backend_nonempty_witness :
  exists idx lb',
    select_backend roster_321 "203.0.113.7" = Ret (Some idx, lb') /\
    0 <= idx < num_backends roster_321.
Proof.
  apply (select_backend_nonempty roster_321 "203.0.113.7").
  constructor.
  - unfold num_backends, MAX_BACKENDS. simpl. lia.
  - unfold num_backends. simpl. lia.
  - repeat constructor; simpl; lia.
Defined.

(** *** Which backend a policy picks *)

Lemma healthy_at_lookup lb i b :
  0 <= i -> backends lb !! Z.to_nat i = Some b -> healthy_at lb i = is_healthy b.
Proof.
  intros Hi Hb. unfold healthy_at, backend_at.
  destruct (Z.ltb_spec i 0); [lia|]. rewrite Hb. reflexivity.
Qed.

Lemma healthy_at_ext lb lb' i :
  backends lb' = backends lb -> healthy_at lb' i = healthy_at lb i.
Proof. intros H. unfold healthy_at, backend_at. rewrite H. reflexivity. Qed.

Lemma healthy_at_backend lb i b :
  backend_at lb i = Ret b -> healthy_at lb i = is_healthy b.
Proof. intros H. unfold healthy_at. rewrite H. reflexivity. Qed.

(** The round-robin loop walks [current_index + 1], [current_index + 2],
    ... modulo the count and stops at the first healthy backend. *)
Lemma rr_loop_next : forall fuel lb attempts,
  0 < num_backends lb <= MAX_BACKENDS ->
  -1 <= current_index lb < num_backends lb ->
  0 <= attempts < num_backends lb ->
  (Z.to_nat (num_backends lb - attempts) <= fuel)%nat ->
  exists r lb1,
    rr_loop fuel lb attempts = Ret (r, lb1) /\
    backends lb1 = backends lb /\ algorithm lb1 = algorithm lb /\
    match r with
    | Some idx =>
        exists k, 0 <= k < num_backends lb - attempts /\
          idx = (current_index lb + 1 + k) mod num_backends lb /\
          healthy_at lb idx = true /\
          (forall k', 0 <= k' < k ->
             healthy_at lb ((current_index lb + 1 + k') mod num_backends lb) = false) /\
          current_index lb1 = idx
    | None =>
        forall k', 0 <= k' < num_backends lb - attempts ->
          healthy_at lb ((current_index lb + 1 + k') mod num_backends lb) = false
    end.
Proof.
  induction fuel as [|fuel IH]; intros lb attempts Hn Hi Ha Hf; [lia|].
  cbn [rr_loop].
  destruct (c_rem_next (current_index lb) (num_backends lb)) as [E Hr]; [lia..|].
  rewrite E. cbn [bind].
  set (n := num_backends lb) in *. set (c := current_index lb) in *.
  set (idx := (c + 1) mod n) in *.
  set (lb1 := set_current_index lb idx).
  assert (Hn1 : num_backends lb1 = n) by reflexivity.
  destruct (backend_at_ok lb1 idx) as (b & Eb & _); [rewrite Hn1; lia|].
  rewrite Eb. cbn [bind].
  assert (Hh : healthy_at lb idx = is_healthy b)
    by (rewrite <- (healthy_at_ext lb lb1) by reflexivity; apply healthy_at_backend, Eb).
  assert (Hstep : forall k', 0 <= k' -> (idx + 1 + k') mod n = (c + 1 + (k' + 1)) mod n).
  { intros k' _. unfold idx. rewrite <- Z.add_assoc, Zplus_mod_idemp_l.
    f_equal. lia. }
  destruct (is_healthy b) eqn:Eh.
  - exists (Some idx), lb1. split; [reflexivity|]. split; [reflexivity|].
    split; [reflexivity|]. exists 0. split; [lia|].
    split; [unfold idx; f_equal; lia|]. split; [exact Hh|].
    split; [intros; lia | reflexivity].
  - rewrite wrap_int_id
      by (unfold in_int, INT_MIN, INT_MAX, MAX_BACKENDS in *; lia).
    rewrite Hn1. destruct (Z.ltb_spec (attempts + 1) n).
    + destruct (IH lb1 (attempts + 1)) as (r & lb2 & E2 & Hb2 & Ha2 & Hr2);
        rewrite ?Hn1; cbn [current_index set_current_index lb1]; try lia.
      exists r, lb2. split; [exact E2|]. split; [exact Hb2|]. split; [exact Ha2|].
      rewrite Hn1 in Hr2. cbn [current_index set_current_index lb1] in Hr2.
      destruct r as [j|].
      * destruct Hr2 as (k & Hk & Hj & Hjh & Hbefore & Hc).
        exists (k + 1). split; [lia|].
        split; [rewrite Hj; apply Hstep; lia|].
        split; [rewrite <- (healthy_at_ext lb lb1) by reflexivity; exact Hjh|].
        split; [|exact Hc].
        intros k' Hk'. destruct (Z.eq_dec k' 0) as [->|].
        -- replace (c + 1 + 0) with (c + 1) by lia. fold idx. congruence.
        -- replace k' with ((k' - 1) + 1) by lia. rewrite <- Hstep by lia.
           rewrite <- (healthy_at_ext lb lb1) by reflexivity. apply Hbefore. lia.
      * intros k' Hk'. destruct (Z.eq_dec k' 0) as [->|].
        -- replace (c + 1 + 0) with (c + 1) by lia. fold idx. congruence.
        -- replace k' with ((k' - 1) + 1) by lia. rewrite <- Hstep by lia.
           rewrite <- (healthy_at_ext lb lb1) by reflexivity. apply Hr2. lia.
    + exists None, lb1. split; [reflexivity|]. split; [reflexivity|].
      split; [reflexivity|].
      intros k' Hk'. assert (k' = 0) as -> by lia.
      replace (c + 1 + 0) with (c + 1) by lia. fold idx. congruence.
Qed.

(** Every position of the roster is some number of steps after
    [current_index]. *)
Lemma cyclic_cover c n i :
  0 < n -> 0 <= i < n -> exists k, 0 <= k < n /\ (c + 1 + k) mod n = i.
Proof.
  intros Hn Hi. exists ((i - c - 1) mod n).
  split; [apply Z.mod_pos_bound; lia|].
  rewrite Zplus_mod_idemp_r. replace (c + 1 + (i - c - 1)) with i by lia.
  apply Z.mod_small. lia.
Qed.

(** X14.  [select_round_robin] returns the first healthy backend after
    [current_index], going round the roster, and leaves [current_index]
    on it; when no backend is healthy it still returns one, the
    successor of [current_index]. *)
Theorem round_robin_next_healthy lb :
  0 < num_backends lb <= MAX_BACKENDS ->
  -1 <= current_index lb < num_backends lb ->
  exists idx lb1,
    select_round_robin lb = Ret (Some idx, lb1) /\
    backends lb1 = backends lb /\
    ((exists k, 0 <= k < num_backends lb /\
        idx = (current_index lb + 1 + k) mod num_backends lb /\
        healthy_at lb idx = true /\
        (forall k', 0 <= k' < k ->
           healthy_at lb ((current_index lb + 1 + k') mod num_backends lb) = false) /\
        current_index lb1 = idx) \/
     ((forall i, 0 <= i < num_backends lb -> healthy_at lb i = false) /\
      idx = (current_index lb + 1) mod num_backends lb)).
Proof.
  intros Hn Hi. unfold select_round_robin.
  destruct (rr_loop_next (S (length (backends lb))) lb 0)
    as (r & lb1 & E & Hb & _ & Hr); try lia.
  { unfold num_backends. lia. }
  rewrite E. cbn [bind]. rewrite Z.sub_0_r in Hr. destruct r as [idx|].
  - exists idx, lb1. split; [reflexivity|]. split; [exact Hb|]. left. exact Hr.
  - assert (Hn1 : num_backends lb1 = num_backends lb)
      by (unfold num_backends; rewrite Hb; reflexivity).
    rewrite Hn1.
    destruct (c_rem_next (current_index lb) (num_backends lb)) as [E2 Hr2]; [lia..|].
    rewrite E2. cbn [bind]. eexists _, lb1. split; [reflexivity|].
    split; [exact Hb|]. right. split; [|reflexivity].
    intros i Hi'.
    destruct (cyclic_cover (current_index lb) (num_backends lb) i) as (k & Hk & <-);
      [lia | lia |]. apply Hr. exact Hk.
Qed.

Lemma round_robin_next_healthy_witness :
  exists idx lb1,
    select_round_robin (roster_a_down ALG_ROUND_ROBIN) = Ret (Some idx, lb1) /\
    backends lb1 = backends (roster_a_down ALG_ROUND_ROBIN) /\ idx = 1.
Proof.
  destruct (round_robin_next_healthy (roster_a_down ALG_ROUND_ROBIN))
    as (idx & lb1 & E & Hb & _).
  - unfold num_backends, MAX_BACKENDS. simpl. lia.
  - unfold num_backends. simpl. lia.
  - exists idx, lb1. split; [exact E|]. split; [exact Hb|].
    vm_compute in E. congruence.
Defined.

Lemma select_round_robin_all_healthy lb :
  0 < num_backends lb <= MAX_BACKENDS ->
  -1 <= current_index lb < num_backends lb ->
  (forall i, 0 <= i < num_backends lb -> healthy_at lb i = true) ->
  select_round_robin lb
  = Ret (Some ((current_index lb + 1) mod num_backends lb),
         set_current_index lb ((current_index lb + 1) mod num_backends lb)).
Proof.
  intros Hn Hi Hall. unfold select_round_robin. cbn [rr_loop].
  destruct (c_rem_next (current_index lb) (num_backends lb)) as [E Hr]; [lia..|].
  rewrite E. cbn [bind].
  set (idx := (current_index lb + 1) mod num_backends lb) in *.
  destruct (backend_at_ok (set_current_index lb idx) idx) as (b & Eb & _); [exact Hr|].
  rewrite Eb. cbn [bind].
  assert (Hh : is_healthy b = true).
  { rewrite <- (healthy_at_backend _ _ _ Eb).
    rewrite (healthy_at_ext lb (set_current_index lb idx)) by reflexivity.
    apply Hall. exact Hr. }
  rewrite Hh. reflexivity.
Qed.

(** X15.  With every backend healthy, consecutive [select_round_robin]
    calls go round the roster in order: the [k]-th call from the start
    returns backend [(current_index + k) mod num_backends], so any
    [num_backends] calls in a row serve each backend exactly once. *)
Theorem round_robin_cycle m : forall lb,
  0 < num_backends lb <= MAX_BACKENDS ->
  -1 <= current_index lb < num_backends lb ->
  (forall i, 0 <= i < num_backends lb -> healthy_at lb i = true) ->
  exists lb',
    rr_run m lb
    = Ret (map (fun k => Some ((current_index lb + 1 + Z.of_nat k) mod num_backends lb))
               (seq 0 m), lb').
Proof.
  induction m as [|m IH]; intros lb Hn Hi Hall; cbn [rr_run].
  - exists lb. reflexivity.
  - rewrite (select_round_robin_all_healthy lb Hn Hi Hall). cbn [bind].
    set (n := num_backends lb) in *. set (c := current_index lb) in *.
    assert (Hidx : 0 <= (c + 1) mod n < n) by (apply Z.mod_pos_bound; lia).
    destruct (IH (set_current_index lb ((c + 1) mod n))) as (lb' & E).
    + exact Hn.
    + change (-1 <= (c + 1) mod n < n). lia.
    + intros i Hi'. rewrite (healthy_at_ext lb) by reflexivity. apply Hall. exact Hi'.
    + rewrite E. cbn [bind]. exists lb'. f_equal. f_equal.
      cbn [seq map]. f_equal; [f_equal; f_equal; lia|].
      rewrite <- seq_shift, map_map. apply map_ext. intros k.
      cbn [current_index set_current_index]. fold n.
      change (num_backends (set_current_index lb ((c + 1) mod n))) with n.
      f_equal. rewrite <- Z.add_assoc, Zplus_mod_idemp_l. f_equal. lia.
Qed.

Lemma round_robin_cycle_witness :
  exists lb',
    rr_run 6 roster_321 = Ret ([Some 0; Some 1; Some 2; Some 0; Some 1; Some 2], lb').
Proof.
  destruct (round_robin_cycle 6 roster_321) as (lb' & E).
  - unfold num_backends, MAX_BACKENDS. simpl. lia.
  - unfold num_backends. simpl. lia.
  - intros i Hi. unfold num_backends in Hi. simpl in Hi.
    assert (i = 0 \/ i = 1 \/ i = 2) as [-> | [-> | ->]] by lia; reflexivity.
  - exists lb'. exact E.
Defined.

Lemma ip_loop_next lb start : forall fuel k,
  0 < num_backends lb <= MAX_BACKENDS ->
  0 <= start < num_backends lb ->
  0 <= k < num_backends lb ->
  (Z.to_nat (num_backends lb - k) <= fuel)%nat ->
  exists r,
    ip_loop fuel lb start ((start + k) mod num_backends lb) = Ret r /\
    match r with
    | Some idx =>
        exists k2, k <= k2 < num_backends lb /\
          idx = (start + k2) mod num_backends lb /\
          healthy_at lb idx = true /\
          forall k', k <= k' < k2 ->
            healthy_at lb ((start + k') mod num_backends lb) = false
    | None =>
        forall k', k <= k' < num_backends lb ->
          healthy_at lb ((start + k') mod num_backends lb) = false
    end.
Proof.
  induction fuel as [|fuel IH]; intros k Hn Hs Hk Hf; [lia|].
  cbn [ip_loop]. set (n := num_backends lb) in *.
  assert (Hidx : 0 <= (start + k) mod n < n) by (apply Z.mod_pos_bound; lia).
  destruct (backend_at_ok lb ((start + k) mod n)) as (b & Eb & _); [exact Hidx|].
  rewrite Eb. cbn [bind].
  pose proof (healthy_at_backend _ _ _ Eb) as Hh.
  destruct (is_healthy b) eqn:Eh.
  - eexists. split; [reflexivity|]. exists k. split; [lia|]. split; [reflexivity|].
    split; [exact Hh | intros; lia].
  - destruct (c_rem_next ((start + k) mod n) n) as [E Hr]; [lia..|].
    rewrite E. cbn [bind]. rewrite Zplus_mod_idemp_l.
    destruct (Z.eqb_spec ((start + k + 1) mod n) start) as [Heq|Hne]; cbn [negb].
    + exists None. split; [reflexivity|].
      assert (k + 1 = n).
      { destruct (Z_lt_le_dec (k + 1) n) as [Hlt|]; [|lia]. exfalso.
        destruct (Z_lt_le_dec (start + k + 1) n).
        - rewrite Z.mod_small in Heq by lia. lia.
        - replace (start + k + 1) with (start + k + 1 - n + 1 * n) in Heq by lia.
          rewrite Z_mod_plus_full, Z.mod_small in Heq by lia. lia. }
      intros k' Hk'. assert (k' = k) as -> by lia. exact Hh.
    + assert (k + 1 < n).
      { destruct (Z_lt_le_dec (k + 1) n); [assumption|]. exfalso. apply Hne.
        replace (start + k + 1) with (start + 1 * n) by lia.
        rewrite Z_mod_plus_full. apply Z.mod_small. lia. }
      replace (start + k + 1) with (start + (k + 1)) by lia.
      destruct (IH (k + 1)) as (r & Er & Hr'); try lia.
      exists r. split; [exact Er|]. destruct r as [idx|].
      * destruct Hr' as (k2 & Hk2 & Hi & Hih & Hbefore).
        exists k2. split; [lia|]. split; [exact Hi|]. split; [exact Hih|].
        intros k' Hk'. destruct (Z.eq_dec k' k) as [->|]; [exact Hh | apply Hbefore; lia].
      * intros k' Hk'. destruct (Z.eq_dec k' k) as [->|]; [exact Hh | apply Hr'; lia].
Qed.

(** X16.  [select_ip_hash] returns the first healthy backend from the
    client's home position [hash mod num_backends], going round the
    roster; so a client stays on its home backend as long as that one is
    healthy, whatever happens to the others.  With no healthy backend it
    returns the home backend.  It never changes the balancer. *)
Theorem ip_hash_first_healthy_from_home lb ip :
  0 < num_backends lb <= MAX_BACKENDS ->
  exists idx,
    select_ip_hash lb ip = Ret (Some idx, lb) /\
    ((exists k, 0 <= k < num_backends lb /\
        idx = (ip_hash ip mod num_backends lb + k) mod num_backends lb /\
        healthy_at lb idx = true /\
        forall k', 0 <= k' < k ->
          healthy_at lb ((ip_hash ip mod num_backends lb + k') mod num_backends lb)
          = false) \/
     ((forall i, 0 <= i < num_backends lb -> healthy_at lb i = false) /\
      idx = ip_hash ip mod num_backends lb)) /\
    (healthy_at lb (ip_hash ip mod num_backends lb) = true ->
     idx = ip_hash ip mod num_backends lb).
Proof.
  intros Hn. unfold select_ip_hash, c_urem, wrap_uint.
  set (n := num_backends lb) in *. unfold MAX_BACKENDS in Hn.
  rewrite (Z.mod_small n) by lia.
  destruct (Z.eqb_spec n 0); [lia|]. cbn [bind].
  assert (Hs : 0 <= ip_hash ip mod n < n) by (apply Z.mod_pos_bound; lia).
  rewrite wrap_int_id by (unfold in_int, INT_MIN, INT_MAX; lia).
  set (start := ip_hash ip mod n) in *.
  destruct (ip_loop_next lb start (S (length (backends lb))) 0) as (r & E & Hr);
    try (unfold MAX_BACKENDS; fold n; lia).
  { fold n. unfold n, num_backends. lia. }
  fold n in E, Hr. rewrite Z.add_0_r, (Z.mod_small start) in E by lia.
  rewrite E. cbn [bind]. destruct r as [idx|].
  - exists idx. split; [reflexivity|]. destruct Hr as (k & Hk & Hi & Hih & Hbefore).
    split; [left; exists k; repeat split; try assumption; lia|].
    intros Hhome. destruct (Z.eq_dec k 0) as [->|Hk0].
    + rewrite Hi, Z.add_0_r. apply Z.mod_small. lia.
    + specialize (Hbefore 0 ltac:(lia)).
      rewrite Z.add_0_r, (Z.mod_small start) in Hbefore by lia. congruence.
  - exists start. split; [reflexivity|]. split; [|reflexivity].
    right. split; [|reflexivity]. intros i Hi.
    destruct (cyclic_cover (start - 1) n i) as (k & Hk & <-); [lia | lia |].
    replace (start - 1 + 1 + k) with (start + k) by lia. apply Hr. lia.
Qed.

Lemma ip_hash_first_healthy_from_home_witness :
  exists idx,
    select_ip_hash (roster_a_down ALG_IP_HASH) "203.0.113.7"
    = Ret (Some idx, roster_a_down ALG_IP_HASH).
Proof.
  destruct (ip_hash_first_healthy_from_home (roster_a_down ALG_IP_HASH) "203.0.113.7")
    as (idx & E & _).
  - unfold num_backends, MAX_BACKENDS. simpl. lia.
  - exists idx. exact E.
Defined.

(** The scan of [select_least_connections]: either no healthy backend
    scores below [min_score] and [best] stays, or the result is the first
    healthy backend of least score. *)
Lemma lc_scan_min bs : forall i min_score best,
  Forall (fun b => 1 <= weight b) bs ->
  exists r,
    lc_scan i bs min_score best = Ret r /\
    ((r = best /\
      forall j b, bs !! j = Some b -> is_healthy b = true -> min_score <= lc_score b) \/
     (exists j b, r = Some (i + j)%nat /\ bs !! j = Some b /\ is_healthy b = true /\
        lc_score b < min_score /\
        (forall j' b', bs !! j' = Some b' -> is_healthy b' = true ->
           lc_score b <= lc_score b') /\
        (forall j' b', (j' < j)%nat -> bs !! j' = Some b' -> is_healthy b' = true ->
           lc_score b < lc_score b'))).
Proof.
  induction bs as [|b rest IH]; intros i m best Hw; cbn [lc_scan].
  - exists best. split; [reflexivity|]. left. split; [reflexivity|].
    intros j b Hj. discriminate.
  - apply Forall_cons in Hw as [Hb Hrest].
    destruct (is_healthy b) eqn:Eh; cbn [negb].
    + unfold c_div. destruct (Z.eqb_spec (weight b) 0); [lia|]. cbn [bind].
      fold (lc_score b).
      destruct (Z.ltb_spec (lc_score b) m) as [Hlt|Hge].
      * destruct (IH (S i) (lc_score b) (Some i) Hrest) as (r & E & [[-> Hmin] | Hex]).
        -- exists (Some i). split; [exact E|]. right. exists 0%nat, b.
           split; [f_equal; lia|]. split; [reflexivity|]. split; [exact Eh|].
           split; [exact Hlt|]. split.
           ++ intros [|j'] b' Hj' Hh'; cbn in Hj'.
              ** injection Hj' as <-. lia.
              ** apply (Hmin j' b' Hj' Hh').
           ++ intros j' b' Hlt'. lia.
        -- destruct Hex as (j & bj & -> & Hj & Hjh & Hjlt & Hjmin & Hjfirst).
           exists (Some (S i + j)%nat). split; [exact E|]. right. exists (S j), bj.
           split; [f_equal; lia|]. split; [exact Hj|]. split; [exact Hjh|].
           split; [lia|]. split.
           ++ intros [|j'] b' Hj' Hh'; cbn in Hj'.
              ** injection Hj' as <-. lia.
              ** apply (Hjmin j' b' Hj' Hh').
           ++ intros [|j'] b' Hlt' Hj' Hh'; cbn in Hj'.
              ** injection Hj' as <-. lia.
              ** apply (Hjfirst j' b'); [lia | exact Hj' | exact Hh'].
      * destruct (IH (S i) m best Hrest) as (r & E & [[-> Hmin] | Hex]).
        -- exists best. split; [exact E|]. left. split; [reflexivity|].
           intros [|j'] b' Hj' Hh'; cbn in Hj'.
           ++ injection Hj' as <-. lia.
           ++ apply (Hmin j' b' Hj' Hh').
        -- destruct Hex as (j & bj & -> & Hj & Hjh & Hjlt & Hjmin & Hjfirst).
           exists (Some (S i + j)%nat). split; [exact E|]. right. exists (S j), bj.
           split; [f_equal; lia|]. split; [exact Hj|]. split; [exact Hjh|].
           split; [lia|]. split.
           ++ intros [|j'] b' Hj' Hh'; cbn in Hj'.
              ** injection Hj' as <-. lia.
              ** apply (Hjmin j' b' Hj' Hh').
           ++ intros [|j'] b' Hlt' Hj' Hh'; cbn in Hj'.
              ** injection Hj' as <-. lia.
              ** apply (Hjfirst j' b'); [lia | exact Hj' | exact Hh'].
    + destruct (IH (S i) m best Hrest) as (r & E & [[-> Hmin] | Hex]).
      * exists best. split; [exact E|]. left. split; [reflexivity|].
        intros [|j'] b' Hj' Hh'; cbn in Hj'.
        -- injection Hj' as <-. congruence.
        -- apply (Hmin j' b' Hj' Hh').
      * destruct Hex as (j & bj & -> & Hj & Hjh & Hjlt & Hjmin & Hjfirst).
        exists (Some (S i + j)%nat). split; [exact E|]. right. exists (S j), bj.
        split; [f_equal; lia|]. split; [exact Hj|]. split; [exact Hjh|].
        split; [lia|]. split.
        -- intros [|j'] b' Hj' Hh'; cbn in Hj'.
           ++ injection Hj' as <-. congruence.
           ++ apply (Hjmin j' b' Hj' Hh').
        -- intros [|j'] b' Hlt' Hj' Hh'; cbn in Hj'.
           ++ injection Hj' as <-. congruence.
           ++ apply (Hjfirst j' b'); [lia | exact Hj' | exact Hh'].
Qed.

(** X17.  [select_least_connections] returns the healthy backend of least
    weight-adjusted score [(active_connections * 100) / weight], the
    first one among equals, and leaves the balancer as it is (weights at
    least 1, and some healthy backend scoring below [INT_MAX]). *)
Theorem least_connections_minimal lb :
  Forall (fun b => 1 <= weight b) (backends lb) ->
  (exists j b, backends lb !! j = Some b /\ is_healthy b = true /\
               lc_score b < INT_MAX) ->
  exists j b,
    select_least_connections lb = Ret (Some (Z.of_nat j), lb) /\
    backends lb !! j = Some b /\ is_healthy b = true /\
    (forall j' b', backends lb !! j' = Some b' -> is_healthy b' = true ->
       lc_score b <= lc_score b') /\
    (forall j' b', (j' < j)%nat -> backends lb !! j' = Some b' -> is_healthy b' = true ->
       lc_score b < lc_score b').
Proof.
  intros Hw (j0 & b0 & Hj0 & Hh0 & Hs0). unfold select_least_connections.
  destruct (lc_scan_min (backends lb) 0 INT_MAX None Hw) as (r & E & [[-> Hmin] | Hex]).
  - specialize (Hmin j0 b0 Hj0 Hh0). lia.
  - destruct Hex as (j & b & -> & Hj & Hjh & _ & Hjmin & Hjfirst).
    rewrite E. cbn [bind]. exists j, b.
    split; [reflexivity|]. split; [exact Hj|]. split; [exact Hjh|].
    split; [exact Hjmin | exact Hjfirst].
Qed.

Lemma least_connections_minimal_witness :
  exists j b,
    select_least_connections (roster_a_down ALG_LEAST_CONNECTIONS)
    = Ret (Some (Z.of_nat j), roster_a_down ALG_LEAST_CONNECTIONS) /\
    backends (roster_a_down ALG_LEAST_CONNECTIONS) !! j = Some b /\
    is_healthy b = true.
Proof.
  destruct (least_connections_minimal (roster_a_down ALG_LEAST_CONNECTIONS))
    as (j & b & E & Hj & Hh & _).
  - repeat constructor; simpl; lia.
  - exists 1%nat, (fresh_backend "B" "9002" 1).
    split; [reflexivity|]. split; [reflexivity|]. vm_compute. reflexivity.
  - exists j, b. split; [exact E|]. split; assumption.
Defined.

Lemma wrr_scan_pick bs : forall i total best,
  match wrr_scan i bs total best with
  | (bs', _, bst) =>
      map is_healthy bs' = map is_healthy bs /\
      match bst with
      | Some (j, bj) =>
          best = Some (j, bj) \/
          exists k, j = (i + k)%nat /\ bs' !! k = Some bj /\ is_healthy bj = true
      | None => best = None /\ Forall (fun b => is_healthy b = false) bs
      end
  end.
Proof.
  induction bs as [|b rest IH]; intros i total best; cbn [wrr_scan].
  - split; [reflexivity|]. destruct best as [[j bj]|]; [left; reflexivity|].
    split; [reflexivity | constructor].
  - destruct (is_healthy b) eqn:Eh; cbn [negb].
    + match goal with
      | |- context [wrr_scan (S i) rest ?t ?bb] =>
          specialize (IH (S i) t bb); destruct (wrr_scan (S i) rest t bb)
            as [[rest' t'] bst] eqn:Es
      end.
      destruct IH as [Hm Hb]. split; [cbn [map]; rewrite Hm; f_equal; exact (eq_sym Eh)|].
      set (b' := set_current_weight b (wrap_int (current_weight b + weight b))) in *.
      assert (Hhere : exists k, i = (i + k)%nat /\ (b' :: rest') !! k = Some b' /\
                                is_healthy b' = true).
      { exists 0%nat. split; [lia|]. split; [reflexivity | exact Eh]. }
      destruct bst as [[j bj]|].
      * destruct Hb as [Hb | (k & -> & Hk & Hkh)].
        -- destruct best as [[j0 b0]|].
           ++ destruct (_ >? _).
              ** injection Hb as <- <-. right. exact Hhere.
              ** left. exact Hb.
           ++ injection Hb as <- <-. right. exact Hhere.
        -- right. exists (S k). split; [lia|]. split; [exact Hk | exact Hkh].
      * destruct Hb as [Hb _]. destruct best as [[j0 b0]|]; [destruct (_ >? _)|];
          discriminate.
    + specialize (IH (S i) total best).
      destruct (wrr_scan (S i) rest total best) as [[rest' t'] bst].
      destruct IH as [Hm Hb]. split; [cbn [map]; rewrite Hm; reflexivity|].
      destruct bst as [[j bj]|].
      * destruct Hb as [Hb | (k & -> & Hk & Hkh)]; [left; exact Hb|].
        right. exists (S k). split; [lia|]. split; [exact Hk | exact Hkh].
      * destruct Hb as [Hb Hall]. split; [exact Hb|]. constructor; assumption.
Qed.

Lemma select_round_robin_healthy lb :
  0 < num_backends lb <= MAX_BACKENDS ->
  -1 <= current_index lb < num_backends lb ->
  (exists i, 0 <= i < num_backends lb /\ healthy_at lb i = true) ->
  exists idx lb1,
    select_round_robin lb = Ret (Some idx, lb1) /\
    backends lb1 = backends lb /\ healthy_at lb idx = true.
Proof.
  intros Hn Hi (i & Hir & Hih). unfold select_round_robin.
  destruct (rr_loop_next (S (length (backends lb))) lb 0)
    as (r & lb1 & E & Hb & _ & Hr); try lia.
  { unfold num_backends. lia. }
  rewrite E. cbn [bind]. rewrite Z.sub_0_r in Hr. destruct r as [idx|].
  - exists idx, lb1. split; [reflexivity|]. split; [exact Hb|].
    destruct Hr as (k & _ & _ & Hh & _). exact Hh.
  - exfalso.
    destruct (cyclic_cover (current_index lb) (num_backends lb) i) as (k & Hk & Hki);
      [lia | lia |].
    specialize (Hr k Hk). rewrite Hki in Hr. congruence.
Qed.

Lemma healthy_at_of_nat lb j :
  healthy_at lb (Z.of_nat j)
  = match backends lb !! j with Some b => is_healthy b | None => false end.
Proof.
  unfold healthy_at, backend_at. destruct (Z.ltb_spec (Z.of_nat j) 0); [lia|].
  rewrite Nat2Z.id. destruct (backends lb !! j); reflexivity.
Qed.

(** X18.  As long as one backend is healthy, each of the four policies
    returns a healthy backend; the health flags are those before and
    after the call alike. *)
Theorem select_backend_prefers_healthy lb ip :
  roster_ok lb ->
  (exists i, 0 <= i < num_backends lb /\ healthy_at lb i = true) ->
  exists idx lb',
    select_backend lb ip = Ret (Some idx, lb') /\
    healthy_at lb idx = true /\ healthy_at lb' idx = true.
Proof.
  intros [Hn Hi Hw] Hex. unfold select_backend. destruct (algorithm lb).
  - destruct (select_round_robin_healthy lb Hn Hi Hex) as (idx & lb1 & E & Hb & Hh).
    exists idx, lb1. split; [exact E|]. split; [exact Hh|].
    rewrite (healthy_at_ext lb lb1 idx Hb). exact Hh.
  - unfold select_weighted_round_robin.
    pose proof (wrr_scan_pick (backends lb) 0 0 None) as Hs.
    destruct (wrr_scan 0 (backends lb) 0 None) as [[bs t] bst].
    destruct Hs as [Hm Hb]. destruct bst as [[j bj]|].
    + destruct Hb as [Hb | (k & -> & Hk & Hkh)]; [discriminate|]. cbn [Nat.add].
      eexists _, _. split; [reflexivity|]. rewrite !healthy_at_of_nat. split.
      * assert (Hl : map is_healthy (backends lb) !! k = Some true).
        { rewrite <- Hm, list_lookup_fmap, Hk. cbn. congruence. }
        rewrite list_lookup_fmap in Hl.
        destruct (backends lb !! k) as [b0|]; [|discriminate].
        cbn in Hl. congruence.
      * cbn [backends set_backends].
        rewrite list_lookup_insert_eq by (apply lookup_lt_is_Some; eauto).
        exact Hkh.
    + exfalso. destruct Hb as [_ Hall]. destruct Hex as (i & Hir & Hih).
      unfold healthy_at, backend_at in Hih.
      destruct (Z.ltb_spec i 0); [lia|].
      destruct (backends lb !! Z.to_nat i) as [b|] eqn:Eb; [|discriminate].
      rewrite Forall_forall in Hall.
      rewrite (Hall b) in Hih; [discriminate|]. apply list_elem_of_lookup. eauto.
  - unfold select_least_connections.
    destruct (lc_scan_min (backends lb) 0 INT_MAX None Hw) as (r & E & [[-> _] | Hx]).
    + rewrite E. cbn [bind].
      destruct (select_round_robin_healthy lb Hn Hi Hex) as (idx & lb1 & E1 & Hb & Hh).
      exists idx, lb1. split; [exact E1|]. split; [exact Hh|].
      rewrite (healthy_at_ext lb lb1 idx Hb). exact Hh.
    + destruct Hx as (j & b & -> & Hj & Hjh & _). rewrite E. cbn [bind Nat.add].
      exists (Z.of_nat j), lb. split; [reflexivity|].
      rewrite healthy_at_of_nat, Hj. split; exact Hjh.
  - unfold select_ip_hash, c_urem, wrap_uint.
    set (n := num_backends lb) in *. unfold MAX_BACKENDS in Hn.
    rewrite (Z.mod_small n) by lia.
    destruct (Z.eqb_spec n 0); [lia|]. cbn [bind].
    assert (Hs : 0 <= ip_hash ip mod n < n) by (apply Z.mod_pos_bound; lia).
    rewrite wrap_int_id by (unfold in_int, INT_MIN, INT_MAX; lia).
    set (start := ip_hash ip mod n) in *.
    destruct (ip_loop_next lb start (S (length (backends lb))) 0) as (r & E & Hr);
      try (unfold MAX_BACKENDS; fold n; lia).
    { fold n. unfold n, num_backends. lia. }
    fold n in E, Hr. rewrite Z.add_0_r, (Z.mod_small start) in E by lia.
    rewrite E. cbn [bind]. destruct r as [idx|].
    + exists idx, lb. split; [reflexivity|].
      destruct Hr as (k & _ & _ & Hh & _). split; exact Hh.
    + exfalso. destruct Hex as (i & Hir & Hih).
      destruct (cyclic_cover (start - 1) n i) as (k & Hk & Hki); [lia | lia |].
      replace (start - 1 + 1 + k) with (start + k) in Hki by lia.
      specialize (Hr k ltac:(lia)). rewrite Hki in Hr. congruence.
Qed.

Lemma select_backend_prefers_healthy_witness :
  exists idx lb',
    select_backend (roster_a_down ALG_WEIGHTED_ROUND_ROBIN) "203.0.113.7"
    = Ret (Some idx, lb') /\
    healthy_at (roster_a_down ALG_WEIGHTED_ROUND_ROBIN) idx = true.
Proof.
  destruct (select_backend_prefers_healthy (roster_a_down ALG_WEIGHTED_ROUND_ROBIN)
              "203.0.113.7") as (idx & lb' & E & Hh & _).
  - split.
    + unfold num_backends, MAX_BACKENDS. simpl. lia.
    + unfold num_backends. simpl. lia.
    + repeat constructor; simpl; lia.
  - exists 1. split; [unfold num_backends; simpl; lia | reflexivity].
  - exists idx, lb'. split; assumption.
Defined.

End LBFacts.

(** * Facts on the pooled relay *)

Module RelayFacts.
Import Relay.

Lemma starts_with_spec needle : forall hay,
  starts_with needle hay = true <-> exists post, hay = needle +:+ post.
Proof.
  induction needle as [|a n IH]; intros hay; simpl.
  - split; [intros _; exists hay; reflexivity | reflexivity].
  - destruct hay as [|b h].
    + split; [discriminate | intros [post H]; discriminate].
    + rewrite andb_true_iff, Ascii.eqb_eq, IH. split.
      * intros [-> [post ->]]. exists post. reflexivity.
      * intros [post [= -> ->]]. split; [reflexivity | exists post; reflexivity].
Qed.

(** [strstr] finds the needle exactly when it occurs. *)
Lemma strstr_found : forall hay needle,
  found (strstr hay needle) = true <-> occurs needle hay.
Proof.
  induction hay as [|c rest IH]; intros needle; cbn [strstr];
    destruct (starts_with needle _) eqn:E.
  - split; [|reflexivity]. intros _. apply starts_with_spec in E as [post ->].
    exists "", post. reflexivity.
  - split; [discriminate|]. intros (pre & post & H). exfalso.
    destruct pre; [|discriminate]. simpl in H.
    assert (starts_with needle "" = true); [|congruence].
    apply starts_with_spec. exists post. exact H.
  - split; [|reflexivity]. intros _. apply starts_with_spec in E as [post ->].
    exists "", post. reflexivity.
  - specialize (IH needle). destruct (strstr rest needle) as [k|]; simpl in *.
    + split; [|reflexivity]. intros _.
      destruct (proj1 IH eq_refl) as (pre & post & ->).
      exists (String c pre), post. reflexivity.
    + split; [discriminate|]. intros (pre & post & H). destruct pre as [|c' pre].
      * exfalso. assert (starts_with needle (String c rest) = true); [|congruence].
        apply starts_with_spec. exists post. exact H.
      * simpl in H. injection H as -> ->. apply IH. exists pre, post. reflexivity.
Qed.

Lemma strstr_not_found hay needle :
  found (strstr hay needle) = false <-> ~ occurs needle hay.
Proof.
  rewrite <- strstr_found. destruct (found _); split; congruence.
Qed.

(** C3, where the code departs from the claim: an HTTP/1.1 request
    carrying [connection: CLOSE], the claim's own example, or
    [Connection: Close] is kept alive, where a match without regard to
    case closes it.  The code does accept a second spelling of the
    keep-alive token, [Connection: Keep-Alive], but only one spelling of
    [Connection: close]. *)
Lemma keep_alive_case_sensitive :
  check_keep_alive http11_connection_CLOSE = true /\
  keep_alive_claimed http11_connection_CLOSE = false /\
  check_keep_alive http11_connection_Close = true /\
  keep_alive_claimed http11_connection_Close = false /\
  check_keep_alive http10_connection_Keep_Alive = true.
Proof. repeat split; vm_compute; reflexivity. Qed.

(** What [check_keep_alive] computes: exact, case-sensitive substring
    search anywhere in the buffer.  It is true exactly when either the
    buffer contains [HTTP/1.1] and does not contain [Connection: close],
    or it does not contain [HTTP/1.1] and contains
    [Connection: keep-alive] or [Connection: Keep-Alive]. *)
Theorem check_keep_alive_exact request :
  check_keep_alive request = true <->
  (occurs "HTTP/1.1" request /\ ~ occurs "Connection: close" request) \/
  (~ occurs "HTTP/1.1" request /\
   (occurs "Connection: keep-alive" request \/
    occurs "Connection: Keep-Alive" request)).
Proof.
  unfold check_keep_alive.
  rewrite <- !strstr_found.
  destruct (found (strstr request "HTTP/1.1"));
    destruct (found (strstr request "Connection: close"));
    destruct (found (strstr request "Connection: keep-alive"));
    destruct (found (strstr request "Connection: Keep-Alive"));
    simpl; intuition congruence.
Qed.

(** C2, where the code departs from the claim: a session with
    [keep_alive] set whose client [read] returns 0 has its backend fd
    closed through [conn_pool_close]; it is not returned to the pool.
    The same session ended by a backend [read] returning 0 has it
    returned with [conn_pool_return]: [on_backend_event] leaves
    [keep_alive] alone in that branch, [on_client_event] clears it. *)
Lemma clean_client_eof_closes_backend :
  (exists s',
     on_client_event two_backends 5 EVENT_READ live_session ReadEof
     = Ret (s', cleared_connection,
            [EventLoopDel 5; CloseFd 5; EventLoopDel 7; PoolClose 7])) /\
  (exists s',
     on_backend_event two_backends 7 EVENT_READ live_session ReadEof
     = Ret (s', cleared_connection,
            [EventLoopDel 5; CloseFd 5; EventLoopDel 7; PoolReturn 7 0%nat])).
Proof. split; eexists; vm_compute; reflexivity. Qed.

Lemma free_connection_calls s conn :
  0 <= backend_fd conn ->
  let calls := (free_connection s conn).2 in
  (forall b, PoolReturn (backend_fd conn) b ∈ calls <->
             keep_alive conn = true /\ backend conn = Some b) /\
  (PoolClose (backend_fd conn) ∈ calls <->
   keep_alive conn = false \/ backend conn = None).
Proof.
  intros Hfd. unfold free_connection. cbn [snd].
  destruct (Z.leb_spec 0 (backend_fd conn)); [|lia].
  destruct (0 <=? client_fd conn), (backend conn) as [b0|], (keep_alive conn);
    cbn [app]; split; try intros b;
    rewrite ?elem_of_cons, ?elem_of_nil; intuition congruence.
Qed.

(** The calls of the client callback: those of [free_connection] with
    [keep_alive] cleared, none, or a single write to the backend. *)
Lemma on_client_event_calls s fd events conn rd s' conn' calls :
  on_client_event s fd events conn rd = Ret (s', conn', calls) ->
  calls = (free_connection s (set_keep_alive conn false)).2 \/
  calls = [] \/
  exists d, calls = [WriteFd (backend_fd conn) d].
Proof.
  unfold on_client_event, bind. intros H.
  repeat case_match; simplify_eq; cbn [snd]; eauto.
Qed.

(** What the two callbacks do with the backend fd: when the session
    ends in the client callback (error or hang-up event, or a client
    [read] returning 0 or -1), [keep_alive] is cleared first and the
    backend fd is closed through [conn_pool_close], not returned; the
    client callback never returns a backend fd to the pool; and the
    backend callback returns it ([conn_pool_return]) exactly when it ends
    the session on a backend [read] returning 0 or -1, without error or
    hang-up event, with [keep_alive] still set and the backend known. *)
Theorem backend_fd_disposal s fd events conn rd :
  0 <= backend_fd conn ->
  (client_side_end events rd ->
   exists s' calls,
     on_client_event s fd events conn rd = Ret (s', cleared_connection, calls) /\
     PoolClose (backend_fd conn) ∈ calls /\
     forall b, PoolReturn (backend_fd conn) b ∉ calls) /\
  (forall s' conn' calls b,
     on_client_event s fd events conn rd = Ret (s', conn', calls) ->
     PoolReturn (backend_fd conn) b ∉ calls) /\
  (forall s' conn' calls b,
     on_backend_event s fd events conn rd = Ret (s', conn', calls) ->
     (PoolReturn (backend_fd conn) b ∈ calls <->
      has_event events (Z.lor EVENT_ERROR EVENT_HUP) = false /\
      has_event events EVENT_READ = true /\ read_n rd <= 0 /\
      keep_alive conn = true /\ backend conn = Some b)).
Proof.
  intros Hfd.
  pose proof (free_connection_calls s (set_keep_alive conn false) Hfd) as Hoff.
  pose proof (free_connection_calls s conn Hfd) as Hon.
  cbv zeta in Hoff, Hon. cbn [set_keep_alive keep_alive backend backend_fd] in Hoff.
  assert (Hclient_free :
    exists s' calls,
      free_connection s (set_keep_alive conn false) = (s', cleared_connection, calls) /\
      PoolClose (backend_fd conn) ∈ calls /\
      forall b, PoolReturn (backend_fd conn) b ∉ calls).
  { destruct (free_connection s (set_keep_alive conn false)) as [[s' c'] calls] eqn:E.
    assert (c' = cleared_connection) as -> by (unfold free_connection in E; congruence).
    exists s', calls. cbn [snd] in Hoff. split; [reflexivity|]. split.
    - apply Hoff. left. reflexivity.
    - intros b Hb. apply Hoff in Hb as [? _]. discriminate. }
  split; [|split].
  - intros Hend. destruct Hclient_free as (s' & calls & E & Hc & Hr).
    exists s', calls. split; [|split; assumption].
    unfold on_client_event. destruct Hend as [-> | [Hrd Hn]].
    + rewrite E. reflexivity.
    + destruct (has_event events (Z.lor _ _)); [rewrite E; reflexivity|].
      rewrite Hrd. destruct (Z.leb_spec (read_n rd) 0); [|lia].
      rewrite E. reflexivity.
  - intros s' conn' calls b Hrun.
    destruct Hclient_free as (s1 & calls1 & E & _ & Hr).
    destruct (on_client_event_calls _ _ _ _ _ _ _ _ Hrun) as [Hc | [-> | [d ->]]].
    + rewrite E in Hc. cbn [snd] in Hc. subst calls. apply Hr.
    + apply not_elem_of_nil.
    + rewrite elem_of_cons, elem_of_nil.
      intros [Hb|Hb]; [discriminate Hb | exact Hb].
  - intros s' conn' calls b. unfold on_backend_event.
    destruct Hclient_free as (s1 & calls1 & E & _ & Hr). rewrite E.
    destruct (has_event events (Z.lor _ _)).
    { intros [= <- <- <-].
      split; [intros Hb; destruct (Hr b Hb) | intros [? _]; discriminate]. }
    destruct (has_event events EVENT_READ).
    2:{ intros [= <- <- <-]. rewrite elem_of_nil. intuition discriminate. }
    destruct (Z.leb_spec (read_n rd) 0).
    { destruct (free_connection s conn) as [[s2 c2] calls2]. cbn [snd] in Hon.
      intros [= <- <- <-]. rewrite (proj1 Hon b). intuition. }
    destruct (0 <=? client_fd conn).
    2:{ intros [= <- <- <-]. rewrite elem_of_nil. intuition lia. }
    destruct (backend conn); [|discriminate].
    intros [= <- <- <-]. rewrite elem_of_cons, elem_of_nil. split; [|lia].
    intros [Hb|Hb]; [discriminate Hb | destruct Hb].
Qed.

Lemma backend_fd_disposal_witness :
  (client_side_end EVENT_READ ReadEof ->
   exists s' calls,
     on_client_event two_backends 5 EVENT_READ live_session ReadEof
     = Ret (s', cleared_connection, calls) /\
     PoolClose (backend_fd live_session) ∈ calls /\
     forall b, PoolReturn (backend_fd live_session) b ∉ calls) /\
  (forall s' conn' calls b,
     on_client_event two_backends 5 EVENT_READ live_session ReadEof
     = Ret (s', conn', calls) ->
     PoolReturn (backend_fd live_session) b ∉ calls) /\
  (forall s' conn' calls b,
     on_backend_event two_backends 5 EVENT_READ live_session ReadEof
     = Ret (s', conn', calls) ->
     (PoolReturn (backend_fd live_session) b ∈ calls <->
      has_event EVENT_READ (Z.lor EVENT_ERROR EVENT_HUP) = false /\
      has_event EVENT_READ EVENT_READ = true /\ read_n ReadEof <= 0 /\
      keep_alive live_session = true /\ backend live_session = Some b)).
Proof.
  apply (backend_fd_disposal two_backends 5 EVENT_READ live_session ReadEof).
  simpl. lia.
Defined.

(** *** The forwarding headers *)

Lemma starts_with_length : forall needle hay,
  starts_with needle hay = true -> (String.length needle <= String.length hay)%nat.
Proof.
  induction needle as [|a n IH]; intros [|b h] H; cbn in *; try lia; try discriminate.
  apply andb_prop in H as [_ H]. apply IH in H. lia.
Qed.

Lemma strstr_bound needle : forall hay k,
  strstr hay needle = Some k -> (k + String.length needle <= String.length hay)%nat.
Proof.
  induction hay as [|c rest IH]; intros k; cbn [strstr].
  - destruct (starts_with needle "") eqn:E; [|discriminate].
    intros [= <-]. apply starts_with_length in E. cbn in *. lia.
  - destruct (starts_with needle (String c rest)) eqn:E.
    + intros [= <-]. apply starts_with_length in E. lia.
    + destruct (strstr rest needle) as [k'|] eqn:Ek; [|discriminate].
      cbn. intros [= <-]. specialize (IH k' eq_refl). cbn. lia.
Qed.

Lemma append_length : forall a b,
  String.length (a +:+ b) = (String.length a + String.length b)%nat.
Proof.
  induction a as [|c a IH]; intros b; [reflexivity|].
  change (S (String.length (a +:+ b)) = S (String.length a + String.length b)).
  rewrite IH. reflexivity.
Qed.

Lemma substring_length : forall s n m,
  (n + m <= String.length s)%nat -> String.length (substring n m s) = m.
Proof.
  induction s as [|c s IH]; intros n m H; cbn in H.
  - assert (n = 0 /\ m = 0)%nat as [-> ->] by lia. reflexivity.
  - destruct n as [|n]; cbn [substring].
    + destruct m as [|m]; [reflexivity|]. cbn. rewrite IH by lia. reflexivity.
    + apply IH. lia.
Qed.

Lemma substring_split : forall s n,
  (n <= String.length s)%nat ->
  substring 0 n s +:+ substring n (String.length s - n) s = s.
Proof.
  induction s as [|c s IH]; intros n H; cbn in H.
  - assert (n = 0)%nat as -> by lia. reflexivity.
  - destruct n as [|n].
    + change (substring 0 (S (String.length s)) (String c s) = String c s).
      apply substring_whole. cbn. lia.
    + change (String c (substring 0 n s +:+ substring n (String.length s - n) s)
              = String c s).
      rewrite IH by lia. reflexivity.
Qed.

(** X24.  X.  For a client address of fewer than 112 characters and a request
    that fits the buffer, [inject_headers] is defined and its result
    still fits the buffer.  It leaves the request as it is when it holds
    no CRLF or when the request and the two header lines, 32 characters
    and twice the address, would not stay below [max_size]; otherwise it
    puts the two lines right after the first CRLF and keeps everything
    before and after. *)
Theorem inject_headers_fits request max_size client_ip :
  (String.length client_ip < 112)%nat ->
  Z.of_nat (String.length request) < max_size ->
  exists r,
    inject_headers request max_size client_ip = Ret r /\
    Z.of_nat (String.length r) < max_size /\
    (strstr request CRLF = None \/
     max_size <= Z.of_nat (String.length request + 32 + 2 * String.length client_ip) ->
     r = request) /\
    (forall k, strstr request CRLF = Some k ->
       Z.of_nat (String.length request + 32 + 2 * String.length client_ip) < max_size ->
       exists line rest,
         request = line +:+ rest /\ String.length line = (k + 2)%nat /\
         r = line +:+ ("X-Forwarded-For: " +:+ client_ip +:+ CRLF +:+
                       "X-Real-IP: " +:+ client_ip +:+ CRLF) +:+ rest).
Proof.
  intros Hip Hfit. unfold inject_headers.
  destruct (strstr request CRLF) as [k|] eqn:Ek.
  2:{ exists request. split; [reflexivity|]. split; [exact Hfit|].
      split; [reflexivity|]. intros k H. discriminate. }
  pose proof (strstr_bound CRLF request k Ek) as Hk.
  change (String.length CRLF) with 2%nat in Hk.
  set (headers := "X-Forwarded-For: " +:+ client_ip +:+ CRLF +:+
                  "X-Real-IP: " +:+ client_ip +:+ CRLF).
  assert (Hlen : String.length headers = (32 + 2 * String.length client_ip)%nat).
  { unfold headers. rewrite !append_length. cbn [String.length CRLF]. lia. }
  rewrite Hlen.
  destruct (Z.of_nat (k + 2) + Z.of_nat (32 + 2 * String.length client_ip)
            + Z.of_nat (String.length request - (k + 2)) <? max_size) eqn:Eroom.
  - apply Z.ltb_lt in Eroom.
    replace (256 <? Z.of_nat (32 + 2 * String.length client_ip)) with false
      by (symmetry; apply Z.ltb_ge; lia).
    replace (Z.of_nat (32 + 2 * String.length client_ip) =? 256) with false
      by (symmetry; apply Z.eqb_neq; lia).
    eexists. split; [reflexivity|]. split.
    { rewrite !append_length, Hlen, !substring_length by lia. lia. }
    split; [intros [H|H]; [discriminate | lia]|].
    intros k' [= <-] _.
    exists (substring 0 (k + 2) request),
           (substring (k + 2) (String.length request - (k + 2)) request).
    split; [symmetry; apply substring_split; lia|].
    split; [apply substring_length; lia | reflexivity].
  - apply Z.ltb_ge in Eroom.
    exists request. split; [reflexivity|]. split; [exact Hfit|].
    split; [reflexivity|]. intros k' _ H. lia.
Qed.

Lemma inject_headers_fits_witness :
  exists r,
    inject_headers ("GET / HTTP/1.1" +:+ CRLF +:+ CRLF) BUFFER_SIZE "10.0.0.1" = Ret r /\
    Z.of_nat (String.length r) < BUFFER_SIZE.
Proof.
  destruct (inject_headers_fits ("GET / HTTP/1.1" +:+ CRLF +:+ CRLF) BUFFER_SIZE "10.0.0.1")
    as (r & Hrun & Hfit & _).
  - simpl. lia.
  - vm_compute. reflexivity.
  - exists r. split; [exact Hrun | exact Hfit].
Defined.

End RelayFacts.

(** * Facts on the connection pool *)

Module PoolFacts.
Import Pool.

Lemma alter_links_keys (f : PooledConnection -> PooledConnection) (j : nat)
    (cs : list PooledConnection) :
  (forall c, sweep_key (f c) = sweep_key c) ->
  sweep_key <$> alter f j cs = sweep_key <$> cs.
Proof.
  intros Hf. rewrite (list_fmap_alter sweep_key f id).
  - apply list_alter_id. reflexivity.
  - apply Forall_forall. intros c _. apply Hf.
Qed.

(** Unlinking a slot from the LRU list leaves the swept fields of every
    slot as they were. *)
Lemma lru_remove_keys p i :
  sweep_key <$> connections (lru_remove p i) = sweep_key <$> connections p.
Proof.
  unfold lru_remove. cbn [connections].
  rewrite alter_links_keys by reflexivity.
  destruct (_ ≫= next) as [j2|].
  - rewrite alter_links_keys by reflexivity.
    destruct (_ ≫= prev) as [j1|]; [|reflexivity].
    apply alter_links_keys. reflexivity.
  - destruct (_ ≫= prev) as [j1|]; [|reflexivity].
    apply alter_links_keys. reflexivity.
Qed.

Lemma evict_keys p i :
  sweep_key <$> connections (evict p i)
  = sweep_key <$> alter (set_fd (-1)) i (connections p).
Proof. unfold evict. cbn [connections]. apply lru_remove_keys. Qed.

Lemma evict_ttl p i : ttl_seconds (evict p i) = ttl_seconds p.
Proof. reflexivity. Qed.

Lemma evictable_key now alive p p' c c' :
  sweep_key c = sweep_key c' -> ttl_seconds p = ttl_seconds p' ->
  evictable now alive p c = evictable now alive p' c'.
Proof.
  unfold sweep_key, evictable, should_evict. intros [= Hfd Hst Hcr Hlu] Httl.
  rewrite Hfd, Hst, Hcr, Hlu, Httl. reflexivity.
Qed.

Lemma evictable_closed now alive p c : evictable now alive p (set_fd (-1) c) = false.
Proof. unfold evictable. cbn [fd set_fd]. rewrite andb_false_r. reflexivity. Qed.

(** A slot of the pool after an eviction at [i], by its swept fields. *)
Lemma evict_lookup p i j c' :
  connections (evict p i) !! j = Some c' ->
  exists c, connections p !! j = Some c /\
            sweep_key c' = sweep_key (if decide (i = j) then set_fd (-1) c else c).
Proof.
  intros Hj.
  assert (H : (sweep_key <$> connections (evict p i)) !! j = Some (sweep_key c'))
    by (rewrite list_lookup_fmap, Hj; reflexivity).
  rewrite evict_keys, list_lookup_fmap in H.
  destruct (decide (i = j)) as [->|Hne].
  - rewrite list_lookup_alter_eq in H.
    destruct (connections p !! j) as [c|]; [|discriminate].
    exists c. split; [reflexivity|]. simpl in H. congruence.
  - rewrite list_lookup_alter_ne in H by exact Hne.
    destruct (connections p !! j) as [c|]; [|discriminate].
    exists c. split; [reflexivity|]. simpl in H. congruence.
Qed.

Lemma evict_length p i : length (connections (evict p i)) = length (connections p).
Proof.
  pose proof (f_equal (@length _) (evict_keys p i)) as H.
  rewrite !length_fmap, length_alter in H. exact H.
Qed.

(** One iteration settles its slot and keeps the earlier ones settled. *)
Lemma cleanup_slot_settles now alive k p n cl :
  settled_below now alive k p ->
  settled_below now alive (S k) (cleanup_slot now alive (p, n, cl) k).1.1 /\
  max_size (cleanup_slot now alive (p, n, cl) k).1.1 = max_size p.
Proof.
  intros Hs. unfold cleanup_slot.
  assert (Hkeep : forall c, connections p !! k = Some c ->
                    evictable now alive p c = false ->
                    settled_below now alive (S k) p).
  { intros c Hk He j c' Hj Hc'. destruct (decide (j = k)) as [->|].
    - congruence.
    - apply (Hs j c'); [lia | exact Hc']. }
  destruct (connections p !! k) as [c|] eqn:Hk; cbn [fst].
  - destruct (is_free (state c) && (0 <=? fd c)) eqn:E1; cbn [fst].
    + destruct (should_evict now alive p c) eqn:E2; cbn [fst].
      * split; [|unfold max_size; apply evict_length].
        intros j c' Hj Hc'.
        destruct (evict_lookup p k j c' Hc') as (c0 & Hc0 & Hkey).
        rewrite (evictable_key now alive _ p _ _ Hkey (evict_ttl p k)).
        destruct (decide (k = j)) as [<-|]; [apply evictable_closed|].
        apply (Hs j c0); [lia | exact Hc0].
      * split; [|reflexivity]. apply (Hkeep c eq_refl).
        unfold evictable. rewrite E1, E2. reflexivity.
    + split; [|reflexivity]. apply (Hkeep c eq_refl).
      unfold evictable. rewrite E1. reflexivity.
  - split; [|reflexivity]. intros j c' Hj Hc'. destruct (decide (j = k)) as [->|].
    + congruence.
    + apply (Hs j c'); [lia | exact Hc'].
Qed.

Lemma cleanup_fold_settles now alive : forall m k st,
  settled_below now alive k st.1.1 ->
  settled_below now alive (k + m)
    (fold_left (cleanup_slot now alive) (seq k m) st).1.1 /\
  max_size (fold_left (cleanup_slot now alive) (seq k m) st).1.1 = max_size st.1.1.
Proof.
  induction m as [|m IH]; intros k [[p n] cl] Hs; cbn [seq fold_left fst] in *.
  - rewrite Nat.add_0_r. auto.
  - destruct (cleanup_slot_settles now alive k p n cl Hs) as [Hs' Hl'].
    destruct (cleanup_slot now alive (p, n, cl) k) as [[p' n'] cl'] eqn:E.
    cbn [fst] in *.
    destruct (IH (S k) (p', n', cl') Hs') as [Hs'' Hl''].
    replace (k + S m)%nat with (S k + m)%nat by lia.
    split; [exact Hs''|]. cbn [fst] in Hl''. congruence.
Qed.

(** On a pool whose slots are all settled the sweep changes nothing. *)
Lemma cleanup_fold_idle now alive p : forall m k n cl,
  settled_below now alive (max_size p) p ->
  fold_left (cleanup_slot now alive) (seq k m) (p, n, cl) = (p, n, cl).
Proof.
  induction m as [|m IH]; intros k n cl Hs; cbn [seq fold_left]; [reflexivity|].
  assert (E : cleanup_slot now alive (p, n, cl) k = (p, n, cl)).
  { unfold cleanup_slot. destruct (connections p !! k) as [c|] eqn:Hk; [|reflexivity].
    assert (He : evictable now alive p c = false).
    { apply (Hs k c); [|exact Hk]. unfold max_size. eapply lookup_lt_Some; eauto. }
    unfold evictable in He.
    destruct (is_free (state c) && (0 <=? fd c)); [|reflexivity].
    simpl in He. rewrite He. reflexivity. }
  rewrite E. apply IH. exact Hs.
Qed.

(** C9.  [conn_pool_cleanup] is idempotent: a second call at the same
    clock reading and with the same liveness answers evicts nothing,
    returns 0, closes no descriptor and leaves the pool as the first call
    left it. *)
Theorem conn_pool_cleanup_idempotent now alive p :
  conn_pool_cleanup now alive (conn_pool_cleanup now alive p).1.1
  = ((conn_pool_cleanup now alive p).1.1, 0, []).
Proof.
  unfold conn_pool_cleanup at 1.
  destruct (cleanup_fold_settles now alive (max_size p) 0 (p, 0, [])) as [Hs Hl].
  { intros j c Hj. lia. }
  fold (conn_pool_cleanup now alive p) in Hs, Hl. cbn [fst] in Hl.
  apply cleanup_fold_idle. rewrite Hl. exact Hs.
Qed.

(** *** The LRU list *)

Lemma next_in_notin order i : i ∉ order -> next_in order i = None.
Proof.
  induction order as [|x rest IH]; intros Hni; cbn [next_in]; [reflexivity|].
  apply not_elem_of_cons in Hni as [Hne Hrest].
  destruct (decide (x = i)); [congruence | apply IH; exact Hrest].
Qed.

Lemma prev_in_notin order i : i ∉ order -> prev_in order i = None.
Proof.
  induction order as [|x rest IH]; intros Hni; cbn [prev_in]; [reflexivity|].
  apply not_elem_of_cons in Hni as [Hne Hrest].
  destruct (decide (head rest = Some i)) as [E|E]; [|apply IH; exact Hrest].
  exfalso. apply Hrest. destruct rest as [|y r]; [discriminate|].
  cbn in E. injection E as ->. left.
Qed.

Lemma next_in_elem order i j : next_in order i = Some j -> i ∈ order /\ j ∈ order.
Proof.
  induction order as [|x rest IH]; cbn [next_in]; [discriminate|].
  destruct (decide (x = i)) as [->|Hne].
  - intros H. split; [left|]. right. destruct rest as [|y r]; [discriminate|].
    cbn in H. injection H as ->. left.
  - intros H. destruct (IH H) as [H1 H2]. split; right; assumption.
Qed.

Lemma prev_in_elem order i j : prev_in order i = Some j -> i ∈ order /\ j ∈ order.
Proof.
  induction order as [|x rest IH]; cbn [prev_in]; [discriminate|].
  destruct (decide (head rest = Some i)) as [E|E].
  - intros [= ->]. split; [|left]. right. destruct rest as [|y r]; [discriminate|].
    cbn in E. injection E as ->. left.
  - intros H. destruct (IH H) as [H1 H2]. split; right; assumption.
Qed.

(** In an order without repetition, [j] is before [i] exactly when [i]
    is after [j]. *)
Lemma prev_next_iff order i j :
  NoDup order -> (prev_in order i = Some j <-> next_in order j = Some i).
Proof.
  induction order as [|x rest IH]; intros Hnd; cbn [prev_in next_in];
    [split; discriminate|].
  apply NoDup_cons in Hnd as [Hx Hrest].
  destruct (decide (head rest = Some i)) as [E|E].
  - destruct (decide (x = j)) as [->|Hne].
    + split; [intros _; exact E | reflexivity].
    + split.
      * intros [= ->]. contradiction.
      * intros H. exfalso.
        destruct rest as [|y r]; [discriminate|]. cbn in E. injection E as ->.
        apply NoDup_cons in Hrest as [Hy _].
        cbn [next_in] in H. destruct (decide (i = j)) as [->|Hij].
        -- destruct r as [|z r']; [discriminate|]. cbn in H. injection H as ->.
           apply Hy. left.
        -- apply next_in_elem in H as [_ H]. contradiction.
  - destruct (decide (x = j)) as [->|Hne].
    + split.
      * intros H. apply prev_in_elem in H as [_ H]. contradiction.
      * intros H. contradiction.
    + apply IH. exact Hrest.
Qed.

Lemma next_in_ne order i j : NoDup order -> next_in order i = Some j -> i <> j.
Proof.
  induction order as [|x rest IH]; intros Hnd; cbn [next_in]; [discriminate|].
  apply NoDup_cons in Hnd as [Hx Hrest].
  destruct (decide (x = i)) as [->|Hne]; [|apply IH; exact Hrest].
  intros H Heq. subst j. apply Hx. destruct rest as [|y r]; [discriminate|].
  cbn in H. injection H as ->. left.
Qed.

Lemma prev_in_ne order i j : NoDup order -> prev_in order i = Some j -> i <> j.
Proof.
  intros Hnd H Heq. apply (prev_next_iff order i j Hnd) in H.
  apply (next_in_ne order j i Hnd H). congruence.
Qed.

Lemma without_elem i order x : x ∈ without i order <-> x ∈ order /\ x <> i.
Proof.
  unfold without. rewrite !list_elem_of_In, filter_In.
  destruct (Nat.eqb_spec x i); cbn; intuition congruence.
Qed.

Lemma without_nodup i order : NoDup order -> NoDup (without i order).
Proof.
  induction 1 as [|x rest Hx Hnd IH]; cbn; [constructor|].
  destruct (Nat.eqb_spec x i); cbn [negb]; [exact IH|].
  constructor; [|exact IH]. intros H. apply without_elem in H as [H _]. contradiction.
Qed.

Lemma without_notin i order : i ∉ order -> without i order = order.
Proof.
  induction order as [|x rest IH]; intros Hni; cbn; [reflexivity|].
  apply not_elem_of_cons in Hni as [Hne Hrest].
  destruct (Nat.eqb_spec x i); [congruence|]. cbn [negb]. f_equal. apply IH, Hrest.
Qed.

Lemma without_head i order :
  NoDup order ->
  head (without i order) = if decide (head order = Some i) then next_in order i
                           else head order.
Proof.
  intros Hnd. destruct order as [|x rest]; cbn; [destruct (decide _); reflexivity|].
  apply NoDup_cons in Hnd as [Hx Hrest].
  destruct (Nat.eqb_spec x i) as [->|Hne]; cbn [negb].
  - destruct (decide (Some i = Some i)); [|congruence].
    destruct (decide (i = i)); [|congruence].
    fold (without i rest). rewrite without_notin by exact Hx. reflexivity.
  - destruct (decide (Some x = Some i)); [congruence | reflexivity].
Qed.

Lemma without_next i order j :
  NoDup order -> j <> i ->
  next_in (without i order) j
  = if decide (next_in order j = Some i) then next_in order i else next_in order j.
Proof.
  induction order as [|x rest IH]; intros Hnd Hji; cbn [next_in without List.filter];
    [destruct (decide _); reflexivity|].
  fold (without i rest). pose proof Hnd as Hnd0.
  apply NoDup_cons in Hnd as [Hx Hrest].
  destruct (Nat.eqb_spec x i) as [->|Hne]; cbn [negb].
  - destruct (decide (i = j)); [congruence|].
    destruct (decide (i = i)); [|congruence].
    rewrite without_notin by exact Hx.
    destruct (decide (next_in rest j = Some i)) as [E|E]; [|reflexivity].
    apply next_in_elem in E as [_ E]. contradiction.
  - cbn [next_in]. destruct (decide (x = j)) as [->|Hxj].
    + rewrite (without_head i rest Hrest).
      destruct (decide (head rest = Some i)) as [E|E]; [|
        destruct (decide (head rest = Some i)); [contradiction | reflexivity]].
      destruct (decide (j = i)); [congruence|]. reflexivity.
    + destruct (decide (x = i)); [congruence|]. apply IH; assumption.
Qed.

Lemma last_cons_cons {A} (x y : A) l : last (x :: y :: l) = last (y :: l).
Proof. reflexivity. Qed.

Lemma without_last i order :
  NoDup order ->
  last (without i order) = if decide (last order = Some i) then prev_in order i
                           else last order.
Proof.
  induction order as [|x rest IH]; intros Hnd; cbn [without List.filter];
    [destruct (decide _); reflexivity|].
  fold (without i rest). apply NoDup_cons in Hnd as [Hx Hrest].
  specialize (IH Hrest).
  destruct rest as [|y r].
  - change (last [x]) with (Some x). change (prev_in [x] i) with (@None nat).
    destruct (Nat.eqb_spec x i) as [->|Hne]; cbn [negb last].
    + destruct (decide (Some i = Some i)); [reflexivity | congruence].
    + destruct (decide (Some x = Some i)); [congruence | reflexivity].
  - rewrite last_cons_cons. cbn [prev_in head].
    destruct (Nat.eqb_spec x i) as [->|Hne]; cbn [negb].
    + rewrite without_notin in * by exact Hx.
      destruct (decide (last (y :: r) = Some i)) as [E|E]; [|reflexivity].
      exfalso. apply Hx. apply last_Some_elem_of in E. exact E.
    + destruct (without i (y :: r)) as [|z r'] eqn:Ew.
      * (* everything after [x] was [i] *)
        assert (Hy : y = i /\ r = []).
        { cbn in Ew. fold (without i r) in Ew.
          destruct (Nat.eqb_spec y i) as [->|]; [|discriminate]. split; [reflexivity|].
          apply NoDup_cons in Hrest as [Hy _]. rewrite without_notin in Ew by exact Hy.
          exact Ew. }
        destruct Hy as [-> ->]. cbn.
        destruct (decide (Some i = Some i)); [|congruence].
        destruct (decide (Some i = Some i)); [reflexivity | congruence].
      * rewrite last_cons_cons, IH.
        destruct (decide (last (y :: r) = Some i)) as [E|E]; [|reflexivity].
        destruct (decide (Some y = Some i)) as [[= ->]|Hyi]; [|reflexivity].
        (* [i] is both the second and the last: the list is [x; i] *)
        exfalso. destruct r as [|z' r'']; [cbn in Ew; destruct (Nat.eqb_spec i i);
          [discriminate | congruence]|].
        apply NoDup_cons in Hrest as [Hi _]. apply Hi.
        rewrite last_cons_cons in E. apply last_Some_elem_of in E. exact E.
Qed.

Lemma prev_in_head x rest : NoDup (x :: rest) -> prev_in (x :: rest) x = None.
Proof.
  intros Hnd. apply NoDup_cons in Hnd as [Hx _]. cbn [prev_in].
  destruct (decide (head rest = Some x)) as [E|E]; [|apply prev_in_notin, Hx].
  exfalso. apply Hx. destruct rest as [|y r]; [discriminate|].
  cbn in E. injection E as ->. left.
Qed.

Lemma without_prev i order j :
  NoDup order -> j <> i ->
  prev_in (without i order) j
  = if decide (prev_in order j = Some i) then prev_in order i else prev_in order j.
Proof.
  induction order as [|x rest IH]; intros Hnd Hji; cbn [prev_in without List.filter];
    [destruct (decide _); reflexivity|].
  fold (without i rest). pose proof Hnd as Hnd0.
  apply NoDup_cons in Hnd as [Hx Hrest]. specialize (IH Hrest Hji).
  destruct (Nat.eqb_spec x i) as [->|Hne]; cbn [negb].
  - rewrite without_notin by exact Hx.
    destruct (decide (head rest = Some i)) as [E|_].
    { exfalso. apply Hx. destruct rest as [|y r]; [discriminate|].
      cbn in E. injection E as ->. left. }
    destruct (decide (head rest = Some j)) as [E|E].
    + destruct (decide (Some i = Some i)); [|congruence].
      rewrite (prev_in_notin rest i Hx).
      destruct rest as [|y r]; [discriminate|]. cbn in E. injection E as ->.
      apply prev_in_head, Hrest.
    + destruct (decide (prev_in rest j = Some i)) as [E'|_]; [|reflexivity].
      apply prev_in_elem in E' as [_ E']. contradiction.
  - cbn [prev_in]. rewrite (without_head i rest Hrest).
    destruct (decide (head rest = Some i)) as [Ei|Ei].
    + destruct (decide (head rest = Some j)) as [Ej|_]; [congruence|].
      destruct (decide (next_in rest i = Some j)) as [En|En].
      * apply (prev_next_iff rest j i Hrest) in En.
        destruct (decide (prev_in rest j = Some i)); [reflexivity | contradiction].
      * rewrite IH.
        destruct (decide (prev_in rest j = Some i)) as [Ep|Ep]; [|reflexivity].
        apply (prev_next_iff rest j i Hrest) in Ep. contradiction.
    + destruct (decide (head rest = Some j)) as [Ej|Ej].
      * destruct (decide (Some x = Some i)); [congruence | reflexivity].
      * exact IH.
Qed.

(** A slot after the slot [i] has been taken out of the chain of its
    neighbours. *)
Lemma unlinked_lookup cs i c x cx :
  cs !! i = Some c -> prev c <> Some i -> next c <> Some i ->
  cs !! x = Some cx ->
  exists cx', unlinked cs i !! x = Some cx' /\ payload cx' = payload cx /\
    next cx' = (if decide (prev c = Some x) then next c else next cx) /\
    prev cx' = (if decide (next c = Some x) then prev c else prev cx).
Proof.
  intros Hi HP HN Hx. unfold unlinked. rewrite Hi. cbn [mbind option_bind].
  destruct (prev c) as [j|] eqn:EP.
  - rewrite list_lookup_alter_ne by congruence. rewrite Hi. cbn [mbind option_bind].
    rewrite EP. destruct (next c) as [k|] eqn:EN.
    + destruct (decide (k = x)) as [->|Hxk];
        [rewrite list_lookup_alter_eq | rewrite list_lookup_alter_ne by congruence];
        (destruct (decide (j = x)) as [->|Hxj];
          [rewrite list_lookup_alter_eq | rewrite list_lookup_alter_ne by congruence]);
        rewrite Hx; cbn; eexists; (split; [reflexivity|]);
        repeat split; cbn; repeat destruct (decide _); congruence.
    + destruct (decide (j = x)) as [->|Hxj];
          [rewrite list_lookup_alter_eq | rewrite list_lookup_alter_ne by congruence];
        rewrite Hx; cbn; eexists; (split; [reflexivity|]);
        repeat split; cbn; repeat destruct (decide _); congruence.
  - rewrite Hi. cbn [mbind option_bind]. rewrite EP.
    destruct (next c) as [k|] eqn:EN.
    + destruct (decide (k = x)) as [->|Hxk];
        [rewrite list_lookup_alter_eq | rewrite list_lookup_alter_ne by congruence];
        rewrite Hx; cbn; eexists; (split; [reflexivity|]);
        repeat split; cbn; repeat destruct (decide _); congruence.
    + rewrite Hx. eexists; (split; [reflexivity|]);
        repeat split; cbn; repeat destruct (decide _); congruence.
Qed.

Lemma unlinked_length cs i : length (unlinked cs i) = length cs.
Proof.
  unfold unlinked. destruct (_ ≫= next); [rewrite length_alter|];
    (destruct (_ ≫= prev); [rewrite length_alter|]); reflexivity.
Qed.

(** With the links of an order without repetition, the slot [i] is taken
    out of it. *)
Lemma unlinked_order cs order i c x cx :
  NoDup order ->
  (forall y cy, cs !! y = Some cy ->
     prev cy = prev_in order y /\ next cy = next_in order y) ->
  cs !! i = Some c -> cs !! x = Some cx ->
  exists cx', unlinked cs i !! x = Some cx' /\ payload cx' = payload cx /\
    (if decide (x = i)
     then prev cx' = prev_in order i /\ next cx' = next_in order i
     else prev cx' = prev_in (without i order) x /\
          next cx' = next_in (without i order) x).
Proof.
  intros Hnd Hl Hi Hx.
  destruct (Hl i c Hi) as [HPc HNc]. destruct (Hl x cx Hx) as [HPx HNx].
  assert (HP : prev c <> Some i).
  { rewrite HPc. intros E. exact (prev_in_ne order i i Hnd E eq_refl). }
  assert (HN : next c <> Some i).
  { rewrite HNc. intros E. exact (next_in_ne order i i Hnd E eq_refl). }
  destruct (unlinked_lookup cs i c x cx Hi HP HN Hx) as (cx' & Hx' & Hpay & Hn & Hp).
  exists cx'. split; [exact Hx'|]. split; [exact Hpay|].
  destruct (decide (x = i)) as [->|Hxi].
  - assert (cx = c) by congruence. subst cx. split.
    + rewrite Hp. destruct (decide (next c = Some i)); [contradiction | exact HPc].
    + rewrite Hn. destruct (decide (prev c = Some i)); [contradiction | exact HNc].
  - rewrite (without_prev i order x Hnd Hxi), (without_next i order x Hnd Hxi). split.
    + rewrite Hp, HNc, HPc, HPx.
      destruct (decide (next_in order i = Some x)) as [E|E];
        destruct (decide (prev_in order x = Some i)) as [E'|E']; try reflexivity.
      * apply (prev_next_iff order x i Hnd) in E. contradiction.
      * apply (prev_next_iff order x i Hnd) in E'. contradiction.
    + rewrite Hn, HNc, HPc, HNx.
      destruct (decide (prev_in order i = Some x)) as [E|E];
        destruct (decide (next_in order x = Some i)) as [E'|E']; try reflexivity.
      * apply (prev_next_iff order i x Hnd) in E. contradiction.
      * apply (prev_next_iff order i x Hnd) in E'. contradiction.
Qed.

Lemma without_slots (P : nat -> Prop) i order :
  Forall P order -> Forall P (without i order).
Proof.
  intros H. apply Forall_forall. intros x Hx. apply without_elem in Hx as [Hx _].
  rewrite Forall_forall in H. apply H, Hx.
Qed.

Lemma lru_remove_unfold p i :
  lru_remove p i
  = {| connections := alter (fun c => set_prev None (set_next None c)) i
                            (unlinked (connections p) i);
       current_size := current_size p; ttl_seconds := ttl_seconds p;
       max_requests_per_conn := max_requests_per_conn p;
       lru_head := if decide (lru_head p = Some i)
                   then unlinked (connections p) i !! i ≫= next else lru_head p;
       lru_tail := if decide (lru_tail p = Some i)
                   then unlinked (connections p) i !! i ≫= prev else lru_tail p;
       pool_hits := pool_hits p; pool_misses := pool_misses p;
       pool_evictions := pool_evictions p |}.
Proof. reflexivity. Qed.

(** [lru_remove] takes the slot out of the LRU list and leaves the
    others in their order. *)
Lemma lru_remove_ok p order i :
  lru_ok p order -> (i < max_size p)%nat -> lru_ok (lru_remove p i) (without i order).
Proof.
  intros [Hnd Hsl Hh Ht Hl] Hi.
  destruct (lookup_lt_is_Some_2 (connections p) i Hi) as [c Hc].
  destruct (unlinked_order _ order i c i c Hnd Hl Hc Hc) as (ci & Hci & _ & Hli).
  destruct (decide (i = i)) as [_|]; [|congruence]. destruct Hli as [HPi HNi].
  rewrite lru_remove_unfold. split; cbn [connections lru_head lru_tail max_size].
  - apply without_nodup, Hnd.
  - unfold max_size. cbn [connections]. rewrite length_alter, unlinked_length.
    apply without_slots, Hsl.
  - rewrite Hci. cbn [mbind option_bind]. rewrite HNi, Hh. symmetry.
    apply without_head, Hnd.
  - rewrite Hci. cbn [mbind option_bind]. rewrite HPi, Ht. symmetry.
    apply without_last, Hnd.
  - intros x cx' Hx.
    destruct (decide (i = x)) as [<-|Hne].
    + rewrite list_lookup_alter_eq, Hci in Hx. cbn in Hx. injection Hx as <-.
      cbn [prev next set_prev set_next].
      assert (Hni : i ∉ without i order) by (intros H; apply without_elem in H as [_ H]; congruence).
      rewrite prev_in_notin, next_in_notin by exact Hni. split; reflexivity.
    + rewrite list_lookup_alter_ne in Hx by exact Hne.
      assert (Hxl : (x < length (connections p))%nat).
      { rewrite <- (unlinked_length (connections p) i). apply lookup_lt_is_Some. eauto. }
      destruct (lookup_lt_is_Some_2 (connections p) x Hxl) as [cx Hcx].
      destruct (unlinked_order _ order i c x cx Hnd Hl Hc Hcx) as (cx2 & Hcx2 & _ & Hlx).
      destruct (decide (x = i)); [congruence|].
      assert (cx2 = cx') by congruence. subst cx2. exact Hlx.
Qed.

Lemma without_head_eq i order : NoDup order -> head order = Some i ->
  i :: without i order = order.
Proof.
  intros Hnd Hh. destruct order as [|x rest]; [discriminate|].
  cbn in Hh. injection Hh as ->. apply NoDup_cons in Hnd as [Hx _].
  cbn. destruct (Nat.eqb_spec i i); [|congruence]. cbn [negb].
  fold (without i rest). rewrite without_notin by exact Hx. reflexivity.
Qed.

Lemma lru_touch_unfold p i :
  lru_head p <> Some i ->
  lru_touch p i
  = set_lru (Some i)
      (match (if decide (lru_tail p = Some i)
              then unlinked (connections p) i !! i ≫= prev else lru_tail p) with
       | Some t => Some t
       | None => Some i
       end)
      (set_connections
         (match lru_head p with
          | Some h => alter (set_prev (Some i)) h
                        (alter (set_next (lru_head p)) i
                           (alter (set_prev None) i (unlinked (connections p) i)))
          | None => alter (set_next (lru_head p)) i
                      (alter (set_prev None) i (unlinked (connections p) i))
          end) p).
Proof.
  intros H. unfold lru_touch. destruct (decide (lru_head p = Some i)); [contradiction|].
  reflexivity.
Qed.

(** [lru_touch] makes the slot the head of the LRU list and leaves the
    others in their order. *)
Lemma lru_touch_ok p order i :
  lru_ok p order -> (i < max_size p)%nat -> lru_ok (lru_touch p i) (i :: without i order).
Proof.
  intros Hok Hi. pose proof Hok as [Hnd Hsl Hh Ht Hl].
  destruct (decide (lru_head p = Some i)) as [E|E].
  { unfold lru_touch. destruct (decide (lru_head p = Some i)); [|contradiction].
    rewrite without_head_eq; [exact Hok | exact Hnd | congruence]. }
  destruct (lookup_lt_is_Some_2 (connections p) i Hi) as [c Hc].
  destruct (unlinked_order _ order i c i c Hnd Hl Hc Hc) as (ci & Hci & _ & Hli).
  destruct (decide (i = i)) as [_|]; [|congruence]. destruct Hli as [HPi HNi].
  assert (Hni : i ∉ without i order)
    by (intros H; apply without_elem in H as [_ H]; congruence).
  assert (Hhw : head (without i order) = lru_head p).
  { rewrite (without_head i order Hnd), <- Hh.
    destruct (decide (lru_head p = Some i)); [contradiction | reflexivity]. }
  rewrite lru_touch_unfold by exact E.
  split; cbn [connections lru_head lru_tail max_size set_lru set_connections].
  - apply NoDup_cons. split; [exact Hni | apply without_nodup, Hnd].
  - assert (Hlen : forall cs : list PooledConnection, length cs = length (connections p) ->
              Forall (fun j => (j < length cs)%nat) (i :: without i order)).
    { intros cs ->. constructor; [exact Hi | apply without_slots, Hsl]. }
    unfold max_size. cbn [connections]. apply Hlen.
    destruct (lru_head p); cbn [connections set_lru set_connections];
      rewrite ?length_alter, unlinked_length; reflexivity.
  - reflexivity.
  - rewrite Hci. cbn [mbind option_bind]. rewrite HPi, Ht.
    pose proof (without_last i order Hnd) as Hw.
    destruct (without i order) as [|y r] eqn:Ew.
    + cbn in Hw. cbn [last]. rewrite <- Hw. reflexivity.
    + rewrite last_cons_cons. rewrite <- Hw.
      destruct (last (y :: r)) eqn:El; [reflexivity|].
      exfalso. clear -El. revert y El. induction r as [|z r IH]; intros y El;
        [discriminate|]. rewrite last_cons_cons in El. exact (IH z El).
  - intros x cx' Hx.
    assert (Hx3 : match lru_head p with
                  | Some h => if decide (h = x)
                              then set_prev (Some i) <$>
                                   (alter (set_next (lru_head p)) i
                                     (alter (set_prev None) i
                                        (unlinked (connections p) i)) !! x)
                              else alter (set_next (lru_head p)) i
                                     (alter (set_prev None) i
                                        (unlinked (connections p) i)) !! x
                  | None => alter (set_next (lru_head p)) i
                              (alter (set_prev None) i
                                 (unlinked (connections p) i)) !! x
                  end = Some cx').
    { destruct (lru_head p) as [h|]; [|exact Hx].
      destruct (decide (h = x)) as [->|Hhx].
      - rewrite list_lookup_alter_eq in Hx. exact Hx.
      - rewrite list_lookup_alter_ne in Hx by exact Hhx. exact Hx. }
    clear Hx. cbn [prev_in next_in]. rewrite Hhw.
    destruct (decide (i = x)) as [<-|Hne].
    + rewrite list_lookup_alter_eq, list_lookup_alter_eq, Hci in Hx3. cbn in Hx3.
      rewrite (prev_in_notin _ i Hni).
      destruct (lru_head p) as [h|] eqn:Eh.
      * destruct (decide (h = i)); [congruence|].
        destruct (decide (Some h = Some i)); [congruence|].
        injection Hx3 as <-. split; reflexivity.
      * destruct (decide (None = Some i)); [congruence|].
        injection Hx3 as <-. split; reflexivity.
    + rewrite !list_lookup_alter_ne in Hx3 by exact Hne.
      assert (Hsome : is_Some (unlinked (connections p) i !! x)).
      { destruct (lru_head p) as [h|]; [destruct (decide (h = x))|];
          destruct (unlinked (connections p) i !! x); eauto; discriminate. }
      assert (Hxl : (x < length (connections p))%nat).
      { rewrite <- (unlinked_length (connections p) i). apply lookup_lt_is_Some, Hsome. }
      destruct (lookup_lt_is_Some_2 (connections p) x Hxl) as [cx Hcx].
      destruct (unlinked_order _ order i c x cx Hnd Hl Hc Hcx) as (cx2 & Hcx2 & _ & Hlx).
      destruct (decide (x = i)); [congruence|]. destruct Hlx as [HPx HNx].
      rewrite Hcx2 in Hx3.
      destruct (lru_head p) as [h|] eqn:Eh.
      * destruct (decide (h = x)) as [->|Hhx].
        -- destruct (decide (Some x = Some x)); [|congruence].
           cbn in Hx3. injection Hx3 as <-. cbn [prev next set_prev]. split;
             [reflexivity | exact HNx].
        -- destruct (decide (Some h = Some x)); [congruence|].
           injection Hx3 as <-. split; assumption.
      * destruct (decide (None = Some x)); [congruence|].
        injection Hx3 as <-. split; assumption.
Qed.

(** *** The LRU list under the calls of the interface *)

Lemma alter_fmap_keep {B} (g : PooledConnection -> B)
    (f : PooledConnection -> PooledConnection) (j : nat) (cs : list PooledConnection) :
  (forall c, g (f c) = g c) -> g <$> alter f j cs = g <$> cs.
Proof.
  intros Hf. rewrite (list_fmap_alter g f id).
  - apply list_alter_id. reflexivity.
  - apply Forall_forall. intros c _. apply Hf.
Qed.

(** A pool with the same links and ends has the same LRU list. *)
Lemma lru_ok_same p p' order :
  lru_ok p order -> lru_head p' = lru_head p -> lru_tail p' = lru_tail p ->
  links <$> connections p' = links <$> connections p ->
  lru_ok p' order.
Proof.
  intros [Hnd Hsl Hh Ht Hl] Hh' Ht' Hlk.
  assert (Hlen : max_size p' = max_size p).
  { unfold max_size. rewrite <- (length_fmap links (connections p')), Hlk.
    apply length_fmap. }
  split.
  - exact Hnd.
  - rewrite Hlen. exact Hsl.
  - congruence.
  - congruence.
  - intros i c' Hc'.
    assert (H : (links <$> connections p) !! i = Some (links c'))
      by (rewrite <- Hlk, list_lookup_fmap, Hc'; reflexivity).
    rewrite list_lookup_fmap in H.
    destruct (connections p !! i) as [c|] eqn:Hc; [|discriminate].
    cbn in H. unfold links in H.
    assert (prev c = prev c' /\ next c = next c') as [HP HN] by (split; congruence).
    destruct (Hl i c Hc) as [H1 H2]. split; congruence.
Qed.

Lemma find_slot_Some f cs i :
  find_slot f cs = Some i ->
  exists c, cs !! i = Some c /\ f c = true /\
            forall j cj, (j < i)%nat -> cs !! j = Some cj -> f cj = false.
Proof.
  revert i. induction cs as [|c rest IH]; intros i; cbn [find_slot]; [discriminate|].
  destruct (f c) eqn:Ef.
  - intros [= <-]. exists c. split; [reflexivity|]. split; [exact Ef|]. intros; lia.
  - destruct (find_slot f rest) as [k|] eqn:Ek; [|discriminate].
    cbn. intros [= <-]. destruct (IH k eq_refl) as (ck & Hk & Hf & Hbefore).
    exists ck. split; [exact Hk|]. split; [exact Hf|].
    intros [|j] cj Hj Hcj; cbn in Hcj; [congruence|].
    apply (Hbefore j); [lia | exact Hcj].
Qed.

Lemma find_slot_ext f g cs :
  (forall c, f c = g c) -> find_slot f cs = find_slot g cs.
Proof.
  intros H. induction cs as [|c rest IH]; cbn [find_slot]; [reflexivity|].
  rewrite H, IH. reflexivity.
Qed.

Lemma find_slot_None f cs :
  find_slot f cs = None -> forall j cj, cs !! j = Some cj -> f cj = false.
Proof.
  induction cs as [|c rest IH]; cbn [find_slot]; [intros _ j cj H; discriminate|].
  destruct (f c) eqn:Ef; [discriminate|].
  destruct (find_slot f rest) as [k|] eqn:Ek; [discriminate|].
  intros _ [|j] cj Hcj; cbn in Hcj; [congruence|]. exact (IH eq_refl j cj Hcj).
Qed.

Lemma conn_pool_create_lru size ttl : lru_ok (conn_pool_create size ttl) [].
Proof.
  split; [constructor | constructor | reflexivity | reflexivity |].
  intros i c Hc. cbn [conn_pool_create connections] in Hc.
  apply lookup_replicate in Hc as [-> _]. split; reflexivity.
Qed.

Lemma discard_lru expired p i order : lru_ok p order -> lru_ok (discard expired p i) order.
Proof.
  intros Hok. apply (lru_ok_same p); [exact Hok | | |]; unfold discard;
    destruct expired; cbn; try reflexivity; apply alter_fmap_keep; reflexivity.
Qed.

Lemma hand_out_lru now p i c order :
  lru_ok p order -> connections p !! i = Some c ->
  lru_ok (hand_out now p i) (i :: without i order).
Proof.
  intros Hok Hc. unfold hand_out.
  set (p0 := set_connections _ p).
  assert (H0 : lru_ok p0 order).
  { apply (lru_ok_same p); [exact Hok | reflexivity | reflexivity |].
    apply alter_fmap_keep. reflexivity. }
  assert (Hi : (i < max_size p0)%nat).
  { unfold max_size, p0. cbn [connections set_connections]. rewrite length_alter.
    apply lookup_lt_is_Some. eauto. }
  apply (lru_ok_same (lru_touch p0 i)); [| reflexivity | reflexivity | reflexivity].
  apply lru_touch_ok; assumption.
Qed.

Lemma get_loop_lru now alive host port : forall slots p calls order,
  lru_ok p order ->
  exists order', lru_ok (get_loop now alive host port slots p calls).1.1 order'.
Proof.
  induction slots as [|i rest IH]; intros p calls order Hok; cbn [get_loop].
  - exists order. exact Hok.
  - destruct (connections p !! i) as [c|] eqn:Hc; [|eapply IH; exact Hok].
    destruct (candidate host port c); [|eapply IH; exact Hok].
    destruct (examine now alive p c).
    + eapply IH. apply discard_lru, Hok.
    + eapply IH. apply discard_lru, Hok.
    + eapply IH. apply discard_lru, Hok.
    + eexists. cbn. eapply hand_out_lru; eassumption.
Qed.

Lemma lru_tail_slot p order t :
  lru_ok p order -> lru_tail p = Some t -> (t < max_size p)%nat.
Proof.
  intros [Hnd Hsl Hh Ht Hl] E. rewrite Ht in E. apply last_Some_elem_of in E.
  rewrite Forall_forall in Hsl. apply Hsl, E.
Qed.

Lemma lru_remove_length p i : max_size (lru_remove p i) = max_size p.
Proof.
  rewrite lru_remove_unfold. unfold max_size. cbn [connections].
  rewrite length_alter. apply unlinked_length.
Qed.

(** The slot taken for a new connection is one of the pool's, and the
    LRU list is still one. *)
Lemma take_slot_lru p order slot p' closed :
  lru_ok p order -> take_slot p = (slot, p', closed) ->
  (exists order', lru_ok p' order') /\
  forall i, slot = Some i -> (i < max_size p')%nat.
Proof.
  intros Hok. unfold take_slot.
  destruct (find_free_slot p) as [i|] eqn:Ef.
  - intros [= <- <- <-]. split; [eauto|]. intros j [= <-].
    apply find_slot_Some in Ef as (c & Hc & _). apply lookup_lt_is_Some. eauto.
  - destruct (lru_tail p) as [t|] eqn:Et.
    + pose proof (lru_tail_slot p order t Hok Et) as Hrange.
      assert (Hgen : forall q, lru_head q = lru_head p -> lru_tail q = lru_tail p ->
                connections q = connections p ->
                (exists order', lru_ok (lru_remove q t) order') /\
                (t < max_size (lru_remove q t))%nat).
      { intros q H1 H2 H3.
        assert (Hq : lru_ok q order)
          by (apply (lru_ok_same p); [exact Hok | exact H1 | exact H2 | rewrite H3; reflexivity]).
        assert (Hqr : (t < max_size q)%nat) by (unfold max_size; rewrite H3; exact Hrange).
        split; [eexists; apply lru_remove_ok; eassumption|].
        rewrite lru_remove_length. exact Hqr. }
      destruct (connections p !! t) as [c|] eqn:Hc.
      * destruct (0 <=? fd c).
        -- intros [= <- <- <-].
           destruct (Hgen (set_statistics (pool_hits p) (pool_misses p)
                             (wrap_ulong (pool_evictions p + 1))
                             (set_current_size (wrap_int (current_size p - 1)) p))
                          eq_refl eq_refl eq_refl) as [H1 H2].
           split; [exact H1|]. intros j [= <-]. exact H2.
        -- intros [= <- <- <-].
           destruct (Hgen p eq_refl eq_refl eq_refl) as [H1 H2].
           split; [exact H1|]. intros j [= <-]. exact H2.
      * intros [= <- <- <-].
        destruct (Hgen p eq_refl eq_refl eq_refl) as [H1 H2].
        split; [exact H1|]. intros j [= <-]. exact H2.
    + intros [= <- <- <-]. split; [eauto|]. intros j H. discriminate.
Qed.

Lemma fill_slot_lru now v host port p i order :
  lru_ok p order -> (i < max_size p)%nat ->
  lru_ok (fill_slot now v host port p i) (i :: without i order).
Proof.
  intros Hok Hi. unfold fill_slot.
  set (p0 := set_current_size _ _).
  assert (H0 : lru_ok p0 order).
  { apply (lru_ok_same p); [exact Hok | reflexivity | reflexivity |].
    apply alter_fmap_keep. reflexivity. }
  apply lru_touch_ok; [exact H0|].
  unfold max_size, p0. cbn [connections set_connections set_current_size].
  rewrite length_alter. exact Hi.
Qed.

Lemma release_slot_lru p i c order :
  lru_ok p order -> connections p !! i = Some c ->
  lru_ok (release_slot p i) (without i order).
Proof.
  intros Hok Hc. unfold release_slot.
  set (p0 := set_connections _ p).
  assert (H0 : lru_ok p0 order).
  { apply (lru_ok_same p); [exact Hok | reflexivity | reflexivity |].
    apply alter_fmap_keep. reflexivity. }
  assert (Hi : (i < max_size p0)%nat).
  { unfold max_size, p0. cbn [connections set_connections]. rewrite length_alter.
    apply lookup_lt_is_Some. eauto. }
  apply (lru_ok_same (lru_remove p0 i)); [| reflexivity | reflexivity | reflexivity].
  apply lru_remove_ok; assumption.
Qed.

Lemma evict_lru p i c order :
  lru_ok p order -> connections p !! i = Some c -> lru_ok (evict p i) (without i order).
Proof.
  intros Hok Hc. unfold evict.
  set (p0 := set_connections _ p).
  assert (H0 : lru_ok p0 order).
  { apply (lru_ok_same p); [exact Hok | reflexivity | reflexivity |].
    apply alter_fmap_keep. reflexivity. }
  assert (Hi : (i < max_size p0)%nat).
  { unfold max_size, p0. cbn [connections set_connections]. rewrite length_alter.
    apply lookup_lt_is_Some. eauto. }
  apply (lru_ok_same (lru_remove p0 i)); [| reflexivity | reflexivity | reflexivity].
  apply lru_remove_ok; assumption.
Qed.

Lemma cleanup_fold_lru now alive : forall slots p n closed order,
  lru_ok p order ->
  exists order', lru_ok (fold_left (cleanup_slot now alive) slots (p, n, closed)).1.1 order'.
Proof.
  induction slots as [|i rest IH]; intros p n closed order Hok; cbn [fold_left].
  - exists order. exact Hok.
  - unfold cleanup_slot at 2.
    destruct (connections p !! i) as [c|] eqn:Hc; [|eapply IH; exact Hok].
    destruct (is_free (state c) && (0 <=? fd c)); [|eapply IH; exact Hok].
    destruct (should_evict now alive p c); [|eapply IH; exact Hok].
    eapply IH. eapply evict_lru; eassumption.
Qed.

(** X19.  From [conn_pool_create] on, whatever calls of [conn_pool_get],
    [conn_pool_return], [conn_pool_close] and [conn_pool_cleanup] follow
    and whatever the sockets do, the pool's LRU list is a well-formed
    doubly linked list: its slots are distinct slots of the pool,
    [lru_head] and [lru_tail] are its two ends, [prev] and [next] of each
    listed slot are its neighbours, and both are [NULL] in every slot
    that is not listed. *)
Theorem lru_list_stays_well_formed (size ttl : Z) (ops : list pool_op) :
  exists order, lru_ok (fold_left pool_step ops (conn_pool_create size ttl)) order.
Proof.
  assert (Hgen : forall p order, lru_ok p order ->
            exists order', lru_ok (fold_left pool_step ops p) order').
  { induction ops as [|op rest IH]; intros p order Hok; cbn [fold_left]; [eauto|].
    assert (Hstep : exists order', lru_ok (pool_step p op) order');
      [|destruct Hstep as [order' Hok']; exact (IH _ _ Hok')].
    destruct op as [now alive connected host port | now alive v host port | v | now alive];
      cbn [pool_step].
    - (* conn_pool_get *)
      unfold conn_pool_get.
      destruct (get_loop_lru now alive host port (seq 0 (max_size p)) p [] order Hok)
        as [order1 Hok1].
      destruct (get_loop now alive host port (seq 0 (max_size p)) p [])
        as [[p1 calls] [v|]]; cbn [fst] in Hok1; [exists order1; exact Hok1|].
      set (p2 := set_statistics _ _ _ p1).
      assert (Hok2 : lru_ok p2 order1)
        by (apply (lru_ok_same p1); [exact Hok1 | | |]; reflexivity).
      destruct (take_slot p2) as [[slot p3] closed] eqn:Etake.
      destruct (take_slot_lru p2 order1 slot p3 closed Hok2 Etake) as [[order3 Hok3] Hslot].
      destruct slot as [i|]; [|exists order3; exact Hok3].
      destruct (0 <=? connected); [|exists order3; exact Hok3].
      eexists. cbn [fst]. apply fill_slot_lru; [exact Hok3 | apply Hslot; reflexivity].
    - (* conn_pool_return *)
      unfold conn_pool_return.
      destruct (v <? 0); [exists order; exact Hok|].
      destruct (find_by_fd p v) as [i|]; [|exists order; exact Hok].
      destruct (connections p !! i) as [c|] eqn:Hc; [|exists order; exact Hok].
      destruct (_ && _).
      + eexists. cbn [fst]. apply lru_touch_ok.
        * apply (lru_ok_same p); [exact Hok | reflexivity | reflexivity |].
          apply alter_fmap_keep. reflexivity.
        * unfold max_size. cbn [connections set_connections]. rewrite length_alter.
          apply lookup_lt_is_Some. eauto.
      + eexists. cbn [fst]. eapply release_slot_lru; eassumption.
    - (* conn_pool_close *)
      unfold conn_pool_close.
      destruct (v <? 0); [exists order; exact Hok|].
      destruct (find_by_fd p v) as [i|] eqn:Ef; [|exists order; exact Hok].
      apply find_slot_Some in Ef as (c & Hc & _).
      eexists. cbn [fst]. eapply release_slot_lru; eassumption.
    - (* conn_pool_cleanup *)
      unfold conn_pool_cleanup. eapply cleanup_fold_lru. exact Hok. }
  exact (Hgen _ _ (conn_pool_create_lru size ttl)).
Qed.

(** *** What [conn_pool_get] hands out *)

Lemma unlinked_payload cs i : payload <$> unlinked cs i = payload <$> cs.
Proof.
  unfold unlinked.
  destruct (_ ≫= next); [rewrite alter_fmap_keep by reflexivity|];
    (destruct (_ ≫= prev); [apply alter_fmap_keep|]; reflexivity).
Qed.

Lemma lru_remove_payload p i :
  payload <$> connections (lru_remove p i) = payload <$> connections p.
Proof.
  rewrite lru_remove_unfold. cbn [connections].
  rewrite alter_fmap_keep by reflexivity. apply unlinked_payload.
Qed.

Lemma lru_touch_payload p i :
  payload <$> connections (lru_touch p i) = payload <$> connections p.
Proof.
  destruct (decide (lru_head p = Some i)) as [E|E].
  { unfold lru_touch. destruct (decide (lru_head p = Some i)); [reflexivity | contradiction]. }
  rewrite lru_touch_unfold by exact E. cbn [connections set_lru set_connections].
  destruct (lru_head p); rewrite !alter_fmap_keep by reflexivity; apply unlinked_payload.
Qed.

Lemma lru_touch_head p i : lru_head (lru_touch p i) = Some i.
Proof.
  unfold lru_touch. destruct (decide (lru_head p = Some i)) as [E|E];
    [exact E | reflexivity].
Qed.

Lemma lru_touch_counters p i :
  (current_size (lru_touch p i), ttl_seconds (lru_touch p i),
   max_requests_per_conn (lru_touch p i), pool_hits (lru_touch p i),
   pool_misses (lru_touch p i), pool_evictions (lru_touch p i))
  = (current_size p, ttl_seconds p, max_requests_per_conn p, pool_hits p,
     pool_misses p, pool_evictions p).
Proof. unfold lru_touch. destruct (decide _); reflexivity. Qed.

(** A slot of a list with the same payloads. *)
Lemma lookup_payload (cs cs' : list PooledConnection) i c :
  payload <$> cs' = payload <$> cs -> cs !! i = Some c ->
  exists c', cs' !! i = Some c' /\ payload c' = payload c.
Proof.
  intros Hp Hc.
  assert (H : (payload <$> cs') !! i = Some (payload c))
    by (rewrite Hp, list_lookup_fmap, Hc; reflexivity).
  rewrite list_lookup_fmap in H. destruct (cs' !! i) as [c'|]; [|discriminate].
  exists c'. split; [reflexivity|]. cbn in H. congruence.
Qed.

Lemma candidate_payload host port c c' :
  payload c' = payload c -> candidate host port c' = candidate host port c.
Proof. unfold payload, candidate. intros [= -> -> -> _ _ -> _]. reflexivity. Qed.

Lemma usable_discard now alive expired p k host port c :
  usable now alive (discard expired p k) host port c = usable now alive p host port c.
Proof. destruct expired; reflexivity. Qed.

Lemma discard_counters expired p k :
  (pool_hits (discard expired p k), pool_misses (discard expired p k),
   lru_head (discard expired p k), lru_tail (discard expired p k),
   ttl_seconds (discard expired p k), max_requests_per_conn (discard expired p k))
  = (pool_hits p, pool_misses p, lru_head p, lru_tail p, ttl_seconds p,
     max_requests_per_conn p).
Proof. destruct expired; reflexivity. Qed.

Lemma discard_connections expired p k :
  connections (discard expired p k) = alter (set_fd (-1)) k (connections p).
Proof. destruct expired; reflexivity. Qed.

(** The loop of [conn_pool_get] from slot [k] on, when the first usable
    candidate is [d] slots further: the candidates before it are closed
    and it is handed out. *)
Lemma get_loop_hit now alive host port : forall m k p calls d,
  find_slot (usable now alive p host port) (drop k (connections p)) = Some d ->
  (k + m = max_size p)%nat ->
  exists p1 c,
    get_loop now alive host port (seq k m) p calls
    = (hand_out now p1 (k + d),
       calls ++ (SysClose <$> candidate_fds host port (take d (drop k (connections p)))),
       Some (fd c)) /\
    connections p1 !! (k + d)%nat = Some c /\
    connections p !! (k + d)%nat = Some c /\
    pool_hits p1 = pool_hits p /\ pool_misses p1 = pool_misses p.
Proof.
  induction m as [|m IH]; intros k p calls d Hfind Hlen.
  { rewrite drop_ge in Hfind by (unfold max_size in Hlen; lia). discriminate. }
  assert (Hk : (k < length (connections p))%nat) by (unfold max_size in Hlen; lia).
  destruct (lookup_lt_is_Some_2 _ _ Hk) as [ck Hck].
  rewrite (drop_S _ _ _ Hck) in Hfind |- *. cbn [find_slot] in Hfind.
  cbn [seq get_loop]. rewrite Hck.
  unfold usable at 1 in Hfind.
  assert (Hdiscard : forall expired,
            examine now alive p ck <> Usable -> candidate host port ck = true ->
            exists p1 c,
              get_loop now alive host port (seq (S k) m) (discard expired p k)
                       (calls ++ [SysClose (fd ck)])
              = (hand_out now p1 (k + d),
                 calls ++ (SysClose <$> candidate_fds host port
                                          (take d (ck :: drop (S k) (connections p)))),
                 Some (fd c)) /\
              connections p1 !! (k + d)%nat = Some c /\
              connections p !! (k + d)%nat = Some c /\
              pool_hits p1 = pool_hits p /\ pool_misses p1 = pool_misses p).
  { intros expired Hex Hcand. rewrite Hcand in Hfind.
    destruct (examine now alive p ck); [| | |congruence];
      (cbn [andb] in Hfind;
       destruct (find_slot _ (drop (S k) (connections p))) as [d'|] eqn:Ed;
         [|discriminate]; cbn in Hfind; injection Hfind as <-;
       destruct (IH (S k) (discard expired p k) (calls ++ [SysClose (fd ck)]) d')
         as (p1 & c & Hrun & Hc1 & Hc & Hh & Hm);
         [ rewrite discard_connections, drop_alter_lt by lia;
           rewrite <- Ed; apply find_slot_ext; intros c0; apply usable_discard
         | unfold max_size in *; rewrite discard_connections, length_alter; lia
         | ];
       exists p1, c;
       rewrite discard_connections, drop_alter_lt in Hrun by lia;
       rewrite discard_connections, list_lookup_alter_ne in Hc by lia;
       replace (S k + d')%nat with (k + S d')%nat in * by lia;
       pose proof (discard_counters expired p k) as Hcnt;
       injection Hcnt as H1 H2 _ _ _ _;
       split; [|split; [exact Hc1|split; [exact Hc|split; congruence]]];
       rewrite Hrun; f_equal; f_equal;
       unfold candidate_fds; cbn [take List.filter]; rewrite Hcand;
       cbn [fmap list_fmap]; rewrite <- app_assoc; reflexivity). }
  destruct (candidate host port ck) eqn:Hcand.
  - destruct (examine now alive p ck) eqn:Hex.
    + apply Hdiscard; [congruence | reflexivity].
    + apply Hdiscard; [congruence | reflexivity].
    + apply Hdiscard; [congruence | reflexivity].
    + cbn in Hfind. injection Hfind as <-. exists p, ck.
      rewrite Nat.add_0_r. cbn [take candidate_fds]. unfold candidate_fds. cbn.
      rewrite app_nil_r. repeat split; try reflexivity; exact Hck.
  - cbn [andb] in Hfind.
    destruct (find_slot _ (drop (S k) (connections p))) as [d'|] eqn:Ed; [|discriminate].
    cbn in Hfind. injection Hfind as <-.
    destruct (IH (S k) p calls d' Ed) as (p1 & c & Hrun & Hc1 & Hc & Hh & Hm);
      [lia|].
    exists p1, c. replace (S k + d')%nat with (k + S d')%nat in * by lia.
    split; [|repeat split; assumption].
    rewrite Hrun. unfold candidate_fds. cbn [take List.filter]. rewrite Hcand.
    reflexivity.
Qed.

(** The loop of [conn_pool_get] from slot [k] on, when no candidate is
    usable: every candidate is closed. *)
Lemma get_loop_miss now alive host port : forall m k p calls,
  find_slot (usable now alive p host port) (drop k (connections p)) = None ->
  (k + m = max_size p)%nat ->
  exists p1,
    get_loop now alive host port (seq k m) p calls
    = (p1, calls ++ (SysClose <$> candidate_fds host port (drop k (connections p))),
       None) /\
    connections p1
    = take k (connections p) ++ (closed_candidate host port <$> drop k (connections p)) /\
    pool_hits p1 = pool_hits p /\ pool_misses p1 = pool_misses p /\
    lru_head p1 = lru_head p /\ lru_tail p1 = lru_tail p.
Proof.
  induction m as [|m IH]; intros k p calls Hfind Hlen.
  { rewrite drop_ge by (unfold max_size in Hlen; lia). rewrite take_ge by
      (unfold max_size in Hlen; lia). exists p. cbn. rewrite !app_nil_r.
    repeat split; reflexivity. }
  assert (Hk : (k < length (connections p))%nat) by (unfold max_size in Hlen; lia).
  destruct (lookup_lt_is_Some_2 _ _ Hk) as [ck Hck].
  rewrite (drop_S _ _ _ Hck) in Hfind |- *. cbn [find_slot] in Hfind.
  cbn [seq get_loop]. rewrite Hck.
  destruct (usable now alive p host port ck) eqn:Hus; [discriminate|].
  destruct (find_slot _ (drop (S k) (connections p))) as [d'|] eqn:Ed; [discriminate|].
  clear Hfind. unfold usable in Hus.
  assert (Hdiscard : forall expired, candidate host port ck = true ->
            exists p1,
              get_loop now alive host port (seq (S k) m) (discard expired p k)
                       (calls ++ [SysClose (fd ck)])
              = (p1, calls ++ (SysClose <$> candidate_fds host port
                                              (ck :: drop (S k) (connections p))),
                 None) /\
              connections p1
              = take k (connections p)
                ++ (closed_candidate host port <$> ck :: drop (S k) (connections p)) /\
              pool_hits p1 = pool_hits p /\ pool_misses p1 = pool_misses p /\
              lru_head p1 = lru_head p /\ lru_tail p1 = lru_tail p).
  { intros expired Hcand.
    destruct (IH (S k) (discard expired p k) (calls ++ [SysClose (fd ck)]))
      as (p1 & Hrun & Hcs & Hh & Hm & Hhd & Htl).
    - rewrite discard_connections, drop_alter_lt by lia.
      rewrite <- Ed. apply find_slot_ext. intros c0. apply usable_discard.
    - unfold max_size in *. rewrite discard_connections, length_alter. lia.
    - exists p1. rewrite discard_connections, drop_alter_lt in Hrun, Hcs by lia.
      pose proof (discard_counters expired p k) as Hcnt.
      injection Hcnt as H1 H2 H3 H4 _ _.
      split; [|split; [|repeat split; congruence]].
      + rewrite Hrun. f_equal. f_equal. unfold candidate_fds. cbn [List.filter].
        rewrite Hcand. cbn [fmap list_fmap]. rewrite <- app_assoc. reflexivity.
      + rewrite Hcs.
        rewrite (take_S_r _ _ (set_fd (-1) ck))
          by (rewrite list_lookup_alter_eq, Hck; reflexivity).
        rewrite take_alter_ge by lia. rewrite <- app_assoc. cbn [fmap list_fmap app].
        change (closed_candidate host port ck)
          with (if candidate host port ck then set_fd (-1) ck else ck).
        rewrite Hcand. reflexivity. }
  destruct (candidate host port ck) eqn:Hcand.
  - destruct (examine now alive p ck) eqn:Hex; [| | |discriminate];
      apply Hdiscard; reflexivity.
  - destruct (IH (S k) p calls Ed) as (p1 & Hrun & Hcs & Hrest); [lia|].
    exists p1. split; [|split; [|exact Hrest]].
    + rewrite Hrun. unfold candidate_fds. cbn [List.filter]. rewrite Hcand. reflexivity.
    + rewrite Hcs, (take_S_r _ _ ck) by exact Hck. rewrite <- app_assoc.
      cbn [fmap list_fmap app]. change (closed_candidate host port ck)
          with (if candidate host port ck then set_fd (-1) ck else ck).
        rewrite Hcand. reflexivity.
Qed.

(** The slot handed out by [hand_out]. *)
Lemma hand_out_spec now p i c :
  connections p !! i = Some c ->
  exists c', connections (hand_out now p i) !! i = Some c' /\
             payload c' = handed_out now c /\
             lru_head (hand_out now p i) = Some i /\
             pool_hits (hand_out now p i) = wrap_ulong (pool_hits p + 1) /\
             pool_misses (hand_out now p i) = pool_misses p.
Proof.
  intros Hc. unfold hand_out.
  set (q := set_connections _ p).
  assert (Hq : connections q !! i = Some
            (set_requests_served (wrap_int (requests_served c + 1))
               (set_last_used now (set_state POOL_CONN_IN_USE c)))).
  { unfold q. cbn [connections set_connections]. rewrite list_lookup_alter_eq, Hc.
    reflexivity. }
  destruct (lookup_payload _ _ i _ (lru_touch_payload q i) Hq) as (c' & Hc' & Hpay).
  pose proof (lru_touch_counters q i) as Hcnt. injection Hcnt as _ _ _ Hh Hm _.
  exists c'. cbn [connections lru_head pool_hits pool_misses set_statistics].
  split; [exact Hc'|]. split; [exact Hpay|]. split; [apply lru_touch_head|].
  split; [rewrite Hh; reflexivity | rewrite Hm; reflexivity].
Qed.

(** The slot filled by [fill_slot]. *)
Lemma fill_slot_spec now v host port p i :
  (i < max_size p)%nat ->
  exists c', connections (fill_slot now v host port p i) !! i = Some c' /\
             payload c' = filled now v host port /\
             lru_head (fill_slot now v host port p i) = Some i /\
             pool_hits (fill_slot now v host port p i) = pool_hits p /\
             pool_misses (fill_slot now v host port p i) = pool_misses p /\
             current_size (fill_slot now v host port p i) = wrap_int (current_size p + 1).
Proof.
  intros Hi. unfold fill_slot.
  set (q := set_current_size _ _).
  destruct (lookup_lt_is_Some_2 (connections p) i Hi) as [c Hc].
  assert (Hq : connections q !! i = Some
            {| fd := v; backend_host := substring 0 255 host;
               backend_port := substring 0 5 port; last_used := now; created := now;
               state := POOL_CONN_IN_USE; requests_served := 1;
               next := next c; prev := prev c |}).
  { unfold q. cbn [connections set_connections set_current_size].
    rewrite list_lookup_alter_eq, Hc. reflexivity. }
  destruct (lookup_payload _ _ i _ (lru_touch_payload q i) Hq) as (c' & Hc' & Hpay).
  pose proof (lru_touch_counters q i) as Hcnt. injection Hcnt as Hsz _ _ Hh Hm _.
  exists c'. split; [exact Hc'|]. split; [exact Hpay|]. split; [apply lru_touch_head|].
  split; [exact Hh|]. split; [exact Hm | exact Hsz].
Qed.

(** X20.  When some free slot holds a connection to this backend that is
    within its TTL, under the request limit and alive, [conn_pool_get]
    returns the descriptor of the first such slot without connecting: it
    closes the connections to this backend it found unusable in earlier
    slots, marks the slot in use with one more request served and
    [last_used] at the current time, makes it the head of the LRU list
    and counts a hit. *)
Theorem conn_pool_get_reuses_first_usable now alive connected p host port i c :
  find_slot (usable now alive p host port) (connections p) = Some i ->
  connections p !! i = Some c ->
  exists p' c',
    conn_pool_get now alive connected p host port
    = (p', SysClose <$> candidate_fds host port (take i (connections p)), fd c) /\
    connections p' !! i = Some c' /\ payload c' = handed_out now c /\
    lru_head p' = Some i /\
    pool_hits p' = wrap_ulong (pool_hits p + 1) /\ pool_misses p' = pool_misses p.
Proof.
  intros Hfind Hc.
  destruct (get_loop_hit now alive host port (max_size p) 0 p [] i Hfind eq_refl)
    as (p1 & c0 & Hrun & Hc1 & Hc0 & Hh & Hm).
  cbn [Nat.add drop app] in Hrun, Hc1, Hc0.
  assert (c0 = c) by congruence. subst c0.
  destruct (hand_out_spec now p1 i c Hc1) as (c' & Hc' & Hpay & Hhead & Hhits & Hmiss).
  exists (hand_out now p1 i), c'. unfold conn_pool_get. rewrite Hrun.
  split; [reflexivity|]. split; [exact Hc'|]. split; [exact Hpay|].
  split; [exact Hhead|]. split; congruence.
Qed.

(** The slot [take_slot] takes and what it closes for it. *)
Lemma take_slot_cases p slot p' closed :
  take_slot p = (slot, p', closed) ->
  pool_hits p' = pool_hits p /\ pool_misses p' = pool_misses p /\
  max_size p' = max_size p /\
  (exists evicted, closed = SysClose <$> evicted /\ (length evicted <= 1)%nat /\
                   (is_Some (find_free_slot p) -> evicted = [])) /\
  (is_Some (find_free_slot p) \/ (exists t, lru_tail p = Some t /\ (t < max_size p)%nat) ->
   exists i, slot = Some i /\ (i < max_size p')%nat).
Proof.
  unfold take_slot.
  destruct (find_free_slot p) as [i|] eqn:Ef.
  - intros [= <- <- <-]. repeat split.
    + exists []. repeat split; cbn; lia.
    + intros _. exists i. split; [reflexivity|].
      apply find_slot_Some in Ef as (c & Hc & _). apply lookup_lt_is_Some. eauto.
  - assert (Hno : ~ is_Some (@None nat)) by (intros [? ?]; discriminate).
    destruct (lru_tail p) as [t|] eqn:Et.
    + assert (Hslot : forall q, max_size q = max_size p ->
                is_Some (@None nat) \/
                (exists t0, Some t = Some t0 /\ (t0 < max_size p)%nat) ->
                exists i, Some t = Some i /\ (i < max_size q)%nat).
      { intros q Hq [H|(t0 & [= <-] & Ht)]; [contradiction|].
        exists t. split; [reflexivity | rewrite Hq; exact Ht]. }
      destruct (connections p !! t) as [c|] eqn:Hc; [destruct (0 <=? fd c)|];
        intros [= <- <- <-]; rewrite lru_remove_length.
      * repeat split.
        -- exists [fd c]. repeat split; [cbn; lia | intros H; contradiction].
        -- apply Hslot. reflexivity.
      * repeat split.
        -- exists []. repeat split; cbn; lia.
        -- apply Hslot. reflexivity.
      * repeat split.
        -- exists []. repeat split; cbn; lia.
        -- apply Hslot. reflexivity.
    + intros [= <- <- <-]. repeat split.
      * exists []. repeat split; cbn; lia.
      * intros [H|(t0 & H & _)]; [contradiction | discriminate].
Qed.

(** Closing candidates takes no free slot away. *)
Lemma find_free_closed host port cs :
  is_Some (find_slot (fun c => is_free (state c) && (fd c <? 0)) cs) ->
  is_Some (find_slot (fun c => is_free (state c) && (fd c <? 0))
                     (closed_candidate host port <$> cs)).
Proof.
  induction cs as [|c rest IH]; cbn [find_slot fmap list_fmap]; [intros H; exact H|].
  destruct (is_free (state c) && (fd c <? 0)) eqn:Efree.
  - intros _. unfold closed_candidate, candidate.
    apply andb_prop in Efree as [E1 E2]. apply Z.ltb_lt in E2.
    replace (0 <=? fd c) with false by (symmetry; apply Z.leb_gt; exact E2).
    rewrite andb_false_r. cbn [andb]. rewrite E1.
    replace (fd c <? 0) with true by (symmetry; apply Z.ltb_lt; exact E2). eauto.
  - intros H. destruct (find_slot _ rest) as [k|]; [|destruct H; discriminate].
    destruct (IH ltac:(eauto)) as [k' ->].
    destruct (is_free (state (closed_candidate host port c)) && _); cbn; eauto.
Qed.

(** X21.  When no free slot holds a usable connection to this backend,
    [conn_pool_get] closes the unusable ones it found, evicts at most
    one connection (none when some slot was free), calls
    [create_connection] exactly once, as its last socket call, and
    returns what that returned; it counts a miss.  If the connection was
    made and the pool has a free slot or an LRU tail, the new connection
    is stored in use with one request served, [created] and [last_used]
    at the current time, the host cut to 255 and the port to 5
    characters, at the head of the LRU list. *)
Theorem conn_pool_get_miss_connects now alive connected p host port :
  find_slot (usable now alive p host port) (connections p) = None ->
  exists p' evicted,
    conn_pool_get now alive connected p host port
    = (p', (SysClose <$> candidate_fds host port (connections p))
           ++ (SysClose <$> evicted) ++ [SysConnect host port], connected) /\
    (length evicted <= 1)%nat /\
    (is_Some (find_free_slot p) -> evicted = []) /\
    pool_misses p' = wrap_ulong (pool_misses p + 1) /\
    pool_hits p' = pool_hits p /\
    (0 <= connected ->
     is_Some (find_free_slot p) \/
     (exists t, lru_tail p = Some t /\ (t < max_size p)%nat) ->
     exists i c', connections p' !! i = Some c' /\
                  payload c' = filled now connected host port /\
                  lru_head p' = Some i).
Proof.
  intros Hfind.
  destruct (get_loop_miss now alive host port (max_size p) 0 p [] Hfind eq_refl)
    as (p1 & Hrun & Hcs & Hh & Hm & Hhd & Htl).
  cbn [drop take app] in Hrun, Hcs.
  unfold conn_pool_get. rewrite Hrun.
  set (p2 := set_statistics _ _ _ p1).
  destruct (take_slot p2) as [[slot p3] closed] eqn:Etake.
  destruct (take_slot_cases p2 slot p3 closed Etake)
    as (Hh3 & Hm3 & Hsz3 & (evicted & -> & Hev1 & Hev0) & Hslot).
  assert (Hsz2 : max_size p2 = max_size p).
  { unfold max_size, p2. cbn [connections set_statistics]. rewrite Hcs.
    apply length_fmap. }
  assert (Hfree : is_Some (find_free_slot p) -> is_Some (find_free_slot p2)).
  { unfold find_free_slot, p2. cbn [connections set_statistics]. rewrite Hcs.
    apply find_free_closed. }
  assert (Hroom : is_Some (find_free_slot p) \/
                  (exists t, lru_tail p = Some t /\ (t < max_size p)%nat) ->
                  exists i, slot = Some i /\ (i < max_size p3)%nat).
  { intros [H|(t & Ht & Hlt)]; apply Hslot; [left; apply Hfree, H|].
    right. exists t. split; [unfold p2; cbn [lru_tail set_statistics]; congruence|].
    rewrite Hsz2. exact Hlt. }
  assert (Hmiss : pool_misses p3 = wrap_ulong (pool_misses p + 1))
    by (rewrite Hm3; unfold p2; cbn [pool_misses set_statistics]; rewrite Hm; reflexivity).
  assert (Hhits : pool_hits p3 = pool_hits p)
    by (rewrite Hh3; unfold p2; cbn [pool_hits set_statistics]; exact Hh).
  assert (Hev : is_Some (find_free_slot p) -> evicted = [])
    by (intros H; apply Hev0, Hfree, H).
  destruct slot as [i|]; [destruct (0 <=? connected) eqn:Econ|].
  - pose proof (lru_touch_counters
                  (set_current_size (wrap_int (current_size p3 + 1))
                     (set_connections
                        (alter (fun c => {| fd := connected;
                                            backend_host := substring 0 255 host;
                                            backend_port := substring 0 5 port;
                                            last_used := now; created := now;
                                            state := POOL_CONN_IN_USE;
                                            requests_served := 1;
                                            next := next c; prev := prev c |})
                               i (connections p3)) p3)) i) as Hcnt.
    fold (fill_slot now connected host port p3 i) in Hcnt.
    injection Hcnt as _ _ _ Hfh Hfm _.
    exists (fill_slot now connected host port p3 i), evicted.
    split; [reflexivity|]. split; [exact Hev1|]. split; [exact Hev|].
    split; [rewrite Hfm; exact Hmiss|]. split; [rewrite Hfh; exact Hhits|].
    intros _ Hr. destruct (Hroom Hr) as (i' & [= <-] & Hi).
    destruct (fill_slot_spec now connected host port p3 i Hi)
      as (c' & Hc' & Hpay & Hhead & _).
    exists i, c'. split; [exact Hc'|]. split; [exact Hpay | exact Hhead].
  - exists p3, evicted. split; [reflexivity|]. split; [exact Hev1|].
    split; [exact Hev|]. split; [exact Hmiss|]. split; [exact Hhits|].
    intros Hc. apply Z.leb_gt in Econ. lia.
  - exists p3, evicted. split; [reflexivity|]. split; [exact Hev1|].
    split; [exact Hev|]. split; [exact Hmiss|]. split; [exact Hhits|].
    intros _ Hr. destruct (Hroom Hr) as (i & Hi & _). discriminate.
Qed.

Lemma conn_pool_get_reuses_first_usable_witness :
  exists p' c',
    conn_pool_get 2 (only_alive 8) (-1) pool_two_returned "a" "80"
    = (p', [SysClose 7], 8) /\
    connections p' !! 1%nat = Some c' /\ state c' = POOL_CONN_IN_USE /\
    requests_served c' = 2 /\ lru_head p' = Some 1%nat.
Proof.
  destruct (conn_pool_get_reuses_first_usable 2 (only_alive 8) (-1) pool_two_returned
              "a" "80" 1%nat
              {| fd := 8; backend_host := "a"; backend_port := "80"; last_used := 1;
                 created := 0; state := POOL_CONN_FREE; requests_served := 1;
                 next := Some 0%nat; prev := None |})
    as (p' & c' & Hrun & Hc' & Hpay & Hhead & _).
  - vm_compute. reflexivity.
  - vm_compute. reflexivity.
  - exists p', c'. split; [exact Hrun|]. split; [exact Hc'|].
    unfold payload, handed_out in Hpay. injection Hpay as _ _ _ _ _ Hst Hrs.
    split; [exact Hst|]. split; [exact Hrs | exact Hhead].
Defined.

Lemma conn_pool_get_miss_connects_witness :
  exists p' evicted,
    conn_pool_get 5 all_alive 9 pool_one_in_use "b" "80"
    = (p', (SysClose <$> candidate_fds "b" "80" (connections pool_one_in_use))
           ++ (SysClose <$> evicted) ++ [SysConnect "b" "80"], 9) /\
    pool_misses p' = 2.
Proof.
  destruct (conn_pool_get_miss_connects 5 all_alive 9 pool_one_in_use "b" "80")
    as (p' & evicted & Hrun & _ & _ & Hmiss & _).
  - vm_compute. reflexivity.
  - exists p', evicted. split; [exact Hrun | exact Hmiss].
Defined.

(** *** A connection through the pool and back *)

Lemma find_slot_first f cs i c :
  cs !! i = Some c -> f c = true ->
  (forall j cj, (j < i)%nat -> cs !! j = Some cj -> f cj = false) ->
  find_slot f cs = Some i.
Proof.
  revert i. induction cs as [|c0 rest IH]; intros i Hc Hf Hbefore; [discriminate|].
  cbn [find_slot]. destruct i as [|i].
  - cbn in Hc. injection Hc as ->. rewrite Hf. reflexivity.
  - rewrite (Hbefore 0%nat c0 ltac:(lia) eq_refl).
    rewrite (IH i Hc Hf); [reflexivity|].
    intros j cj Hj Hcj. apply (Hbefore (S j) cj); [lia | exact Hcj].
Qed.

Lemma get_loop_no_candidate now alive host port p :
  (forall j cj, connections p !! j = Some cj -> candidate host port cj = false) ->
  forall slots calls, get_loop now alive host port slots p calls = (p, calls, None).
Proof.
  intros Hnone. induction slots as [|i rest IH]; intros calls; cbn [get_loop];
    [reflexivity|].
  destruct (connections p !! i) as [c|] eqn:Hc; [|apply IH].
  rewrite (Hnone i c Hc). apply IH.
Qed.

Lemma candidate_fds_none host port cs :
  (forall j cj, cs !! j = Some cj -> candidate host port cj = false) ->
  candidate_fds host port cs = [].
Proof.
  unfold candidate_fds. induction cs as [|c rest IH]; intros Hnone; [reflexivity|].
  cbn [List.filter]. rewrite (Hnone 0%nat c eq_refl).
  apply IH. intros j cj Hcj. exact (Hnone (S j) cj Hcj).
Qed.

(** A slot of a list that has the payloads of [cs] with slot [i]
    rewritten by [G]. *)
Lemma payload_after_alter (cs cs' : list PooledConnection) G i j c' :
  payload <$> cs' = payload <$> alter G i cs -> cs' !! j = Some c' ->
  exists c, cs !! j = Some c /\ payload c' = payload (if decide (i = j) then G c else c).
Proof.
  intros Hp Hc'.
  destruct (lookup_payload cs' (alter G i cs) j c' (eq_sym Hp) Hc') as (c1 & Hc1 & Hpay).
  rewrite list_lookup_alter in Hc1.
  destruct (decide (i = j)) as [->|Hne].
  - destruct (cs !! j) as [c|]; [|discriminate]. cbn in Hc1. injection Hc1 as <-.
    exists c. split; [reflexivity | congruence].
  - exists c1. split; [exact Hc1 | congruence].
Qed.

Lemma usable_payload now alive p p' host port c c' :
  payload c' = payload c -> ttl_seconds p' = ttl_seconds p ->
  max_requests_per_conn p' = max_requests_per_conn p ->
  usable now alive p' host port c' = usable now alive p host port c.
Proof.
  unfold payload, usable, candidate, examine.
  intros [= -> -> -> _ -> -> ->] -> ->. reflexivity.
Qed.

(** X22.  A connection made by [conn_pool_get] for a backend that had none
    pooled, and returned alive with [conn_pool_return], is handed out
    again by the next [conn_pool_get] for that backend without any
    socket call, provided the host has at most 255 and the port at most
    5 characters, the request limit is above 1 and the TTL has not run
    out since the connection was made; it then counts two requests. *)
Theorem pooled_connection_round_trip now0 now1 now2 alive0 alive1 alive2 connected2
    p v host port i :
  find_slot (candidate host port) (connections p) = None ->
  find_by_fd p v = None ->
  find_free_slot p = Some i ->
  0 <= v ->
  (String.length host <= 255)%nat -> (String.length port <= 5)%nat ->
  1 < max_requests_per_conn p ->
  alive1 v = true -> alive2 v = true ->
  ttl_seconds p <= 0 \/ wrap_long (now2 - now0) <= ttl_seconds p ->
  exists p1 p2 p3 c3,
    conn_pool_get now0 alive0 v p host port = (p1, [SysConnect host port], v) /\
    conn_pool_return now1 alive1 p1 v host port = (p2, []) /\
    conn_pool_get now2 alive2 connected2 p2 host port = (p3, [], v) /\
    connections p3 !! i = Some c3 /\
    payload c3 = (v, host, port, now2, now0, POOL_CONN_IN_USE, 2) /\
    pool_hits p3 = wrap_ulong (pool_hits p + 1) /\
    pool_misses p3 = wrap_ulong (pool_misses p + 1).
Proof.
  intros Hnc Hv Hfree H0 Hhost Hport Hmax Ha1 Ha2 Httl.
  pose proof (find_slot_None _ _ Hnc) as Hcand.
  pose proof (find_slot_None _ _ Hv) as Hfd.
  pose proof Hfree as Hfree'.
  apply find_slot_Some in Hfree' as (ci & Hci & _ & _).
  assert (Hi : (i < max_size p)%nat) by (apply lookup_lt_is_Some; eauto).
  (* the first call connects and fills slot [i] *)
  set (q := set_statistics (pool_hits p) (wrap_ulong (pool_misses p + 1))
                           (pool_evictions p) p).
  set (p1 := fill_slot now0 v host port q i).
  assert (Hget1 : conn_pool_get now0 alive0 v p host port
                  = (p1, [SysConnect host port], v)).
  { unfold conn_pool_get. rewrite (get_loop_no_candidate now0 alive0 host port p Hcand).
    fold q. unfold take_slot.
    change (find_free_slot q) with (find_free_slot p). rewrite Hfree.
    replace (0 <=? v) with true by (symmetry; apply Z.leb_le; exact H0). reflexivity. }
  assert (Hcnt1 : ttl_seconds p1 = ttl_seconds p /\
                  max_requests_per_conn p1 = max_requests_per_conn p /\
                  pool_hits p1 = pool_hits p /\
                  pool_misses p1 = wrap_ulong (pool_misses p + 1)).
  { pose proof (lru_touch_counters
                  (set_current_size (wrap_int (current_size q + 1))
                     (set_connections
                        (alter (fun c => {| fd := v;
                                            backend_host := substring 0 255 host;
                                            backend_port := substring 0 5 port;
                                            last_used := now0; created := now0;
                                            state := POOL_CONN_IN_USE;
                                            requests_served := 1;
                                            next := next c; prev := prev c |})
                               i (connections q)) q)) i) as Hcnt.
    fold (fill_slot now0 v host port q i) in Hcnt. fold p1 in Hcnt.
    injection Hcnt as _ E1 E2 E3 E4 _. repeat split; assumption. }
  destruct Hcnt1 as (Httl1 & Hmax1 & Hhits1 & Hmiss1).
  assert (Hpay1 : payload <$> connections p1
                  = payload <$> alter (fun c => {| fd := v;
                                            backend_host := substring 0 255 host;
                                            backend_port := substring 0 5 port;
                                            last_used := now0; created := now0;
                                            state := POOL_CONN_IN_USE;
                                            requests_served := 1;
                                            next := next c; prev := prev c |})
                                      i (connections p)).
  { unfold p1, fill_slot. rewrite lru_touch_payload. reflexivity. }
  assert (Hlen1 : (i < length (connections p1))%nat).
  { rewrite <- (length_fmap payload), Hpay1, length_fmap, length_alter. exact Hi. }
  destruct (lookup_lt_is_Some_2 _ _ Hlen1) as [c1 Hc1].
  assert (Hc1pay : payload c1 = (v, host, port, now0, now0, POOL_CONN_IN_USE, 1)).
  { destruct (payload_after_alter _ _ _ i i c1 Hpay1 Hc1) as (c & Hc & Hp).
    destruct (decide (i = i)); [|congruence]. rewrite Hp. unfold payload. cbn.
    rewrite (substring_whole 255 host Hhost), (substring_whole 5 port Hport).
    reflexivity. }
  assert (Hother1 : forall j cj', j <> i -> connections p1 !! j = Some cj' ->
            exists cj, connections p !! j = Some cj /\ payload cj' = payload cj).
  { intros j cj' Hne Hj.
    destruct (payload_after_alter _ _ _ i j cj' Hpay1 Hj) as (c & Hc & Hp).
    destruct (decide (i = j)); [congruence|]. eauto. }
  (* the return finds it and keeps it *)
  assert (Hfind1 : find_by_fd p1 v = Some i).
  { apply (find_slot_first _ _ i c1 Hc1).
    - unfold payload in Hc1pay. injection Hc1pay as -> _ _ _ _ _ _. apply Z.eqb_refl.
    - intros j cj' Hj Hcj'.
      destruct (Hother1 j cj' ltac:(lia) Hcj') as (cj & Hcj & Hp).
      unfold payload in Hp. injection Hp as -> _ _ _ _ _ _. exact (Hfd j cj Hcj). }
  set (p2 := lru_touch
               (set_connections
                  (alter (fun c => set_last_used now1 (set_state POOL_CONN_FREE c))
                         i (connections p1)) p1) i).
  assert (Hret : conn_pool_return now1 alive1 p1 v host port = (p2, [])).
  { unfold conn_pool_return.
    replace (v <? 0) with false by (symmetry; apply Z.ltb_ge; exact H0).
    rewrite Hfind1, Hc1. unfold payload in Hc1pay.
    injection Hc1pay as _ -> -> _ _ _ ->.
    rewrite !String.eqb_refl. unfold conn_is_alive.
    replace (v <? 0) with false by (symmetry; apply Z.ltb_ge; exact H0).
    rewrite Ha1, Hmax1.
    replace (1 <? max_requests_per_conn p) with true
      by (symmetry; apply Z.ltb_lt; exact Hmax).
    reflexivity. }
  assert (Hcnt2 : ttl_seconds p2 = ttl_seconds p /\
                  max_requests_per_conn p2 = max_requests_per_conn p /\
                  pool_hits p2 = pool_hits p /\
                  pool_misses p2 = wrap_ulong (pool_misses p + 1)).
  { pose proof (lru_touch_counters
                  (set_connections
                     (alter (fun c => set_last_used now1 (set_state POOL_CONN_FREE c))
                            i (connections p1)) p1) i) as Hcnt.
    fold p2 in Hcnt. injection Hcnt as _ E1 E2 E3 E4 _.
    cbn [ttl_seconds max_requests_per_conn pool_hits pool_misses set_connections]
      in E1, E2, E3, E4.
    repeat split; congruence. }
  destruct Hcnt2 as (Httl2 & Hmax2 & Hhits2 & Hmiss2).
  assert (Hpay2 : payload <$> connections p2
                  = payload <$> alter (fun c => set_last_used now1
                                                  (set_state POOL_CONN_FREE c))
                                      i (connections p1)).
  { unfold p2. rewrite lru_touch_payload. reflexivity. }
  assert (Hlen2 : (i < length (connections p2))%nat).
  { rewrite <- (length_fmap payload), Hpay2, length_fmap, length_alter. exact Hlen1. }
  destruct (lookup_lt_is_Some_2 _ _ Hlen2) as [c2 Hc2].
  assert (Hc2pay : payload c2 = (v, host, port, now1, now0, POOL_CONN_FREE, 1)).
  { destruct (payload_after_alter _ _ _ i i c2 Hpay2 Hc2) as (c & Hc & Hp).
    destruct (decide (i = i)); [|congruence].
    assert (c = c1) by congruence. subst c. rewrite Hp.
    unfold payload in Hc1pay |- *. injection Hc1pay as E1 E2 E3 _ E5 _ E7.
    cbn. rewrite E1, E2, E3, E5, E7. reflexivity. }
  assert (Hother2 : forall j cj', j <> i -> connections p2 !! j = Some cj' ->
            exists cj, connections p !! j = Some cj /\ payload cj' = payload cj).
  { intros j cj' Hne Hj.
    destruct (payload_after_alter _ _ _ i j cj' Hpay2 Hj) as (c & Hc & Hp).
    destruct (decide (i = j)); [congruence|].
    destruct (Hother1 j c Hne Hc) as (cj & Hcj & Hp1).
    exists cj. split; [exact Hcj | congruence]. }
  (* the second call finds it usable, before any other candidate *)
  assert (Hus : find_slot (usable now2 alive2 p2 host port) (connections p2) = Some i).
  { apply (find_slot_first _ _ i c2 Hc2).
    - unfold usable, candidate, examine. unfold payload in Hc2pay.
      injection Hc2pay as -> -> -> _ -> -> ->. cbn [is_free].
      replace (0 <=? v) with true by (symmetry; apply Z.leb_le; exact H0).
      rewrite !String.eqb_refl. cbn [andb]. rewrite Httl2, Hmax2.
      replace ((0 <? ttl_seconds p) && (ttl_seconds p <? wrap_long (now2 - now0)))
        with false.
      2:{ symmetry. apply andb_false_iff.
          destruct Httl as [H|H]; [left; apply Z.ltb_ge | right; apply Z.ltb_ge];
            exact H. }
      replace (max_requests_per_conn p <=? 1) with false
        by (symmetry; apply Z.leb_gt; exact Hmax).
      unfold conn_is_alive.
      replace (v <? 0) with false by (symmetry; apply Z.ltb_ge; exact H0).
      rewrite Ha2. reflexivity.
    - intros j cj' Hj Hcj'.
      destruct (Hother2 j cj' ltac:(lia) Hcj') as (cj & Hcj & Hp).
      unfold usable. rewrite (candidate_payload host port cj cj' Hp), (Hcand j cj Hcj).
      reflexivity. }
  destruct (get_loop_hit now2 alive2 host port (max_size p2) 0 p2 [] i Hus eq_refl)
    as (p2' & c0 & Hrun & Hc2' & Hc0 & Hh & Hm).
  cbn [Nat.add drop app] in Hrun, Hc2', Hc0.
  assert (c0 = c2) by congruence. subst c0.
  destruct (hand_out_spec now2 p2' i c2 Hc2') as (c3 & Hc3 & Hpay3 & _ & Hhits3 & Hmiss3).
  assert (Hnocall : candidate_fds host port (take i (connections p2)) = []).
  { apply candidate_fds_none. intros j cj' Hj.
    apply lookup_take_Some in Hj as [Hj Hlt].
    destruct (Hother2 j cj' ltac:(lia) Hj) as (cj & Hcj & Hp).
    rewrite (candidate_payload host port cj cj' Hp). exact (Hcand j cj Hcj). }
  exists p1, p2, (hand_out now2 p2' i), c3.
  split; [exact Hget1|]. split; [exact Hret|]. split.
  { unfold conn_pool_get. rewrite Hrun.
    change (drop 0 (connections p2)) with (connections p2). rewrite Hnocall.
    unfold payload in Hc2pay. injection Hc2pay as -> _ _ _ _ _ _. reflexivity. }
  split; [exact Hc3|]. split.
  { rewrite Hpay3. unfold handed_out. unfold payload in Hc2pay.
    injection Hc2pay as -> -> -> _ -> _ ->. reflexivity. }
  split; congruence.
Qed.

Lemma pooled_connection_round_trip_witness :
  exists p1 p2 p3,
    conn_pool_get 10 all_alive 9 pool_two_returned "b" "8080"
    = (p1, [SysConnect "b" "8080"], 9) /\
    conn_pool_return 20 all_alive p1 9 "b" "8080" = (p2, []) /\
    conn_pool_get 70 all_alive (-1) p2 "b" "8080" = (p3, [], 9).
Proof.
  destruct (pooled_connection_round_trip 10 20 70 all_alive all_alive all_alive (-1)
              pool_two_returned 9 "b" "8080" 2%nat)
    as (p1 & p2 & p3 & c3 & H1 & H2 & H3 & _).
  - vm_compute. reflexivity.
  - vm_compute. reflexivity.
  - vm_compute. reflexivity.
  - lia.
  - simpl. lia.
  - simpl. lia.
  - simpl. lia.
  - reflexivity.
  - reflexivity.
  - right. vm_compute. discriminate.
  - exists p1, p2, p3. split; [exact H1|]. split; [exact H2 | exact H3].
Defined.

(** X23.  With no free slot and no pooled connection to the backend,
    [conn_pool_get] closes the descriptor of the slot at the LRU tail,
    whatever the state of that slot, so also a connection that is in
    use, and then connects.  When the connection is made the slot holds
    it, at the head of the LRU list; when it is not, the slot keeps the
    closed descriptor and its state, is off the LRU list, and
    [current_size] is one less. *)
Theorem full_pool_evicts_lru_tail now alive connected p host port t c :
  find_slot (candidate host port) (connections p) = None ->
  find_free_slot p = None ->
  lru_tail p = Some t ->
  connections p !! t = Some c ->
  0 <= fd c ->
  exists p' c',
    conn_pool_get now alive connected p host port
    = (p', [SysClose (fd c); SysConnect host port], connected) /\
    connections p' !! t = Some c' /\
    pool_evictions p' = wrap_ulong (pool_evictions p + 1) /\
    (if 0 <=? connected
     then payload c' = filled now connected host port /\ lru_head p' = Some t
     else payload c' = payload c /\ links c' = (None, None) /\
          current_size p' = wrap_int (current_size p - 1)).
Proof.
  intros Hnc Hfull Ht Hc Hfd.
  pose proof (find_slot_None _ _ Hnc) as Hcand.
  set (q := set_statistics (pool_hits p) (wrap_ulong (pool_misses p + 1))
                           (pool_evictions p) p).
  set (q1 := set_statistics (pool_hits q) (pool_misses q)
               (wrap_ulong (pool_evictions q + 1))
               (set_current_size (wrap_int (current_size q - 1)) q)).
  set (p3 := lru_remove q1 t).
  assert (Htake : take_slot q = (Some t, p3, [SysClose (fd c)])).
  { unfold take_slot. change (find_free_slot q) with (find_free_slot p).
    rewrite Hfull. change (lru_tail q) with (lru_tail p). rewrite Ht.
    change (connections q) with (connections p). rewrite Hc.
    replace (0 <=? fd c) with true by (symmetry; apply Z.leb_le; exact Hfd).
    reflexivity. }
  assert (Hrun : conn_pool_get now alive connected p host port
                 = (if 0 <=? connected
                    then fill_slot now connected host port p3 t else p3,
                    [SysClose (fd c); SysConnect host port], connected)).
  { unfold conn_pool_get. rewrite (get_loop_no_candidate now alive host port p Hcand).
    fold q. rewrite Htake. destruct (0 <=? connected); reflexivity. }
  assert (Hrange : (t < max_size p3)%nat).
  { unfold p3. rewrite lru_remove_length. apply lookup_lt_is_Some. eauto. }
  destruct (lookup_payload (connections q1) (connections p3) t c
              (lru_remove_payload q1 t) Hc) as (c3 & Hc3 & Hpay3).
  assert (Hlinks : links c3 = (None, None)).
  { unfold p3 in Hc3. rewrite lru_remove_unfold in Hc3. cbn [connections] in Hc3.
    rewrite list_lookup_alter_eq in Hc3.
    destruct (unlinked (connections q1) t !! t) as [c0|]; [|discriminate].
    cbn in Hc3. injection Hc3 as <-. reflexivity. }
  rewrite Hrun. destruct (0 <=? connected) eqn:Econ.
  - destruct (fill_slot_spec now connected host port p3 t Hrange)
      as (c' & Hc' & Hpay & Hhead & _).
    exists (fill_slot now connected host port p3 t), c'.
    split; [reflexivity|]. split; [exact Hc'|]. split; [|split; assumption].
    pose proof (lru_touch_counters
                  (set_current_size (wrap_int (current_size p3 + 1))
                     (set_connections
                        (alter (fun c => {| fd := connected;
                                            backend_host := substring 0 255 host;
                                            backend_port := substring 0 5 port;
                                            last_used := now; created := now;
                                            state := POOL_CONN_IN_USE;
                                            requests_served := 1;
                                            next := next c; prev := prev c |})
                               t (connections p3)) p3)) t) as Hcnt.
    fold (fill_slot now connected host port p3 t) in Hcnt.
    injection Hcnt as _ _ _ _ _ Hev. rewrite Hev. reflexivity.
  - exists p3, c3. split; [reflexivity|]. split; [exact Hc3|].
    split; [reflexivity|]. split; [exact Hpay3|]. split; [exact Hlinks | reflexivity].
Qed.

Lemma full_pool_evicts_lru_tail_witness :
  exists p' c',
    conn_pool_get 5 all_alive (-1) pool_one_in_use "b" "80"
    = (p', [SysClose 7; SysConnect "b" "80"], -1) /\
    connections p' !! 0%nat = Some c' /\
    fd c' = 7 /\ state c' = POOL_CONN_IN_USE.
Proof.
  destruct (full_pool_evicts_lru_tail 5 all_alive (-1) pool_one_in_use "b" "80" 0%nat
              {| fd := 7; backend_host := "a"; backend_port := "80"; last_used := 0;
                 created := 0; state := POOL_CONN_IN_USE; requests_served := 1;
                 next := None; prev := None |})
    as (p' & c' & Hrun & Hc' & _ & Hrest).
  - vm_compute. reflexivity.
  - vm_compute. reflexivity.
  - vm_compute. reflexivity.
  - vm_compute. reflexivity.
  - simpl. lia.
  - cbn in Hrest. destruct Hrest as (Hpay & _ & _).
    unfold payload in Hpay. injection Hpay as Hfd _ _ _ _ Hst _.
    exists p', c'. split; [exact Hrun|]. split; [exact Hc'|]. split; assumption.
Defined.

End PoolFacts.

(** * Facts on binary64 arithmetic *)

Module DoubleFacts.
Import RateLimiter.

(** ** Exponents and binary digits *)

(** The exponent of a double whose leading digit is at position [e]. *)
Lemma fexp_eq e : fexp 53 1024 e = Z.max (e - 53) (-1074).
Proof. reflexivity. Qed.

Lemma digits2_pos_bounds p :
  2 ^ (Z.pos (digits2_pos p) - 1) <= Z.pos p < 2 ^ Z.pos (digits2_pos p).
Proof.
  induction p as [p IH|p IH|]; cbn [digits2_pos].
  - rewrite Pos2Z.inj_succ, Z.pow_succ_r by lia.
    replace (Z.succ (Z.pos (digits2_pos p)) - 1) with (Z.succ (Z.pos (digits2_pos p) - 1)) by lia.
    rewrite Z.pow_succ_r by lia. lia.
  - rewrite Pos2Z.inj_succ, Z.pow_succ_r by lia.
    replace (Z.succ (Z.pos (digits2_pos p)) - 1) with (Z.succ (Z.pos (digits2_pos p) - 1)) by lia.
    rewrite Z.pow_succ_r by lia. lia.
  - simpl. lia.
Qed.

Lemma Zdigits2_bounds m : 0 < m -> 2 ^ (Zdigits2 m - 1) <= m < 2 ^ Zdigits2 m.
Proof. destruct m as [|p|p]; try lia. intros _. apply digits2_pos_bounds. Qed.

Lemma Zdigits2_unique m k : 0 < m -> 2 ^ (k - 1) <= m < 2 ^ k -> Zdigits2 m = k.
Proof.
  intros Hm Hk. pose proof (Zdigits2_bounds m Hm) as Hd.
  assert (0 < Zdigits2 m) by (destruct m; simpl; lia).
  assert (0 < k).
  { destruct (Z_lt_le_dec 0 k); [assumption|]. exfalso.
    assert (2 ^ k <= 1); [|lia].
    destruct (Z.eq_dec k 0) as [->|]; [simpl; lia|].
    rewrite Z.pow_neg_r by lia. lia. }
  destruct (Z.lt_trichotomy (Zdigits2 m) k) as [Hlt|[Heq|Hgt]]; [|assumption|].
  - exfalso. assert (2 ^ Zdigits2 m <= 2 ^ (k - 1)) by (apply Z.pow_le_mono_r; lia). lia.
  - exfalso. assert (2 ^ k <= 2 ^ (Zdigits2 m - 1)) by (apply Z.pow_le_mono_r; lia). lia.
Qed.

Lemma Zdigits2_nonneg m : 0 <= Zdigits2 m.
Proof. destruct m; simpl; lia. Qed.

Lemma Zdigits2_pos m : 0 < m -> 0 < Zdigits2 m.
Proof. destruct m; simpl; lia. Qed.

(** ** Shifting a mantissa right *)

Lemma iter_pos_nat {A} (f : A -> A) p : forall x,
  SpecFloat.iter_pos f p x = Nat.iter (Pos.to_nat p) f x.
Proof.
  induction p as [p IH|p IH|]; intros x; cbn [SpecFloat.iter_pos].
  - rewrite !IH, Pos2Nat.inj_xI. 
    replace (S (2 * Pos.to_nat p)) with (Pos.to_nat p + (Pos.to_nat p + 1))%nat by lia.
    rewrite !Nat.iter_add. reflexivity.
  - rewrite !IH, Pos2Nat.inj_xO.
    replace (2 * Pos.to_nat p)%nat with (Pos.to_nat p + Pos.to_nat p)%nat by lia.
    rewrite Nat.iter_add. reflexivity.
  - reflexivity.
Qed.

Lemma shr_m_shr_1 x : 0 <= shr_m x -> shr_m (shr_1 x) = shr_m x / 2.
Proof.
  destruct x as [m r s]. cbn [shr_m]. intros Hm.
  destruct m as [|p|p]; [reflexivity| |lia].
  destruct p as [p|p|]; cbn [shr_1 shr_m].
  - rewrite Pos2Z.inj_xI. rewrite Z.mul_comm, Z.div_add_l by lia. 
    rewrite (Z.div_small 1 2) by lia. lia.
  - rewrite Pos2Z.inj_xO. rewrite Z.mul_comm, Z.div_mul by lia. reflexivity.
  - reflexivity.
Qed.

Lemma shr_m_iter n : forall x, 0 <= shr_m x ->
  shr_m (Nat.iter n shr_1 x) = shr_m x / 2 ^ Z.of_nat n.
Proof.
  induction n as [|n IH]; intros x Hx.
  - simpl. rewrite Z.div_1_r. reflexivity.
  - rewrite Nat.iter_succ_r, IH.
    + rewrite shr_m_shr_1 by assumption. rewrite Nat2Z.inj_succ, Z.pow_succ_r by lia.
      rewrite Z.div_div by lia. reflexivity.
    + rewrite shr_m_shr_1 by assumption. apply Z.div_pos; lia.
Qed.

Lemma shr_iter_exact n : forall m, 0 <= m -> m mod 2 ^ Z.of_nat n = 0 ->
  Nat.iter n shr_1 (Build_shr_record m false false)
  = Build_shr_record (m / 2 ^ Z.of_nat n) false false.
Proof.
  induction n as [|n IH]; intros m Hm Hd.
  - simpl. rewrite Z.div_1_r. reflexivity.
  - rewrite Nat.iter_succ_r. rewrite Nat2Z.inj_succ, Z.pow_succ_r in * by lia.
    assert (Hm2 : m mod 2 = 0).
    { apply Z.mod_divide in Hd; [|lia]. apply Z.mod_divide; [lia|].
      destruct Hd as [q ->]. exists (q * 2 ^ Z.of_nat n). lia. }
    assert (E : shr_1 (Build_shr_record m false false)
                = Build_shr_record (m / 2) false false).
    { destruct m as [|p|p]; [reflexivity| |lia].
      destruct p as [p|p|]; cbn [shr_1 orb].
      - exfalso. rewrite Pos2Z.inj_xI in Hm2. 
        rewrite Z.add_comm, Z.mul_comm, Z.mod_add in Hm2 by lia. discriminate.
      - rewrite Pos2Z.inj_xO, Z.mul_comm, Z.div_mul by lia. reflexivity.
      - discriminate. }
    rewrite E, IH.
    + rewrite Z.div_div by lia. reflexivity.
    + apply Z.div_pos; lia.
    + apply Z.mod_divide in Hd; [|lia]. destruct Hd as [q ->].
      replace (q * (2 * 2 ^ Z.of_nat n)) with (q * 2 ^ Z.of_nat n * 2) by lia.
      rewrite Z.div_mul by lia. apply Z.mod_mul. lia.
Qed.

Lemma pos_iter_xO m d : Z.pos (Pos.iter xO m d) = Z.pos m * 2 ^ Z.pos d.
Proof.
  induction d as [|d IH] using Pos.peano_ind.
  - simpl. lia.
  - rewrite Pos.iter_succ, Pos2Z.inj_xO, IH, Pos2Z.inj_succ, Z.pow_succ_r by lia. lia.
Qed.

Lemma shr_spec rec e n :
  0 <= shr_m rec ->
  shr_m (fst (shr rec e n)) = shr_m rec / 2 ^ Z.max n 0 /\
  snd (shr rec e n) = e + Z.max n 0.
Proof.
  intros Hm. destruct n as [|p|p]; cbn [shr fst snd].
  - simpl. rewrite Z.div_1_r. lia.
  - rewrite iter_pos_nat, shr_m_iter by assumption.
    rewrite positive_nat_Z. rewrite Z.max_l by lia. split; reflexivity.
  - rewrite Z.max_r by lia. simpl. rewrite Z.div_1_r. lia.
Qed.

Lemma shr_m_of_loc m l : shr_m (shr_record_of_loc m l) = m.
Proof. destruct l as [|[]]; reflexivity. Qed.

Lemma round_nearest_even_cases m l :
  round_nearest_even m l = m \/ round_nearest_even m l = m + 1.
Proof. destruct l as [|[]]; simpl; try destruct (Z.even m); auto. Qed.

Lemma Zdigits2_div m n :
  0 < m -> 0 <= n < Zdigits2 m ->
  0 < m / 2 ^ n /\ Zdigits2 (m / 2 ^ n) = Zdigits2 m - n.
Proof.
  intros Hm Hn. pose proof (Zdigits2_bounds m Hm) as [Hlo Hhi].
  assert (Hp : 0 < 2 ^ n) by (apply Z.pow_pos_nonneg; lia).
  assert (Hlo' : 2 ^ (Zdigits2 m - n - 1) <= m / 2 ^ n).
  { apply Z.div_le_lower_bound; [lia|].
    rewrite <- Z.pow_add_r by lia.
    replace (n + (Zdigits2 m - n - 1)) with (Zdigits2 m - 1) by lia. exact Hlo. }
  assert (Hhi' : m / 2 ^ n < 2 ^ (Zdigits2 m - n)).
  { apply Z.div_lt_upper_bound; [lia|].
    rewrite <- Z.pow_add_r by lia.
    replace (n + (Zdigits2 m - n)) with (Zdigits2 m) by lia. exact Hhi. }
  assert (0 < 2 ^ (Zdigits2 m - n - 1)) by (apply Z.pow_pos_nonneg; lia).
  split; [lia|]. apply Zdigits2_unique; [lia|].
  split; assumption.
Qed.

Lemma Zdigits2_div_small m n : 0 < m -> Zdigits2 m <= n -> m / 2 ^ n = 0.
Proof.
  intros Hm Hn. pose proof (Zdigits2_bounds m Hm) as [_ Hhi].
  apply Z.div_small. split; [lia|].
  assert (2 ^ Zdigits2 m <= 2 ^ n); [|lia].
  apply Z.pow_le_mono_r; [lia|]. exact Hn.
Qed.

Lemma Zdigits2_succ m :
  0 < m ->
  Zdigits2 (m + 1) = Zdigits2 m \/
  (m + 1 = 2 ^ Zdigits2 m /\ Zdigits2 (m + 1) = Zdigits2 m + 1).
Proof.
  intros Hm. pose proof (Zdigits2_bounds m Hm) as [Hlo Hhi].
  pose proof (Zdigits2_pos m Hm) as Hd.
  destruct (Z.eq_dec (m + 1) (2 ^ Zdigits2 m)) as [E|NE].
  - right. split; [exact E|]. apply Zdigits2_unique; [lia|].
    replace (Zdigits2 m + 1 - 1) with (Zdigits2 m) by lia.
    rewrite Z.pow_add_r by lia. simpl (2 ^ 1). lia.
  - left. apply Zdigits2_unique; lia.
Qed.

Lemma Zdigits2_pow2 k : 0 <= k -> Zdigits2 (2 ^ k) = k + 1.
Proof.
  intros Hk. assert (0 < 2 ^ k) by (apply Z.pow_pos_nonneg; lia).
  apply Zdigits2_unique; [lia|].
  replace (k + 1 - 1) with k by lia. rewrite Z.pow_add_r by lia. simpl (2 ^ 1). lia.
Qed.

(** ** Rounding, in terms of the final mantissa and exponent *)

Lemma pow2_pred k : 1 <= k -> 2 ^ k = 2 ^ (k - 1) * 2.
Proof.
  intros Hk. replace k with (Z.succ (k - 1)) at 1 by lia.
  rewrite Z.pow_succ_r by lia. lia.
Qed.

(** The second normalisation step of [binary_round_aux], on a mantissa [m2]
    whose digits and exponent add up to [D] (no carry) or [D + 1] (carry to a
    power of two). *)
Lemma second_shift m2 e1 D :
  0 < m2 -> e1 = Z.max (D - 53) (-1074) ->
  (Zdigits2 m2 + e1 = D \/
   (Zdigits2 m2 + e1 = D + 1 /\ 2 <= m2 /\ m2 = 2 ^ (Zdigits2 m2 - 1))) ->
  let sh := Z.max (fexp 53 1024 (Zdigits2 m2 + e1) - e1) 0 in
  0 < m2 / 2 ^ sh /\
  fexp 53 1024 (Zdigits2 (m2 / 2 ^ sh) + (e1 + sh)) = e1 + sh /\
  D <= Zdigits2 (m2 / 2 ^ sh) + (e1 + sh) <= D + 1 /\
  e1 + sh <= Z.max (D - 52) (-1074).
Proof.
  intros Hm He Hd. cbv zeta. rewrite !fexp_eq.
  destruct Hd as [Hd | (Hd & Hm2 & Hpow)].
  - rewrite Hd. replace (Z.max (Z.max (D - 53) (-1074) - e1) 0) with 0 by lia.
    simpl (2 ^ 0). rewrite Z.div_1_r. lia.
  - rewrite Hd.
    assert (Hk : 1 <= Zdigits2 m2 - 1).
    { destruct (Z_lt_le_dec (Zdigits2 m2 - 1) 1); [|assumption]. exfalso.
      pose proof (Zdigits2_pos m2 Hm).
      assert (Zdigits2 m2 - 1 = 0) as E by lia. rewrite E in Hpow. simpl in Hpow. lia. }
    set (k := Zdigits2 m2 - 1) in *.
    assert (Hsh : Z.max (Z.max (D + 1 - 53) (-1074) - e1) 0 = 0 \/
                  Z.max (Z.max (D + 1 - 53) (-1074) - e1) 0 = 1) by lia.
    destruct Hsh as [E | E]; rewrite E.
    + simpl (2 ^ 0). rewrite Z.div_1_r. lia.
    + simpl (2 ^ 1). rewrite Hpow.
      rewrite (pow2_pred k) by lia.
      rewrite Z.div_mul by lia. rewrite Zdigits2_pow2 by lia.
      assert (0 < 2 ^ (k - 1)) by (apply Z.pow_pos_nonneg; lia).
      unfold k in *. lia.
Qed.

Lemma binary_round_aux_pack s mx ex lx :
  0 < mx -> 0 <= fexp 53 1024 (Zdigits2 mx + ex) - ex ->
  exists m e,
    binary_round_aux 53 1024 s mx ex lx = pack s m e /\
    ((m = 0 /\ Zdigits2 mx + ex <= -1074) \/
     (0 < m /\ fexp 53 1024 (Zdigits2 m + e) = e /\
      Zdigits2 mx + ex <= Zdigits2 m + e /\
      e <= Z.max (Zdigits2 mx + ex - 52) (-1074))).
Proof.
  intros Hmx Hn. unfold binary_round_aux, shr_fexp.
  set (d := Zdigits2 mx) in *. set (n := fexp 53 1024 (d + ex) - ex) in *.
  pose proof (Zdigits2_pos mx Hmx) as Hd. fold d in Hd.
  destruct (shr_spec (shr_record_of_loc mx lx) ex n) as [Hm1 He1];
    [rewrite shr_m_of_loc; lia|].
  rewrite shr_m_of_loc, Z.max_l in Hm1 by lia. rewrite Z.max_l in He1 by lia.
  destruct (shr (shr_record_of_loc mx lx) ex n) as [rec1 e1]. cbn [fst snd] in Hm1, He1.
  set (m2 := round_nearest_even (shr_m rec1) (loc_of_shr_record rec1)).
  assert (Hm2 : m2 = mx / 2 ^ n \/ m2 = mx / 2 ^ n + 1).
  { unfold m2. rewrite <- Hm1. apply round_nearest_even_cases. }
  assert (Hm1n : 0 <= mx / 2 ^ n) by (apply Z.div_pos; [lia | apply Z.pow_pos_nonneg; lia]).
  set (n2 := fexp 53 1024 (Zdigits2 m2 + e1) - e1).
  destruct (shr_spec (shr_record_of_loc m2 loc_Exact) e1 n2) as [Hm3 He3];
    [rewrite shr_m_of_loc; lia|].
  rewrite shr_m_of_loc in Hm3.
  destruct (shr (shr_record_of_loc m2 loc_Exact) e1 n2) as [rec2 e2]. cbn [fst snd] in Hm3, He3.
  exists (shr_m rec2), e2. split; [reflexivity|].
  rewrite Hm3, He3. unfold n2. clear Hm3 He3 rec2 e2 n2.
  assert (He1' : e1 = Z.max (d + ex - 53) (-1074))
    by (rewrite He1; unfold n; rewrite fexp_eq; lia).
  assert (Hn' : n = e1 - ex) by lia.
  clearbody m2 n. clear He1 Hm1 rec1. subst n.
  destruct (Z_le_gt_dec d (e1 - ex)) as [Hsmall|Hbig].
  - (* everything is shifted out: the value lies below the least subnormal *)
    rewrite (Zdigits2_div_small mx _ Hmx Hsmall) in Hm2.
    assert (He : e1 = -1074) by lia. rewrite He.
    destruct Hm2 as [-> | ->].
    + left. simpl. split; [reflexivity | lia].
    + right. change (0 + 1) with 1.
      assert (H3 := second_shift 1 (-1074) (-1073) eq_refl eq_refl (or_introl eq_refl)).
      cbv zeta in H3. intuition lia.
  - destruct (Zdigits2_div mx (e1 - ex) Hmx) as [Hpos Hdig]; [fold d; lia|].
    fold d in Hdig. set (m1 := mx / 2 ^ (e1 - ex)) in *.
    right.
    cut (0 < m2 /\ (Zdigits2 m2 + e1 = d + ex \/
                     (Zdigits2 m2 + e1 = d + ex + 1 /\ 2 <= m2 /\
                      m2 = 2 ^ (Zdigits2 m2 - 1)))).
    { intros [H1 H2]. pose proof (second_shift m2 e1 (d + ex) H1 He1' H2) as H3.
      cbv zeta in H3. intuition lia. }
    destruct Hm2 as [-> | ->]; [split; [lia | left; lia]|].
    split; [lia|].
    destruct (Zdigits2_succ m1 Hpos) as [Hsame | [Hpow Hcarry]]; [left; lia|].
    right. split; [lia|]. split; [lia|].
    rewrite Hcarry. replace (Zdigits2 m1 + 1 - 1) with (Zdigits2 m1) by lia. exact Hpow.
Qed.

Lemma Zdigits2_mul_pow2 m k : 0 < m -> 0 <= k -> Zdigits2 (m * 2 ^ k) = Zdigits2 m + k.
Proof.
  intros Hm Hk. pose proof (Zdigits2_bounds m Hm) as [Hlo Hhi].
  pose proof (Zdigits2_pos m Hm) as Hd.
  assert (Hp : 0 < 2 ^ k) by (apply Z.pow_pos_nonneg; lia).
  apply Zdigits2_unique; [nia|].
  replace (Zdigits2 m + k - 1) with ((Zdigits2 m - 1) + k) by lia.
  rewrite !Z.pow_add_r by lia. nia.
Qed.

Lemma shl_align_spec mx ex ex' :
  snd (shl_align mx ex ex') = Z.min ex ex' /\
  Z.pos (fst (shl_align mx ex ex')) = Z.pos mx * 2 ^ (ex - Z.min ex ex').
Proof.
  unfold shl_align. destruct (ex' - ex) as [|p|p] eqn:E; cbn [fst snd].
  - rewrite Z.min_l by lia. rewrite Z.sub_diag. simpl. lia.
  - rewrite Z.min_l by lia. rewrite Z.sub_diag. simpl. lia.
  - rewrite Z.min_r by lia. rewrite pos_iter_xO. split; [reflexivity|].
    f_equal. f_equal. lia.
Qed.

Lemma valid_pack s m e :
  (m = 0 \/ (0 < m /\ fexp 53 1024 (Zdigits2 m + e) = e)) -> valid (pack s m e) = true.
Proof.
  intros [-> | [Hm He]]; [reflexivity|].
  destruct m as [|p|p]; try lia. unfold pack.
  destruct (Z.leb_spec e 971); [|reflexivity].
  unfold valid, valid_binary, bounded, canonical_mantissa.
  change (Z.pos (digits2_pos p)) with (Zdigits2 (Z.pos p)). rewrite He, Z.eqb_refl.
  simpl. apply Z.leb_le. lia.
Qed.

Lemma binary_round_pack s mx ex :
  exists m e,
    binary_round 53 1024 s mx ex = pack s m e /\
    ((m = 0 /\ Zdigits2 (Z.pos mx) + ex <= -1074) \/
     (0 < m /\ fexp 53 1024 (Zdigits2 m + e) = e /\
      Zdigits2 (Z.pos mx) + ex <= Zdigits2 m + e /\
      e <= Z.max (Zdigits2 (Z.pos mx) + ex - 52) (-1074))).
Proof.
  unfold binary_round.
  destruct (shl_align_spec mx ex (fexp 53 1024 (Z.pos (digits2_pos mx) + ex))) as [He Hm].
  destruct (shl_align mx ex _) as [mz ez]. cbn [fst snd] in He, Hm.
  change (Z.pos (digits2_pos mx)) with (Zdigits2 (Z.pos mx)) in *.
  assert (Hd : Zdigits2 (Z.pos mz) + ez = Zdigits2 (Z.pos mx) + ex).
  { rewrite Hm, Zdigits2_mul_pow2 by lia. lia. }
  destruct (binary_round_aux_pack s (Z.pos mz) ez loc_Exact) as (m & e & E & H);
    [lia | rewrite Hd; lia |].
  exists m, e. split; [exact E|]. rewrite Hd in H. exact H.
Qed.

(** ** The operations return canonical doubles *)

Lemma binary_normalize_valid m e szero : valid (binary_normalize 53 1024 m e szero) = true.
Proof.
  destruct m as [|p|p]; [reflexivity| |]; cbn [binary_normalize].
  - destruct (binary_round_pack false p e) as (m' & e' & -> & H).
    apply valid_pack. intuition.
  - destruct (binary_round_pack true p e) as (m' & e' & -> & H).
    apply valid_pack. intuition.
Qed.

Lemma SFadd_valid x y : valid x = true -> valid y = true -> valid (SFadd 53 1024 x y) = true.
Proof.
  intros Hx Hy. destruct x as [sx|sx| |sx mx ex], y as [sy|sy| |sy my ey];
    cbn [SFadd]; auto; try (destruct sx, sy; auto; fail).
  apply binary_normalize_valid.
Qed.

Lemma SFsub_valid x y : valid x = true -> valid y = true -> valid (SFsub 53 1024 x y) = true.
Proof.
  intros Hx Hy. destruct x as [sx|sx| |sx mx ex], y as [sy|sy| |sy my ey];
    cbn [SFsub]; auto; try (destruct sx, sy; auto; fail).
  apply binary_normalize_valid.
Qed.

(** A canonical mantissa has 53 digits, or fewer at the least exponent. *)
Lemma valid_finite s m e :
  valid (S754_finite s m e) = true ->
  -1074 <= e <= 971 /\ Zdigits2 (Z.pos m) <= 53 /\
  (-1074 < e -> Zdigits2 (Z.pos m) = 53).
Proof.
  unfold valid, valid_binary, bounded, canonical_mantissa.
  intros H. apply andb_true_iff in H as [H1 H2].
  apply Z.eqb_eq in H1. apply Z.leb_le in H2. rewrite fexp_eq in H1.
  change (Z.pos (digits2_pos m)) with (Zdigits2 (Z.pos m)) in *. lia.
Qed.

Lemma SFmul_finite_pack sx mx ex sy my ey :
  valid (S754_finite sx mx ex) = true -> valid (S754_finite sy my ey) = true ->
  exists m e,
    SFmul 53 1024 (S754_finite sx mx ex) (S754_finite sy my ey) = pack (xorb sx sy) m e /\
    (m = 0 \/ (0 < m /\ fexp 53 1024 (Zdigits2 m + e) = e)).
Proof.
  intros Hx Hy. cbn [SFmul].
  destruct (valid_finite _ _ _ Hx) as (Hex & Hdx & Hnx).
  destruct (valid_finite _ _ _ Hy) as (Hey & Hdy & Hny).
  destruct (binary_round_aux_pack (xorb sx sy) (Z.pos (mx * my)) (ex + ey) loc_Exact)
    as (m & e & E & H); [lia | | exists m, e; split; [exact E | intuition]].
  rewrite fexp_eq.
  assert (Hd : Zdigits2 (Z.pos mx) + Zdigits2 (Z.pos my) - 1 <= Zdigits2 (Z.pos (mx * my))).
  { pose proof (Zdigits2_bounds (Z.pos mx) eq_refl) as [Hlx _].
    pose proof (Zdigits2_bounds (Z.pos my) eq_refl) as [Hly _].
    pose proof (Zdigits2_bounds (Z.pos (mx * my)) eq_refl) as [_ Hh].
    pose proof (Zdigits2_pos (Z.pos mx) eq_refl). pose proof (Zdigits2_pos (Z.pos my) eq_refl).
    destruct (Z_le_gt_dec (Zdigits2 (Z.pos mx) + Zdigits2 (Z.pos my) - 1)
                          (Zdigits2 (Z.pos (mx * my)))) as [|Hgt]; [assumption|].
    exfalso.
    assert (Hpw : 2 ^ Zdigits2 (Z.pos (mx * my))
                  <= 2 ^ (Zdigits2 (Z.pos mx) - 1 + (Zdigits2 (Z.pos my) - 1)))
      by (apply Z.pow_le_mono_r; lia).
    rewrite Z.pow_add_r in Hpw by lia. rewrite Pos2Z.inj_mul in Hh, Hpw.
    assert (0 < 2 ^ (Zdigits2 (Z.pos mx) - 1)) by (apply Z.pow_pos_nonneg; lia).
    assert (0 < 2 ^ (Zdigits2 (Z.pos my) - 1)) by (apply Z.pow_pos_nonneg; lia).
    assert (2 ^ (Zdigits2 (Z.pos mx) - 1) * 2 ^ (Zdigits2 (Z.pos my) - 1)
            <= Z.pos mx * Z.pos my) by (apply Z.mul_le_mono_nonneg; lia).
    lia. }
  pose proof (Zdigits2_pos (Z.pos mx) eq_refl). pose proof (Zdigits2_pos (Z.pos my) eq_refl).
  lia.
Qed.

Lemma SFmul_valid x y : valid x = true -> valid y = true -> valid (SFmul 53 1024 x y) = true.
Proof.
  intros Hx Hy. destruct x as [sx|sx| |sx mx ex], y as [sy|sy| |sy my ey];
    try (cbn [SFmul]; auto; fail).
  destruct (SFmul_finite_pack sx mx ex sy my ey Hx Hy) as (m & e & E & H).
  rewrite E. apply valid_pack. exact H.
Qed.

(** ** Values in units of the least positive double *)

Lemma valid_mantissa s m e :
  valid (S754_finite s m e) = true ->
  -1074 <= e <= 971 /\ Z.pos m < 2 ^ 53 /\ (-1074 < e -> 2 ^ 52 <= Z.pos m).
Proof.
  intros H. destruct (valid_finite _ _ _ H) as (He & Hd & Hn).
  pose proof (Zdigits2_bounds (Z.pos m) eq_refl) as [Hlo Hhi].
  split; [exact He|]. split.
  - assert (2 ^ Zdigits2 (Z.pos m) <= 2 ^ 53) by (apply Z.pow_le_mono_r; lia). lia.
  - intros Hne. rewrite (Hn Hne) in Hlo. exact Hlo.
Qed.

(** Among canonical doubles a smaller exponent is a smaller magnitude. *)
Lemma magnitude_lt s1 m1 e1 s2 m2 e2 :
  valid (S754_finite s1 m1 e1) = true -> valid (S754_finite s2 m2 e2) = true ->
  e1 < e2 -> Z.pos m1 * 2 ^ (e1 + 1074) < Z.pos m2 * 2 ^ (e2 + 1074).
Proof.
  intros H1 H2 He.
  destruct (valid_mantissa _ _ _ H1) as (He1 & Hm1 & _).
  destruct (valid_mantissa _ _ _ H2) as (He2 & _ & Hm2).
  specialize (Hm2 ltac:(lia)).
  assert (Hp1 : 0 < 2 ^ (e1 + 1074)) by (apply Z.pow_pos_nonneg; lia).
  assert (Hp2 : 2 ^ (e1 + 1074) * 2 <= 2 ^ (e2 + 1074)).
  { rewrite Z.mul_comm, <- Z.pow_succ_r by lia. apply Z.pow_le_mono_r; lia. }
  change (2 ^ 53) with (2 ^ 52 * 2) in Hm1.
  assert (0 < 2 ^ 52) by reflexivity.
  nia.
Qed.

(** The comparison of two numbers is the comparison of their values. *)
Lemma SFcompare_ulps x y :
  valid x = true -> valid y = true -> d_finite x = true -> d_finite y = true ->
  SFcompare x y = Some (ulps x ?= ulps y).
Proof.
  intros Vx Vy Fx Fy.
  destruct x as [sx|sx| |sx mx ex]; try discriminate;
    destruct y as [sy|sy| |sy my ey]; try discriminate; cbn [SFcompare ulps].
  - reflexivity.
  - destruct (valid_mantissa _ _ _ Vy) as (He & _ & _).
    assert (0 < Z.pos my * 2 ^ (ey + 1074))
      by (apply Z.mul_pos_pos; [lia | apply Z.pow_pos_nonneg; lia]).
    destruct sy; cbn [cond_Zopp]; f_equal; symmetry;
      [apply Z.compare_gt_iff | apply Z.compare_lt_iff]; lia.
  - destruct (valid_mantissa _ _ _ Vx) as (He & _ & _).
    assert (0 < Z.pos mx * 2 ^ (ex + 1074))
      by (apply Z.mul_pos_pos; [lia | apply Z.pow_pos_nonneg; lia]).
    destruct sx; cbn [cond_Zopp]; f_equal; symmetry;
      [apply Z.compare_lt_iff | apply Z.compare_gt_iff]; lia.
  - destruct (valid_mantissa _ _ _ Vx) as (Hex & _ & _).
    destruct (valid_mantissa _ _ _ Vy) as (Hey & _ & _).
    assert (Px : 0 < Z.pos mx * 2 ^ (ex + 1074))
      by (apply Z.mul_pos_pos; [lia | apply Z.pow_pos_nonneg; lia]).
    assert (Py : 0 < Z.pos my * 2 ^ (ey + 1074))
      by (apply Z.mul_pos_pos; [lia | apply Z.pow_pos_nonneg; lia]).
    assert (Hlt : ex < ey -> Z.pos mx * 2 ^ (ex + 1074) < Z.pos my * 2 ^ (ey + 1074))
      by (apply (magnitude_lt sx mx ex sy my ey Vx Vy)).
    assert (Hgt : ey < ex -> Z.pos my * 2 ^ (ey + 1074) < Z.pos mx * 2 ^ (ex + 1074))
      by (apply (magnitude_lt sy my ey sx mx ex Vy Vx)).
    assert (Heq : ex = ey ->
                  (Z.pos mx * 2 ^ (ex + 1074) ?= Z.pos my * 2 ^ (ey + 1074))
                  = Pos.compare_cont Eq mx my).
    { intros ->.
      assert (2 ^ (ey + 1074) > 0) by (apply Z.lt_gt, Z.pow_pos_nonneg; lia).
      rewrite <- Zmult_compare_compat_r by assumption. reflexivity. }
    f_equal. destruct sx, sy; cbn [cond_Zopp].
    + rewrite Z.compare_opp.
      destruct (Z.compare_spec ex ey) as [E|L|G].
      * rewrite Z.compare_antisym, (Heq E). reflexivity.
      * symmetry. apply Z.compare_gt_iff. lia.
      * symmetry. apply Z.compare_lt_iff. lia.
    + symmetry. apply Z.compare_lt_iff. lia.
    + symmetry. apply Z.compare_gt_iff. lia.
    + destruct (Z.compare_spec ex ey) as [E|L|G].
      * rewrite (Heq E). reflexivity.
      * symmetry. apply Z.compare_lt_iff. lia.
      * symmetry. apply Z.compare_gt_iff. lia.
Qed.

Lemma SFltb_ulps x y :
  valid x = true -> valid y = true -> d_finite x = true -> d_finite y = true ->
  SFltb x y = (ulps x <? ulps y).
Proof.
  intros. unfold SFltb, Z.ltb. rewrite SFcompare_ulps by assumption. reflexivity.
Qed.

Lemma SFleb_ulps x y :
  valid x = true -> valid y = true -> d_finite x = true -> d_finite y = true ->
  SFleb x y = (ulps x <=? ulps y).
Proof.
  intros. unfold SFleb, Z.leb. rewrite SFcompare_ulps by assumption.
  destruct (ulps x ?= ulps y); reflexivity.
Qed.

(** ** Roundings that lose nothing *)

Lemma shr_exact m e n :
  0 <= m -> 0 <= n -> m mod 2 ^ n = 0 ->
  shr (Build_shr_record m false false) e n
  = (Build_shr_record (m / 2 ^ n) false false, e + n).
Proof.
  intros Hm Hn Hd. destruct n as [|p|p]; [| |lia]; cbn [shr].
  - rewrite Z.div_1_r, Z.add_0_r. reflexivity.
  - rewrite iter_pos_nat. rewrite shr_iter_exact.
    + rewrite positive_nat_Z. reflexivity.
    + exact Hm.
    + rewrite positive_nat_Z. exact Hd.
Qed.

Lemma divisible_digits m n : 0 < m -> 0 <= n -> m mod 2 ^ n = 0 -> n < Zdigits2 m.
Proof.
  intros Hm Hn Hd. pose proof (Zdigits2_bounds m Hm) as [_ Hhi].
  assert (Hp : 0 < 2 ^ n) by (apply Z.pow_pos_nonneg; lia).
  assert (2 ^ n <= m).
  { pose proof (Z.div_mod m (2 ^ n) ltac:(lia)) as E. rewrite Hd in E.
    assert (0 < m / 2 ^ n) by nia. nia. }
  destruct (Z_lt_le_dec n (Zdigits2 m)) as [L|G]; [exact L|exfalso].
  assert (2 ^ Zdigits2 m <= 2 ^ n) by (apply Z.pow_le_mono_r; lia). lia.
Qed.

Lemma binary_round_aux_exact s mx ex :
  0 < mx ->
  0 <= fexp 53 1024 (Zdigits2 mx + ex) - ex ->
  mx mod 2 ^ (fexp 53 1024 (Zdigits2 mx + ex) - ex) = 0 ->
  binary_round_aux 53 1024 s mx ex loc_Exact
  = pack s (mx / 2 ^ (fexp 53 1024 (Zdigits2 mx + ex) - ex))
           (fexp 53 1024 (Zdigits2 mx + ex)).
Proof.
  intros Hm Hn Hd.
  set (n := fexp 53 1024 (Zdigits2 mx + ex) - ex) in *.
  pose proof (divisible_digits mx n Hm Hn Hd) as Hlt.
  destruct (Zdigits2_div mx n Hm (conj Hn Hlt)) as [Hq Hdq].
  unfold binary_round_aux, shr_fexp. cbn [shr_record_of_loc].
  fold n. rewrite (shr_exact mx ex n) by lia.
  cbn [shr_m loc_of_shr_record round_nearest_even shr_record_of_loc].
  replace (fexp 53 1024 (Zdigits2 (mx / 2 ^ n) + (ex + n)) - (ex + n)) with 0.
  2:{ rewrite Hdq. replace (Zdigits2 mx - n + (ex + n)) with (Zdigits2 mx + ex) by lia.
      unfold n. lia. }
  cbn [shr shr_m]. replace (ex + n) with (fexp 53 1024 (Zdigits2 mx + ex)) by (unfold n; lia).
  reflexivity.
Qed.

Lemma binary_round_exact s mx ex :
  -1074 <= ex ->
  (fexp 53 1024 (Zdigits2 (Z.pos mx) + ex) <= ex \/
   Z.pos mx mod 2 ^ (fexp 53 1024 (Zdigits2 (Z.pos mx) + ex) - ex) = 0) ->
  exists M,
    binary_round 53 1024 s mx ex
    = pack s M (fexp 53 1024 (Zdigits2 (Z.pos mx) + ex)) /\
    0 < M /\
    M * 2 ^ (fexp 53 1024 (Zdigits2 (Z.pos mx) + ex) + 1074)
    = Z.pos mx * 2 ^ (ex + 1074).
Proof.
  intros Hex Hcase.
  set (e' := fexp 53 1024 (Zdigits2 (Z.pos mx) + ex)) in *.
  assert (He' : -1074 <= e') by (unfold e'; rewrite fexp_eq; lia).
  unfold binary_round.
  change (Z.pos (digits2_pos mx)) with (Zdigits2 (Z.pos mx)). fold e'.
  destruct (shl_align_spec mx ex e') as [Hs Hf].
  destruct (shl_align mx ex e') as [mz ez] eqn:E. cbn [fst snd] in Hs, Hf.
  destruct (Z_le_gt_dec e' ex) as [Hle|Hgt].
  - (* the mantissa is shifted left, nothing is cut *)
    rewrite Z.min_r in Hs, Hf by lia. subst ez.
    assert (Hdz : Zdigits2 (Z.pos mz) + e' = Zdigits2 (Z.pos mx) + ex).
    { rewrite Hf, Zdigits2_mul_pow2 by lia. lia. }
    assert (Hfe : fexp 53 1024 (Zdigits2 (Z.pos mz) + e') = e')
      by (rewrite Hdz; reflexivity).
    rewrite binary_round_aux_exact; rewrite ?Hfe, ?Z.sub_diag; try lia.
    2:{ simpl. apply Z.mod_1_r. }
    simpl (2 ^ 0). rewrite Z.div_1_r.
    exists (Z.pos mz). split; [reflexivity|]. split; [lia|].
    rewrite Hf, <- Z.mul_assoc, <- Z.pow_add_r by lia.
    f_equal. f_equal. lia.
  - (* the low bits that are cut are all zero *)
    destruct Hcase as [Hc|Hc]; [lia|].
    rewrite Z.min_l in Hs, Hf by lia. subst ez.
    rewrite Z.sub_diag, Z.mul_1_r in Hf. injection Hf as ->.
    fold e' in Hc |- *.
    rewrite binary_round_aux_exact; fold e'; try lia; try exact Hc.
    assert (Hp : 0 < 2 ^ (e' - ex)) by (apply Z.pow_pos_nonneg; lia).
    pose proof (Z.div_mod (Z.pos mx) (2 ^ (e' - ex)) ltac:(lia)) as D.
    rewrite Hc, Z.add_0_r in D.
    exists (Z.pos mx / 2 ^ (e' - ex)). split; [reflexivity|]. split; [nia|].
    replace (e' + 1074) with ((e' - ex) + (ex + 1074)) by lia.
    rewrite Z.pow_add_r by lia. rewrite Z.mul_assoc.
    f_equal. rewrite Z.mul_comm. symmetry. exact D.
Qed.

Lemma Zdigits2_le m k : 0 < m -> 0 <= k -> m < 2 ^ k -> Zdigits2 m <= k.
Proof.
  intros Hm Hk Hlt. pose proof (Zdigits2_bounds m Hm) as [Hlo _].
  destruct (Z_le_gt_dec (Zdigits2 m) k) as [L|G]; [exact L|exfalso].
  assert (2 ^ k <= 2 ^ (Zdigits2 m - 1)) by (apply Z.pow_le_mono_r; lia). lia.
Qed.

(** Taking one token from a balance between 1 and 2^53 is exact. *)
Lemma SFsub_one_exact m e :
  valid (S754_finite false m e) = true -> -52 <= e <= 0 ->
  d_finite (SFsub 53 1024 (S754_finite false m e) d_one) = true /\
  ulps (SFsub 53 1024 (S754_finite false m e) d_one)
  = ulps (S754_finite false m e) - ulps d_one.
Proof.
  intros V He.
  destruct (valid_mantissa _ _ _ V) as (_ & Hhi & Hlo). specialize (Hlo ltac:(lia)).
  change d_one with (S754_finite false 4503599627370496 (-52)).
  cbn [SFsub ulps cond_Zopp].
  rewrite (Z.min_r e (-52)) by lia.
  destruct (shl_align_spec m e (-52)) as [_ H1]. rewrite H1. clear H1.
  destruct (shl_align_spec 4503599627370496 (-52) (-52)) as [_ H2]. rewrite H2. clear H2.
  rewrite (Z.min_r e (-52)) by lia.
  replace (e - -52) with (e + 52) by lia.
  change (Z.pos 4503599627370496 * 2 ^ (-52 - Z.min (-52) (-52))) with (2 ^ 52).
  change (Z.pos 4503599627370496 * 2 ^ (-52 + 1074)) with (2 ^ 52 * 2 ^ 1022).
  replace (2 ^ (e + 1074)) with (2 ^ (e + 52) * 2 ^ 1022)
    by (rewrite <- Z.pow_add_r by lia; f_equal; lia).
  assert (HP : 0 < 2 ^ 1022) by reflexivity.
  assert (EP : 2 ^ (-52 + 1074) = 2 ^ 1022) by reflexivity.
  set (P := 2 ^ 1022) in *. clearbody P.
  assert (HQ : 1 <= 2 ^ (e + 52))
    by (change 1 with (2 ^ 0); apply Z.pow_le_mono_r; lia).
  assert (HQ' : 2 ^ (e + 52) <= 2 ^ 52) by (apply Z.pow_le_mono_r; lia).
  assert (HT : 0 < 2 ^ 52) by reflexivity.
  set (T := 2 ^ 52) in *.
  change (2 ^ 53) with (T * 2) in Hhi.
  destruct (Z.pos m * 2 ^ (e + 52) - T) as [|pD|pD] eqn:ED.
  - cbn [binary_normalize d_finite ulps]. split; [reflexivity|]. nia.
  - cbn [binary_normalize].
    assert (Hdig : Zdigits2 (Z.pos pD) <= 53 + (e + 52)).
    { apply Zdigits2_le; [lia|lia|].
      rewrite Z.pow_add_r by lia. change (2 ^ 53) with (T * 2). nia. }
    pose proof (Zdigits2_pos (Z.pos pD) eq_refl) as Hdpos.
    assert (Hfe : fexp 53 1024 (Zdigits2 (Z.pos pD) + -52) = Zdigits2 (Z.pos pD) - 105)
      by (rewrite fexp_eq; lia).
    destruct (binary_round_exact false pD (-52)) as (M & HM & HMpos & HMval); [lia| |].
    { rewrite Hfe.
      destruct (Z_le_gt_dec (Zdigits2 (Z.pos pD)) 53) as [L|G]; [left; lia|right].
      replace (Zdigits2 (Z.pos pD) - 105 - -52) with (Zdigits2 (Z.pos pD) - 53) by lia.
      set (k := Zdigits2 (Z.pos pD) - 53) in *.
      rewrite <- ED.
      replace (Z.pos m * 2 ^ (e + 52) - T)
        with ((Z.pos m * 2 ^ (e + 52 - k) - 2 ^ (52 - k)) * 2 ^ k).
      - apply Z_mod_mult.
      - rewrite Z.mul_sub_distr_r, <- Z.mul_assoc, <- !Z.pow_add_r by lia.
        unfold T. f_equal; f_equal; f_equal; lia. }
    rewrite HM, Hfe in *. destruct M as [|pM|pM]; try lia.
    unfold pack. destruct (Z.leb_spec (Zdigits2 (Z.pos pD) - 105) 971); [|lia].
    cbn [d_finite ulps cond_Zopp]. split; [reflexivity|].
    rewrite HMval, EP. lia.
  - exfalso. assert (T <= Z.pos m * 2 ^ (e + 52)) by nia. lia.
Qed.

End DoubleFacts.

(** * Facts on the rate limiter *)

Module RateLimiterFacts.
Import RateLimiter DoubleFacts.

Lemma dlt_irrefl x : dlt x x = false.
Proof.
  unfold dlt, SFltb, SFcompare. destruct x as [s|s| |s m e]; try reflexivity.
  - destruct s; reflexivity.
  - rewrite Z.compare_refl, Pos.compare_cont_refl. destruct s; reflexivity.
Qed.

(** A double that is at least 1.0 is a positive number or [+inf]. *)
Lemma dle_one_positive x :
  dle d_one x = true ->
  x = S754_infinity false \/ exists m e, x = S754_finite false m e.
Proof.
  unfold dle, SFleb, d_one. cbn.
  destruct x as [s|s| |s m e]; cbn; try discriminate.
  - destruct s; [discriminate | auto].
  - destruct s; [discriminate | eauto].
Qed.

Lemma ulps_d_one : ulps d_one = 2 ^ 1074.
Proof. reflexivity. Qed.

Lemma wrap_long_id z : LONG_MIN <= z <= LONG_MAX -> wrap_long z = z.
Proof.
  unfold LONG_MIN, LONG_MAX, wrap_long. intros H.
  rewrite Z.mod_small by lia. lia.
Qed.

(** A double that is at least 0.0 is a zero, a positive number or
    [+inf]. *)
Lemma dle_zero_cases x :
  dle d_zero x = true ->
  (exists s, x = S754_zero s) \/ x = S754_infinity false \/
  exists m e, x = S754_finite false m e.
Proof.
  unfold dle, SFleb, d_zero. cbn.
  destruct x as [s|s| |s m e]; cbn; try discriminate; eauto.
  - destruct s; [discriminate | auto].
  - destruct s; [discriminate | eauto].
Qed.

(** The conversion of a [time_t] difference that is not negative. *)
Lemma double_of_Z_nonneg z :
  0 <= z <= LONG_MAX ->
  double_of_Z z = S754_zero false \/ exists m e, double_of_Z z = S754_finite false m e.
Proof.
  intros Hz. destruct z as [|p|p]; [left; reflexivity | right | lia].
  unfold double_of_Z. cbn [binary_normalize].
  destruct (binary_round_pack false p 0) as (m & e & E & H). rewrite E.
  pose proof (Zdigits2_pos (Z.pos p) eq_refl) as Hd.
  assert (Hd' : Zdigits2 (Z.pos p) <= 63).
  { apply Zdigits2_le; [lia | lia |]. unfold LONG_MAX in Hz.
    change (2 ^ 63) with 9223372036854775808. lia. }
  destruct H as [[_ H] | (Hm & _ & _ & He)]; [lia|].
  destruct m as [|pm|pm]; try lia. unfold pack.
  destruct (Z.leb_spec e 971); [eauto | lia].
Qed.

(** The product of two doubles that are not negative, the second one a
    number, is not negative. *)
Lemma dmul_nonneg x y :
  valid x = true -> valid y = true ->
  (x = S754_zero false \/ exists m e, x = S754_finite false m e) ->
  d_finite y = true -> dle d_zero y = true ->
  dle d_zero (dmul x y) = true.
Proof.
  intros Vx Vy Hx Fy Hy.
  destruct (dle_zero_cases y Hy) as [[sy ->] | [-> | (my & ey & ->)]];
    [| discriminate |].
  - destruct Hx as [-> | (mx & ex & ->)]; destruct sy; reflexivity.
  - destruct Hx as [-> | (mx & ex & ->)]; [reflexivity|].
    unfold dmul.
    destruct (SFmul_finite_pack false mx ex false my ey Vx Vy) as (m & e & E & H).
    rewrite E. destruct m as [|pm|pm]; [reflexivity | | lia].
    unfold pack. cbn [xorb]. destruct (e <=? 971); reflexivity.
Qed.

Lemma Zdigits2_mono a b : 0 < a <= b -> Zdigits2 a <= Zdigits2 b.
Proof.
  intros [Ha Hab]. pose proof (Zdigits2_bounds b ltac:(lia)) as [_ Hhi].
  pose proof (Zdigits2_pos b ltac:(lia)).
  apply Zdigits2_le; lia.
Qed.

(** A positive double is at least 1.0 exactly when its leading digit is
    at position 0 or above. *)
Lemma dle_one_digits m e :
  valid (S754_finite false m e) = true ->
  dle d_one (S754_finite false m e) = true <-> 1 <= Zdigits2 (Z.pos m) + e.
Proof.
  intros V. destruct (valid_mantissa _ _ _ V) as (He & _ & _).
  pose proof (Zdigits2_bounds (Z.pos m) eq_refl) as [Hlo Hhi].
  pose proof (Zdigits2_pos (Z.pos m) eq_refl) as Hd.
  unfold dle. rewrite SFleb_ulps by (try assumption; reflexivity).
  rewrite Z.leb_le, ulps_d_one. cbn [ulps cond_Zopp].
  assert (Hp : 0 < 2 ^ (e + 1074)) by (apply Z.pow_pos_nonneg; lia).
  split.
  - intros H.
    assert (Hlt : 2 ^ 1074 < 2 ^ (Zdigits2 (Z.pos m) + (e + 1074))).
    { rewrite Z.pow_add_r by lia.
      eapply Z.le_lt_trans; [exact H|]. apply Z.mul_lt_mono_pos_r; assumption. }
    apply Z.pow_lt_mono_r_iff in Hlt; lia.
  - intros H.
    apply Z.le_trans with (2 ^ (Zdigits2 (Z.pos m) - 1 + (e + 1074))).
    + apply Z.pow_le_mono_r; lia.
    + rewrite Z.pow_add_r by lia. apply Z.mul_le_mono_nonneg_r; lia.
Qed.

(** Adding a double that is not negative to one that is at least 1.0
    gives at least 1.0. *)
Lemma dadd_ge_one b x :
  valid b = true -> valid x = true ->
  dle d_one b = true -> dle d_zero x = true ->
  dle d_one (dadd b x) = true.
Proof.
  intros Vb Vx Hb Hx.
  pose proof (SFadd_valid b x Vb Vx) as Vs. fold (dadd b x) in Vs.
  destruct (dle_one_positive b Hb) as [-> | (mb & eb & ->)];
    destruct (dle_zero_cases x Hx) as [[sx ->] | [-> | (mx & ex & ->)]];
    try reflexivity; try exact Hb.
  apply (dle_one_digits mb eb Vb) in Hb.
  revert Vs. unfold dadd. cbn [SFadd cond_Zopp].
  destruct (shl_align_spec mb eb (Z.min eb ex)) as [_ H1].
  destruct (shl_align_spec mx ex (Z.min eb ex)) as [_ H2].
  set (a := fst (shl_align mb eb (Z.min eb ex))) in *.
  set (c := fst (shl_align mx ex (Z.min eb ex))) in *.
  replace (Z.min eb (Z.min eb ex)) with (Z.min eb ex) in H1 by lia.
  replace (Z.min ex (Z.min eb ex)) with (Z.min eb ex) in H2 by lia.
  change (Z.pos a + Z.pos c) with (Z.pos (a + c)). cbn [binary_normalize].
  destruct (binary_round_pack false (a + c) (Z.min eb ex)) as (m & e & E & H).
  rewrite E. intros Vs.
  assert (Hdig : Zdigits2 (Z.pos mb) + eb <= Zdigits2 (Z.pos (a + c)) + Z.min eb ex).
  { assert (Zdigits2 (Z.pos a) <= Zdigits2 (Z.pos (a + c))) by (apply Zdigits2_mono; lia).
    assert (Zdigits2 (Z.pos a) = Zdigits2 (Z.pos mb) + (eb - Z.min eb ex))
      by (rewrite H1, Zdigits2_mul_pow2 by lia; reflexivity).
    lia. }
  destruct H as [[_ H] | (Hm & _ & Hge & _)]; [lia|].
  destruct m as [|pm|pm]; try lia. revert Vs. unfold pack.
  destruct (e <=? 971); [|reflexivity].
  intros Vs. apply (dle_one_digits pm e Vs). lia.
Qed.

(** The refill of a full bucket that holds at least one token leaves at
    least one token, when the rate is not negative and the clock did not
    go backwards. *)
Lemma refill_full_bucket l e now :
  valid (burst l) = true -> valid (rate l) = true ->
  dle d_one (burst l) = true ->
  d_finite (rate l) = true -> dle d_zero (rate l) = true ->
  tokens e = burst l ->
  0 <= now - last_update e <= LONG_MAX ->
  dle d_one (refill l e now) = true.
Proof.
  intros Vb Vr Hb Fr Hr Ht Hclk. unfold refill, difftime.
  destruct (dlt (burst l) _); [exact Hb|].
  rewrite Ht. apply dadd_ge_one; [exact Vb | | exact Hb |].
  - apply SFmul_valid; [apply binary_normalize_valid | exact Vr].
  - apply dmul_nonneg; try assumption.
    + apply binary_normalize_valid.
    + apply double_of_Z_nonneg. exact Hclk.
Qed.

(** The doubles on the way to the carried count, 9 seconds after the
    start of a 5 second window that took 5 requests:
    [4.0 / 5 = 7205759403792794 * 2^-53] (just above 0.8),
    [1.0 - 4.0 / 5 = 7205759403792792 * 2^-55] (just below 0.2), and
    [5 * (1.0 - 4.0 / 5) = 9007199254740990 * 2^-53] (just below 1.0). *)
Lemma sliding_carry_doubles :
  ddiv (double_of_Z 4) (double_of_Z 5) = S754_finite false 7205759403792794 (-53) /\
  window_weight sliding_10_5 five_requests 1700000009
  = S754_finite false 7205759403792792 (-55) /\
  dmul (double_of_Z 5) (window_weight sliding_10_5 five_requests 1700000009)
  = S754_finite false 9007199254740990 (-53).
Proof. repeat split; vm_compute; reflexivity. Qed.

(** C8, refuted as stated: 9 seconds after the start of a 5 second window
    that took 5 requests the code carries 0 into the new window, where
    [floor (w * window_count)] with [w = 1 - (9 - 5) / 5] is 1; the call
    admits and leaves a count of 1, not 2. *)
Lemma sliding_carry_rounds_down :
  weighted_count sliding_10_5 five_requests 1700000009 = Some 0 /\
  claimed_carry 1700000009 1700000000 5 5 = 1 /\
  exists e', sliding_window_allow sliding_10_5 five_requests 1700000009
             = Some (e', true) /\
             window_count e' = 1 /\ window_start e' = 1700000009.
Proof.
  split; [vm_compute; reflexivity|]. split; [vm_compute; reflexivity|].
  eexists. split; [vm_compute; reflexivity|]. split; reflexivity.
Qed.

(** The conversion of an integer below 2^53 is exact. *)
Lemma binary_round_small s p :
  Z.pos p < 2 ^ 53 ->
  exists m e,
    binary_round 53 1024 s p 0 = S754_finite s m e /\
    e = Zdigits2 (Z.pos p) - 53 /\ -52 <= e <= 0 /\
    Z.pos m = Z.pos p * 2 ^ (- e) /\ 2 ^ 52 <= Z.pos m < 2 ^ 53.
Proof.
  intros Hp.
  pose proof (Zdigits2_pos (Z.pos p) eq_refl) as Hd1.
  pose proof (Zdigits2_le (Z.pos p) 53 eq_refl ltac:(lia) Hp) as Hd2.
  pose proof (Zdigits2_bounds (Z.pos p) eq_refl) as [Hlo Hhi].
  set (d := Zdigits2 (Z.pos p)) in *.
  assert (Hf : fexp 53 1024 (d + 0) = d - 53) by (rewrite fexp_eq; lia).
  destruct (binary_round_exact s p 0) as (M & HM & HMpos & HMval);
    [lia | left; fold d; rewrite Hf; lia |].
  fold d in HM, HMval. rewrite Hf in HM, HMval.
  assert (Hsplit : 2 ^ (0 + 1074) = 2 ^ (53 - d) * 2 ^ (d - 53 + 1074))
    by (rewrite <- Z.pow_add_r by lia; f_equal; lia).
  assert (HX : 0 < 2 ^ (d - 53 + 1074)) by (apply Z.pow_pos_nonneg; lia).
  assert (EM : M = Z.pos p * 2 ^ (53 - d)).
  { apply (Z.mul_reg_r _ _ (2 ^ (d - 53 + 1074))); [lia|].
    rewrite HMval, Hsplit. ring. }
  assert (H52 : 2 ^ 52 = 2 ^ (d - 1) * 2 ^ (53 - d))
    by (rewrite <- Z.pow_add_r by lia; f_equal; lia).
  assert (H53 : 2 ^ 53 = 2 ^ d * 2 ^ (53 - d))
    by (rewrite <- Z.pow_add_r by lia; f_equal; lia).
  assert (HY : 0 < 2 ^ (53 - d)) by (apply Z.pow_pos_nonneg; lia).
  destruct M as [|pM|pM]; try lia.
  exists pM, (d - 53). rewrite HM. unfold pack.
  destruct (Z.leb_spec (d - 53) 971); [|lia].
  split; [reflexivity|]. split; [reflexivity|]. split; [lia|].
  replace (- (d - 53)) with (53 - d) by lia. split; [exact EM|].
  rewrite EM, H52, H53. split.
  - apply Z.mul_le_mono_nonneg_r; lia.
  - apply Z.mul_lt_mono_pos_r; lia.
Qed.

Lemma double_of_Z_small z :
  0 < z < 2 ^ 53 ->
  exists m e,
    double_of_Z z = S754_finite false m e /\
    e = Zdigits2 z - 53 /\ -52 <= e <= 0 /\
    Z.pos m = z * 2 ^ (- e) /\ 2 ^ 52 <= Z.pos m < 2 ^ 53.
Proof.
  intros [H0 H1]. destruct z as [|p|p]; try lia.
  unfold double_of_Z. cbn [binary_normalize]. apply binary_round_small. exact H1.
Qed.

Lemma double_of_Z_small_neg p :
  Z.pos p < 2 ^ 53 ->
  exists m e,
    double_of_Z (Z.neg p) = S754_finite true m e /\
    -52 <= e <= 0 /\ Z.pos m = Z.pos p * 2 ^ (- e) /\ 2 ^ 52 <= Z.pos m < 2 ^ 53.
Proof.
  intros H1. unfold double_of_Z. cbn [binary_normalize].
  destruct (binary_round_small true p H1) as (m & e & E & _ & He & Hm & Hb).
  exists m, e. auto.
Qed.

(** The cast back to [long] of such a double. *)
Lemma double_to_long_small s m e z :
  -52 <= e <= 0 -> Z.pos m = z * 2 ^ (- e) -> 0 < z < 2 ^ 53 ->
  double_to_long (S754_finite s m e) = Some (if s then - z else z).
Proof.
  intros He Hm Hz. unfold double_to_long, truncate.
  assert (HP : 0 < 2 ^ (- e)) by (apply Z.pow_pos_nonneg; lia).
  assert (Hmag : (if 0 <=? e then Z.pos m * 2 ^ e else Z.quot (Z.pos m) (2 ^ (- e))) = z).
  { destruct (Z.leb_spec 0 e).
    - assert (e = 0) by lia. subst e. simpl in Hm. simpl. lia.
    - rewrite Hm. apply Z.quot_mul. lia. }
  rewrite Hmag.
  assert (Hr : 2 ^ 53 < LONG_MAX) by reflexivity.
  unfold LONG_MIN, LONG_MAX in *.
  destruct s.
  - destruct (Z.leb_spec (-9223372036854775808) (- z)); [|lia].
    destruct (Z.leb_spec (- z) 9223372036854775807); [reflexivity|lia].
  - destruct (Z.leb_spec (-9223372036854775808) z); [|lia].
    destruct (Z.leb_spec z 9223372036854775807); [reflexivity|lia].
Qed.

(** Multiplying a normal double of exponent between -52 and 0 by 1.0
    gives it back. *)
Lemma dmul_one s m e :
  -52 <= e <= 0 -> 2 ^ 52 <= Z.pos m < 2 ^ 53 ->
  dmul (S754_finite s m e) d_one = S754_finite s m e.
Proof.
  intros He Hm.
  change d_one with (S754_finite false 4503599627370496 (-52)).
  unfold dmul. cbn [SFmul].
  assert (Hprod : Z.pos (m * 4503599627370496) = Z.pos m * 2 ^ 52) by reflexivity.
  assert (Hd : Zdigits2 (Z.pos (m * 4503599627370496)) = 105).
  { rewrite Hprod, Zdigits2_mul_pow2 by lia.
    rewrite (Zdigits2_unique (Z.pos m) 53) by (try reflexivity; simpl; lia). reflexivity. }
  assert (Hf : fexp 53 1024 (105 + (e + -52)) = e) by (rewrite fexp_eq; lia).
  rewrite binary_round_aux_exact; rewrite ?Hd, ?Hf; try reflexivity.
  - replace (e - (e + -52)) with 52 by lia.
    rewrite Hprod, Z.div_mul by discriminate.
    unfold pack. destruct (Z.leb_spec e 971); [|lia]. destruct s; reflexivity.
  - lia.
  - replace (e - (e + -52)) with 52 by lia. rewrite Hprod. apply Z_mod_mult.
Qed.

(** The quotient of two normal doubles, the first not the smaller one,
    is at least 1.0. *)
Lemma ddiv_ge_one mx ex my ey :
  2 ^ 52 <= Z.pos mx < 2 ^ 53 -> 2 ^ 52 <= Z.pos my < 2 ^ 53 ->
  -52 <= ey -> ey <= ex -> ex <= 0 ->
  Z.pos my <= Z.pos mx * 2 ^ (ex - ey) ->
  exists m e,
    ddiv (S754_finite false mx ex) (S754_finite false my ey) = S754_finite false m e /\
    valid (S754_finite false m e) = true /\
    1 <= Zdigits2 (Z.pos m) + e.
Proof.
  intros Hmx Hmy Hey Hxy Hex Hge.
  unfold ddiv. cbn [SFdiv xorb]. unfold SFdiv_core_binary.
  rewrite (Zdigits2_unique (Z.pos mx) 53) by (try reflexivity; simpl; lia).
  rewrite (Zdigits2_unique (Z.pos my) 53) by (try reflexivity; simpl; lia).
  rewrite fexp_eq.
  replace (Z.min (Z.max (53 + ex - (53 + ey) - 53) (-1074)) (ex - ey))
    with (ex - ey - 53) by lia.
  replace (ex - ey - (ex - ey - 53)) with 53 by lia.
  cbv iota. rewrite Z.shiftl_mul_pow2 by lia.
  pose proof (Z_div_mod (Z.pos mx * 2 ^ 53) (Z.pos my) eq_refl) as Hdiv.
  destruct (Z.div_eucl (Z.pos mx * 2 ^ 53) (Z.pos my)) as [q r].
  destruct Hdiv as [Hq Hr].
  set (k := ex - ey) in *.
  assert (Hk : 0 <= k <= 52) by (unfold k; lia).
  assert (H53 : 2 ^ 53 = 2 ^ (53 - k) * 2 ^ k)
    by (rewrite <- Z.pow_add_r by lia; f_equal; lia).
  assert (HPk : 0 < 2 ^ k) by (apply Z.pow_pos_nonneg; lia).
  assert (HPk' : 0 < 2 ^ (53 - k)) by (apply Z.pow_pos_nonneg; lia).
  (* the truncated quotient is at least 2^(53-k) *)
  assert (Hqlo : 2 ^ (53 - k) <= q).
  { destruct (Z_le_gt_dec (2 ^ (53 - k)) q) as [L|G]; [exact L|exfalso].
    assert (q + 1 <= 2 ^ (53 - k)) by lia.
    assert (Z.pos mx * 2 ^ 53 < Z.pos my * (q + 1)) by lia.
    assert (Z.pos my * (q + 1) <= Z.pos my * 2 ^ (53 - k))
      by (apply Z.mul_le_mono_nonneg_l; lia).
    assert (Z.pos my * 2 ^ (53 - k) <= Z.pos mx * 2 ^ k * 2 ^ (53 - k))
      by (apply Z.mul_le_mono_nonneg_r; lia).
    rewrite H53 in *. lia. }
  assert (Hqhi : q < 2 ^ 54).
  { destruct (Z_le_gt_dec (2 ^ 54) q) as [L|G]; [exfalso|lia].
    assert (Z.pos my * 2 ^ 54 <= Z.pos my * q) by (apply Z.mul_le_mono_nonneg_l; lia).
    assert (2 ^ 52 * 2 ^ 54 <= Z.pos my * 2 ^ 54) by (apply Z.mul_le_mono_nonneg_r; lia).
    assert (Z.pos mx * 2 ^ 53 < 2 ^ 53 * 2 ^ 53) by (apply Z.mul_lt_mono_pos_r; lia).
    change (2 ^ 52 * 2 ^ 54) with (2 ^ 53 * 2 ^ 53) in *. lia. }
  assert (Hq52 : 2 ^ 52 <= q).
  { destruct (Z_le_gt_dec (2 ^ 52) q) as [L|G]; [exact L|exfalso].
    assert (Z.pos my * (q + 1) <= Z.pos my * 2 ^ 52)
      by (apply Z.mul_le_mono_nonneg_l; lia).
    assert (Z.pos my * 2 ^ 52 < 2 ^ 53 * 2 ^ 52) by (apply Z.mul_lt_mono_pos_r; lia).
    assert (2 ^ 52 * 2 ^ 53 <= Z.pos mx * 2 ^ 53) by (apply Z.mul_le_mono_nonneg_r; lia).
    lia. }
  assert (Hq0 : 0 < q) by lia.
  assert (Hd53 : 53 <= Zdigits2 q).
  { pose proof (Zdigits2_bounds q Hq0) as [_ Hhi'].
    destruct (Z_le_gt_dec 53 (Zdigits2 q)) as [L|G]; [exact L|exfalso].
    assert (2 ^ Zdigits2 q <= 2 ^ 52) by (apply Z.pow_le_mono_r; [lia|lia]). lia. }
  pose proof (Zdigits2_bounds q Hq0) as [Hdlo Hdhi].
  pose proof (Zdigits2_pos q Hq0) as Hdpos.
  assert (Hd54 : Zdigits2 q <= 54) by (apply Zdigits2_le; lia).
  assert (Hdk : 54 - k <= Zdigits2 q).
  { destruct (Z_le_gt_dec (54 - k) (Zdigits2 q)) as [L|G]; [exact L|exfalso].
    assert (2 ^ Zdigits2 q <= 2 ^ (53 - k)) by (apply Z.pow_le_mono_r; lia). lia. }
  destruct (binary_round_aux_pack false q (k - 53) (new_location (Z.pos my) r))
    as (m & e & E & H); [exact Hq0 | rewrite fexp_eq; lia |].
  rewrite E.
  destruct H as [[_ H] | (Hm & Hcan & Hge' & Hle)]; [lia|].
  destruct m as [|pm|pm]; try lia.
  assert (He971 : e <= 971) by lia.
  exists pm, e. unfold pack. destruct (Z.leb_spec e 971); [|lia].
  split; [reflexivity|]. split; [|lia].
  pose proof (valid_pack false (Z.pos pm) e (or_intror (conj Hm Hcan))) as V.
  unfold pack in V. destruct (Z.leb_spec e 971); [exact V | lia].
Qed.

(** One minus a double that is at least 1.0 is a zero or negative: the
    weight it gives is a zero. *)
Lemma weight_clamped m e :
  valid (S754_finite false m e) = true -> 1 <= Zdigits2 (Z.pos m) + e ->
  exists s,
    (if dlt (dsub d_one (S754_finite false m e)) d_zero then d_zero
     else dsub d_one (S754_finite false m e)) = S754_zero s.
Proof.
  intros V Hd.
  pose proof (proj2 (dle_one_digits m e V) Hd) as Hle.
  unfold dle in Hle. rewrite SFleb_ulps in Hle by (try assumption; reflexivity).
  apply Z.leb_le in Hle. rewrite ulps_d_one in Hle. cbn [ulps cond_Zopp] in Hle.
  destruct (valid_mantissa _ _ _ V) as (He & _ & _).
  change d_one with (S754_finite false 4503599627370496 (-52)).
  unfold dsub. cbn [SFsub cond_Zopp].
  destruct (shl_align_spec 4503599627370496 (-52) (Z.min (-52) e)) as [_ H1].
  destruct (shl_align_spec m e (Z.min (-52) e)) as [_ H2].
  rewrite H1, H2. clear H1 H2.
  replace (Z.min (-52) (Z.min (-52) e)) with (Z.min (-52) e) by lia.
  replace (Z.min e (Z.min (-52) e)) with (Z.min (-52) e) by lia.
  set (ez := Z.min (-52) e) in *.
  assert (HD : Z.pos 4503599627370496 * 2 ^ (-52 - ez) - Z.pos m * 2 ^ (e - ez) <= 0).
  { assert (HX : 0 < 2 ^ (ez + 1074)) by (apply Z.pow_pos_nonneg; unfold ez; lia).
    apply (Z.mul_le_mono_pos_r _ _ (2 ^ (ez + 1074)) HX).
    rewrite Z.mul_sub_distr_r, <- !Z.mul_assoc, <- !Z.pow_add_r by (unfold ez; lia).
    replace (-52 - ez + (ez + 1074)) with 1022 by lia.
    replace (e - ez + (ez + 1074)) with (e + 1074) by lia.
    change (Z.pos 4503599627370496 * 2 ^ 1022) with (2 ^ 1074). lia. }
  destruct (Z.pos 4503599627370496 * 2 ^ (-52 - ez) - Z.pos m * 2 ^ (e - ez))
    as [|pD|pD]; [| lia |].
  - exists false. reflexivity.
  - cbn [binary_normalize].
    destruct (binary_round_pack true pD ez) as (M & E & EQ & H). rewrite EQ.
    destruct H as [[-> _] | (HM & _)].
    + exists true. reflexivity.
    + destruct M as [|pM|pM]; try lia. unfold pack.
      exists false. destruct (E <=? 971); reflexivity.
Qed.

(** The conversion of a [long] is a number. *)
Lemma double_of_Z_finite z :
  LONG_MIN <= z <= LONG_MAX -> d_finite (double_of_Z z) = true.
Proof.
  intros Hz. unfold double_of_Z.
  assert (Hgen : forall s p, Z.pos p <= 2 ^ 63 ->
            d_finite (binary_round 53 1024 s p 0) = true).
  { intros s p Hp.
    destruct (binary_round_pack s p 0) as (m & e & E & H). rewrite E.
    pose proof (Zdigits2_pos (Z.pos p) eq_refl) as Hd.
    assert (Hd' : Zdigits2 (Z.pos p) <= 64).
    { apply Zdigits2_le; [lia | lia |]. change (2 ^ 64) with (2 * 2 ^ 63). lia. }
    destruct H as [[-> _] | (Hm & _ & _ & He)]; [reflexivity|].
    destruct m as [|pm|pm]; try lia. unfold pack.
    destruct (Z.leb_spec e 971); [reflexivity | lia]. }
  unfold LONG_MIN, LONG_MAX in Hz. change (2 ^ 63) with 9223372036854775808 in Hgen.
  destruct z as [|p|p]; [reflexivity | |]; cbn [binary_normalize]; apply Hgen; lia.
Qed.

(** A number times a zero casts to 0. *)
Lemma carry_of_zero_weight x s :
  d_finite x = true -> double_to_long (dmul x (S754_zero s)) = Some 0.
Proof. destruct x as [sx|sx| |sx mx ex]; try discriminate; intros _; reflexivity. Qed.

(** C8, amended: if [now - window_start >= window_size] the call carries
    [(long)(window_count * w)] into the new window, the product being
    taken in double arithmetic with
    [w = 1.0 - (double)(now - window_start - window_size) / window_size]
    raised to 0 when negative, and resets [window_start] to [now]
    (the call is undefined where that cast is); otherwise count and
    window stay.  In all cases it admits if and only if the (possibly
    carried) count, as a double, is strictly less than the double product
    [rate * window_size], incrementing the count on admission; nothing
    else of the entry changes.  At the two ends of the weighting, for
    window sizes, counts and times below 2^53: the whole count is carried
    when the window has just ended ([w] is 1.0), and nothing is carried
    once a further whole window has passed ([w] is raised to 0). *)
Theorem sliding_window_allow_exact l e now :
  let elapsed := wrap_long (now - window_start e) in
  let over := wrap_long (elapsed - window_size l) in
  let w0 := dsub d_one (ddiv (double_of_Z over) (double_of_Z (window_size l))) in
  let w := if dlt w0 d_zero then d_zero else w0 in
  let carried := double_to_long (dmul (double_of_Z (window_count e)) w) in
  let verdict c := dlt (double_of_Z c) (dmul (rate l) (double_of_Z (window_size l))) in
  let served c start :=
    ({| key := key e; tokens := tokens e;
        window_count := if verdict c then wrap_long (c + 1) else c;
        window_start := start; last_update := last_update e |}, verdict c) in
  sliding_window_allow l e now
  = (if window_size l <=? elapsed
     then match carried with Some c => Some (served c now) | None => None end
     else Some (served (window_count e) (window_start e))) /\
  (0 < window_size l < 2 ^ 53 -> - 2 ^ 53 < window_count e < 2 ^ 53 ->
   elapsed = window_size l -> carried = Some (window_count e)) /\
  (0 < window_size l -> 2 * window_size l <= elapsed < 2 ^ 53 ->
   LONG_MIN <= window_count e <= LONG_MAX -> carried = Some 0).
Proof.
  cbv zeta. split; [|split].
  - unfold sliding_window_allow, weighted_count, window_weight, window_admit.
    destruct (window_size l <=? wrap_long (now - window_start e)).
    + destruct (double_to_long _) as [c|]; [|reflexivity]. cbn [window_count].
      destruct (dlt (double_of_Z c) _); reflexivity.
    + destruct (dlt (double_of_Z (window_count e)) _); [reflexivity|].
      destruct e; reflexivity.
  - (* the window has just ended: the weight is 1.0 *)
    intros Hws Hc ->. rewrite Z.sub_diag.
    change (double_of_Z (wrap_long 0)) with (S754_zero false).
    destruct (double_of_Z_small (window_size l) Hws) as (my & ey & -> & _).
    cbn [ddiv SFdiv xorb].
    change (dsub d_one (S754_zero false)) with d_one.
    change (dlt d_one d_zero) with false. cbv iota.
    destruct (window_count e) as [|p|p] eqn:Ec.
    + reflexivity.
    + destruct (double_of_Z_small (Z.pos p) ltac:(lia)) as (m & ex & -> & _ & He & Hm & Hb).
      rewrite dmul_one by assumption.
      apply (double_to_long_small false m ex (Z.pos p)); [exact He | exact Hm | lia].
    + destruct (double_of_Z_small_neg p ltac:(lia)) as (m & ex & -> & He & Hm & Hb).
      rewrite dmul_one by assumption.
      apply (double_to_long_small true m ex (Z.pos p)); [exact He | exact Hm | lia].
  - (* the previous window lies a whole window back: the weight is 0 *)
    intros Hws Hel Hc.
    set (elapsed := wrap_long (now - window_start e)) in *.
    assert (Hover : wrap_long (elapsed - window_size l) = elapsed - window_size l).
    { apply wrap_long_id. unfold LONG_MIN, LONG_MAX.
      change (2 ^ 53) with 9007199254740992 in Hel. lia. }
    rewrite Hover.
    destruct (double_of_Z_small (window_size l) ltac:(lia))
      as (my & ey & -> & Eey & Hey & Hmy & Hby).
    destruct (double_of_Z_small (elapsed - window_size l) ltac:(lia))
      as (mx & ex & -> & Eex & Hex & Hmx & Hbx).
    assert (Hexy : ey <= ex).
    { rewrite Eey, Eex.
      pose proof (Zdigits2_mono (window_size l) (elapsed - window_size l) ltac:(lia)).
      lia. }
    destruct (ddiv_ge_one mx ex my ey Hbx Hby) as (m & q & -> & V & Hd);
      [lia | exact Hexy | lia | |].
    { rewrite Hmx, Hmy, <- Z.mul_assoc, <- Z.pow_add_r by lia.
      replace (- ex + (ex - ey)) with (- ey) by lia.
      apply Z.mul_le_mono_nonneg_r; [apply Z.pow_nonneg; lia | lia]. }
    destruct (weight_clamped m q V Hd) as [s ->].
    apply carry_of_zero_weight, double_of_Z_finite, Hc.
Qed.

Lemma sliding_window_allow_exact_witness :
  weighted_count sliding_10_5 five_requests 1700000005 = Some 5 /\
  weighted_count sliding_10_5 five_requests 1700000010 = Some 0.
Proof.
  split.
  - destruct (sliding_window_allow_exact sliding_10_5 five_requests 1700000005)
      as (_ & H & _).
    apply H; [simpl; lia | simpl; lia | vm_compute; reflexivity].
  - destruct (sliding_window_allow_exact sliding_10_5 five_requests 1700000010)
      as (_ & _ & H).
    apply H.
    + simpl. lia.
    + replace (wrap_long (1700000010 - window_start five_requests)) with 10
        by (vm_compute; reflexivity).
      simpl. lia.
    + unfold LONG_MIN, LONG_MAX. simpl. lia.
Defined.

(** *** The token bucket *)


(** A [burst] that [rate_limiter_create] can cast to [int] is a number
    below 2^53. *)
Lemma castable_below_2p53 b w :
  valid b = true -> double_to_int b = Some w ->
  d_finite b = true /\ ulps b < 2 ^ 1127.
Proof.
  intros V Hc. destruct b as [s|s| |s m e]; try discriminate.
  - split; reflexivity.
  - split; [reflexivity|].
    destruct (valid_mantissa _ _ _ V) as (He & Hhi & Hlo).
    assert (Hp : 0 < 2 ^ (e + 1074)) by (apply Z.pow_pos_nonneg; lia).
    cbn [ulps]. destruct s; cbn [cond_Zopp].
    { assert (0 < 2 ^ 1127) by reflexivity. lia. }
    destruct (Z_le_gt_dec e 0) as [L|G].
    + assert (2 ^ (e + 1074) <= 2 ^ 1074) by (apply Z.pow_le_mono_r; lia).
      change (2 ^ 1127) with (2 ^ 53 * 2 ^ 1074).
      assert (0 < 2 ^ 1074) by reflexivity.
      set (P := 2 ^ 1074) in *. clearbody P.
      set (Q := 2 ^ (e + 1074)) in *. clearbody Q. nia.
    + exfalso. specialize (Hlo ltac:(lia)).
      unfold double_to_int, truncate in Hc.
      destruct (Z.leb_spec 0 e); [|lia].
      assert (2 ^ 1 <= 2 ^ e) by (apply Z.pow_le_mono_r; lia).
      assert (2 ^ 53 <= Z.pos m * 2 ^ e).
      { change (2 ^ 53) with (2 ^ 52 * 2 ^ 1).
        apply Z.mul_le_mono_nonneg; [lia | exact Hlo | lia | assumption]. }
      destruct (Z.leb_spec (Z.pos m * 2 ^ e) INT_MAX) as [Hle|_].
      * unfold INT_MAX in Hle. change (2 ^ 53) with 9007199254740992 in *. lia.
      * rewrite andb_false_r in Hc. discriminate.
Qed.

(** A positive double between 1 and 2^53 has an exponent between -52
    and 0. *)
Lemma exponent_of_balance m e :
  valid (S754_finite false m e) = true ->
  2 ^ 1074 <= Z.pos m * 2 ^ (e + 1074) < 2 ^ 1127 ->
  -52 <= e <= 0.
Proof.
  intros V [Hlo Hhi].
  destruct (valid_mantissa _ _ _ V) as (He & Hm & Hn).
  split.
  - destruct (Z_le_gt_dec (-52) e) as [L|G]; [exact L|exfalso].
    assert (Hp : 2 ^ (e + 1074) <= 2 ^ 1021) by (apply Z.pow_le_mono_r; lia).
    assert (0 < 2 ^ (e + 1074)) by (apply Z.pow_pos_nonneg; lia).
    change (2 ^ 1074) with (2 ^ 53 * 2 ^ 1021) in Hlo.
    assert (0 < 2 ^ 1021) by reflexivity.
    set (P := 2 ^ 1021) in *. clearbody P.
    set (Q := 2 ^ (e + 1074)) in *. clearbody Q. nia.
  - destruct (Z_le_gt_dec e 0) as [L|G]; [exact L|exfalso].
    specialize (Hn ltac:(lia)).
    assert (Hp : 2 ^ 1075 <= 2 ^ (e + 1074)) by (apply Z.pow_le_mono_r; lia).
    change (2 ^ 1127) with (2 ^ 52 * 2 ^ 1075) in Hhi.
    assert (0 < 2 ^ 1075) by reflexivity.
    set (P := 2 ^ 1075) in *. clearbody P.
    set (Q := 2 ^ (e + 1074)) in *. clearbody Q. nia.
Qed.

Lemma refill_valid l e now :
  valid (burst l) = true -> valid (rate l) = true -> valid (tokens e) = true ->
  valid (refill l e now) = true.
Proof.
  intros Vb Vr Vt. unfold refill.
  destruct (dlt (burst l) _); [exact Vb|].
  apply SFadd_valid; [exact Vt|].
  apply SFmul_valid; [apply binary_normalize_valid | exact Vr].
Qed.

(** The clamp: the balance after the refill is not above [burst]. *)
Lemma refill_clamped l e now : dlt (burst l) (refill l e now) = false.
Proof.
  unfold refill.
  destruct (dlt (burst l) (dadd (tokens e) (dmul (difftime now (last_update e)) (rate l))))
    eqn:E; [apply dlt_irrefl | exact E].
Qed.

(** One call keeps the balance a double, and does what C6 says. *)
Lemma token_bucket_allow_step l e now :
  valid (burst l) = true -> valid (rate l) = true -> valid (tokens e) = true ->
  double_to_int (burst l) = Some (window_size l) ->
  valid (tokens (token_bucket_allow l e now).1) = true /\
  bucket_call_ok l (refill l e now, (token_bucket_allow l e now).1,
                    (token_bucket_allow l e now).2).
Proof.
  intros Vb Vr Vt Hc.
  destruct (castable_below_2p53 _ _ Vb Hc) as [Fb Hb].
  pose proof (refill_valid l e now Vb Vr Vt) as Vref.
  pose proof (refill_clamped l e now) as Href.
  unfold token_bucket_allow, bucket_call_ok.
  set (r := refill l e now) in *.
  destruct (dle d_one r) eqn:Hadm; cbn [fst snd tokens].
  - destruct (dle_one_positive _ Hadm) as [Hr | (m & ex & Hr)].
    { exfalso. rewrite Hr in Href. clear -Fb Href.
      destruct (burst l) as [s|s| |s mb eb]; try discriminate;
        destruct s; discriminate. }
    assert (Fr : d_finite r = true) by (rewrite Hr; reflexivity).
    unfold dle in Hadm. rewrite SFleb_ulps in Hadm by (try assumption; reflexivity).
    apply Z.leb_le in Hadm.
    unfold dlt in Href. rewrite SFltb_ulps in Href by assumption.
    apply Z.ltb_ge in Href.
    rewrite ulps_d_one in Hadm.
    assert (Hex : -52 <= ex <= 0).
    { apply (exponent_of_balance m ex); [rewrite <- Hr; exact Vref|].
      rewrite Hr in Hadm, Href. cbn [ulps cond_Zopp] in Hadm, Href. lia. }
    assert (Vr' : valid (S754_finite false m ex) = true) by (rewrite <- Hr; exact Vref).
    destruct (SFsub_one_exact m ex Vr' Hex) as [Fd Hd].
    rewrite <- Hr in Fd, Hd. fold (dsub r d_one) in Fd, Hd.
    assert (Vd : valid (dsub r d_one) = true)
      by (apply SFsub_valid; [exact Vref | reflexivity]).
    split; [exact Vd|]. split.
    + unfold dlt. rewrite SFltb_ulps by assumption. apply Z.ltb_ge.
      rewrite Hd, ulps_d_one. assert (0 < 2 ^ 1074) by reflexivity. lia.
    + intros _. split; [exact Fr|]. split; [exact Fd | exact Hd].
  - split; [exact Vref|]. split; [exact Href | discriminate].
Qed.

(** C6.  On a limiter whose [burst] is one that [rate_limiter_create]
    can cast to [int] (it stores [(int)burst] as [window_size]), and for
    any [rate], any clock readings and any entry: after each call of a
    sequence of [token_bucket_allow] calls the entry's [tokens] is not
    greater than [burst], and each call that admits leaves exactly the
    balance after its refill minus 1.0, both being numbers. *)
Theorem token_bucket_invariant l e nows :
  valid (burst l) = true -> valid (rate l) = true -> valid (tokens e) = true ->
  double_to_int (burst l) = Some (window_size l) ->
  Forall (bucket_call_ok l) (bucket_calls l e nows).
Proof.
  intros Vb Vr Vt Hc. revert e Vt.
  induction nows as [|now rest IH]; intros e Vt; cbn [bucket_calls].
  - constructor.
  - destruct (token_bucket_allow_step l e now Vb Vr Vt Hc) as [Vt' Hok].
    destruct (token_bucket_allow l e now) as [e' ok] eqn:E. cbn [fst snd] in Vt', Hok.
    constructor; [exact Hok | apply IH; exact Vt'].
Qed.

Lemma token_bucket_invariant_witness :
  Forall (bucket_call_ok bucket_1_2)
    (bucket_calls bucket_1_2 fresh_entry
       [1700000000; 1700000000; 1700000000; 1700000001]).
Proof.
  apply (token_bucket_invariant bucket_1_2 fresh_entry
           [1700000000; 1700000000; 1700000000; 1700000001]); reflexivity.
Defined.

(** The run of the witness: two admissions empty the bucket, the third
    call in the same second is denied, and a second later one token is
    back. *)
Lemma bucket_calls_verdicts :
  map snd (bucket_calls bucket_1_2 fresh_entry
             [1700000000; 1700000000; 1700000000; 1700000001])
  = [true; true; false; true] /\
  map (fun c => tokens (snd (fst c)))
      (bucket_calls bucket_1_2 fresh_entry
         [1700000000; 1700000000; 1700000000; 1700000001])
  = [double_of_Z 1; double_of_Z 0; double_of_Z 0; double_of_Z 0].
Proof. split; reflexivity. Qed.

(** Past 2^53 the subtraction rounds: with a [burst] of 2^54, which no
    [int] holds, an admitting call leaves the balance where the refill
    put it. *)
Lemma token_bucket_beyond_2p53 :
  double_to_int (burst bucket_2p54) = None /\
  (token_bucket_allow bucket_2p54 entry_2p54 1700000000).2 = true /\
  tokens (token_bucket_allow bucket_2p54 entry_2p54 1700000000).1
  = refill bucket_2p54 entry_2p54 1700000000.
Proof. repeat split; reflexivity. Qed.

(** *** Keys, lookups and creation *)

Lemma substring_short n : forall s, (String.length s <= n)%nat -> substring 0 n s = s.
Proof.
  induction n as [|n IH]; intros [|c s] H; simpl in *; try reflexivity; try lia.
  f_equal. apply IH. lia.
Qed.

Lemma substring_length_le n : forall s, (String.length (substring 0 n s) <= n)%nat.
Proof.
  induction n as [|n IH]; intros [|c s]; simpl; try lia.
  specialize (IH s). lia.
Qed.

Lemma hash_key_range k : 0 <= hash_key k < HASH_SIZE.
Proof. unfold hash_key, HASH_SIZE. apply Z.mod_pos_bound. lia. Qed.

(** A chain whose keys all differ from [k] is walked to its end. *)
Lemma find_entry_none es k :
  Forall (fun e => key e <> k) es -> find_entry es k = None.
Proof.
  induction 1 as [|e rest He _ IH]; simpl; [reflexivity|].
  destruct (String.eqb_spec (key e) k); [contradiction|]. rewrite IH. reflexivity.
Qed.

Lemma chain_insert l idx es j :
  chain (set_buckets l (<[idx := es]> (buckets l))) j
  = if decide (idx = j) then es else chain l j.
Proof.
  unfold chain. cbn [buckets set_buckets].
  destruct (decide (idx = j)) as [->|Hne].
  - rewrite lookup_insert_eq. reflexivity.
  - rewrite lookup_insert_ne by exact Hne. reflexivity.
Qed.

Lemma lookup_entry_cons_other l l' k' e :
  chain l' (hash_key k') = e :: chain l (hash_key k') -> key e <> k' ->
  lookup_entry l' k' = lookup_entry l k'.
Proof.
  intros Hc Hk. unfold lookup_entry. rewrite Hc. simpl.
  destruct (String.eqb_spec (key e) k'); [contradiction|].
  destruct (find_entry (chain l (hash_key k')) k'); reflexivity.
Qed.

(** X5.  Insert and lookup: once [find_or_create_entry] has created the
    entry of a key of at most 63 characters, a lookup of that key ends on
    it, a second [find_or_create_entry] finds it and leaves the table as
    it is, with or without memory, and the lookups of all other keys are
    what they were. *)
Theorem created_entry_is_found l k clk :
  (String.length k <= 63)%nat -> no_entry l k ->
  lookup_entry (find_or_create_entry l k clk true).1 k
  = Some {| key := k; tokens := burst l; window_count := 0;
            window_start := t_window clk; last_update := t_created clk |} /\
  (forall clk' a,
     find_or_create_entry (find_or_create_entry l k clk true).1 k clk' a
     = ((find_or_create_entry l k clk true).1, Some (hash_key k, 0%nat))) /\
  (forall k', k' <> k ->
     lookup_entry (find_or_create_entry l k clk true).1 k' = lookup_entry l k').
Proof.
  intros Hlen Hno. unfold no_entry in Hno.
  unfold find_or_create_entry. rewrite Hno. cbn [fst].
  rewrite (substring_short 63 k Hlen).
  set (entry := {| key := k; tokens := burst l; window_count := 0;
                   window_start := t_window clk; last_update := t_created clk |}).
  set (l' := set_buckets l _).
  assert (Hc : chain l' (hash_key k) = entry :: chain l (hash_key k)).
  { unfold l'. rewrite chain_insert. destruct (decide _); [reflexivity | contradiction]. }
  split; [|split].
  - unfold lookup_entry. rewrite Hc. simpl. rewrite String.eqb_refl. reflexivity.
  - intros clk' a. rewrite Hc. simpl. rewrite String.eqb_refl. reflexivity.
  - intros k' Hk. destruct (decide (hash_key k = hash_key k')) as [E|E].
    + apply (lookup_entry_cons_other l l' k' entry); [rewrite <- E; exact Hc|].
      simpl. congruence.
    + unfold lookup_entry, l'. rewrite chain_insert.
      destruct (decide _); [contradiction | reflexivity].
Qed.

Lemma created_entry_is_found_witness :
  lookup_entry (find_or_create_entry bucket_10_10 "203.0.113.7"
                  (steady 1700000000) true).1 "203.0.113.7"
  = Some {| key := "203.0.113.7"; tokens := burst bucket_10_10; window_count := 0;
            window_start := 1700000000; last_update := 1700000000 |}.
Proof.
  apply (created_entry_is_found bucket_10_10 "203.0.113.7" (steady 1700000000)).
  - simpl. lia.
  - reflexivity.
Defined.

(** No stored key is longer than 63 characters, so none equals a longer
    key. *)
Lemma long_key_no_entry l k :
  keys_short l -> (63 < String.length k)%nat -> no_entry l k.
Proof.
  intros Hs Hk. apply find_entry_none. apply Forall_forall. intros e He Heq.
  specialize (Hs _ _ He). rewrite Heq in Hs. lia.
Qed.

Lemma token_bucket_allow_ext l l' e now :
  burst l' = burst l -> rate l' = rate l ->
  token_bucket_allow l' e now = token_bucket_allow l e now.
Proof.
  intros Hb Hr. unfold token_bucket_allow, refill. rewrite Hb, Hr. reflexivity.
Qed.

Lemma roll_global_window_keeps l now :
  algorithm (roll_global_window l now) = algorithm l /\
  rate (roll_global_window l now) = rate l /\
  burst (roll_global_window l now) = burst l /\
  window_size (roll_global_window l now) = window_size l /\
  buckets (roll_global_window l now) = buckets l /\
  global_limit (roll_global_window l now) = global_limit l /\
  allowed (roll_global_window l now) = allowed l /\
  denied (roll_global_window l now) = denied l.
Proof.
  unfold roll_global_window.
  destruct (0 <? global_limit l); [|repeat split].
  destruct (negb _); repeat split.
Qed.

(** The first call for a key under the token bucket, with memory: the
    entry is created full, served, and put at the head of its chain. *)
Lemma allow_new_key_token_bucket l k clk :
  algorithm l = RATE_TOKEN_BUCKET -> no_entry l k -> passes_global_cap l clk ->
  exists l',
    rate_limiter_allow l k clk true
    = Some (l', if (token_bucket_allow l
                      {| key := substring 0 63 k; tokens := burst l; window_count := 0;
                         window_start := t_window clk; last_update := t_created clk |}
                      (t_allow clk)).2 then 1 else 0) /\
    buckets l'
    = <[hash_key k :=
          (token_bucket_allow l
             {| key := substring 0 63 k; tokens := burst l; window_count := 0;
                window_start := t_window clk; last_update := t_created clk |}
             (t_allow clk)).1 :: chain l (hash_key k)]> (buckets l) /\
    algorithm l' = algorithm l /\ rate l' = rate l /\ burst l' = burst l /\
    global_limit l' = global_limit l.
Proof.
  intros Halg Hno Hcap. unfold rate_limiter_allow.
  unfold passes_global_cap in Hcap. rewrite Hcap.
  destruct (roll_global_window_keeps l (t_global clk))
    as (Ea & Er & Eb & Ew & Ek & Eg & _ & _).
  set (l1 := roll_global_window l (t_global clk)) in *.
  unfold find_or_create_entry.
  assert (Ec : chain l1 (hash_key k) = chain l (hash_key k))
    by (unfold chain; rewrite Ek; reflexivity).
  rewrite Ec. unfold no_entry in Hno. rewrite Hno. rewrite Eb.
  set (entry := {| key := substring 0 63 k; tokens := burst l; window_count := 0;
                   window_start := t_window clk; last_update := t_created clk |}).
  set (l2 := set_buckets l1 _).
  assert (Ec2 : chain l2 (hash_key k) = entry :: chain l (hash_key k)).
  { unfold l2. rewrite chain_insert. destruct (decide _); [reflexivity | contradiction]. }
  rewrite Ec2. cbn [lookup list_lookup].
  replace (algorithm l2) with RATE_TOKEN_BUCKET by (simpl; congruence).
  rewrite (token_bucket_allow_ext l l2) by (simpl; assumption).
  destruct (token_bucket_allow l entry (t_allow clk)) as [e' ok]. cbn [fst snd].
  eexists. split; [reflexivity|].
  assert (Hb : <[hash_key k := <[0%nat := e']> (entry :: chain l (hash_key k))]> (buckets l2)
               = <[hash_key k := e' :: chain l (hash_key k)]> (buckets l)).
  { unfold l2. cbn [buckets set_buckets list_insert insert]. rewrite Ek.
    apply insert_insert_eq. }
  destruct ok; cbn [buckets set_counters set_buckets algorithm rate burst global_limit];
    rewrite Hb; repeat split; assumption.
Qed.

(** X6.  A key of more than 63 characters is stored cut to 63 and never
    matched again: under the token bucket with [burst >= 1.0], a [rate]
    that is not negative and no global limit, every call for such a key
    is admitted, and each one adds an entry to the key's chain.  What the
    call leaves satisfies the hypotheses again. *)
Theorem long_key_always_admitted l k clk :
  keys_short l -> (63 < String.length k)%nat ->
  algorithm l = RATE_TOKEN_BUCKET -> global_limit l = 0 ->
  valid (burst l) = true -> valid (rate l) = true ->
  dle d_one (burst l) = true ->
  d_finite (rate l) = true -> dle d_zero (rate l) = true ->
  0 <= t_allow clk - t_created clk <= LONG_MAX ->
  exists l',
    rate_limiter_allow l k clk true = Some (l', 1) /\
    length (chain l' (hash_key k)) = S (length (chain l (hash_key k))) /\
    keys_short l' /\
    algorithm l' = algorithm l /\ global_limit l' = 0 /\
    burst l' = burst l /\ rate l' = rate l.
Proof.
  intros Hs Hk Halg Hg Vb Vr Hb Fr Hr Hclk.
  pose proof (long_key_no_entry l k Hs Hk) as Hno.
  assert (Hcap : passes_global_cap l clk).
  { unfold passes_global_cap, over_global_cap.
    destruct (roll_global_window_keeps l (t_global clk)) as (_ & _ & _ & _ & _ & -> & _).
    rewrite Hg. reflexivity. }
  destruct (allow_new_key_token_bucket l k clk Halg Hno Hcap)
    as (l' & Hcall & Hbk & Ea & Er & Eb & Eg).
  set (entry := {| key := substring 0 63 k; tokens := burst l; window_count := 0;
                   window_start := t_window clk; last_update := t_created clk |}) in *.
  assert (Hadm : dle d_one (refill l entry (t_allow clk)) = true)
    by (apply refill_full_bucket; try assumption; reflexivity).
  assert (Hres : token_bucket_allow l entry (t_allow clk)
                 = ({| key := substring 0 63 k;
                       tokens := dsub (refill l entry (t_allow clk)) d_one;
                       window_count := 0; window_start := t_window clk;
                       last_update := t_allow clk |}, true)).
  { unfold token_bucket_allow. rewrite Hadm. reflexivity. }
  rewrite Hres in Hcall, Hbk. cbn [fst snd] in Hcall, Hbk.
  assert (Hchain : forall j, chain l' j
                   = if decide (hash_key k = j)
                     then {| key := substring 0 63 k;
                             tokens := dsub (refill l entry (t_allow clk)) d_one;
                             window_count := 0; window_start := t_window clk;
                             last_update := t_allow clk |} :: chain l (hash_key k)
                     else chain l j).
  { intros j. unfold chain at 1. rewrite Hbk.
    destruct (decide (hash_key k = j)) as [->|Hne].
    - rewrite lookup_insert_eq. reflexivity.
    - rewrite lookup_insert_ne by exact Hne. reflexivity. }
  exists l'. split; [exact Hcall|]. split; [|split].
  - rewrite Hchain. destruct (decide _); [reflexivity | contradiction].
  - intros j e He. rewrite Hchain in He. destruct (decide (hash_key k = j)) as [->|Hne].
    + apply elem_of_cons in He as [-> | He]; [|exact (Hs _ _ He)].
      cbn [key]. apply substring_length_le.
    + exact (Hs _ _ He).
  - repeat split; congruence.
Qed.

Lemma long_key_always_admitted_witness :
  exists l',
    rate_limiter_allow bucket_10_10
      "2001:0db8:85a3:0000:0000:8a2e:0370:7334%eth0/forwarded-for=198.51.100.23"
      (steady 1700000000) true = Some (l', 1).
Proof.
  destruct (long_key_always_admitted bucket_10_10
              "2001:0db8:85a3:0000:0000:8a2e:0370:7334%eth0/forwarded-for=198.51.100.23"
              (steady 1700000000)) as (l' & H & _);
    try reflexivity.
  - intros idx e He. unfold chain in He. simpl in He. rewrite lookup_empty in He.
    simpl in He. apply elem_of_nil in He. contradiction.
  - simpl. lia.
  - unfold LONG_MAX. simpl. lia.
  - exists l'. exact H.
Defined.

(** X7.  Allocation failure fails open: when [calloc] cannot provide the
    entry of a new key, the call returns 1 under every algorithm, and
    neither a counter nor the table changes (beyond the roll of the
    global window). *)
Theorem alloc_failure_allows l k clk :
  no_entry l k -> passes_global_cap l clk ->
  exists l',
    rate_limiter_allow l k clk false = Some (l', 1) /\
    buckets l' = buckets l /\ allowed l' = allowed l /\ denied l' = denied l /\
    (global_count l' = global_count l \/ global_count l' = 0).
Proof.
  intros Hno Hcap. unfold rate_limiter_allow.
  unfold passes_global_cap in Hcap. rewrite Hcap.
  destruct (roll_global_window_keeps l (t_global clk))
    as (_ & _ & _ & _ & Ek & _ & Eal & Ede).
  unfold find_or_create_entry.
  assert (Ec : chain (roll_global_window l (t_global clk)) (hash_key k)
               = chain l (hash_key k)) by (unfold chain; rewrite Ek; reflexivity).
  rewrite Ec. unfold no_entry in Hno. rewrite Hno.
  eexists. split; [reflexivity|]. repeat split; try assumption.
  unfold roll_global_window. destruct (0 <? global_limit l); [|left; reflexivity].
  destruct (negb _); [right | left]; reflexivity.
Qed.

Lemma alloc_failure_allows_witness :
  exists l',
    rate_limiter_allow sliding_10_5 "203.0.113.7" (steady 1700000000) false
    = Some (l', 1).
Proof.
  destruct (alloc_failure_allows sliding_10_5 "203.0.113.7" (steady 1700000000))
    as (l' & H & _); [reflexivity | reflexivity |].
  exists l'. exact H.
Defined.

(** *** The global limit *)

(** What one call with memory does to the global window. *)
Lemma allow_global_step l k clk l' r :
  rate_limiter_allow l k clk true = Some (l', r) ->
  global_limit l' = global_limit l /\
  global_window_start l'
  = global_window_start (roll_global_window l (t_global clk)) /\
  ((over_global_cap (roll_global_window l (t_global clk)) = true /\ r = 0 /\
    global_count l' = global_count (roll_global_window l (t_global clk))) \/
   (over_global_cap (roll_global_window l (t_global clk)) = false /\
    ((r = 1 /\
      global_count l'
      = wrap_long (global_count (roll_global_window l (t_global clk)) + 1)) \/
     (r = 0 /\ global_count l' = global_count (roll_global_window l (t_global clk)))))).
Proof.
  unfold rate_limiter_allow.
  destruct (roll_global_window_keeps l (t_global clk)) as (_ & _ & _ & _ & _ & Eg & _ & _).
  set (l1 := roll_global_window l (t_global clk)) in *.
  destruct (over_global_cap l1) eqn:Hcap.
  - intros [= <- <-]. cbn. auto 10.
  - unfold find_or_create_entry.
    destruct (find_entry (chain l1 (hash_key k)) k) as [pos|].
    + destruct (chain l1 (hash_key k) !! pos) as [e|]; [|discriminate].
      destruct (match algorithm l1 with
                | RATE_TOKEN_BUCKET => _ | RATE_SLIDING_WINDOW => _
                | RATE_FIXED_WINDOW => _ end) as [[e' ok]|]; [|discriminate].
      intros [= <- <-]. destruct ok; cbn; auto 10.
    + match goal with
      | |- context [chain ?l2 (hash_key k) !! 0%nat] =>
          destruct (chain l2 (hash_key k) !! 0%nat) as [e|]; [|discriminate];
          destruct (match algorithm l2 with
                    | RATE_TOKEN_BUCKET => _ | RATE_SLIDING_WINDOW => _
                    | RATE_FIXED_WINDOW => _ end) as [[e' ok]|]; [|discriminate]
      end.
      intros [= <- <-]. destruct ok; cbn; auto 10.
Qed.

Lemma allow_calls_capped L now ks : forall l l' rs,
  global_limit l = L -> 0 < L <= LONG_MAX ->
  global_window_start l <> now \/ 0 <= global_count l ->
  allow_calls l now ks = Some (l', rs) ->
  admissions rs
  <= Z.max 0 (L - (if global_window_start l =? now then global_count l else 0)).
Proof.
  induction ks as [|k rest IH]; intros l l' rs HL Hpos Hst Hrun; cbn [allow_calls] in Hrun.
  - injection Hrun as <- <-. cbn. lia.
  - destruct (rate_limiter_allow l k (steady now) true) as [[l1 r]|] eqn:Hcall;
      [|discriminate].
    destruct (allow_calls l1 now rest) as [[l2 rs']|] eqn:Hrest; [|discriminate].
    injection Hrun as <- <-.
    destruct (allow_global_step l k (steady now) l1 r Hcall) as (Hg & Hw & Hc).
    cbn [t_global steady] in Hg, Hw, Hc.
    set (c := if global_window_start l =? now then global_count l else 0).
    assert (Hroll : global_window_start (roll_global_window l now) = now /\
                    global_count (roll_global_window l now) = c /\ 0 <= c).
    { unfold roll_global_window, c.
      destruct (Z.ltb_spec 0 (global_limit l)); [|lia].
      destruct (Z.eqb_spec now (global_window_start l)) as [E|E]; cbn.
      - destruct (Z.eqb_spec (global_window_start l) now); lia.
      - destruct (Z.eqb_spec (global_window_start l) now); [congruence|]. lia. }
    destruct Hroll as (Hw1 & Hc1 & Hc0). rewrite Hw1 in Hw. rewrite Hc1 in Hc.
    assert (Hover : over_global_cap (roll_global_window l now) = (L <=? c)).
    { unfold over_global_cap.
      destruct (roll_global_window_keeps l now) as (_ & _ & _ & _ & _ & -> & _).
      rewrite Hc1, HL. destruct (Z.ltb_spec 0 L); [reflexivity | lia]. }
    rewrite Hover in Hc.
    specialize (IH l1 l2 rs' (eq_trans Hg HL) Hpos).
    rewrite Hw, Z.eqb_refl in IH. cbn [admissions foldr]. fold (admissions rs').
    destruct Hc as [(Hcap & -> & Hc') | (Hcap & [(-> & Hc') | (-> & Hc')])].
    + apply Z.leb_le in Hcap. rewrite Hc' in IH. specialize (IH ltac:(lia) Hrest). lia.
    + apply Z.leb_gt in Hcap.
      assert (Hw' : wrap_long (c + 1) = c + 1)
        by (apply wrap_long_id; unfold LONG_MIN, LONG_MAX in *; lia).
      rewrite Hc', Hw' in IH. specialize (IH ltac:(lia) Hrest). lia.
    + apply Z.leb_gt in Hcap. rewrite Hc' in IH. specialize (IH ltac:(lia) Hrest). lia.
Qed.

(** X8.  The global limit holds per clock second: of any number of calls
    within one second, for whatever keys and under whatever algorithm,
    at most [global_limit] are admitted (memory being available). *)
Theorem global_limit_caps_second l now ks l' rs :
  0 < global_limit l <= LONG_MAX ->
  global_window_start l <> now \/ 0 <= global_count l ->
  allow_calls l now ks = Some (l', rs) ->
  admissions rs <= global_limit l.
Proof.
  intros Hpos Hst Hrun.
  pose proof (allow_calls_capped (global_limit l) now ks l l' rs eq_refl Hpos Hst Hrun) as H.
  destruct (global_window_start l =? now) eqn:E; [|lia].
  apply Z.eqb_eq in E. destruct Hst as [Hst|Hst]; [contradiction | lia].
Qed.

Lemma global_limit_caps_second_witness :
  admissions [1; 1; 0] <= global_limit capped_at_2.
Proof.
  eapply (global_limit_caps_second capped_at_2 1700000000
            ["203.0.113.7"; "203.0.113.8"; "203.0.113.9"]).
  - unfold LONG_MAX. simpl. lia.
  - left. simpl. lia.
  - vm_compute. reflexivity.
Defined.

(** *** The fixed window *)

Lemma fixed_window_allow_step l e now M :
  0 <= window_count e <= M -> M < LONG_MAX ->
  dlt (double_of_Z M) (dmul (rate l) (double_of_Z (window_size l))) = false ->
  0 <= window_count (fixed_window_allow l e now).1 <= M /\
  (in_window l e now ->
   window_start (fixed_window_allow l e now).1 = window_start e /\
   window_count (fixed_window_allow l e now).1
   = window_count e + (if (fixed_window_allow l e now).2 then 1 else 0)).
Proof.
  intros Hc HM Hq.
  assert (Hadm : forall e0, 0 <= window_count e0 <= M ->
            0 <= window_count (window_admit l e0).1 <= M /\
            window_start (window_admit l e0).1 = window_start e0 /\
            window_count (window_admit l e0).1
            = window_count e0 + (if (window_admit l e0).2 then 1 else 0)).
  { intros e0 H0. unfold window_admit.
    destruct (dlt (double_of_Z (window_count e0)) _) eqn:E; cbn [fst snd window_count window_start].
    - assert (window_count e0 <> M) by (intros Heq; rewrite Heq in E; congruence).
      rewrite wrap_long_id by (unfold LONG_MIN, LONG_MAX in *; lia). lia.
    - lia. }
  unfold fixed_window_allow, in_window.
  destruct (Z.leb_spec (window_size l) (wrap_long (now - window_start e))) as [Hexp|Hin].
  - destruct (Hadm {| key := key e; tokens := tokens e; window_count := 0;
                      window_start := now; last_update := last_update e |})
      as (H1 & _); [cbn; lia|].
    split; [exact H1 | lia].
  - destruct (Hadm e Hc) as (H1 & H2 & H3). split; [exact H1 | intros _; split; assumption].
Qed.

(** X9.  The fixed window keeps its quota: if [M] is an integer not
    below [rate * window_size] (compared as doubles), the count of an
    entry never exceeds [M], whatever the clock does, and over calls that
    all fall into the entry's open window the count grows by exactly the
    number of admissions, so at most [M] requests are admitted per
    window. *)
Theorem fixed_window_quota l M : forall nows e,
  0 <= window_count e <= M -> M < LONG_MAX ->
  dlt (double_of_Z M) (dmul (rate l) (double_of_Z (window_size l))) = false ->
  0 <= window_count (fixed_window_run l e nows).1 <= M /\
  (Forall (in_window l e) nows ->
   window_count (fixed_window_run l e nows).1
   = window_count e
     + Z.of_nat (length (List.filter id (fixed_window_run l e nows).2))).
Proof.
  induction nows as [|now rest IH]; intros e Hc HM Hq; cbn [fixed_window_run].
  - cbn. split; [exact Hc | intros _; lia].
  - destruct (fixed_window_allow_step l e now M Hc HM Hq) as (H1 & H2).
    destruct (fixed_window_allow l e now) as [e1 ok] eqn:E1. cbn [fst snd] in H1, H2.
    destruct (IH e1 H1 HM Hq) as (H3 & H4).
    destruct (fixed_window_run l e1 rest) as [e2 oks] eqn:E2. cbn [fst snd] in *.
    split; [exact H3|]. intros Hall.
    apply Forall_cons in Hall as [Hnow Hrest].
    destruct (H2 Hnow) as (Hws & Hcnt).
    rewrite H4.
    + rewrite Hcnt. destruct ok; cbn [List.filter id length]; lia.
    + eapply Forall_impl; [exact Hrest|]. intros t Ht. unfold in_window in *.
      rewrite Hws. exact Ht.
Qed.

Lemma fixed_window_quota_witness :
  0 <= window_count
         (fixed_window_run fixed_10_5 five_requests
            [1700000001; 1700000002; 1700000004]).1 <= 50.
Proof.
  apply (fixed_window_quota fixed_10_5 50 [1700000001; 1700000002; 1700000004]
           five_requests).
  - simpl. lia.
  - unfold LONG_MAX. lia.
  - reflexivity.
Defined.

(** *** Cleanup *)

Lemma cleanup_chain_keeps now es : forall c,
  (cleanup_chain now es c).1 = List.filter (fresh now) es.
Proof.
  induction es as [|e rest IH]; intros c; cbn [cleanup_chain List.filter]; [reflexivity|].
  unfold fresh at 1. destruct (expired now e); cbn [negb].
  - apply IH.
  - specialize (IH c). destruct (cleanup_chain now rest c). cbn [fst] in *. congruence.
Qed.

Lemma filter_length_le {A} (f : A -> bool) (xs : list A) :
  (length (List.filter f xs) <= length xs)%nat.
Proof.
  induction xs as [|x rest IH]; cbn; [lia|]. destruct (f x); cbn; lia.
Qed.

Lemma cleanup_chain_count now es : forall c,
  0 <= c -> c + Z.of_nat (length es) <= INT_MAX ->
  (cleanup_chain now es c).2
  = c + (Z.of_nat (length es) - Z.of_nat (length (List.filter (fresh now) es))).
Proof.
  induction es as [|e rest IH]; intros c Hc Hmax;
    cbn [cleanup_chain List.filter length] in *; [cbn; lia|].
  unfold fresh at 1. destruct (expired now e); cbn [negb].
  - rewrite IH.
    + rewrite wrap_int_id by (unfold in_int, INT_MIN, INT_MAX in *; lia). lia.
    + rewrite wrap_int_id by (unfold in_int, INT_MIN, INT_MAX in *; lia). lia.
    + rewrite wrap_int_id by (unfold in_int, INT_MIN, INT_MAX in *; lia). lia.
  - specialize (IH c Hc ltac:(lia)).
    destruct (cleanup_chain now rest c). cbn [fst snd length] in *. lia.
Qed.

Lemma chain_store l idx es j :
  chain (set_buckets l (store_chain idx es (buckets l))) j
  = if decide (idx = j) then es else chain l j.
Proof.
  unfold chain, store_chain. cbn [buckets set_buckets].
  destruct es as [|e es']; destruct (decide (idx = j)) as [->|Hne];
    rewrite ?lookup_delete_eq, ?lookup_insert_eq,
            ?lookup_delete_ne, ?lookup_insert_ne by exact Hne; reflexivity.
Qed.

Lemma entries_upto_S l n :
  entries_upto l (S n) = entries_upto l n ++ chain l (Z.of_nat n).
Proof.
  unfold entries_upto. rewrite seq_S, flat_map_app. cbn. rewrite app_nil_r. reflexivity.
Qed.

Lemma entries_upto_ext l l' n :
  (forall i, (i < n)%nat -> chain l' (Z.of_nat i) = chain l (Z.of_nat i)) ->
  entries_upto l' n = entries_upto l n.
Proof.
  induction n as [|n IH]; intros H; [reflexivity|].
  rewrite !entries_upto_S, IH, H by (intros; try apply H; lia). reflexivity.
Qed.

Lemma entries_upto_filter now l l' n :
  (forall i, (i < n)%nat ->
     chain l' (Z.of_nat i) = List.filter (fresh now) (chain l (Z.of_nat i))) ->
  entries_upto l' n = List.filter (fresh now) (entries_upto l n).
Proof.
  induction n as [|n IH]; intros H; [reflexivity|].
  rewrite !entries_upto_S, List.filter_app, IH, H by (intros; try apply H; lia).
  reflexivity.
Qed.

(** The sweep over the first [n] buckets. *)
Lemma cleanup_fold now l n :
  let res := fold_left (cleanup_bucket now) (seq 0 n) (l, 0) in
  (forall idx, chain res.1 idx
     = if decide (0 <= idx < Z.of_nat n)
       then List.filter (fresh now) (chain l idx) else chain l idx) /\
  (Z.of_nat (length (entries_upto l n)) <= INT_MAX ->
   res.2 = Z.of_nat (length (entries_upto l n))
           - Z.of_nat (length (List.filter (fresh now) (entries_upto l n)))).
Proof.
  induction n as [|n IH]; cbv zeta.
  - cbn. split; [|intros _; reflexivity].
    intros idx. destruct (decide _); [lia | reflexivity].
  - rewrite seq_S, fold_left_app. cbn [fold_left Nat.add].
    cbv zeta in IH. destruct IH as [IHc IHn].
    destruct (fold_left (cleanup_bucket now) (seq 0 n) (l, 0)) as [ln cn].
    cbn [fst snd] in IHc, IHn. unfold cleanup_bucket.
    assert (Hn : chain ln (Z.of_nat n) = chain l (Z.of_nat n)).
    { rewrite IHc. destruct (decide _); [lia | reflexivity]. }
    rewrite Hn.
    pose proof (cleanup_chain_keeps now (chain l (Z.of_nat n)) cn) as Hk.
    pose proof (cleanup_chain_count now (chain l (Z.of_nat n)) cn) as Hcnt.
    destruct (cleanup_chain now (chain l (Z.of_nat n)) cn) as [es c].
    cbn [fst snd] in *. subst es. split.
    + intros idx. rewrite chain_store.
      destruct (decide (Z.of_nat n = idx)) as [<-|Hne].
      * destruct (decide _); [reflexivity | lia].
      * rewrite IHc. destruct (decide (0 <= idx < Z.of_nat n));
          destruct (decide (0 <= idx < Z.of_nat (S n))); try reflexivity; lia.
    + rewrite entries_upto_S, List.filter_app, !length_app, !Nat2Z.inj_add.
      intros Hmax.
      pose proof (filter_length_le (fresh now) (entries_upto l n)).
      rewrite Hcnt; rewrite IHn by lia; lia.
Qed.

Lemma rate_limiter_cleanup_keeps_fresh_chains now l :
  (forall idx, 0 <= idx < HASH_SIZE ->
     chain (rate_limiter_cleanup now l).1 idx
     = List.filter (fresh now) (chain l idx)) /\
  all_entries (rate_limiter_cleanup now l).1 = List.filter (fresh now) (all_entries l).
Proof.
  destruct (cleanup_fold now l (Z.to_nat HASH_SIZE)) as [Hc _].
  fold (rate_limiter_cleanup now l) in Hc.
  assert (Hin : forall idx, 0 <= idx < HASH_SIZE ->
            chain (rate_limiter_cleanup now l).1 idx
            = List.filter (fresh now) (chain l idx)).
  { intros idx Hidx. rewrite Hc. unfold HASH_SIZE in *.
    destruct (decide _); [reflexivity | lia]. }
  split; [exact Hin|].
  apply (entries_upto_filter now l). intros i Hi. apply Hin.
  unfold HASH_SIZE in *. lia.
Qed.

(** X10.  [rate_limiter_cleanup] keeps exactly the entries updated within
    the last 300 seconds, each chain in its order, and returns the number
    of entries it removed (for a table of at most [INT_MAX] entries). *)
Theorem rate_limiter_cleanup_keeps_fresh now l :
  (forall idx, 0 <= idx < HASH_SIZE ->
     chain (rate_limiter_cleanup now l).1 idx
     = List.filter (fresh now) (chain l idx)) /\
  all_entries (rate_limiter_cleanup now l).1 = List.filter (fresh now) (all_entries l) /\
  (Z.of_nat (length (all_entries l)) <= INT_MAX ->
   (rate_limiter_cleanup now l).2
   = Z.of_nat (length (all_entries l))
     - Z.of_nat (length (all_entries (rate_limiter_cleanup now l).1))).
Proof.
  destruct (rate_limiter_cleanup_keeps_fresh_chains now l) as [Hin Hall].
  destruct (cleanup_fold now l (Z.to_nat HASH_SIZE)) as [_ Hn].
  fold (rate_limiter_cleanup now l) in Hn.
  split; [exact Hin|]. split; [exact Hall|].
  intros Hmax. rewrite Hall. apply Hn. exact Hmax.
Qed.

(** *** Window entries and the cleanup *)

Lemma window_admit_keeps l e :
  key (window_admit l e).1 = key e /\
  last_update (window_admit l e).1 = last_update e /\
  tokens (window_admit l e).1 = tokens e.
Proof.
  unfold window_admit. destruct (dlt _ _); cbn; repeat split.
Qed.

Lemma fixed_window_allow_keeps l e now :
  key (fixed_window_allow l e now).1 = key e /\
  last_update (fixed_window_allow l e now).1 = last_update e /\
  tokens (fixed_window_allow l e now).1 = tokens e.
Proof.
  unfold fixed_window_allow. destruct (_ <=? _); [|apply window_admit_keeps].
  apply (window_admit_keeps l
           {| key := key e; tokens := tokens e; window_count := 0;
              window_start := now; last_update := last_update e |}).
Qed.

Lemma sliding_window_allow_keeps l e now e' ok :
  sliding_window_allow l e now = Some (e', ok) ->
  key e' = key e /\ last_update e' = last_update e /\ tokens e' = tokens e.
Proof.
  unfold sliding_window_allow. destruct (_ <=? _).
  - destruct (weighted_count l e now) as [c|]; [|discriminate].
    intros [= H]. pose proof (window_admit_keeps l
      {| key := key e; tokens := tokens e; window_count := c;
         window_start := now; last_update := last_update e |}) as K.
    rewrite H in K. exact K.
  - intros [= H]. pose proof (window_admit_keeps l e) as K. rewrite H in K. exact K.
Qed.

(** Replacing an entry by one of the same key does not move a lookup. *)
Lemma find_entry_insert es k : forall pos e e',
  find_entry es k = Some pos -> es !! pos = Some e -> key e' = key e ->
  find_entry (<[pos := e']> es) k = Some pos.
Proof.
  induction es as [|e0 rest IH]; intros pos e e' Hf Hl Hk; [discriminate|].
  cbn [find_entry] in Hf. destruct (String.eqb (key e0) k) eqn:E.
  - injection Hf as <-. cbn in Hl. injection Hl as ->. cbn. rewrite Hk, E. reflexivity.
  - destruct (find_entry rest k) as [p|] eqn:Hp; [|discriminate].
    cbn in Hf. injection Hf as <-. cbn in Hl.
    change (<[S p := e']> (e0 :: rest)) with (e0 :: <[p := e']> rest).
    cbn [find_entry]. rewrite E, (IH p e e' eq_refl Hl Hk). reflexivity.
Qed.

Lemma find_entry_bound es k : forall pos,
  find_entry es k = Some pos -> (pos < length es)%nat.
Proof.
  induction es as [|e0 rest IH]; intros pos Hf; [discriminate|].
  cbn [find_entry] in Hf. destruct (String.eqb (key e0) k).
  - injection Hf as <-. cbn. lia.
  - destruct (find_entry rest k) as [p|] eqn:Hp; [|discriminate].
    cbn in Hf. injection Hf as <-. specialize (IH p eq_refl). cbn. lia.
Qed.

(** What [rate_limiter_allow] does to the entry of a known key under a
    window algorithm: it may count the request, it does not touch
    [last_update]. *)
Lemma allow_window_keeps_last_update l k clk a l' r e :
  algorithm l <> RATE_TOKEN_BUCKET ->
  lookup_entry l k = Some e ->
  rate_limiter_allow l k clk a = Some (l', r) ->
  exists e', lookup_entry l' k = Some e' /\ last_update e' = last_update e.
Proof.
  intros Halg Hl. unfold lookup_entry in Hl.
  destruct (find_entry (chain l (hash_key k)) k) as [pos|] eqn:Hf; [|discriminate].
  unfold rate_limiter_allow.
  destruct (roll_global_window_keeps l (t_global clk)) as (Ea & _ & _ & _ & Ek & _).
  set (l1 := roll_global_window l (t_global clk)) in *.
  assert (Ec : chain l1 (hash_key k) = chain l (hash_key k))
    by (unfold chain; rewrite Ek; reflexivity).
  destruct (over_global_cap l1).
  - intros [= <- <-]. exists e. split; [|reflexivity].
    unfold lookup_entry. replace (chain (set_counters l1 _ _ _ _) (hash_key k))
      with (chain l (hash_key k)) by (rewrite <- Ec; reflexivity).
    rewrite Hf. exact Hl.
  - unfold find_or_create_entry. rewrite Ec, Hf, Ec, Hl.
    assert (Hstep : forall (e' : RateEntry) (ok : bool),
      key e' = key e -> last_update e' = last_update e ->
      exists e'',
        lookup_entry
          (if ok
           then set_counters
                  (set_buckets l1 (<[hash_key k := <[pos := e']> (chain l (hash_key k))]>
                                     (buckets l1)))
                  (wrap_long (global_count l1 + 1)) (global_window_start l1)
                  (wrap_ulong (allowed l1 + 1)) (denied l1)
           else set_counters
                  (set_buckets l1 (<[hash_key k := <[pos := e']> (chain l (hash_key k))]>
                                     (buckets l1)))
                  (global_count l1) (global_window_start l1)
                  (allowed l1) (wrap_ulong (denied l1 + 1))) k = Some e'' /\
        last_update e'' = last_update e).
    { intros e' ok Hk Hu. exists e'. split; [|exact Hu].
      assert (Hch : forall l3, buckets l3
                = <[hash_key k := <[pos := e']> (chain l (hash_key k))]> (buckets l1) ->
                lookup_entry l3 k = Some e').
      { intros l3 Hb. unfold lookup_entry, chain. rewrite Hb, lookup_insert_eq. cbn.
        rewrite (find_entry_insert _ k pos e e' Hf Hl Hk).
        apply list_lookup_insert_eq. apply (find_entry_bound _ k). exact Hf. }
      destruct ok; apply Hch; reflexivity. }
    destruct (algorithm l1) eqn:Ealg; [congruence| |].
    + destruct (sliding_window_allow l1 e (t_allow clk)) as [[e' ok]|] eqn:Es;
        [|discriminate].
      destruct (sliding_window_allow_keeps _ _ _ _ _ Es) as (Hk & Hu & _).
      intros [= <- <-]. cbn [buckets set_buckets]. apply Hstep; assumption.
    + destruct (fixed_window_allow_keeps l1 e (t_allow clk)) as (Hk & Hu & _).
      destruct (fixed_window_allow l1 e (t_allow clk)) as [e' ok]. cbn [fst] in Hk, Hu.
      intros [= <- <-]. cbn [buckets set_buckets]. apply Hstep; assumption.
Qed.

Lemma lookup_entry_in l k e :
  lookup_entry l k = Some e -> In e (all_entries l).
Proof.
  unfold lookup_entry. destruct (find_entry _ _) as [pos|]; [|discriminate].
  intros Hl. unfold all_entries. apply in_flat_map.
  exists (Z.to_nat (hash_key k)). pose proof (hash_key_range k) as Hr. split.
  - apply in_seq. unfold HASH_SIZE in *. lia.
  - rewrite Z2Nat.id by lia. apply list_elem_of_In, list_elem_of_lookup. eauto.
Qed.

(** X11.  Under the sliding and the fixed window a request never
    refreshes [last_update], so an entry is cleaned up 300 seconds after
    its creation however busy the key is: a cleanup in the very second of
    a request removes the entry that request used. *)
Theorem window_entry_expires_in_use l k now a l' r e :
  algorithm l <> RATE_TOKEN_BUCKET ->
  lookup_entry l k = Some e ->
  CLEANUP_EXPIRY < now - last_update e <= LONG_MAX ->
  rate_limiter_allow l k (steady now) a = Some (l', r) ->
  exists e',
    lookup_entry l' k = Some e' /\ last_update e' = last_update e /\
    ~ In e' (all_entries (rate_limiter_cleanup now l').1).
Proof.
  intros Halg Hl Hold Hcall.
  destruct (allow_window_keeps_last_update l k (steady now) a l' r e Halg Hl Hcall)
    as (e' & Hl' & Hu).
  exists e'. split; [exact Hl'|]. split; [exact Hu|].
  destruct (rate_limiter_cleanup_keeps_fresh_chains now l') as [_ Hall].
  rewrite Hall. intros Hin. apply filter_In in Hin as [_ Hfresh].
  unfold fresh, expired in Hfresh. rewrite Hu in Hfresh.
  rewrite wrap_long_id in Hfresh by (unfold LONG_MIN, LONG_MAX, CLEANUP_EXPIRY in *; lia).
  destruct (Z.ltb_spec CLEANUP_EXPIRY (now - last_update e)); [discriminate | lia].
Qed.

Lemma window_entry_expires_in_use_witness :
  exists l' r e',
    rate_limiter_allow fixed_10_5_in_use "203.0.113.7" (steady 1700000301) true
    = Some (l', r) /\
    lookup_entry l' "203.0.113.7" = Some e' /\
    ~ In e' (all_entries (rate_limiter_cleanup 1700000301 l').1).
Proof.
  eassert (Hcall : rate_limiter_allow fixed_10_5_in_use "203.0.113.7"
                     (steady 1700000301) true = Some (_, _))
    by (vm_compute; reflexivity).
  eassert (Hl : lookup_entry fixed_10_5_in_use "203.0.113.7" = Some _)
    by (vm_compute; reflexivity).
  destruct (window_entry_expires_in_use fixed_10_5_in_use "203.0.113.7" 1700000301
              true _ _ _ ltac:(vm_compute; discriminate) Hl
              ltac:(vm_compute; split; [reflexivity | discriminate]) Hcall)
    as (e' & H1 & _ & H2).
  eexists _, _, e'. split; [exact Hcall|]. split; assumption.
Defined.

(** *** The remaining quota *)

Lemma remaining_in_none l es k :
  find_entry es k = None -> remaining_in l es k = burst l.
Proof.
  induction es as [|e rest IH]; cbn [find_entry remaining_in]; [reflexivity|].
  destruct (String.eqb (key e) k); [discriminate|].
  destruct (find_entry rest k); [discriminate|]. intros _. apply IH. reflexivity.
Qed.

(** No time elapsed: the refill adds [0 * rate], a zero, and leaves a
    full bucket of at least 1.0 as it is. *)
Lemma refill_same_second l e now :
  dle d_one (burst l) = true -> tokens e = burst l ->
  d_finite (rate l) = true -> last_update e = now ->
  refill l e now = burst l.
Proof.
  intros H1 Ht Hr Hu. unfold refill, difftime. rewrite Hu, Z.sub_diag, Ht.
  change (double_of_Z 0) with (S754_zero false).
  assert (E : dadd (burst l) (dmul (S754_zero false) (rate l)) = burst l).
  { destruct (rate l) as [s|s| |s m e']; try discriminate;
      destruct (dle_one_positive _ H1) as [-> | (mb & eb & ->)]; reflexivity. }
  rewrite E, dlt_irrefl. reflexivity.
Qed.

(** C10, refuted as stated: with [burst >= 1.0], a key without entry and
    no global limit, the first call is denied when the rate is infinite
    ([0 * inf] is a NaN, which is not [>= 1.0]), when the rate is
    negative and the clock ticks between the creation of the entry and
    the refill, and when the clock is set back between the two. *)
Lemma first_allow_denied :
  (* an infinite rate, the clock standing still *)
  (rate_limiter_create RATE_TOKEN_BUCKET (S754_infinity false) (double_of_Z 10)
   = Some bucket_inf_10 /\
   dle d_one (burst bucket_inf_10) = true /\
   no_entry bucket_inf_10 "203.0.113.7" /\
   passes_global_cap bucket_inf_10 (steady 1700000000) /\
   snd <$> rate_limiter_allow bucket_inf_10 "203.0.113.7" (steady 1700000000) true
   = Some 0) /\
  (* a negative rate, the clock ticking once *)
  (rate_limiter_create RATE_TOKEN_BUCKET (double_of_Z (-1)) (double_of_Z 1)
   = Some (token_bucket (-1) 1) /\
   dle d_one (burst (token_bucket (-1) 1)) = true /\
   snd <$> rate_limiter_allow (token_bucket (-1) 1) "203.0.113.7"
             {| t_global := 1700000000; t_created := 1700000000;
                t_window := 1700000000; t_allow := 1700000001 |} true
   = Some 0) /\
  (* a clock set back by a second *)
  (rate_limiter_create RATE_TOKEN_BUCKET (double_of_Z 1) (double_of_Z 1)
   = Some (token_bucket 1 1) /\
   dle d_one (burst (token_bucket 1 1)) = true /\
   snd <$> rate_limiter_allow (token_bucket 1 1) "203.0.113.7"
             {| t_global := 1700000000; t_created := 1700000000;
                t_window := 1700000000; t_allow := 1699999999 |} true
   = Some 0).
Proof. repeat split; vm_compute; reflexivity. Qed.

(** C10, amended: in token-bucket mode with [burst >= 1.0] and a
    [rate] that is a number and not negative, the first
    [rate_limiter_allow] for a key without an entry that gets past the
    global cap, with a clock that does not go backwards between the
    creation of the entry and the refill, returns 1 and denies nothing.
    With memory the entry is created with [tokens = burst] at the head
    of the key's chain, the refill leaves at least 1.0, the call takes
    exactly one token from it ([burst - 1.0] when the clock did not
    tick) and counts one more allowed request; without memory the call
    returns 1 and leaves table and counters alone. *)
Theorem first_allow_admitted l k clk alloc_ok :
  algorithm l = RATE_TOKEN_BUCKET ->
  valid (burst l) = true -> valid (rate l) = true ->
  dle d_one (burst l) = true ->
  d_finite (rate l) = true -> dle d_zero (rate l) = true ->
  no_entry l k ->
  passes_global_cap l clk ->
  0 <= t_allow clk - t_created clk <= LONG_MAX ->
  exists l',
    rate_limiter_allow l k clk alloc_ok = Some (l', 1) /\
    denied l' = denied l /\
    if alloc_ok then
      exists e',
        chain l' (hash_key k) = e' :: chain l (hash_key k) /\
        key e' = substring 0 63 k /\
        dle d_one (refill l (new_entry l k clk) (t_allow clk)) = true /\
        tokens e' = dsub (refill l (new_entry l k clk) (t_allow clk)) d_one /\
        (t_allow clk = t_created clk -> tokens e' = dsub (burst l) d_one) /\
        last_update e' = t_allow clk /\
        allowed l' = wrap_ulong (allowed l + 1)
    else buckets l' = buckets l /\ allowed l' = allowed l.
Proof.
  intros Halg Vb Vr Hb Fr Hr Hno Hcap Hclk. unfold rate_limiter_allow.
  unfold passes_global_cap in Hcap. rewrite Hcap.
  destruct (roll_global_window_keeps l (t_global clk))
    as (Ea & Er & Eb & Ew & Ek & Eg & Eal & Ede).
  set (l1 := roll_global_window l (t_global clk)) in *.
  unfold find_or_create_entry.
  assert (Ec : chain l1 (hash_key k) = chain l (hash_key k))
    by (unfold chain; rewrite Ek; reflexivity).
  rewrite Ec. unfold no_entry in Hno. rewrite Hno.
  destruct alloc_ok.
  2:{ exists l1. split; [reflexivity|]. split; [exact Ede|]. split; assumption. }
  rewrite Eb. fold (new_entry l k clk).
  set (l2 := set_buckets l1 _).
  assert (Ec2 : chain l2 (hash_key k) = new_entry l k clk :: chain l (hash_key k)).
  { unfold l2. rewrite chain_insert. destruct (decide _); [reflexivity | contradiction]. }
  rewrite Ec2. cbn [lookup list_lookup].
  replace (algorithm l2) with RATE_TOKEN_BUCKET by (simpl; congruence).
  rewrite (token_bucket_allow_ext l l2) by (simpl; assumption).
  assert (Hrefill : dle d_one (refill l (new_entry l k clk) (t_allow clk)) = true).
  { apply refill_full_bucket; try assumption; reflexivity. }
  unfold token_bucket_allow. rewrite Hrefill.
  eexists. split; [reflexivity|].
  cbn [denied allowed set_counters set_buckets]. split; [exact Ede|].
  eexists. split.
  { unfold chain. cbn [buckets set_counters set_buckets].
    rewrite lookup_insert_eq. reflexivity. }
  cbn [key tokens last_update new_entry].
  split; [reflexivity|]. split; [reflexivity|]. split; [reflexivity|].
  split; [|split; [reflexivity | exact (f_equal (fun a => wrap_ulong (a + 1)) Eal)]].
  intros Hsame. f_equal. apply refill_same_second; try assumption; try reflexivity.
  symmetry. exact Hsame.
Qed.

Lemma first_allow_admitted_witness :
  exists l',
    rate_limiter_allow bucket_10_10 "203.0.113.7"
      {| t_global := 1700000000; t_created := 1700000000;
         t_window := 1700000000; t_allow := 1700000001 |} true
    = Some (l', 1) /\
    allowed l' = 1.
Proof.
  destruct (first_allow_admitted bucket_10_10 "203.0.113.7"
              {| t_global := 1700000000; t_created := 1700000000;
                 t_window := 1700000000; t_allow := 1700000001 |} true)
    as (l' & Hrun & _ & e' & _ & _ & _ & _ & _ & _ & Hal); try reflexivity.
  - unfold LONG_MAX. simpl. lia.
  - exists l'. split; [exact Hrun | exact Hal].
Defined.

(** X12.  [rate_limiter_remaining] around the first request of a key of
    at most 63 characters under the token bucket: before, the key is
    unknown and the answer is the full quota [burst]; after the request,
    admitted in the second the entry was created in, it is [burst - 1.0]. *)
Theorem remaining_after_first_allow l k now :
  algorithm l = RATE_TOKEN_BUCKET ->
  (String.length k <= 63)%nat ->
  no_entry l k -> passes_global_cap l (steady now) ->
  dle d_one (burst l) = true -> d_finite (rate l) = true ->
  rate_limiter_remaining l k = burst l /\
  exists l',
    rate_limiter_allow l k (steady now) true = Some (l', 1) /\
    rate_limiter_remaining l' k = dsub (burst l) d_one.
Proof.
  intros Halg Hlen Hno Hcap Hb Fr. split.
  - apply remaining_in_none. exact Hno.
  - destruct (allow_new_key_token_bucket l k (steady now) Halg Hno Hcap)
      as (l' & Hcall & Hbk & Ea & _ & _ & _).
    cbn [t_window t_created t_allow steady] in Hcall, Hbk.
    rewrite (substring_short 63 k Hlen) in Hcall, Hbk.
    set (entry := {| key := k; tokens := burst l; window_count := 0;
                     window_start := now; last_update := now |}) in *.
    assert (Hres : token_bucket_allow l entry now
                   = ({| key := k; tokens := dsub (burst l) d_one; window_count := 0;
                         window_start := now; last_update := now |}, true)).
    { unfold token_bucket_allow.
      rewrite (refill_same_second l entry now Hb eq_refl Fr eq_refl), Hb. reflexivity. }
    rewrite Hres in Hcall, Hbk. cbn [fst snd] in Hcall, Hbk.
    exists l'. split; [exact Hcall|].
    unfold rate_limiter_remaining, chain. rewrite Hbk, lookup_insert_eq.
    change (remaining_in l' ({| key := k; tokens := dsub (burst l) d_one;
                                window_count := 0; window_start := now;
                                last_update := now |} :: chain l (hash_key k)) k
            = dsub (burst l) d_one).
    cbn [remaining_in key tokens]. rewrite String.eqb_refl, Ea, Halg. reflexivity.
Qed.

Lemma remaining_after_first_allow_witness :
  rate_limiter_remaining bucket_10_10 "203.0.113.7" = burst bucket_10_10 /\
  exists l',
    rate_limiter_allow bucket_10_10 "203.0.113.7" (steady 1700000000) true
    = Some (l', 1) /\
    rate_limiter_remaining l' "203.0.113.7" = dsub (burst bucket_10_10) d_one.
Proof.
  apply (remaining_after_first_allow bucket_10_10 "203.0.113.7" 1700000000);
    try reflexivity.
  simpl. lia.
Defined.

(** *** Statistics *)

Lemma count_chain_length es : forall n,
  0 <= n -> n + Z.of_nat (length es) <= INT_MAX ->
  count_chain es n = n + Z.of_nat (length es).
Proof.
  unfold count_chain.
  induction es as [|e rest IH]; intros n Hn Hmax; cbn [fold_left length] in *; [lia|].
  rewrite IH; rewrite wrap_int_id by (unfold in_int, INT_MIN, INT_MAX in *; lia); lia.
Qed.

Lemma count_clients_upto l n :
  Z.of_nat (length (entries_upto l n)) <= INT_MAX ->
  fold_left (fun c i => count_chain (chain l (Z.of_nat i)) c) (seq 0 n) 0
  = Z.of_nat (length (entries_upto l n)).
Proof.
  induction n as [|n IH]; [reflexivity|].
  rewrite seq_S, fold_left_app, entries_upto_S, length_app, Nat2Z.inj_add.
  intros Hmax. cbn [fold_left Nat.add]. rewrite IH by lia.
  apply count_chain_length; lia.
Qed.

Lemma count_clients_length l :
  Z.of_nat (length (all_entries l)) <= INT_MAX ->
  count_clients l = Z.of_nat (length (all_entries l)).
Proof. apply count_clients_upto. Qed.

(** The table after one bucket was rewritten. *)
Lemma entries_upto_update l l' idx n :
  (forall j, j <> idx -> chain l' j = chain l j) ->
  Z.of_nat (length (entries_upto l' n))
  + (if decide (0 <= idx < Z.of_nat n) then Z.of_nat (length (chain l idx)) else 0)
  = Z.of_nat (length (entries_upto l n))
    + (if decide (0 <= idx < Z.of_nat n) then Z.of_nat (length (chain l' idx)) else 0).
Proof.
  intros Hother. induction n as [|n IH].
  - cbn. destruct (decide _); lia.
  - rewrite !entries_upto_S, !length_app, !Nat2Z.inj_add.
    destruct (decide (Z.of_nat n = idx)) as [<-|Hne].
    + destruct (decide (0 <= Z.of_nat n < Z.of_nat n)); [lia|].
      destruct (decide (0 <= Z.of_nat n < Z.of_nat (S n))); lia.
    + rewrite (Hother (Z.of_nat n) Hne).
      destruct (decide (0 <= idx < Z.of_nat n));
        destruct (decide (0 <= idx < Z.of_nat (S n))); lia.
Qed.

(** Whether the call creates an entry. *)
Lemma allow_chain_shape l k clk a l' r :
  rate_limiter_allow l k clk a = Some (l', r) ->
  (forall j, j <> hash_key k -> chain l' j = chain l j) /\
  Z.of_nat (length (chain l' (hash_key k)))
  = Z.of_nat (length (chain l (hash_key k)))
    + (if over_global_cap (roll_global_window l (t_global clk)) then 0
       else match find_entry (chain l (hash_key k)) k with
            | Some _ => 0
            | None => if a then 1 else 0
            end).
Proof.
  unfold rate_limiter_allow.
  destruct (roll_global_window_keeps l (t_global clk)) as (_ & _ & _ & _ & Ek & _).
  set (l1 := roll_global_window l (t_global clk)) in *.
  assert (Ec : forall j, chain l1 j = chain l j)
    by (intros j; unfold chain; rewrite Ek; reflexivity).
  assert (Hupd : forall (es : list RateEntry) (l3 : rate_limiter_t) (d : Z),
            buckets l3 = <[hash_key k := es]> (buckets l) ->
            Z.of_nat (length es) = Z.of_nat (length (chain l (hash_key k))) + d ->
            (forall j, j <> hash_key k -> chain l3 j = chain l j) /\
            Z.of_nat (length (chain l3 (hash_key k)))
            = Z.of_nat (length (chain l (hash_key k))) + d).
  { intros es l3 d Hb Hlen. split.
    - intros j Hj. unfold chain. rewrite Hb, lookup_insert_ne by congruence. reflexivity.
    - unfold chain at 1. rewrite Hb, lookup_insert_eq. exact Hlen. }
  destruct (over_global_cap l1).
  - intros [= <- <-]. split; [intros j _; apply (Ec j)|].
    rewrite Z.add_0_r. f_equal. f_equal. apply (Ec (hash_key k)).
  - unfold find_or_create_entry. rewrite (Ec (hash_key k)).
    destruct (find_entry (chain l (hash_key k)) k) as [pos|] eqn:Hf.
    + rewrite (Ec (hash_key k)).
      destruct (chain l (hash_key k) !! pos) as [e|]; [|discriminate].
      destruct (match algorithm l1 with
                | RATE_TOKEN_BUCKET => _ | RATE_SLIDING_WINDOW => _
                | RATE_FIXED_WINDOW => _ end) as [[e' ok]|]; [|discriminate].
      intros [= <- <-].
      apply (Hupd (<[pos := e']> (chain l (hash_key k)))).
      * destruct ok; cbn [buckets set_counters set_buckets]; rewrite Ek; reflexivity.
      * rewrite length_insert. lia.
    + destruct a.
      * set (entry := {| key := substring 0 63 k; tokens := burst l1; window_count := 0;
                         window_start := t_window clk; last_update := t_created clk |}).
        set (l2 := set_buckets l1 _).
        assert (Ec2 : chain l2 (hash_key k) = entry :: chain l (hash_key k)).
        { unfold l2. rewrite chain_insert.
          destruct (decide _); [reflexivity | contradiction]. }
        rewrite Ec2. cbn [lookup list_lookup].
        destruct (match algorithm l2 with
                  | RATE_TOKEN_BUCKET => _ | RATE_SLIDING_WINDOW => _
                  | RATE_FIXED_WINDOW => _ end) as [[e' ok]|]; [|discriminate].
        intros [= <- <-].
        apply (Hupd (e' :: chain l (hash_key k))).
        -- destruct ok; cbn [buckets set_counters set_buckets l2 list_insert insert];
             rewrite Ek; apply insert_insert_eq.
        -- cbn [length]. lia.
      * intros [= <- <-]. split; [intros j _; apply (Ec j)|].
        rewrite Z.add_0_r. f_equal. f_equal. apply (Ec (hash_key k)).
Qed.

(** X13.  [active_clients] of [rate_limiter_get_stats] counts the keys
    seen: a request adds one to it exactly when it gets past the global
    cap, its key has no entry and memory is available; a request for a
    known key, a capped one or one that finds no memory leaves it as it
    is (for a table below [INT_MAX] entries). *)
Theorem active_clients_counts_keys l k clk a l' r :
  Z.of_nat (length (all_entries l)) < INT_MAX ->
  rate_limiter_allow l k clk a = Some (l', r) ->
  active_clients (rate_limiter_get_stats l')
  = active_clients (rate_limiter_get_stats l)
    + (if over_global_cap (roll_global_window l (t_global clk)) then 0
       else match find_entry (chain l (hash_key k)) k with
            | Some _ => 0
            | None => if a then 1 else 0
            end).
Proof.
  intros Hmax Hcall. cbn [active_clients rate_limiter_get_stats].
  destruct (allow_chain_shape l k clk a l' r Hcall) as [Hother Hlen].
  pose proof (entries_upto_update l l' (hash_key k) (Z.to_nat HASH_SIZE) Hother) as Hupd.
  change (entries_upto l (Z.to_nat HASH_SIZE)) with (all_entries l) in Hupd.
  change (entries_upto l' (Z.to_nat HASH_SIZE)) with (all_entries l') in Hupd.
  pose proof (hash_key_range k) as Hr.
  destruct (decide (0 <= hash_key k < Z.of_nat (Z.to_nat HASH_SIZE))) as [_|Hn];
    [|unfold HASH_SIZE in *; lia].
  set (d := if over_global_cap _ then 0 else _) in *.
  assert (Hd : 0 <= d <= 1).
  { unfold d. destruct (over_global_cap _); [lia|].
    destruct (find_entry _ _); [lia|]. destruct a; lia. }
  rewrite !count_clients_length by lia. lia.
Qed.

Lemma active_clients_counts_keys_witness :
  exists l',
    rate_limiter_allow bucket_10_10 "203.0.113.7" (steady 1700000000) true
    = Some (l', 1) /\
    active_clients (rate_limiter_get_stats l')
    = active_clients (rate_limiter_get_stats bucket_10_10) + 1.
Proof.
  eassert (Hcall : rate_limiter_allow bucket_10_10 "203.0.113.7"
                     (steady 1700000000) true = Some (_, 1))
    by (vm_compute; reflexivity).
  eexists. split; [exact Hcall|].
  apply (active_clients_counts_keys bucket_10_10 "203.0.113.7" (steady 1700000000)
           true _ 1 ltac:(vm_compute; reflexivity) Hcall).
Defined.

End RateLimiterFacts.

(** * Facts on the event loop *)

Module EventLoopFacts.
Import EventLoop.

(** With callbacks that keep [max_fd] below [FD_SETSIZE] the dispatch loop
    ends within the iteration bound. *)
Lemma dispatch_returns invoke sel : forall fuel loop fd processed calls,
  handlers_bounded invoke ->
  max_fd loop < FD_SETSIZE -> fd <= FD_SETSIZE -> FD_SETSIZE - fd < Z.of_nat fuel ->
  exists r, dispatch fuel invoke sel loop fd processed calls = Some r.
Proof.
  induction fuel as [|fuel IH]; intros loop fd processed calls Hb Hm Hfd Hf; [lia|].
  cbn [dispatch].
  destruct ((fd <=? max_fd loop) && (processed <? sel_ready sel)) eqn:E;
    [|eexists; reflexivity].
  apply andb_true_iff in E as [E1 _]. apply Z.leb_le in E1.
  destruct (fd_data loop !! fd) as [data|]; [|apply IH; auto; lia].
  destruct (callback data) as [cb|]; [|apply IH; auto; lia].
  destruct (negb _); apply IH; auto; lia.
Qed.

(** Every dispatched callback is counted in [processed], which the loop
    keeps below what [select] returned. *)
Lemma dispatch_count invoke sel : forall fuel loop fd processed calls loop' calls',
  in_int (sel_ready sel) ->
  dispatch fuel invoke sel loop fd processed calls = Some (loop', calls') ->
  Z.of_nat (length calls) <= processed <= Z.max 0 (sel_ready sel) ->
  Z.of_nat (length calls') <= Z.max 0 (sel_ready sel).
Proof.
  induction fuel as [|fuel IH]; intros loop fd processed calls loop' calls' Hr;
    [discriminate|].
  cbn [dispatch].
  destruct ((fd <=? max_fd loop) && (processed <? sel_ready sel)) eqn:E.
  - apply andb_true_iff in E as [_ E2]. apply Z.ltb_lt in E2.
    destruct (fd_data loop !! fd) as [data|]; [|intros H ?; eapply IH; eauto].
    destruct (callback data) as [cb|]; [|intros H ?; eapply IH; eauto].
    destruct (negb _); [|intros H ?; eapply IH; eauto].
    intros H Hc. eapply IH; [exact Hr | exact H |].
    rewrite wrap_int_id by (unfold in_int, INT_MIN, INT_MAX in *; lia).
    rewrite length_app. simpl. lia.
  - intros [= <- <-]. lia.
Qed.

(** C7, refuted as stated: when [select] fails on a closed descriptor the
    call returns -1, which is not the number of callbacks it dispatched
    (none). *)
Lemma event_loop_run_error_return :
  event_loop_run quiet loop_fd3 1000 select_ebadf = Some (-1, [], loop_fd3).
Proof. vm_compute. reflexivity. Qed.

(** The return value on success is what [select] returned, the number of
    bits set in the three descriptor sets, while callbacks are dispatched
    once per descriptor: descriptor 3 found readable and writable makes the
    call return 2 after one callback. *)
Lemma event_loop_run_counts_bits :
  event_loop_run quiet loop_fd3 1000 select_fd3_rw
  = Some (2, [(3, Z.lor EVENT_READ EVENT_WRITE)], loop_fd3).
Proof. vm_compute. reflexivity. Qed.

(** C7, amended: [event_loop_run] always returns.  It returns 0, having
    dispatched no callback, when no descriptor is registered or when
    [select] is interrupted by a signal ([EINTR]); it returns -1, having
    dispatched no callback, when [select] fails otherwise; and when
    [select] succeeds the callbacks it dispatches are no more than the
    value it returns. *)
Theorem event_loop_run_result invoke loop timeout_ms sel :
  handlers_bounded invoke -> max_fd loop < FD_SETSIZE -> in_int (sel_ready sel) ->
  exists ret calls loop',
    event_loop_run invoke loop timeout_ms sel = Some (ret, calls, loop') /\
    (max_fd loop < 0 \/ (sel_ready sel < 0 /\ sel_errno sel = EINTR) ->
     ret = 0 /\ calls = [] /\ loop' = loop) /\
    (0 <= max_fd loop -> sel_ready sel < 0 -> sel_errno sel <> EINTR ->
     ret = -1 /\ calls = [] /\ loop' = loop) /\
    (0 <= max_fd loop -> 0 <= sel_ready sel -> Z.of_nat (length calls) <= ret).
Proof.
  intros Hb Hm Hr. unfold event_loop_run.
  destruct (Z.ltb_spec (max_fd loop) 0).
  { eexists _, _, _. split; [reflexivity|]. repeat split; auto; lia. }
  destruct (Z.ltb_spec (sel_ready sel) 0).
  { destruct (Z.eqb_spec (sel_errno sel) EINTR).
    - eexists _, _, _. split; [reflexivity|].
      split; [auto|]. split; [intros; congruence | intros; lia].
    - eexists _, _, _. split; [reflexivity|].
      split; [intros [? | [_ ?]]; [lia | congruence]|].
      split; [auto | intros; lia]. }
  destruct (dispatch_returns invoke sel (S (Z.to_nat FD_SETSIZE)) loop 0 0 [])
    as [[loop' calls] E]; auto.
  { unfold FD_SETSIZE. lia. }
  { unfold FD_SETSIZE. lia. }
  rewrite E. exists (sel_ready sel), calls, loop'. split; [reflexivity|].
  split; [intros [? | [? _]]; lia|]. split; [intros; lia|].
  intros _ _. pose proof (dispatch_count _ _ _ _ _ _ _ _ _ Hr E) as H1.
  simpl in H1. lia.
Qed.

Lemma event_loop_run_result_witness :
  exists ret calls loop',
    event_loop_run quiet loop_fd3 1000 select_fd3_rw = Some (ret, calls, loop') /\
    (max_fd loop_fd3 < 0 \/
     (sel_ready select_fd3_rw < 0 /\ sel_errno select_fd3_rw = EINTR) ->
     ret = 0 /\ calls = [] /\ loop' = loop_fd3) /\
    (0 <= max_fd loop_fd3 -> sel_ready select_fd3_rw < 0 ->
     sel_errno select_fd3_rw <> EINTR ->
     ret = -1 /\ calls = [] /\ loop' = loop_fd3) /\
    (0 <= max_fd loop_fd3 -> 0 <= sel_ready select_fd3_rw ->
     Z.of_nat (length calls) <= ret).
Proof.
  apply (event_loop_run_result quiet loop_fd3 1000 select_fd3_rw).
  - intros cb fd events ud loop H. exact H.
  - vm_compute. reflexivity.
  - vm_compute. split; discriminate.
Defined.

(** *** Registration *)

Lemma highest_below_spec (m : gmap Z event_data_t) : forall fuel i,
  i < Z.of_nat fuel ->
  (highest_below fuel m i = -1 /\ forall j, 0 <= j <= i -> m !! j = None) \/
  (0 <= highest_below fuel m i <= i /\ is_Some (m !! highest_below fuel m i) /\
   forall j, highest_below fuel m i < j <= i -> m !! j = None).
Proof.
  induction fuel as [|fuel IH]; intros i Hi; cbn [highest_below].
  - left. split; [reflexivity | intros; lia].
  - destruct (Z.ltb_spec i 0); [left; split; [reflexivity | intros; lia]|].
    destruct (m !! i) as [d|] eqn:E.
    + right. split; [lia|]. split; [rewrite E; eauto | intros; lia].
    + destruct (IH (i - 1) ltac:(lia)) as [[Hr Hn] | (Hr & Hs & Hn)].
      * left. split; [exact Hr|]. intros j Hj.
        destruct (decide (j = i)) as [->|]; [exact E | apply Hn; lia].
      * right. split; [lia|]. split; [exact Hs|]. intros j Hj.
        destruct (decide (j = i)) as [->|]; [exact E | apply Hn; lia].
Qed.

Lemma event_loop_add_tracks loop fd events cb ud :
  tracks_highest loop -> tracks_highest (event_loop_add loop fd events cb ud).2.
Proof.
  intros [Hr Ht Hb]. unfold event_loop_add.
  destruct (Z.ltb_spec fd 0); [split; assumption|].
  destruct (Z.leb_spec FD_SETSIZE fd); [split; assumption|]. cbn.
  split; cbn [fd_data max_fd].
  - intros j Hj. destruct (decide (j = fd)) as [->|Hne].
    + destruct (Z.ltb_spec (max_fd loop) fd); lia.
    + rewrite lookup_insert_ne in Hj by congruence. specialize (Hr j Hj).
      destruct (Z.ltb_spec (max_fd loop) fd); lia.
  - right. destruct (Z.ltb_spec (max_fd loop) fd).
    + rewrite lookup_insert_eq. eauto.
    + destruct Ht as [Ht|Ht]; [lia|].
      destruct (decide (max_fd loop = fd)) as [->|Hne].
      * rewrite lookup_insert_eq. eauto.
      * rewrite lookup_insert_ne by congruence. exact Ht.
  - destruct (Z.ltb_spec (max_fd loop) fd); lia.
Qed.

Lemma event_loop_mod_tracks loop fd events :
  tracks_highest loop -> tracks_highest (event_loop_mod loop fd events).2.
Proof.
  intros [Hr Ht Hb]. unfold event_loop_mod.
  destruct (Z.ltb_spec fd 0); [split; assumption|].
  destruct (Z.leb_spec FD_SETSIZE fd); [split; assumption|]. cbn.
  destruct (fd_data loop !! fd) as [data|] eqn:E; [|split; assumption].
  split; cbn [snd fd_data max_fd].
  - intros j Hj. apply Hr. destruct (decide (j = fd)) as [->|Hne].
    + rewrite E. eauto.
    + rewrite lookup_insert_ne in Hj by congruence. exact Hj.
  - destruct Ht as [Ht|Ht]; [left; exact Ht | right].
    destruct (decide (max_fd loop = fd)) as [->|Hne].
    + rewrite lookup_insert_eq. eauto.
    + rewrite lookup_insert_ne by congruence. exact Ht.
  - exact Hb.
Qed.

Lemma event_loop_del_tracks loop fd :
  tracks_highest loop -> tracks_highest (event_loop_del loop fd).2.
Proof.
  intros [Hr Ht Hb]. unfold event_loop_del.
  destruct (Z.ltb_spec fd 0); [split; assumption|].
  destruct (Z.leb_spec FD_SETSIZE fd); [split; assumption|]. cbn.
  assert (Hsub : forall j, is_Some (delete fd (fd_data loop) !! j) ->
                           j <> fd /\ is_Some (fd_data loop !! j)).
  { intros j Hj. destruct (decide (j = fd)) as [->|Hne].
    - rewrite lookup_delete_eq in Hj. destruct Hj; discriminate.
    - rewrite lookup_delete_ne in Hj by congruence. auto. }
  destruct (Z.eqb_spec fd (max_fd loop)) as [Hmax|Hmax].
  - destruct (highest_below_spec (delete fd (fd_data loop)) (Z.to_nat FD_SETSIZE) (fd - 1))
      as [[Hz Hn] | (Hz & Hs & Hn)]; [unfold FD_SETSIZE in *; lia | |].
    + split; cbn [fd_data max_fd]; rewrite Hz.
      * intros j Hj. destruct (Hsub j Hj) as [Hne Hj']. specialize (Hr j Hj').
        rewrite (Hn j) in Hj by lia. destruct Hj; discriminate.
      * left. reflexivity.
      * unfold FD_SETSIZE. lia.
    + split; cbn [fd_data max_fd].
      * intros j Hj. destruct (Hsub j Hj) as [Hne Hj']. specialize (Hr j Hj').
        destruct (Z_le_gt_dec j (highest_below (Z.to_nat FD_SETSIZE)
                                   (delete fd (fd_data loop)) (fd - 1))); [lia|].
        rewrite (Hn j) in Hj by lia. destruct Hj; discriminate.
      * right. exact Hs.
      * lia.
  - split; cbn [fd_data max_fd].
    + intros j Hj. apply Hr. apply (Hsub j Hj).
    + destruct Ht as [Ht|Ht]; [left; exact Ht | right].
      rewrite lookup_delete_ne by congruence. exact Ht.
    + exact Hb.
Qed.

Lemma event_loop_create_tracks requested : tracks_highest (event_loop_create requested).
Proof.
  split; cbn.
  - intros fd Hfd. rewrite lookup_empty in Hfd. destruct Hfd; discriminate.
  - left. reflexivity.
  - unfold FD_SETSIZE. lia.
Qed.

(** X2.  Through any sequence of [event_loop_add], [event_loop_mod] and
    [event_loop_del] calls on a new loop, valid or refused, [max_fd] is
    the highest registered descriptor, -1 when none is registered, and
    every registered descriptor lies in [0, FD_SETSIZE). *)
Theorem registration_tracks_highest requested ops :
  tracks_highest (apply_ops (event_loop_create requested) ops).
Proof.
  unfold apply_ops.
  pose proof (event_loop_create_tracks requested) as H0.
  revert H0. generalize (event_loop_create requested).
  induction ops as [|op rest IH]; intros loop Hl; cbn [fold_left]; [exact Hl|].
  apply IH. destruct op; cbn [apply_op].
  - apply event_loop_add_tracks. exact Hl.
  - apply event_loop_mod_tracks. exact Hl.
  - apply event_loop_del_tracks. exact Hl.
Qed.

(** X3.  Registering a descriptor that was not registered and removing
    it again gives back the loop as it was, [max_fd] included: the search
    of [event_loop_del] finds the previous highest descriptor. *)
Theorem add_del_round_trip loop fd events cb ud :
  tracks_highest loop -> 0 <= fd < FD_SETSIZE -> fd_data loop !! fd = None ->
  event_loop_add loop fd events cb ud
  = (0, (event_loop_add loop fd events cb ud).2) /\
  event_loop_del (event_loop_add loop fd events cb ud).2 fd = (0, loop).
Proof.
  intros [Hr Ht Hb] Hfd Hnone. unfold event_loop_add.
  destruct (Z.ltb_spec fd 0); [lia|].
  destruct (Z.leb_spec FD_SETSIZE fd); [lia|]. cbn [orb snd].
  split; [reflexivity|]. unfold event_loop_del. cbn [max_fd fd_data max_events].
  destruct (Z.ltb_spec fd 0); [lia|].
  destruct (Z.leb_spec FD_SETSIZE fd); [lia|]. cbn [orb].
  rewrite (delete_insert_id _ _ _ Hnone).
  assert (Hne : max_fd loop <> fd).
  { intros E. destruct Ht as [Ht|Ht]; [lia|]. rewrite E, Hnone in Ht.
    destruct Ht; discriminate. }
  f_equal. destruct loop as [me mf m]. cbn [max_fd fd_data max_events] in *. f_equal.
  destruct (Z.ltb_spec mf fd).
  - rewrite Z.eqb_refl.
    destruct (highest_below_spec m (Z.to_nat FD_SETSIZE) (fd - 1))
      as [[Hz Hn] | (Hz & Hs & Hn)]; [unfold FD_SETSIZE in *; lia | |].
    + rewrite Hz. destruct Ht as [Ht|Ht]; [lia|].
      specialize (Hr mf Ht). rewrite (Hn mf) in Ht by lia. destruct Ht; discriminate.
    + specialize (Hr _ Hs).
      destruct (Z_le_gt_dec mf (highest_below (Z.to_nat FD_SETSIZE) m (fd - 1))); [lia|].
      destruct Ht as [Ht|Ht]; [lia|].
      rewrite (Hn mf) in Ht by lia. destruct Ht; discriminate.
  - destruct (Z.eqb_spec fd mf); [lia | reflexivity].
Qed.

Lemma add_del_round_trip_witness :
  event_loop_del (event_loop_add loop_fd3 7 EVENT_READ (Some 1%nat) 0%nat).2 7
  = (0, loop_fd3).
Proof.
  apply (add_del_round_trip loop_fd3 7 EVENT_READ (Some 1%nat) 0%nat).
  - apply (event_loop_add_tracks (event_loop_create 0) 3 (Z.lor EVENT_READ EVENT_WRITE)
             (Some 0%nat) 0%nat (event_loop_create_tracks 0)).
  - unfold FD_SETSIZE. lia.
  - reflexivity.
Defined.

(** *** Dispatch *)

Lemma ascending_snoc xs : forall lo y,
  ascending lo xs -> Forall (fun x => x < y) xs -> lo <= y -> ascending lo (xs ++ [y]).
Proof.
  induction xs as [|x rest IH]; intros lo y Ha Hlt Hlo; cbn [ascending app] in *.
  - split; [exact Hlo | exact I].
  - destruct Ha as [H1 H2]. apply Forall_cons in Hlt as [Hx Hrest].
    split; [exact H1|]. apply IH; [exact H2 | exact Hrest | lia].
Qed.

Lemma dispatch_ascending invoke sel : forall fuel loop fd processed calls loop' calls',
  0 <= fd ->
  dispatch fuel invoke sel loop fd processed calls = Some (loop', calls') ->
  ascending 0 (map fst calls) -> Forall (fun c => c.1 < fd) calls ->
  Forall (fun c => c.2 = ready_events sel c.1 /\ c.2 <> 0) calls ->
  ascending 0 (map fst calls') /\
  Forall (fun c => c.2 = ready_events sel c.1 /\ c.2 <> 0) calls'.
Proof.
  induction fuel as [|fuel IH]; intros loop fd processed calls loop' calls' Hfd;
    [discriminate|].
  cbn [dispatch].
  assert (Hnext : Forall (fun c => c.1 < fd) calls -> Forall (fun c => c.1 < fd + 1) calls).
  { intros H. eapply Forall_impl; [exact H|]. intros c Hc. cbv beta in *. lia. }
  assert (Hskip : dispatch fuel invoke sel loop (fd + 1) processed calls
                  = Some (loop', calls') ->
                  ascending 0 (map fst calls) -> Forall (fun c => c.1 < fd) calls ->
                  Forall (fun c => c.2 = ready_events sel c.1 /\ c.2 <> 0) calls ->
                  ascending 0 (map fst calls') /\
                  Forall (fun c => c.2 = ready_events sel c.1 /\ c.2 <> 0) calls').
  { intros H Ha Hlt Hok.
    apply (IH loop (fd + 1) processed calls loop' calls' ltac:(lia) H Ha (Hnext Hlt) Hok). }
  destruct ((fd <=? max_fd loop) && (processed <? sel_ready sel)).
  - destruct (fd_data loop !! fd) as [data|]; [|exact Hskip].
    destruct (callback data) as [cb|]; [|exact Hskip].
    destruct (Z.eqb_spec (ready_events sel fd) 0) as [Hz|Hnz]; cbn [negb];
      [exact Hskip|].
    intros H Ha Hlt Hok. eapply IH; [|exact H| | |]; [lia | | |].
    + rewrite map_app. cbn [map fst]. apply ascending_snoc; [exact Ha | | exact Hfd].
      apply Forall_fmap. eapply Forall_impl; [exact Hlt|]. intros c Hc. exact Hc.
    + apply Forall_app. split; [apply Hnext; exact Hlt|].
      constructor; [cbn; lia | constructor].
    + apply Forall_app. split; [exact Hok|].
      constructor; [cbn; split; [reflexivity | exact Hnz] | constructor].
  - intros [= <- <-] Ha _ Hok. split; assumption.
Qed.

(** X1.  A successful [event_loop_run] returns what [select] returned,
    the number of bits set in the three descriptor sets and not the
    number of callbacks; whatever the callbacks do to the loop, they are
    called in strictly ascending order of descriptors, so at most once
    per descriptor, each with exactly the events [select] reported for
    its descriptor, of which there is at least one. *)
Theorem event_loop_run_dispatch_order invoke loop timeout_ms sel ret calls loop' :
  event_loop_run invoke loop timeout_ms sel = Some (ret, calls, loop') ->
  (0 <= max_fd loop -> 0 <= sel_ready sel -> ret = sel_ready sel) /\
  ascending 0 (map fst calls) /\
  Forall (fun c => c.2 = ready_events sel c.1 /\ c.2 <> 0) calls.
Proof.
  unfold event_loop_run.
  destruct (Z.ltb_spec (max_fd loop) 0).
  { intros [= <- <- <-]. split; [lia|]. split; [exact I | constructor]. }
  destruct (Z.ltb_spec (sel_ready sel) 0).
  { destruct (sel_errno sel =? EINTR); intros [= <- <- <-];
      (split; [lia|]; split; [exact I | constructor]). }
  destruct (dispatch _ invoke sel loop 0 0 []) as [[l' cs]|] eqn:E; [|discriminate].
  intros [= <- <- <-]. split; [reflexivity|].
  apply (dispatch_ascending invoke sel (S (Z.to_nat FD_SETSIZE)) loop 0 0 [] l' cs);
    [lia | exact E | exact I | constructor | constructor].
Qed.

Lemma event_loop_run_dispatch_order_witness :
  (0 <= max_fd loop_fd3 -> 0 <= sel_ready select_fd3_rw -> 2 = sel_ready select_fd3_rw) /\
  ascending 0 (map fst [(3, Z.lor EVENT_READ EVENT_WRITE)]) /\
  Forall (fun c => c.2 = ready_events select_fd3_rw c.1 /\ c.2 <> 0)
         [(3, Z.lor EVENT_READ EVENT_WRITE)].
Proof.
  apply (event_loop_run_dispatch_order quiet loop_fd3 1000 select_fd3_rw 2
           [(3, Z.lor EVENT_READ EVENT_WRITE)] loop_fd3).
  vm_compute. reflexivity.
Defined.

Lemma dispatch_keeping invoke sel loop :
  keeps_registrations invoke -> sel_ready sel <= INT_MAX ->
  forall n fuel fd processed calls,
  0 <= processed -> (n < fuel)%nat ->
  Z.of_nat n = Z.max 0 (max_fd loop + 1 - fd) ->
  dispatch fuel invoke sel loop fd processed calls
  = Some (loop, calls ++ take (Z.to_nat (sel_ready sel - processed))
                             (due_list sel loop n fd)).
Proof.
  intros Hk Hmax.
  induction n as [|n IH]; intros fuel fd processed calls Hp Hfuel Hn;
    (destruct fuel as [|fuel]; [lia|]); cbn [dispatch due_list].
  - destruct (Z.leb_spec fd (max_fd loop)); [lia|]. cbn [andb].
    rewrite take_nil, app_nil_r. reflexivity.
  - destruct (Z.leb_spec fd (max_fd loop)); [|lia]. cbn [andb].
    destruct (Z.ltb_spec processed (sel_ready sel)) as [Hlt|Hge].
    + unfold due_at.
      destruct (fd_data loop !! fd) as [data|]; [|apply IH; lia].
      destruct (callback data) as [cb|]; [|apply IH; lia].
      destruct (negb (ready_events sel fd =? 0)); [|apply IH; lia].
      rewrite Hk, IH by (rewrite ?wrap_int_id
                           by (unfold in_int, INT_MIN, INT_MAX in *; lia); lia).
      rewrite wrap_int_id by (unfold in_int, INT_MIN, INT_MAX in *; lia).
      rewrite <- app_assoc. cbn [app]. f_equal. f_equal.
      replace (Z.to_nat (sel_ready sel - processed))
        with (S (Z.to_nat (sel_ready sel - (processed + 1)))) by lia.
      reflexivity.
    + replace (Z.to_nat (sel_ready sel - processed)) with O by lia.
      rewrite take_0, app_nil_r. reflexivity.
Qed.

(** X4.  With callbacks that leave the registrations alone, a
    successful [event_loop_run] calls, in ascending order, the first
    [ready] of the descriptors that are registered with a callback and
    for which [select] reported an event; when [ready] is at least their
    number, as the bit count of [select] is, none of them is skipped. *)
Theorem event_loop_run_serves_due invoke loop timeout_ms sel :
  keeps_registrations invoke ->
  0 <= max_fd loop < FD_SETSIZE -> 0 <= sel_ready sel <= INT_MAX ->
  event_loop_run invoke loop timeout_ms sel
  = Some (sel_ready sel, take (Z.to_nat (sel_ready sel)) (due sel loop), loop) /\
  (Z.of_nat (length (due sel loop)) <= sel_ready sel ->
   event_loop_run invoke loop timeout_ms sel = Some (sel_ready sel, due sel loop, loop)).
Proof.
  intros Hk Hm Hr.
  assert (E : event_loop_run invoke loop timeout_ms sel
              = Some (sel_ready sel, take (Z.to_nat (sel_ready sel)) (due sel loop), loop)).
  { unfold event_loop_run.
    destruct (Z.ltb_spec (max_fd loop) 0); [lia|].
    destruct (Z.ltb_spec (sel_ready sel) 0); [lia|].
    rewrite (dispatch_keeping invoke sel loop Hk ltac:(lia)
               (Z.to_nat (max_fd loop + 1)) _ 0 0 []);
      [| lia | unfold FD_SETSIZE in *; lia | lia].
    rewrite Z.sub_0_r. reflexivity. }
  split; [exact E|]. intros Hlen. rewrite E, take_ge by lia. reflexivity.
Qed.

Lemma event_loop_run_serves_due_witness :
  event_loop_run quiet loop_fd3_fd5 1000 select_fd3_fd5
  = Some (2, [(3, EVENT_READ); (5, EVENT_READ)], loop_fd3_fd5).
Proof.
  destruct (event_loop_run_serves_due quiet loop_fd3_fd5 1000 select_fd3_fd5) as [H _].
  - intros cb fd events ud loop. reflexivity.
  - vm_compute. split; [discriminate | reflexivity].
  - vm_compute. split; discriminate.
  - exact H.
Defined.

End EventLoopFacts.
